(** * do-s3: the S3 engine of the Durable Object, embedded in Rocq

    A shallow embedding of [S3] (the Durable Object class holding the SQLite
    tables [objects], [multipart_uploads] and [multipart_parts] and the set
    [webSocketClients]) and of [verifyToken].

    Conventions of the embedding.
    - A JavaScript string is the list of its UTF-16 code units
      ([jsstring]); [js "abc"] writes a literal.  SQLite compares TEXT with
      the BINARY collation, by the bytes of the UTF-8 encoding, which is
      the order of the code points: [str_compare] is this order, the
      lexicographic order of the code units with the surrogates (the
      halves of the code points above U+FFFF) after the other units.  A
      string with a lone surrogate has no UTF-8 encoding, and its place in
      the order is a convention of the embedding.  A path or a parameter
      of a URL never decodes to one; the code forms one only as the upper
      bound of a prefix that ends in 0xD7FF or 0xDFFF.  The statements on
      the order are for well-formed strings ([well_formed]) and for
      prefixes of which the bound is well-formed.
    - A JavaScript number that the code uses is an integer, an infinity or
      NaN.  An integer is its value in [Z], [Infinity] is [2 ^ 1024] (above
      every finite double) and NaN is [None] where the code can produce
      it; [to_double] rounds an integer to the nearest double, and the
      sums and products on numbers from the request are rounded with it.
    - A table is the list of its rows in insertion order; DELETE filters
      the list, INSERT appends and throws on a primary-key conflict, SELECT
      filters and sorts.
    - A method of the class is a computation in [M]: it reads and writes
      the store and either returns a value or throws.  What was written
      before a throw stays written, as in the code (the handlers catch
      exceptions themselves and open no transaction).
    - The header [x-amz-request-id] and the [RequestId] element (fresh
      random identifiers) are left out of responses. *)

From Stdlib Require Import List ZArith NArith Lia Bool Permutation Sorted.
From Stdlib Require String Ascii DecimalString.
Import String.StringSyntax.
Open Scope string_scope.
Import ListNotations.
Open Scope Z_scope.

(* ================================================================== *)
(** * Strings and bytes *)

Definition jsstring := list N.
Definition bytes := list Byte.byte.

Definition js (s : String.string) : jsstring :=
  map Ascii.N_of_ascii (String.list_ascii_of_string s).

Fixpoint str_eqb (a b : jsstring) : bool :=
  match a, b with
  | [], [] => true
  | x :: a', y :: b' => N.eqb x y && str_eqb a' b'
  | _, _ => false
  end.

(** The place of a code unit in the order of the code points.  A code
    point above U+FFFF is a pair of surrogates (0xD800 to 0xDFFF) and
    follows every code point of one unit, so the surrogates are placed
    after the units 0xE000 to 0xFFFF. *)
Definition unit_rank (c : N) : N :=
  (if c <? 0xD800 then c
   else if c <? 0xE000 then c + 0x2000
   else if c <? 0x10000 then c - 0x800
   else c)%N.

(** SQLite's [<], [>=], [ORDER BY] on TEXT (BINARY collation): the order
    of the UTF-8 bytes, that is of the code points. *)
Fixpoint str_compare (a b : jsstring) : comparison :=
  match a, b with
  | [], [] => Eq
  | [], _ :: _ => Lt
  | _ :: _, [] => Gt
  | x :: a', y :: b' =>
      match N.compare (unit_rank x) (unit_rank y) with
      | Eq => str_compare a' b'
      | c => c
      end
  end.

Definition is_high_surrogate (c : N) : bool :=
  ((0xD800 <=? c) && (c <? 0xDC00))%N.
Definition is_low_surrogate (c : N) : bool :=
  ((0xDC00 <=? c) && (c <? 0xE000))%N.

(** A string of code units below 0x10000 in which every surrogate belongs
    to a pair: the strings that have a UTF-8 encoding. *)
Fixpoint well_formed (s : jsstring) : bool :=
  match s with
  | [] => true
  | c :: s' =>
      if is_high_surrogate c then
        match s' with
        | d :: s'' => is_low_surrogate d && well_formed s''
        | [] => false
        end
      else negb (is_low_surrogate c) && (c <? 0x10000)%N && well_formed s'
  end.

Definition str_ltb (a b : jsstring) : bool :=
  match str_compare a b with Lt => true | _ => false end.
Definition str_leb (a b : jsstring) : bool :=
  match str_compare a b with Gt => false | _ => true end.

(** [s.startsWith(p)] *)
Fixpoint startsWith (s p : jsstring) : bool :=
  match p, s with
  | [], _ => true
  | _ :: _, [] => false
  | y :: p', x :: s' => N.eqb x y && startsWith s' p'
  end.

(** [s.endsWith(p)] *)
Definition endsWith (s p : jsstring) : bool :=
  startsWith (rev s) (rev p).

Definition len {A} (l : list A) : Z := Z.of_nat (List.length l).

(** Relative index of [slice]/[splice]: negative counts from the end, the
    result is clamped to [0 .. n]. *)
Definition rel_index (n i : Z) : Z :=
  if i <? 0 then Z.max (n + i) 0 else Z.min i n.

(** [a.slice(start, end)] on strings, arrays and typed arrays. *)
Definition slice {A} (l : list A) (start stop : Z) : list A :=
  let from := rel_index (len l) start in
  let to := rel_index (len l) stop in
  firstn (Z.to_nat (to - from)) (skipn (Z.to_nat from) l).

(** [a.slice(start)] *)
Definition slice_from {A} (l : list A) (start : Z) : list A :=
  slice l start (len l).

(** [s.indexOf(p)]: the first position at which [p] occurs, [-1] if none. *)
Fixpoint indexOf_from (s p : jsstring) (i : Z) : Z :=
  if startsWith s p then i
  else match s with
       | [] => -1
       | _ :: s' => indexOf_from s' p (i + 1)
       end.
Definition indexOf (s p : jsstring) : Z := indexOf_from s p 0.

(** [s.lastIndexOf(p)] for a one-unit [p]: the last position, [-1] if none. *)
Fixpoint lastIndexOf_from (s : jsstring) (c : N) (i : Z) (found : Z) : Z :=
  match s with
  | [] => found
  | x :: s' => lastIndexOf_from s' c (i + 1) (if N.eqb x c then i else found)
  end.
Definition lastIndexOf (s : jsstring) (c : N) : Z := lastIndexOf_from s c 0 (-1).

(** [s.charCodeAt(i)]; [None] is NaN (index out of range). *)
Definition charCodeAt (s : jsstring) (i : Z) : option Z :=
  if (0 <=? i) && (i <? len s)
  then option_map Z.of_N (nth_error s (Z.to_nat i))
  else None.

(** [String.fromCharCode(c)]: ToUint16 of the argument, NaN giving 0. *)
Definition fromCharCode (c : option Z) : jsstring :=
  match c with
  | Some z => [Z.to_N (z mod 65536)]
  | None => [0%N]
  end.

(** [c + 1] on a number that may be NaN. *)
Definition plus1 (c : option Z) : option Z := option_map (fun z => z + 1) c.

(** [s.split(sep)] for a one-unit separator. *)
Fixpoint split_on (c : N) (s : jsstring) : list jsstring :=
  match s with
  | [] => [[]]
  | x :: s' =>
      if N.eqb x c then [] :: split_on c s'
      else match split_on c s' with
           | [] => [[x]]
           | w :: ws => (x :: w) :: ws
           end
  end.

Definition slash : N := 47%N.
Definition dot : N := 46%N.

(** A string is truthy when it is not empty. *)
Definition nonempty (s : jsstring) : bool :=
  match s with [] => false | _ => true end.

(** [a || b] on strings. *)
Definition str_or (a b : jsstring) : jsstring := if nonempty a then a else b.

(** [n.toString()] for an integer [n]. *)
Definition number_toString (n : Z) : jsstring :=
  js (DecimalString.NilZero.string_of_int (Z.to_int n)).

(** ASCII whitespace: tab, line feed, vertical tab, form feed, carriage
    return and space. *)
Definition is_blank (c : N) : bool :=
  (N.eqb c 32 || ((9 <=? c) && (c <=? 13)))%N.

(** The numbers of JavaScript.  [Infinity] stands above every finite
    double; [to_double z] is the double nearest to the integer [z] (ties
    to the even mantissa of 53 bits), [Infinity] or [- Infinity] from
    [2 ^ 1024 - 2 ^ 970] on. *)
Definition Infinity : Z := 2 ^ 1024.
Definition MAX_SAFE_INTEGER : Z := 2 ^ 53 - 1.

Definition to_double (z : Z) : Z :=
  let a := Z.abs z in
  if a <? 2 ^ 53 then z
  else
    let e := Z.log2 a - 52 in
    let q := Z.shiftr a e in
    let r := a - Z.shiftl q e in
    let half := Z.shiftl 1 (e - 1) in
    let q' := if (half <? r) || ((half =? r) && Z.odd q) then q + 1 else q in
    let m := Z.min (Z.shiftl q' e) Infinity in
    if z <? 0 then - m else m.

(** [a + b] and [a * b] on numbers. *)
Definition js_add (a b : Z) : Z := to_double (a + b).
Definition js_mul (a b : Z) : Z := to_double (a * b).

(** The white space that [parseInt] skips: the WhiteSpace and
    LineTerminator code points of ECMAScript. *)
Definition is_white_space (c : N) : bool :=
  (is_blank c
   || N.eqb c 0xA0 || N.eqb c 0x1680
   || ((0x2000 <=? c) && (c <=? 0x200A))
   || N.eqb c 0x2028 || N.eqb c 0x2029 || N.eqb c 0x202F
   || N.eqb c 0x205F || N.eqb c 0x3000 || N.eqb c 0xFEFF)%N.

Fixpoint skip_white_space (s : jsstring) : jsstring :=
  match s with
  | c :: s' => if is_white_space c then skip_white_space s' else s
  | [] => []
  end.

(** The value of a digit or letter as a digit of a radix up to 36. *)
Definition digit_value (c : N) : option Z :=
  if ((48 <=? c) && (c <=? 57))%N then Some (Z.of_N c - 48)
  else if ((97 <=? c) && (c <=? 122))%N then Some (Z.of_N c - 87)
  else if ((65 <=? c) && (c <=? 90))%N then Some (Z.of_N c - 55)
  else None.

(** The digits of the radix up to the first other unit; [None] when there
    is none. *)
Fixpoint parse_digits (radix : Z) (s : jsstring) (acc : option Z) : option Z :=
  match s with
  | c :: s' =>
      match digit_value c with
      | Some d =>
          if d <? radix
          then parse_digits radix s'
                 (Some (radix * match acc with Some a => a | None => 0 end + d))
          else acc
      | None => acc
      end
  | [] => acc
  end.

(** [parseInt(s)] without a radix: leading white space, an optional sign,
    the prefix [0x] or [0X] for radix 16, then the digits up to the first
    other unit; [None] (NaN) when there is no digit.  The result is a
    number: the integer read, rounded to the nearest double. *)
Definition parseInt (s : jsstring) : option Z :=
  let s := skip_white_space s in
  let '(sign, s) :=
    match s with
    | 45%N :: s' => (-1, s')
    | 43%N :: s' => (1, s')
    | _ => (1, s)
    end in
  let mathInt :=
    match s with
    | 48%N :: 120%N :: s' => parse_digits 16 s' None
    | 48%N :: 88%N :: s' => parse_digits 16 s' None
    | _ => parse_digits 10 s None
    end in
  option_map (fun n => to_double (sign * n)) mathInt.

(* ================================================================== *)
(** * Key derivation *)

Definition CHUNK_SIZE : Z := 1024 * 1024.

(** [(key.match(/\//g) || []).length] *)
Definition computeDepth (key : jsstring) : Z :=
  len (filter (N.eqb slash) key).

Definition computeParent (key : jsstring) : jsstring :=
  let trimmed := if endsWith key (js "/") then slice key 0 (-1) else key in
  let lastSlash := lastIndexOf trimmed slash in
  if lastSlash =? -1 then [] else slice trimmed 0 (lastSlash + 1).

(* ================================================================== *)
(** * The platform *)

(** Values of [JSON.parse]. *)
#[warnings="-register-all"]
Inductive json :=
| JNull
| JBool (b : bool)
| JNum (z : Z)
| JStr (s : jsstring)
| JArr (items : list json)
| JObj (fields : list (jsstring * json)).

(** What the engine takes from the platform and from its libraries. *)
Class Runtime := {
  (** [crypto.subtle.digest("MD5", data)] rendered as lower-case hex *)
  MD5_hex : bytes -> jsstring;
  (** [new Date(s).toUTCString()] *)
  toUTCString : jsstring -> jsstring;
  (** [new Date(s).toISOString()], on the timestamps that the engine
      stored (themselves results of [toISOString], so it does not throw) *)
  toISOString : jsstring -> jsstring;
  (** [a.localeCompare(b)] *)
  localeCompare : jsstring -> jsstring -> Z;
  (** [decodeURIComponent(s)]; [None] when it throws URIError *)
  decodeURIComponent : jsstring -> option jsstring;
  (** [atob(s)]; [None] when it throws InvalidCharacterError *)
  atob : jsstring -> option jsstring;
  (** [JSON.parse(s)]; [None] when it throws SyntaxError *)
  JSON_parse : jsstring -> option json;
  (** jose's [jwtVerify(token, key)]: the payload, [None] when it throws *)
  jwtVerify : jsstring -> jsstring -> option (list (jsstring * json));
  (** [this.env.S3_JWT_SECRET] *)
  S3_JWT_SECRET : option jsstring;
}.

(** A server-side WebSocket, named by the order of its creation. *)
Definition ws := nat.

(** An HTTP request, with the values of the clock and of the random
    generator that are read while it is served. *)
Record request := {
  method : jsstring;
  pathname : jsstring;                       (* url.pathname *)
  search : jsstring;                         (* url.search *)
  searchParams : list (jsstring * jsstring); (* url.searchParams *)
  h_Upgrade : option jsstring;
  h_Authorization : option jsstring;
  h_content_type : option jsstring;
  h_x_amz_copy_source : option jsstring;
  arrayBuffer : bytes;                       (* request.arrayBuffer() *)
  now : jsstring;              (* new Date().toISOString() in the handler *)
  randomUUID : jsstring;       (* crypto.randomUUID() for ids and etags *)
  elapsed : Z;                 (* Date.now() - startTime *)
  now_after : jsstring;        (* new Date().toISOString() at broadcast *)
  send_throws : ws -> bool;    (* the sockets whose [send] throws *)
}.

Fixpoint params_get (ps : list (jsstring * jsstring)) (name : jsstring)
  : option jsstring :=
  match ps with
  | [] => None
  | (n, v) :: ps' => if str_eqb n name then Some v else params_get ps' name
  end.

Definition params_has (ps : list (jsstring * jsstring)) (name : jsstring) : bool :=
  match params_get ps name with Some _ => true | None => false end.

(** [x || d] where [x] is a string or null. *)
Definition or_default (x : option jsstring) (d : jsstring) : jsstring :=
  match x with Some s => str_or s d | None => d end.

(** A string-or-null is truthy. *)
Definition truthy_opt (x : option jsstring) : bool :=
  match x with Some s => nonempty s | None => false end.

(* ================================================================== *)
(** * Tables *)

Record object_row := {
  o_bucket : jsstring;
  o_key : jsstring;
  o_chunk_index : Z;
  o_size : Z;
  o_etag : jsstring;
  o_last_modified : jsstring;
  o_content_type : jsstring;
  o_data : bytes;
  o_depth : option Z;
  o_parent : option jsstring;
}.

Record upload_row := {
  u_upload_id : jsstring;
  u_bucket : jsstring;
  u_key : jsstring;
  u_created_at : jsstring;
  u_content_type : jsstring;
}.

Record part_row := {
  p_upload_id : jsstring;
  p_part_number : Z;
  p_chunk_index : Z;
  p_size : Z;
  p_etag : jsstring;
  p_data : bytes;
}.

(** A message handed to [ws.send]: the fields of the object that
    [broadcastRequestInfo] passes to [JSON.stringify]. *)
Record request_info := {
  i_method : jsstring;
  i_path : jsstring;
  i_status : Z;
  i_duration : Z;
  i_timestamp : jsstring;
}.

(** The state of one Durable Object.  [sent] records, oldest first, every
    message that a [send] delivered; [next_ws] numbers the sockets. *)
Record store := {
  objects : list object_row;
  multipart_uploads : list upload_row;
  multipart_parts : list part_row;
  webSocketClients : list ws;
  next_ws : ws;
  sent : list (ws * request_info);
}.

(** The store after [runMigrations] on a fresh Durable Object. *)
Definition empty_store : store :=
  {| objects := []; multipart_uploads := []; multipart_parts := [];
     webSocketClients := []; next_ws := O; sent := [] |}.

Definition with_objects (s : store) (t : list object_row) : store :=
  {| objects := t; multipart_uploads := multipart_uploads s;
     multipart_parts := multipart_parts s;
     webSocketClients := webSocketClients s; next_ws := next_ws s;
     sent := sent s |}.

Definition with_uploads (s : store) (t : list upload_row) : store :=
  {| objects := objects s; multipart_uploads := t;
     multipart_parts := multipart_parts s;
     webSocketClients := webSocketClients s; next_ws := next_ws s;
     sent := sent s |}.

Definition with_parts (s : store) (t : list part_row) : store :=
  {| objects := objects s; multipart_uploads := multipart_uploads s;
     multipart_parts := t;
     webSocketClients := webSocketClients s; next_ws := next_ws s;
     sent := sent s |}.

(* ================================================================== *)
(** * Computations: state, and exceptions that keep the state *)

Inductive exn :=
| SqlError | RangeError | TypeError | URIError
| InvalidCharacterError | SyntaxError | JwtError.

Inductive outcome (A : Type) :=
| Returned (a : A)
| Thrown (e : exn).
Arguments Returned {A} a.
Arguments Thrown {A} e.

Definition M (A : Type) : Type := store -> outcome A * store.

Definition ret {A} (a : A) : M A := fun s => (Returned a, s).
Definition throw {A} (e : exn) : M A := fun s => (Thrown e, s).
Definition bind {A B} (m : M A) (k : A -> M B) : M B :=
  fun s => match m s with
           | (Returned a, s') => k a s'
           | (Thrown e, s') => (Thrown e, s')
           end.
Definition try_catch {A} (m : M A) (handler : exn -> M A) : M A :=
  fun s => match m s with
           | (Returned a, s') => (Returned a, s')
           | (Thrown e, s') => handler e s'
           end.
Definition gets {A} (f : store -> A) : M A := fun s => (Returned (f s), s).
Definition modify (f : store -> store) : M unit := fun s => (Returned tt, f s).

Declare Scope m_scope.
Delimit Scope m_scope with m.
Notation "x <- m ;; k" := (bind m (fun x => k))
  (at level 61, m at next level, right associativity) : m_scope.
Notation "m ;; k" := (bind m (fun _ => k))
  (at level 61, right associativity) : m_scope.
Notation "' pat <- m ;; k" :=
  (bind m (fun x => match x with pat => k end))
  (at level 61, pat pattern, m at next level, right associativity) : m_scope.
Open Scope m_scope.

(** [for (const x of xs) body(x)] *)
Fixpoint for_each {A} (xs : list A) (body : A -> M unit) : M unit :=
  match xs with
  | [] => ret tt
  | x :: xs' => body x ;; for_each xs' body
  end.

(* ================================================================== *)
(** * SQL *)

(** Stable insertion sort: [ORDER BY] and [Array.prototype.sort]. *)
Fixpoint insert_by {A} (le : A -> A -> bool) (x : A) (l : list A) : list A :=
  match l with
  | [] => [x]
  | y :: l' => if le x y then x :: l else y :: insert_by le x l'
  end.

Fixpoint sort_by {A} (le : A -> A -> bool) (l : list A) : list A :=
  match l with
  | [] => []
  | x :: l' => insert_by le x (sort_by le l')
  end.

(** [LIMIT n]: a negative limit is no limit. *)
Definition sql_limit {A} (n : Z) (l : list A) : list A :=
  if n <? 0 then l else firstn (Z.to_nat n) l.

(** A number bound to [LIMIT ?] is bound as a double; SQLite takes it when
    it converts to a 64-bit integer strictly between the least and the
    greatest one, and fails with SQLITE_MISMATCH otherwise. *)
Definition limit_fits (n : Z) : bool := (- 2 ^ 63 <? n) && (n <? 2 ^ 63).

(** A SELECT that ends in [LIMIT ?], with [n] bound to the limit. *)
Definition select_limit {A} (n : Z) (rows : store -> list A) : M (list A) :=
  if limit_fits n then gets (fun s => sql_limit n (rows s)) else throw SqlError.

(** [bucket = ? AND key = ?] *)
Definition object_at (bucket key : jsstring) (r : object_row) : bool :=
  str_eqb (o_bucket r) bucket && str_eqb (o_key r) key.

Definition same_object_pk (a b : object_row) : bool :=
  object_at (o_bucket a) (o_key a) b && (o_chunk_index a =? o_chunk_index b).

(** [DELETE FROM objects WHERE bucket = ? AND key = ?] *)
Definition delete_object_rows (bucket key : jsstring) : M unit :=
  modify (fun s =>
    with_objects s (filter (fun r => negb (object_at bucket key r)) (objects s))).

(** [INSERT INTO objects (...) VALUES (...)]: the primary key
    [(bucket, key, chunk_index)] must be new. *)
Definition insert_object (r : object_row) : M unit :=
  fun s => if existsb (same_object_pk r) (objects s)
           then (Thrown SqlError, s)
           else (Returned tt, with_objects s (objects s ++ [r])).

(** [SELECT ... FROM objects WHERE bucket = ? AND key = ? AND chunk_index = 0] *)
Definition select_object_meta (bucket key : jsstring) : M (list object_row) :=
  gets (fun s =>
    filter (fun r => object_at bucket key r && (o_chunk_index r =? 0)) (objects s)).

(** [SELECT ... FROM objects WHERE bucket = ? AND key = ? ORDER BY chunk_index] *)
Definition select_object_chunks (bucket key : jsstring) : M (list object_row) :=
  gets (fun s =>
    sort_by (fun a b => o_chunk_index a <=? o_chunk_index b)
            (filter (object_at bucket key) (objects s))).

Definition part_at (uploadId : jsstring) (partNumber : Z) (r : part_row) : bool :=
  str_eqb (p_upload_id r) uploadId && (p_part_number r =? partNumber).

Definition same_part_pk (a b : part_row) : bool :=
  part_at (p_upload_id a) (p_part_number a) b && (p_chunk_index a =? p_chunk_index b).

(** [DELETE FROM multipart_parts WHERE upload_id = ? AND part_number = ?] *)
Definition delete_part_rows (uploadId : jsstring) (partNumber : Z) : M unit :=
  modify (fun s =>
    with_parts s (filter (fun r => negb (part_at uploadId partNumber r))
                         (multipart_parts s))).

(** [DELETE FROM multipart_parts WHERE upload_id = ?] *)
Definition delete_upload_parts (uploadId : jsstring) : M unit :=
  modify (fun s =>
    with_parts s (filter (fun r => negb (str_eqb (p_upload_id r) uploadId))
                         (multipart_parts s))).

(** [DELETE FROM multipart_uploads WHERE upload_id = ?] *)
Definition delete_upload (uploadId : jsstring) : M unit :=
  modify (fun s =>
    with_uploads s (filter (fun r => negb (str_eqb (u_upload_id r) uploadId))
                           (multipart_uploads s))).

(** [INSERT INTO multipart_parts (...) VALUES (...)] *)
Definition insert_part (r : part_row) : M unit :=
  fun s => if existsb (same_part_pk r) (multipart_parts s)
           then (Thrown SqlError, s)
           else (Returned tt, with_parts s (multipart_parts s ++ [r])).

(** [INSERT INTO multipart_uploads (...) VALUES (...)] *)
Definition insert_upload (r : upload_row) : M unit :=
  fun s => if existsb (fun x => str_eqb (u_upload_id x) (u_upload_id r))
                      (multipart_uploads s)
           then (Thrown SqlError, s)
           else (Returned tt, with_uploads s (multipart_uploads s ++ [r])).

(** [SELECT content_type FROM multipart_uploads WHERE upload_id = ?] *)
Definition select_upload (uploadId : jsstring) : M (list upload_row) :=
  gets (fun s =>
    filter (fun r => str_eqb (u_upload_id r) uploadId) (multipart_uploads s)).

(** [SELECT part_number, size, etag FROM multipart_parts
     WHERE upload_id = ? AND chunk_index = 0 ORDER BY part_number] *)
Definition select_parts (uploadId : jsstring) : M (list part_row) :=
  gets (fun s =>
    sort_by (fun a b => p_part_number a <=? p_part_number b)
            (filter (fun r => str_eqb (p_upload_id r) uploadId
                              && (p_chunk_index r =? 0))
                    (multipart_parts s))).

(** [SELECT data FROM multipart_parts
     WHERE upload_id = ? AND part_number = ? ORDER BY chunk_index] *)
Definition select_part_chunks (uploadId : jsstring) (partNumber : Z)
  : M (list part_row) :=
  gets (fun s =>
    sort_by (fun a b => p_chunk_index a <=? p_chunk_index b)
            (filter (part_at uploadId partNumber) (multipart_parts s))).

(* ================================================================== *)
(** * Responses *)

Record headers := {
  ContentType : option jsstring;
  ContentLength : option jsstring;
  ETag : option jsstring;
  LastModified : option jsstring;
}.

Definition no_headers : headers :=
  {| ContentType := None; ContentLength := None; ETag := None;
     LastModified := None |}.

Definition xml_headers : headers :=
  {| ContentType := Some (js "application/xml"); ContentLength := None;
     ETag := None; LastModified := None |}.

(** One [<Contents>] element. *)
Record contents_entry := {
  c_Key : jsstring;
  c_LastModified : jsstring;
  c_ETag : jsstring;
  c_Size : Z;
}.

Record list_bucket_result := {
  l_Name : jsstring;
  l_Prefix : jsstring;
  l_Delimiter : option jsstring;
  l_KeyCount : Z;
  l_MaxKeys : Z;
  l_IsTruncated : bool;
  l_NextContinuationToken : option jsstring;
  l_Contents : list contents_entry;
  l_CommonPrefixes : list jsstring;
}.

(** One [<Upload>] element. *)
Record upload_entry := {
  m_Key : jsstring;
  m_UploadId : jsstring;
  m_Initiated : jsstring;
}.

Record list_uploads_result := {
  lu_Bucket : jsstring;
  lu_KeyMarker : jsstring;
  lu_UploadIdMarker : jsstring;
  lu_MaxUploads : Z;
  lu_IsTruncated : bool;
  lu_Prefix : option jsstring;
  lu_NextKeyMarker : option jsstring;
  lu_NextUploadIdMarker : option jsstring;
  lu_Uploads : list upload_entry;
}.

(** A response body.  An XML document is kept as the values of its
    elements (what [escapeXml] and the template strings are applied to). *)
Inductive body :=
| NoBody
| Binary (data : bytes)
| ErrorXml (code message : jsstring)
| ListBucketResult (r : list_bucket_result)
| ListMultipartUploadsResult (r : list_uploads_result)
| InitiateMultipartUploadResult (bucket key uploadId : jsstring)
| CompleteMultipartUploadResult (bucket key etag : jsstring)
| CopyObjectResult (lastModified etag : jsstring)
| WebSocketBody (client : ws).

Record response := {
  status : Z;
  resp_headers : headers;
  resp_body : body;
}.

Definition errorResponse (code message : jsstring) (st : Z) : response :=
  {| status := st; resp_headers := xml_headers;
     resp_body := ErrorXml code message |}.

(** [`"${etag}"`] *)
Definition quoted (etag : jsstring) : jsstring := 34%N :: etag ++ [34%N].

(* ================================================================== *)
(** * Objects *)

Section Engine.
Context {rt : Runtime}.

(** The body of the loop
    [for (let offset = CHUNK_SIZE; offset < size; offset += CHUNK_SIZE)]
    of [putObject].  [fuel] bounds the number of iterations; the caller
    passes [size / CHUNK_SIZE], which the loop never exhausts. *)
Fixpoint putObject_loop (fuel : nat) (bucket key : jsstring) (dataArray : bytes)
         (size offset chunkIndex : Z) : M unit :=
  match fuel with
  | O => ret tt
  | S fuel' =>
      if offset <? size then
        let chunkEnd := Z.min (offset + CHUNK_SIZE) size in
        let chunk := slice dataArray offset chunkEnd in
        insert_object
          {| o_bucket := bucket; o_key := key; o_chunk_index := chunkIndex;
             o_size := 0; o_etag := []; o_last_modified := [];
             o_content_type := []; o_data := chunk;
             o_depth := None; o_parent := None |} ;;
        putObject_loop fuel' bucket key dataArray size
                       (offset + CHUNK_SIZE) (chunkIndex + 1)
      else ret tt
  end.

Definition putObject (bucket key : jsstring) (req : request) : M response :=
  try_catch
    (let data := arrayBuffer req in
     let size := len data in
     let contentType :=
       or_default (h_content_type req) (js "application/octet-stream") in
     let etag := MD5_hex data in
     let lastModified := now req in
     delete_object_rows bucket key ;;
     let dataArray := data in
     let depth := computeDepth key in
     let parent := computeParent key in
     insert_object
       {| o_bucket := bucket; o_key := key; o_chunk_index := 0;
          o_size := size; o_etag := etag; o_last_modified := lastModified;
          o_content_type := contentType;
          o_data := if size =? 0 then []
                    else slice dataArray 0 (Z.min CHUNK_SIZE size);
          o_depth := Some depth; o_parent := Some parent |} ;;
     (if CHUNK_SIZE <? size
      then putObject_loop (Z.to_nat (size / CHUNK_SIZE)) bucket key dataArray
                          size CHUNK_SIZE 1
      else ret tt) ;;
     ret {| status := 200;
            resp_headers := {| ContentType := None; ContentLength := None;
                               ETag := Some (quoted etag);
                               LastModified := None |};
            resp_body := NoBody |})
    (fun _ => ret (errorResponse (js "InternalError")
                                 (js "Failed to store object") 500)).

(** [new Uint8Array(n)] *)
Definition new_Uint8Array (n : Z) : M bytes :=
  if n <? 0 then throw RangeError
  else ret (repeat Byte.x00 (Z.to_nat n)).

(** [target.set(source, offset)] *)
Definition typed_array_set (target source : bytes) (offset : Z) : M bytes :=
  if len target <? offset + len source then throw RangeError
  else ret (firstn (Z.to_nat offset) target ++ source
            ++ skipn (Z.to_nat (offset + len source)) target).

(** [for (const chunk of chunks) { combinedData.set(...); offset += ... }] *)
Fixpoint combine_chunks (chunks : list object_row) (combinedData : bytes)
         (offset : Z) : M bytes :=
  match chunks with
  | [] => ret combinedData
  | chunk :: rest =>
      let chunkData := o_data chunk in
      combinedData' <- typed_array_set combinedData chunkData offset ;;
      combine_chunks rest combinedData' (offset + len chunkData)
  end.

Definition getObject (bucket key : jsstring) (headOnly : bool) : M response :=
  try_catch
    (rows <- select_object_meta bucket key ;;
     match rows with
     | [] => ret (errorResponse (js "NoSuchKey")
                                (js "The specified key does not exist.") 404)
     | row :: _ =>
         let hs := {| ContentType := Some (o_content_type row);
                      ContentLength := Some (number_toString (o_size row));
                      ETag := Some (quoted (o_etag row));
                      LastModified := Some (toUTCString (o_last_modified row)) |} in
         if headOnly
         then ret {| status := 200; resp_headers := hs; resp_body := NoBody |}
         else
           chunks <- select_object_chunks bucket key ;;
           match chunks with
           | [] => ret {| status := 200; resp_headers := hs;
                          resp_body := Binary [] |}
           | _ =>
               let totalSize := o_size row in
               combinedData <- new_Uint8Array totalSize ;;
               combinedData' <- combine_chunks chunks combinedData 0 ;;
               ret {| status := 200; resp_headers := hs;
                      resp_body := Binary combinedData' |}
           end
     end)
    (fun _ => ret (errorResponse (js "InternalError")
                                 (js "Failed to retrieve object") 500)).

Definition deleteObject (bucket key : jsstring) : M response :=
  try_catch
    (delete_object_rows bucket key ;;
     ret {| status := 204; resp_headers := no_headers; resp_body := NoBody |})
    (fun _ => ret (errorResponse (js "InternalError")
                                 (js "Failed to delete object") 500)).

Definition headBucket (bucket : jsstring) : M response :=
  ret {| status := 200; resp_headers := no_headers; resp_body := NoBody |}.

Definition copyObject (bucket destKey copySource : jsstring) (req : request)
  : M response :=
  try_catch
    (let sourcePath :=
       if startsWith copySource (js "/") then slice_from copySource 1
       else copySource in
     let slashIndex := indexOf sourcePath (js "/") in
     if slashIndex =? -1 then
       ret (errorResponse (js "InvalidArgument") (js "Invalid copy source") 400)
     else
       let sourceBucket := slice sourcePath 0 slashIndex in
       match decodeURIComponent (slice_from sourcePath (slashIndex + 1)) with
       | None => throw URIError
       | Some sourceKey =>
           if negb (str_eqb sourceBucket bucket) then
             ret (errorResponse (js "InvalidArgument")
                                (js "Cross-bucket copy not supported") 400)
           else
             metaRows <- select_object_meta sourceBucket sourceKey ;;
             match metaRows with
             | [] => ret (errorResponse
                            (js "NoSuchKey")
                            (js "The specified source key does not exist.") 404)
             | sourceMeta :: _ =>
                 let lastModified := now req in
                 delete_object_rows bucket destKey ;;
                 chunks <- select_object_chunks sourceBucket sourceKey ;;
                 let depth := computeDepth destKey in
                 let parent := computeParent destKey in
                 for_each chunks (fun chunk =>
                   if o_chunk_index chunk =? 0 then
                     insert_object
                       {| o_bucket := bucket; o_key := destKey;
                          o_chunk_index := 0; o_size := o_size sourceMeta;
                          o_etag := o_etag sourceMeta;
                          o_last_modified := lastModified;
                          o_content_type := o_content_type sourceMeta;
                          o_data := o_data chunk;
                          o_depth := Some depth; o_parent := Some parent |}
                   else
                     insert_object
                       {| o_bucket := bucket; o_key := destKey;
                          o_chunk_index := o_chunk_index chunk; o_size := 0;
                          o_etag := []; o_last_modified := [];
                          o_content_type := []; o_data := o_data chunk;
                          o_depth := None; o_parent := None |}) ;;
                 ret {| status := 200; resp_headers := xml_headers;
                        resp_body := CopyObjectResult lastModified
                                       (quoted (o_etag sourceMeta)) |}
             end
       end)
    (fun _ => ret (errorResponse (js "InternalError")
                                 (js "Failed to copy object") 500)).

(* ================================================================== *)
(** * Multipart uploads *)

Definition createMultipartUpload (bucket key : jsstring) (req : request)
  : M response :=
  try_catch
    (let uploadId := randomUUID req in
     let contentType :=
       or_default (h_content_type req) (js "application/octet-stream") in
     let createdAt := now req in
     insert_upload
       {| u_upload_id := uploadId; u_bucket := bucket; u_key := key;
          u_created_at := createdAt; u_content_type := contentType |} ;;
     ret {| status := 200; resp_headers := xml_headers;
            resp_body := InitiateMultipartUploadResult bucket key uploadId |})
    (fun _ => ret (errorResponse (js "InternalError")
                                 (js "Failed to create multipart upload") 500)).

(** The loop of [uploadPart], as [putObject_loop]. *)
Fixpoint uploadPart_loop (fuel : nat) (uploadId : jsstring) (partNumber : Z)
         (dataArray : bytes) (size offset chunkIndex : Z) : M unit :=
  match fuel with
  | O => ret tt
  | S fuel' =>
      if offset <? size then
        let chunkEnd := Z.min (offset + CHUNK_SIZE) size in
        let chunk := slice dataArray offset chunkEnd in
        insert_part
          {| p_upload_id := uploadId; p_part_number := partNumber;
             p_chunk_index := chunkIndex; p_size := 0; p_etag := [];
             p_data := chunk |} ;;
        uploadPart_loop fuel' uploadId partNumber dataArray size
                        (offset + CHUNK_SIZE) (chunkIndex + 1)
      else ret tt
  end.

(** [partNumber] is the result of [parseInt]; NaN ([None]) is bound as
    NULL, so the DELETE matches no row and the INSERT violates NOT NULL. *)
Definition uploadPart (bucket key uploadId : jsstring) (partNumber : option Z)
           (req : request) : M response :=
  try_catch
    (let data := arrayBuffer req in
     let size := len data in
     let etag := MD5_hex data in
     match partNumber with
     | None => throw SqlError
     | Some partNumber =>
         delete_part_rows uploadId partNumber ;;
         let dataArray := data in
         insert_part
           {| p_upload_id := uploadId; p_part_number := partNumber;
              p_chunk_index := 0; p_size := size; p_etag := etag;
              p_data := if size =? 0 then []
                        else slice dataArray 0 (Z.min CHUNK_SIZE size) |} ;;
         (if CHUNK_SIZE <? size
          then uploadPart_loop (Z.to_nat (size / CHUNK_SIZE)) uploadId
                               partNumber dataArray size CHUNK_SIZE 1
          else ret tt) ;;
         ret {| status := 200;
                resp_headers := {| ContentType := None; ContentLength := None;
                                   ETag := Some (quoted etag);
                                   LastModified := None |};
                resp_body := NoBody |}
     end)
    (fun _ => ret (errorResponse (js "InternalError")
                                 (js "Failed to upload part") 500)).

(** The inner loop of [completeMultipartUpload]; it returns the value of
    [objectChunkIndex] after the loop. *)
Fixpoint complete_chunks (bucket key : jsstring) (totalSize : Z)
         (etag lastModified contentType : jsstring)
         (partChunks : list part_row) (objectChunkIndex : Z) : M Z :=
  match partChunks with
  | [] => ret objectChunkIndex
  | chunk :: rest =>
      (if objectChunkIndex =? 0 then
         insert_object
           {| o_bucket := bucket; o_key := key;
              o_chunk_index := objectChunkIndex; o_size := totalSize;
              o_etag := etag; o_last_modified := lastModified;
              o_content_type := contentType; o_data := p_data chunk;
              o_depth := Some (computeDepth key);
              o_parent := Some (computeParent key) |}
       else
         insert_object
           {| o_bucket := bucket; o_key := key;
              o_chunk_index := objectChunkIndex; o_size := 0;
              o_etag := []; o_last_modified := []; o_content_type := [];
              o_data := p_data chunk; o_depth := None; o_parent := None |}) ;;
      complete_chunks bucket key totalSize etag lastModified contentType
                      rest (objectChunkIndex + 1)
  end.

(** The outer loop [for (const part of parts)]. *)
Fixpoint complete_parts (bucket key uploadId : jsstring) (totalSize : Z)
         (etag lastModified contentType : jsstring)
         (parts : list part_row) (objectChunkIndex : Z) : M Z :=
  match parts with
  | [] => ret objectChunkIndex
  | part :: rest =>
      partChunks <- select_part_chunks uploadId (p_part_number part) ;;
      objectChunkIndex' <-
        complete_chunks bucket key totalSize etag lastModified contentType
                        partChunks objectChunkIndex ;;
      complete_parts bucket key uploadId totalSize etag lastModified
                     contentType rest objectChunkIndex'
  end.

(** [s.replace(/-/g, "")] *)
Definition remove_dashes (s : jsstring) : jsstring :=
  filter (fun c => negb (N.eqb c 45)) s.

Definition completeMultipartUpload (bucket key uploadId : jsstring)
           (req : request) : M response :=
  try_catch
    (uploads <- select_upload uploadId ;;
     match uploads with
     | [] => ret (errorResponse (js "NoSuchUpload")
                                (js "The specified upload does not exist") 404)
     | upload :: _ =>
         let contentType := u_content_type upload in
         parts <- select_parts uploadId ;;
         match parts with
         | [] => ret (errorResponse (js "InvalidPart")
                                    (js "No parts were uploaded") 400)
         | _ =>
             let totalSize := fold_left (fun acc part => acc + p_size part)
                                        parts 0 in
             delete_object_rows bucket key ;;
             let lastModified := now req in
             let etag := remove_dashes (randomUUID req) ++ js "-"
                         ++ number_toString (len parts) in
             complete_parts bucket key uploadId totalSize etag lastModified
                            contentType parts 0 ;;
             delete_upload_parts uploadId ;;
             delete_upload uploadId ;;
             ret {| status := 200; resp_headers := xml_headers;
                    resp_body := CompleteMultipartUploadResult bucket key
                                   (quoted etag) |}
         end
     end)
    (fun _ => ret (errorResponse (js "InternalError")
                                 (js "Failed to complete multipart upload") 500)).

Definition abortMultipartUpload (uploadId : jsstring) : M response :=
  try_catch
    (delete_upload_parts uploadId ;;
     delete_upload uploadId ;;
     ret {| status := 204; resp_headers := no_headers; resp_body := NoBody |})
    (fun _ => ret (errorResponse (js "InternalError")
                                 (js "Failed to abort multipart upload") 500)).

(* ================================================================== *)
(** * Listings *)

(** [prefix.slice(0, -1) +
     String.fromCharCode(prefix.charCodeAt(prefix.length - 1) + 1)] *)
Definition prefixUpperBound (prefix : jsstring) : jsstring :=
  slice prefix 0 (-1) ++ fromCharCode (plus1 (charCodeAt prefix (len prefix - 1))).

(** [a.splice(n)]: what is left in [a]. *)
Definition splice_keep {A} (l : list A) (n : Z) : list A :=
  firstn (Z.to_nat (rel_index (len l) n)) l.

(** The last element of an array, if any. *)
Definition last_opt {A} (l : list A) : option A :=
  match rev l with x :: _ => Some x | [] => None end.

Definition opt_str_eqb (a b : option jsstring) : bool :=
  match a, b with
  | Some x, Some y => str_eqb x y
  | None, None => true
  | _, _ => false
  end.

(** [ORDER BY parent]: NULL sorts first. *)
Definition opt_str_leb (a b : option jsstring) : bool :=
  match a, b with
  | None, _ => true
  | Some _, None => false
  | Some x, Some y => str_leb x y
  end.

(** [SELECT DISTINCT]: the first occurrence of each value. *)
Fixpoint distinct (l : list (option jsstring)) : list (option jsstring) :=
  match l with
  | [] => []
  | x :: l' => x :: filter (fun y => negb (opt_str_eqb x y)) (distinct l')
  end.

(** A comparison of a nullable column with a bound string is false on NULL. *)
Definition col_test (test : jsstring -> bool) (col : option jsstring) : bool :=
  match col with Some v => test v | None => false end.

Definition includes (l : list jsstring) (x : jsstring) : bool :=
  existsb (str_eqb x) l.

(** An item of [allResults]. *)
Inductive list_item :=
| PrefixItem (value : jsstring)
| ContentItem (value : jsstring) (data : object_row).

Definition item_value (i : list_item) : jsstring :=
  match i with PrefixItem v => v | ContentItem v _ => v end.

(** The loop of the generic delimiter path over the fetched rows.  The
    state of the loop is [(seenPrefixes/commonPrefixes, objects, count,
    isTruncated, nextContinuationToken)]; [commonPrefixes] stands for the
    set [seenPrefixes] as well, both receive the same values. *)
Fixpoint delimiter_loop (prefix delimiter : jsstring) (maxKeys : Z)
         (rows : list object_row)
         (commonPrefixes : list jsstring) (objs : list object_row)
         (count : Z) (nextContinuationToken : jsstring)
  : list jsstring * list object_row * bool * jsstring :=
  match rows with
  | [] => (commonPrefixes, objs, false, nextContinuationToken)
  | row :: rest =>
      if maxKeys <=? count
      then (commonPrefixes, objs, true, nextContinuationToken)
      else
        let keyAfterPrefix := slice_from (o_key row) (len prefix) in
        let delimiterIndex := indexOf keyAfterPrefix delimiter in
        if 0 <=? delimiterIndex then
          let commonPrefix :=
            prefix ++ slice keyAfterPrefix 0 (delimiterIndex + 1) in
          if negb (includes commonPrefixes commonPrefix)
          then delimiter_loop prefix delimiter maxKeys rest
                 (commonPrefixes ++ [commonPrefix]) objs (count + 1) (o_key row)
          else delimiter_loop prefix delimiter maxKeys rest
                 commonPrefixes objs count nextContinuationToken
        else
          delimiter_loop prefix delimiter maxKeys rest
            commonPrefixes (objs ++ [row]) (count + 1) (o_key row)
  end.

(** The chunk-0 rows of a bucket. *)
Definition listed (bucket : jsstring) (r : object_row) : bool :=
  str_eqb (o_bucket r) bucket && (o_chunk_index r =? 0).

(** [key >= ? AND key < ?] when [prefix] is not empty. *)
Definition in_prefix_range (prefix : jsstring) (k : jsstring) : bool :=
  if nonempty prefix
  then str_leb prefix k && str_ltb k (prefixUpperBound prefix)
  else true.

(** [key > ?] when a marker is given. *)
Definition after_marker (continuationToken startAfter : jsstring)
           (k : jsstring) : bool :=
  if nonempty continuationToken || nonempty startAfter
  then str_ltb (str_or continuationToken startAfter) k
  else true.

Definition key_leb (a b : object_row) : bool := str_leb (o_key a) (o_key b).

Definition to_contents (row : object_row) : contents_entry :=
  {| c_Key := o_key row;
     c_LastModified := toISOString (o_last_modified row);
     c_ETag := quoted (o_etag row);
     c_Size := o_size row |}.

(** The body of the loop [for (const row of prefixRows)] of the fast
    path; [acc] is [commonPrefixes]. *)
Definition collect_prefix (prefix : jsstring) (targetDepth : Z)
           (acc : list jsstring) (row : option jsstring) : list jsstring :=
  match row with
  | Some parent =>
      if nonempty parent && startsWith parent prefix
         && (computeDepth parent =? targetDepth)
      then if negb (includes acc parent) then acc ++ [parent] else acc
      else acc
  | None => acc
  end.

(** The three paths of [listObjectsV2]; the result is
    [(objects, commonPrefixes, isTruncated, nextContinuationToken)]. *)
Definition list_slash (bucket prefix continuationToken startAfter : jsstring)
           (maxKeys : Z)
  : M (list object_row * list jsstring * bool * jsstring) :=
  let prefixDepth := computeDepth prefix in
  let targetDepth := prefixDepth + 1 in
  prefixRows <- select_limit (js_add maxKeys 1) (fun s =>
      sort_by opt_str_leb
         (distinct
            (map o_parent
               (filter (fun r =>
                  listed bucket r
                  && match o_depth r with
                     | Some d => targetDepth <=? d
                     | None => false
                     end
                  && (if nonempty prefix
                      then col_test (in_prefix_range prefix) (o_parent r)
                      else true)
                  && (if nonempty continuationToken || nonempty startAfter
                      then
                        let marker := str_or continuationToken startAfter in
                        col_test (str_ltb (str_or (computeParent marker) marker))
                                 (o_parent r)
                      else true))
                  (objects s))))) ;;
  let commonPrefixes :=
    fold_left (collect_prefix prefix targetDepth) prefixRows [] in
  objs <- select_limit (js_add maxKeys 1) (fun s =>
      sort_by key_leb
         (filter (fun r =>
            listed bucket r
            && col_test (str_eqb prefix) (o_parent r)
            && after_marker continuationToken startAfter (o_key r))
            (objects s))) ;;
  let allResults :=
    sort_by (fun a b => localeCompare (item_value a) (item_value b) <=? 0)
            (map PrefixItem commonPrefixes
             ++ map (fun obj => ContentItem (o_key obj) obj) objs) in
  '(allResults, isTruncated, nextContinuationToken) <-
    (if maxKeys <? len allResults then
       let allResults := splice_keep allResults maxKeys in
       match last_opt allResults with
       | Some lastItem => ret (allResults, true, item_value lastItem)
       | None => throw TypeError
       end
     else ret (allResults, false, [])) ;;
  ret (flat_map (fun i => match i with
                          | ContentItem _ d => [d]
                          | PrefixItem _ => []
                          end) allResults,
       flat_map (fun i => match i with
                          | PrefixItem v => [v]
                          | ContentItem _ _ => []
                          end) allResults,
       isTruncated, nextContinuationToken).

Definition list_delimiter (bucket prefix delimiter continuationToken
                           startAfter : jsstring) (maxKeys : Z)
  : M (list object_row * list jsstring * bool * jsstring) :=
  rows <- select_limit (js_add (js_mul maxKeys 10) 1) (fun s =>
      sort_by key_leb
         (filter (fun r =>
            listed bucket r
            && in_prefix_range prefix (o_key r)
            && after_marker continuationToken startAfter (o_key r))
            (objects s))) ;;
  let '(commonPrefixes, objs, isTruncated, nextContinuationToken) :=
    delimiter_loop prefix delimiter maxKeys rows [] [] 0 [] in
  ret (objs, commonPrefixes, isTruncated, nextContinuationToken).

Definition list_plain (bucket prefix continuationToken startAfter : jsstring)
           (maxKeys : Z)
  : M (list object_row * list jsstring * bool * jsstring) :=
  rows <- select_limit (js_add maxKeys 1) (fun s =>
      sort_by key_leb
         (filter (fun r =>
            listed bucket r
            && in_prefix_range prefix (o_key r)
            && after_marker continuationToken startAfter (o_key r))
            (objects s))) ;;
  let isTruncated := maxKeys <? len rows in
  let objs := slice rows 0 maxKeys in
  let nextContinuationToken :=
    match last_opt objs with
    | Some o => if isTruncated then o_key o else []
    | None => []
    end in
  ret (objs, [], isTruncated, nextContinuationToken).

(** [maxKeys] is the result of [parseInt]; NaN ([None]) is bound to
    [LIMIT ?] as NULL, which the first statement of every path rejects. *)
Definition listObjectsV2 (bucket : jsstring)
           (params : list (jsstring * jsstring)) : M response :=
  try_catch
    (let prefix := or_default (params_get params (js "prefix")) [] in
     let delimiter := or_default (params_get params (js "delimiter")) [] in
     let maxKeys :=
       parseInt (or_default (params_get params (js "max-keys")) (js "1000")) in
     let startAfter := or_default (params_get params (js "start-after")) [] in
     let continuationToken :=
       or_default (params_get params (js "continuation-token")) [] in
     match maxKeys with
     | None => throw SqlError
     | Some maxKeys =>
         '(objs, commonPrefixes, isTruncated, nextContinuationToken) <-
           (if str_eqb delimiter (js "/") then
              list_slash bucket prefix continuationToken startAfter maxKeys
            else if nonempty delimiter then
              list_delimiter bucket prefix delimiter continuationToken
                             startAfter maxKeys
            else
              list_plain bucket prefix continuationToken startAfter maxKeys) ;;
         let keyCount := len objs + len commonPrefixes in
         ret {| status := 200; resp_headers := xml_headers;
                resp_body := ListBucketResult
                  {| l_Name := bucket; l_Prefix := prefix;
                     l_Delimiter :=
                       if nonempty delimiter then Some delimiter else None;
                     l_KeyCount := keyCount; l_MaxKeys := maxKeys;
                     l_IsTruncated := isTruncated;
                     l_NextContinuationToken :=
                       if nonempty nextContinuationToken && isTruncated
                       then Some nextContinuationToken else None;
                     l_Contents := map to_contents objs;
                     l_CommonPrefixes := commonPrefixes |} |}
     end)
    (fun _ => ret (errorResponse (js "InternalError")
                                 (js "Failed to list objects") 500)).

Definition upload_leb (a b : upload_row) : bool :=
  match str_compare (u_key a) (u_key b) with
  | Lt => true
  | Eq => str_leb (u_upload_id a) (u_upload_id b)
  | Gt => false
  end.

Definition listMultipartUploads (bucket : jsstring)
           (params : list (jsstring * jsstring)) : M response :=
  try_catch
    (let prefix := or_default (params_get params (js "prefix")) [] in
     let keyMarker := or_default (params_get params (js "key-marker")) [] in
     let uploadIdMarker :=
       or_default (params_get params (js "upload-id-marker")) [] in
     let maxUploads :=
       parseInt (or_default (params_get params (js "max-uploads")) (js "1000")) in
     match maxUploads with
     | None => throw SqlError
     | Some maxUploads =>
         rows <- select_limit (js_add maxUploads 1) (fun s =>
             sort_by upload_leb
                (filter (fun r =>
                   str_eqb (u_bucket r) bucket
                   && in_prefix_range prefix (u_key r)
                   && (if nonempty keyMarker then
                         if nonempty uploadIdMarker then
                           str_ltb keyMarker (u_key r)
                           || (str_eqb (u_key r) keyMarker
                               && str_ltb uploadIdMarker (u_upload_id r))
                         else str_ltb keyMarker (u_key r)
                       else true))
                   (multipart_uploads s))) ;;
         let isTruncated := maxUploads <? len rows in
         let uploads := slice rows 0 maxUploads in
         let '(nextKeyMarker, nextUploadIdMarker) :=
           match last_opt uploads with
           | Some lastUpload =>
               if isTruncated
               then (u_key lastUpload, u_upload_id lastUpload)
               else ([], [])
           | None => ([], [])
           end in
         ret {| status := 200; resp_headers := xml_headers;
                resp_body := ListMultipartUploadsResult
                  {| lu_Bucket := bucket; lu_KeyMarker := keyMarker;
                     lu_UploadIdMarker := uploadIdMarker;
                     lu_MaxUploads := maxUploads;
                     lu_IsTruncated := isTruncated;
                     lu_Prefix := if nonempty prefix then Some prefix else None;
                     lu_NextKeyMarker :=
                       if isTruncated then Some nextKeyMarker else None;
                     lu_NextUploadIdMarker :=
                       if isTruncated then Some nextUploadIdMarker else None;
                     lu_Uploads :=
                       map (fun row =>
                              {| m_Key := u_key row;
                                 m_UploadId := u_upload_id row;
                                 m_Initiated := toISOString (u_created_at row) |})
                           uploads |} |}
     end)
    (fun _ => ret (errorResponse (js "InternalError")
                                 (js "Failed to list multipart uploads") 500)).

(* ================================================================== *)
(** * Dispatch *)

Definition handleRequest (bucket key method : jsstring) (req : request)
  : M response :=
  let params := searchParams req in
  if str_eqb method (js "HEAD") && negb (nonempty key) then
    headBucket bucket
  else if str_eqb method (js "GET") && negb (nonempty key)
          && params_has params (js "uploads") then
    listMultipartUploads bucket params
  else if str_eqb method (js "GET") && negb (nonempty key) then
    listObjectsV2 bucket params
  else if (str_eqb method (js "GET") || str_eqb method (js "HEAD"))
          && nonempty key then
    getObject bucket key (str_eqb method (js "HEAD"))
  else
    let uploadId := params_get params (js "uploadId") in
    if nonempty key && str_eqb method (js "POST")
       && params_has params (js "uploads") then
      createMultipartUpload bucket key req
    else if nonempty key && str_eqb method (js "PUT") && truthy_opt uploadId
            && params_has params (js "partNumber") then
      uploadPart bucket key (or_default uploadId [])
                 (parseInt (or_default (params_get params (js "partNumber")) []))
                 req
    else if nonempty key && str_eqb method (js "POST") && truthy_opt uploadId then
      completeMultipartUpload bucket key (or_default uploadId []) req
    else if nonempty key && str_eqb method (js "DELETE") && truthy_opt uploadId then
      abortMultipartUpload (or_default uploadId [])
    else
      let copySource := h_x_amz_copy_source req in
      if str_eqb method (js "PUT") && nonempty key && truthy_opt copySource then
        copyObject bucket key (or_default copySource []) req
      else if str_eqb method (js "PUT") && nonempty key then
        putObject bucket key req
      else if str_eqb method (js "DELETE") && nonempty key then
        deleteObject bucket key
      else
        ret (errorResponse (js "NotImplemented")
                           (js "Operation not implemented") 501).

(* ================================================================== *)
(** * Activity broadcast *)

(** [this.webSocketClients.add(w)] *)
Definition clients_add (w : ws) : M unit :=
  fun s => (Returned tt,
            {| objects := objects s; multipart_uploads := multipart_uploads s;
               multipart_parts := multipart_parts s;
               webSocketClients :=
                 if existsb (Nat.eqb w) (webSocketClients s)
                 then webSocketClients s else webSocketClients s ++ [w];
               next_ws := next_ws s; sent := sent s |}).

(** [this.webSocketClients.delete(w)] *)
Definition clients_delete (w : ws) : M unit :=
  fun s => (Returned tt,
            {| objects := objects s; multipart_uploads := multipart_uploads s;
               multipart_parts := multipart_parts s;
               webSocketClients :=
                 filter (fun x => negb (Nat.eqb w x)) (webSocketClients s);
               next_ws := next_ws s; sent := sent s |}).

(** [new WebSocketPair()]: a socket that did not exist before. *)
Definition new_WebSocketPair : M ws :=
  fun s => (Returned (next_ws s),
            {| objects := objects s; multipart_uploads := multipart_uploads s;
               multipart_parts := multipart_parts s;
               webSocketClients := webSocketClients s;
               next_ws := S (next_ws s); sent := sent s |}).

(** [w.send(message)] *)
Definition ws_send (throws : ws -> bool) (w : ws) (message : request_info)
  : M unit :=
  fun s => if throws w then (Thrown TypeError, s)
           else (Returned tt,
                 {| objects := objects s;
                    multipart_uploads := multipart_uploads s;
                    multipart_parts := multipart_parts s;
                    webSocketClients := webSocketClients s;
                    next_ws := next_ws s;
                    sent := sent s ++ [(w, message)] |}).

Definition handleWebSocketUpgrade (req : request) : M response :=
  server <- new_WebSocketPair ;;
  clients_add server ;;
  ret {| status := 101; resp_headers := no_headers;
         resp_body := WebSocketBody server |}.

(** The listeners for "close" and "error" installed by
    [handleWebSocketUpgrade]. *)
Definition on_close_or_error (server : ws) : M unit := clients_delete server.

(** The first loop of [broadcastRequestInfo]; it returns [toRemove]. *)
Fixpoint broadcast_send (throws : ws -> bool) (message : request_info)
         (clients : list ws) (toRemove : list ws) : M (list ws) :=
  match clients with
  | [] => ret toRemove
  | w :: rest =>
      toRemove' <- try_catch (ws_send throws w message ;; ret toRemove)
                             (fun _ => ret (toRemove ++ [w])) ;;
      broadcast_send throws message rest toRemove'
  end.

Definition broadcastRequestInfo (throws : ws -> bool) (info : request_info)
  : M unit :=
  let message := info in
  clients <- gets webSocketClients ;;
  toRemove <- broadcast_send throws message clients [] ;;
  for_each toRemove clients_delete.

(* ================================================================== *)
(** * Authentication *)

Fixpoint json_field (fields : list (jsstring * json)) (name : jsstring)
  : option json :=
  match fields with
  | [] => None
  | (n, v) :: rest => if str_eqb n name then Some v else json_field rest name
  end.

(** Truthiness of a JSON value, [None] being [undefined]. *)
Definition truthy (v : option json) : bool :=
  match v with
  | None => false
  | Some JNull => false
  | Some (JBool b) => b
  | Some (JNum z) => negb (z =? 0)
  | Some (JStr s) => nonempty s
  | Some (JArr _) => true
  | Some (JObj _) => true
  end.

Record S3TokenPayload := {
  t_sub : option json;
  t_bucket : option json;
  t_exp : option json;
  t_iat : option json;
}.

(** [verifyToken(token, secrets)] of lib/jwt; [None] when it throws. *)
Fixpoint verifyToken (token : jsstring) (secrets : list jsstring)
  : option S3TokenPayload :=
  match secrets with
  | [] => None
  | secret :: rest =>
      match jwtVerify token secret with
      | Some payload =>
          if negb (truthy (json_field payload (js "sub")))
             || negb (truthy (json_field payload (js "bucket")))
          then verifyToken token rest
          else Some {| t_sub := json_field payload (js "sub");
                       t_bucket := json_field payload (js "bucket");
                       t_exp := json_field payload (js "exp");
                       t_iat := json_field payload (js "iat") |}
      | None => verifyToken token rest
      end
  end.

(** [authHeader.match(/Credential=([^\/,]+)/)]: the capture group of the
    leftmost match. *)
Fixpoint take_credential (s : jsstring) : jsstring :=
  match s with
  | c :: s' => if N.eqb c slash || N.eqb c 44 then [] else c :: take_credential s'
  | [] => []
  end.

Fixpoint credentialMatch (s : jsstring) : option jsstring :=
  let here :=
    if startsWith s (js "Credential=")
    then take_credential (slice_from s 11) else [] in
  if nonempty here then Some here
  else match s with
       | [] => None
       | _ :: s' => credentialMatch s'
       end.

(** [payloadJson.sub], then [!terminalName]: whether the value read is
    truthy; reading a property of [null] throws.  A string has the method
    [String.prototype.sub]. *)
Definition sub_truthy (payloadJson : json) : outcome bool :=
  match payloadJson with
  | JNull => Thrown TypeError
  | JObj fields => Returned (truthy (json_field fields (js "sub")))
  | JStr _ => Returned true
  | JBool _ | JNum _ | JArr _ => Returned false
  end.

(** A step that does not touch the store. *)
Definition lift {A} (o : outcome A) : M A := fun s => (o, s).

(** The key of a request: what follows ["/" + bucket + "/"] in the path,
    decoded; [decodeURIComponent] may throw. *)
Definition extract_key (bucket : jsstring) (req : request) : outcome jsstring :=
  let bucketPrefix := js "/" ++ bucket in
  if startsWith (pathname req) (bucketPrefix ++ js "/") then
    match decodeURIComponent
            (slice_from (pathname req) (len bucketPrefix + 1)) with
    | Some key => Returned key
    | None => Thrown URIError
    end
  else Returned [].

(** [fetch] from the point where the token is known (both forms of the
    [Authorization] header continue here). *)
Definition fetch_with_token (bucket token : jsstring) (req : request)
  : M response :=
  let method := method req in
  if str_eqb token (js "foo") then
    key <- lift (extract_key bucket req) ;;
    handleRequest bucket key method req
  else
    let parts := split_on dot token in
    if negb (len parts =? 3) then
      ret (errorResponse (js "Unauthorized") (js "Invalid token format") 401)
    else
      payloadJson <-
        match atob (nth 1 parts []) with
        | None => throw InvalidCharacterError
        | Some decoded =>
            match JSON_parse decoded with
            | None => throw SyntaxError
            | Some v => ret v
            end
        end ;;
      terminalName <- lift (sub_truthy payloadJson) ;;
      if negb terminalName then
        ret (errorResponse (js "Unauthorized") (js "Invalid token claims") 401)
      else
        let secret :=
          or_default S3_JWT_SECRET (js "demo-secret-change-in-production") in
        let secrets := [secret] in
        match verifyToken token secrets with
        | None =>
            ret (errorResponse (js "Unauthorized") (js "Invalid token") 401)
        | Some payload =>
            if negb (match t_bucket payload with
                     | Some (JStr b) => str_eqb b bucket
                     | _ => false
                     end)
            then ret (errorResponse (js "Forbidden")
                                    (js "Token not valid for this bucket") 403)
            else
              key <- lift (extract_key bucket req) ;;
              response <- handleRequest bucket key method req ;;
              let duration := elapsed req in
              broadcastRequestInfo (send_throws req)
                {| i_method := method;
                   i_path := pathname req ++ search req;
                   i_status := status response;
                   i_duration := duration;
                   i_timestamp := now_after req |} ;;
              ret response
        end.

Definition fetch (req : request) : M response :=
  if match h_Upgrade req with
     | Some v => str_eqb v (js "websocket")
     | None => false
     end
  then handleWebSocketUpgrade req
  else
    let pathParts := filter nonempty (split_on slash (pathname req)) in
    match pathParts with
    | [] => ret (errorResponse (js "NoSuchBucket") (js "No bucket specified") 404)
    | bucket :: _ =>
        if negb (truthy_opt (h_Authorization req)) then
          ret (errorResponse (js "Unauthorized") (js "Missing authorization") 401)
        else
          let authHeader := or_default (h_Authorization req) [] in
          if startsWith authHeader (js "Bearer ") then
            fetch_with_token bucket (slice_from authHeader 7) req
          else if startsWith authHeader (js "AWS4-HMAC-SHA256") then
            match credentialMatch authHeader with
            | None => ret (errorResponse
                             (js "Unauthorized")
                             (js "Invalid AWS authorization format") 401)
            | Some token => fetch_with_token bucket token req
            end
          else
            ret (errorResponse (js "Unauthorized")
                               (js "Unsupported authorization type") 401)
    end.

End Engine.

(* ================================================================== *)
(** * Running computations *)

Definition result_of {A} (m : M A) (s : store) : outcome A := fst (m s).
Definition state_after {A} (m : M A) (s : store) : store := snd (m s).

(** [start, start + 1, ..., start + n - 1] *)
Fixpoint zseq (start : Z) (n : nat) : list Z :=
  match n with
  | O => []
  | S n' => start :: zseq (start + 1) n'
  end.

(** The slices that the loops of [putObject] and [uploadPart] cut from
    [offset] on, in order. *)
Fixpoint loop_chunks (fuel : nat) (dataArray : bytes) (size offset : Z)
  : list bytes :=
  match fuel with
  | O => []
  | S fuel' =>
      if offset <? size
      then slice dataArray offset (Z.min (offset + CHUNK_SIZE) size)
           :: loop_chunks fuel' dataArray size (offset + CHUNK_SIZE)
      else []
  end.

(** All the slices stored for a body. *)
Definition chunks_of (data : bytes) : list bytes :=
  (if len data =? 0 then [] else slice data 0 (Z.min CHUNK_SIZE (len data)))
  :: (if CHUNK_SIZE <? len data
      then loop_chunks (Z.to_nat (len data / CHUNK_SIZE)) data (len data) CHUNK_SIZE
      else []).

(** A non-first chunk row of an object. *)
Definition rest_row (bucket key : jsstring) (i : Z) (d : bytes) : object_row :=
  {| o_bucket := bucket; o_key := key; o_chunk_index := i; o_size := 0;
     o_etag := []; o_last_modified := []; o_content_type := []; o_data := d;
     o_depth := None; o_parent := None |}.

Definition rest_part (uploadId : jsstring) (n i : Z) (d : bytes) : part_row :=
  {| p_upload_id := uploadId; p_part_number := n; p_chunk_index := i;
     p_size := 0; p_etag := []; p_data := d |}.

(** Rows numbered from [i] on. *)
Fixpoint number_rows {A} (mk : Z -> bytes -> A) (i : Z) (ds : list bytes)
  : list A :=
  match ds with
  | [] => []
  | d :: ds' => mk i d :: number_rows mk (i + 1) ds'
  end.

(** The rows of one object, and of one part, in table order. *)
Definition object_rows (s : store) (bucket key : jsstring) : list object_row :=
  filter (object_at bucket key) (objects s).

Definition part_rows (s : store) (uploadId : jsstring) (n : Z) : list part_row :=
  filter (part_at uploadId n) (multipart_parts s).

(** The chunk discipline of a group of rows: the indices are
    [0, 1, ..., n - 1] in table order, there is at least one row, the size
    kept on the first row is the total length, and no chunk exceeds
    [CHUNK_SIZE]. *)
Record chunked (indices : list Z) (size : Z) (chunks : list bytes) : Prop := {
  chunked_dense : indices = zseq 0 (List.length chunks);
  chunked_nonempty : chunks <> [];
  chunked_size : size = len (concat chunks);
  chunked_bound : Forall (fun c => len c <= CHUNK_SIZE) chunks;
}.

Definition first_size {A} (size : A -> Z) (rows : list A) : Z :=
  match rows with r :: _ => size r | [] => 0 end.

Definition object_ok (key : jsstring) (rows : list object_row) : Prop :=
  rows = [] \/
  (chunked (map o_chunk_index rows) (first_size o_size rows) (map o_data rows)
   /\ exists r rest, rows = r :: rest
        /\ o_depth r = Some (computeDepth key)
        /\ o_parent r = Some (computeParent key)).

Definition part_ok (rows : list part_row) : Prop :=
  rows = [] \/
  chunked (map p_chunk_index rows) (first_size p_size rows) (map p_data rows).

(** The invariant of the store. *)
Definition store_ok (s : store) : Prop :=
  (forall bucket key, object_ok key (object_rows s bucket key))
  /\ (forall uploadId n, part_ok (part_rows s uploadId n)).

(** The headers that [getObject] builds from the first row of an object. *)
Definition object_headers `{Runtime} (row : object_row) : headers :=
  {| ContentType := Some (o_content_type row);
     ContentLength := Some (number_toString (o_size row));
     ETag := Some (quoted (o_etag row));
     LastModified := Some (toUTCString (o_last_modified row)) |}.

(** The first row that [putObject] writes. *)
Definition put_first_row `{Runtime} (bucket key : jsstring) (req : request)
  : object_row :=
  {| o_bucket := bucket; o_key := key; o_chunk_index := 0;
     o_size := len (arrayBuffer req); o_etag := MD5_hex (arrayBuffer req);
     o_last_modified := now req;
     o_content_type :=
       or_default (h_content_type req) (js "application/octet-stream");
     o_data := hd [] (chunks_of (arrayBuffer req));
     o_depth := Some (computeDepth key);
     o_parent := Some (computeParent key) |}.

(** All the rows that [putObject] writes. *)
Definition put_rows `{Runtime} (bucket key : jsstring) (req : request)
  : list object_row :=
  put_first_row bucket key req
  :: number_rows (rest_row bucket key) 1 (tl (chunks_of (arrayBuffer req))).

(** No row of the object has an index from [i] on. *)
Definition object_free_from (s : store) (bucket key : jsstring) (i : Z) : Prop :=
  forall r, In r (objects s) -> object_at bucket key r = true ->
            o_chunk_index r < i.

Definition part_free_from (s : store) (uploadId : jsstring) (n i : Z) : Prop :=
  forall r, In r (multipart_parts s) -> part_at uploadId n r = true ->
            p_chunk_index r < i.

(** The rows that [uploadPart] writes. *)
Definition upload_first_row `{Runtime} (uploadId : jsstring) (n : Z)
           (req : request) : part_row :=
  {| p_upload_id := uploadId; p_part_number := n; p_chunk_index := 0;
     p_size := len (arrayBuffer req); p_etag := MD5_hex (arrayBuffer req);
     p_data := hd [] (chunks_of (arrayBuffer req)) |}.

Definition upload_rows `{Runtime} (uploadId : jsstring) (n : Z) (req : request)
  : list part_row :=
  upload_first_row uploadId n req
  :: number_rows (rest_part uploadId n) 1 (tl (chunks_of (arrayBuffer req))).

(** The row that [completeMultipartUpload] writes at index [i]. *)
Definition complete_row (bucket key : jsstring) (totalSize : Z)
           (etag lastModified contentType : jsstring) (i : Z) (d : bytes)
  : object_row :=
  if i =? 0 then
    {| o_bucket := bucket; o_key := key; o_chunk_index := i;
       o_size := totalSize; o_etag := etag; o_last_modified := lastModified;
       o_content_type := contentType; o_data := d;
       o_depth := Some (computeDepth key);
       o_parent := Some (computeParent key) |}
  else rest_row bucket key i d.

(** The first rows of the parts of an upload, by part number: the result
    of [select_parts]. *)
Definition upload_parts (s : store) (uploadId : jsstring) : list part_row :=
  sort_by (fun a b => p_part_number a <=? p_part_number b)
          (filter (fun r => str_eqb (p_upload_id r) uploadId
                            && (p_chunk_index r =? 0))
                  (multipart_parts s)).

(** The chunks of a part in the order of [select_part_chunks]. *)
Definition part_chunks (s : store) (uploadId : jsstring) (n : Z) : list bytes :=
  map p_data (sort_by (fun a b => p_chunk_index a <=? p_chunk_index b)
                      (part_rows s uploadId n)).

(** The chunks that [completeMultipartUpload] copies, in order. *)
Definition assembled_chunks (s : store) (uploadId : jsstring)
           (parts : list part_row) : list bytes :=
  flat_map (fun part => part_chunks s uploadId (p_part_number part)) parts.

Definition complete_etag (req : request) (parts : list part_row) : jsstring :=
  remove_dashes (randomUUID req) ++ js "-" ++ number_toString (len parts).

Definition total_size (parts : list part_row) : Z :=
  fold_left (fun acc part => acc + p_size part) parts 0.

(** The store after a successful [completeMultipartUpload]. *)
Definition completed_store (s : store) (bucket key uploadId : jsstring)
           (req : request) (contentType : jsstring) : store :=
  let parts := upload_parts s uploadId in
  {| objects :=
       filter (fun r => negb (object_at bucket key r)) (objects s)
       ++ number_rows
            (complete_row bucket key (total_size parts)
                          (complete_etag req parts) (now req) contentType)
            0 (assembled_chunks s uploadId parts);
     multipart_uploads :=
       filter (fun r => negb (str_eqb (u_upload_id r) uploadId))
              (multipart_uploads s);
     multipart_parts :=
       filter (fun r => negb (str_eqb (p_upload_id r) uploadId))
              (multipart_parts s);
     webSocketClients := webSocketClients s;
     next_ws := next_ws s;
     sent := sent s |}.

(** Every part of the upload follows the chunk discipline. *)
Definition parts_ok_at (s : store) (uploadId : jsstring) : Prop :=
  forall n, part_ok (part_rows s uploadId n).

(** A session of uploads: the store after [uploadPart] was called, in
    order, for each pair of a part number and a request. *)
Definition run_uploads `{Runtime} (bucket key uploadId : jsstring)
           (uploads : list (Z * request)) (s : store) : store :=
  fold_left (fun st nr =>
               state_after (uploadPart bucket key uploadId (Some (fst nr)) (snd nr)) st)
            uploads s.

(** The request that uploaded part [n] last. *)
Fixpoint last_upload (uploads : list (Z * request)) (n : Z) : option request :=
  match uploads with
  | [] => None
  | (m, r) :: rest =>
      match last_upload rest n with
      | Some r' => Some r'
      | None => if m =? n then Some r else None
      end
  end.

(** The part numbers of a session, ascending, each once. *)
Definition uploaded_numbers (uploads : list (Z * request)) : list Z :=
  sort_by Z.leb (nodup Z.eq_dec (map fst uploads)).

(** The bytes of part [n]: those of its last upload. *)
Definition uploaded_body (uploads : list (Z * request)) (n : Z) : bytes :=
  match last_upload uploads n with
  | Some r => arrayBuffer r
  | None => []
  end.

(** The parts' bytes put end to end in ascending order of part number. *)
Definition parts_concatenated (uploads : list (Z * request)) : bytes :=
  concat (map (uploaded_body uploads) (uploaded_numbers uploads)).

(** The identifier is not in use: no session and no part row carries it. *)
Definition fresh_upload_id (s : store) (uploadId : jsstring) : Prop :=
  (forall r, In r (multipart_uploads s) -> u_upload_id r <> uploadId)
  /\ (forall r, In r (multipart_parts s) -> p_upload_id r <> uploadId).

(** The part numbers that have a first row, in table order. *)
Definition part_numbers (s : store) (uploadId : jsstring) : list Z :=
  map p_part_number
      (filter (fun r => str_eqb (p_upload_id r) uploadId && (p_chunk_index r =? 0))
              (multipart_parts s)).

(** A computation keeps the invariant of the store, whether it returns or
    throws. *)
Definition preserves {A} (m : M A) : Prop :=
  forall s, store_ok s -> store_ok (state_after m s).

(** The states that the Durable Object can be in: it starts empty, and
    moves by serving a request or by the closing of a socket. *)
Inductive reachable `{Runtime} : store -> Prop :=
| reachable_empty : reachable empty_store
| reachable_fetch (s : store) (req : request) :
    reachable s -> reachable (state_after (fetch req) s)
| reachable_close (s : store) (w : ws) :
    reachable s -> reachable (state_after (on_close_or_error w) s).

(** The row that [copyObject] writes for a chunk of the source. *)
Definition copy_row (bucket destKey : jsstring) (sourceMeta : object_row)
           (lastModified : jsstring) (chunk : object_row) : object_row :=
  if o_chunk_index chunk =? 0 then
    {| o_bucket := bucket; o_key := destKey; o_chunk_index := 0;
       o_size := o_size sourceMeta; o_etag := o_etag sourceMeta;
       o_last_modified := lastModified;
       o_content_type := o_content_type sourceMeta;
       o_data := o_data chunk;
       o_depth := Some (computeDepth destKey);
       o_parent := Some (computeParent destKey) |}
  else
    {| o_bucket := bucket; o_key := destKey;
       o_chunk_index := o_chunk_index chunk; o_size := 0;
       o_etag := []; o_last_modified := []; o_content_type := [];
       o_data := o_data chunk; o_depth := None; o_parent := None |}.

(** The part of [copyObject] that follows the parsing of the header: the
    source is [(bucket, sourceKey)]. *)
Definition copy_from `{Runtime} (bucket destKey sourceKey : jsstring)
           (req : request) : M response :=
  metaRows <- select_object_meta bucket sourceKey ;;
  match metaRows with
  | [] => ret (errorResponse (js "NoSuchKey")
                             (js "The specified source key does not exist.") 404)
  | sourceMeta :: _ =>
      let lastModified := now req in
      delete_object_rows bucket destKey ;;
      chunks <- select_object_chunks bucket sourceKey ;;
      let depth := computeDepth destKey in
      let parent := computeParent destKey in
      for_each chunks (fun chunk =>
        if o_chunk_index chunk =? 0 then
          insert_object
            {| o_bucket := bucket; o_key := destKey;
               o_chunk_index := 0; o_size := o_size sourceMeta;
               o_etag := o_etag sourceMeta;
               o_last_modified := lastModified;
               o_content_type := o_content_type sourceMeta;
               o_data := o_data chunk;
               o_depth := Some depth; o_parent := Some parent |}
        else
          insert_object
            {| o_bucket := bucket; o_key := destKey;
               o_chunk_index := o_chunk_index chunk; o_size := 0;
               o_etag := []; o_last_modified := [];
               o_content_type := []; o_data := o_data chunk;
               o_depth := None; o_parent := None |}) ;;
      ret {| status := 200; resp_headers := xml_headers;
             resp_body := CopyObjectResult lastModified
                            (quoted (o_etag sourceMeta)) |}
  end.

(** The source key named by the header [x-amz-copy-source], when the
    header names an object of [bucket] and decodes. *)
Definition copy_source_key `{Runtime} (bucket copySource : jsstring)
  : option jsstring :=
  let sourcePath :=
    if startsWith copySource (js "/") then slice_from copySource 1
    else copySource in
  let slashIndex := indexOf sourcePath (js "/") in
  if slashIndex =? -1 then None
  else if str_eqb (slice sourcePath 0 slashIndex) bucket
       then decodeURIComponent (slice_from sourcePath (slashIndex + 1))
       else None.

(* ================================================================== *)
(** * The chunk layout of stored objects *)

(** [ceil(a / b)] *)
Definition ceil_div (a b : Z) : Z := (a + b - 1) / b.

(** The total size of an object: the size kept on its row of index 0. *)
Definition object_size (s : store) (bucket key : jsstring) : option Z :=
  match filter (fun r => object_at bucket key r && (o_chunk_index r =? 0))
               (objects s) with
  | r :: _ => Some (o_size r)
  | [] => None
  end.

(** The indices from 1 on of the rows of an object, ascending. *)
Definition higher_indices (s : store) (bucket key : jsstring) : list Z :=
  filter (fun i => 1 <=? i)
         (sort_by Z.leb (map o_chunk_index (object_rows s bucket key))).

(** The layout that the specification states: rows of index 1 and more
    only above [CHUNK_SIZE], and then exactly
    [1 .. ceil(size / CHUNK_SIZE) - 1]. *)
Definition dense_by_size (s : store) : Prop :=
  forall bucket key size,
    object_size s bucket key = Some size ->
    higher_indices s bucket key <> [] ->
    CHUNK_SIZE < size
    /\ higher_indices s bucket key
       = zseq 1 (Z.to_nat (ceil_div size CHUNK_SIZE - 1)).

(** The layout that the engine keeps: the rows of index 1 and more are
    [1 .. n - 1] for the number [n] of rows of the object, no chunk exceeds
    [CHUNK_SIZE], and the chunks hold [size] bytes together; hence
    [n >= ceil(size / CHUNK_SIZE)]. *)
Definition dense_by_rows (s : store) : Prop :=
  forall bucket key size,
    object_size s bucket key = Some size ->
    let rows := object_rows s bucket key in
    (1 <= List.length rows)%nat
    /\ higher_indices s bucket key = zseq 1 (List.length rows - 1)
    /\ Forall (fun r => len (o_data r) <= CHUNK_SIZE) rows
    /\ size = len (concat (map o_data rows))
    /\ ceil_div size CHUNK_SIZE <= Z.of_nat (List.length rows).

(* ================================================================== *)
(** * A platform for the examples *)

(** Base64 as [atob] reads it. *)
Definition base64_value (c : N) : option N :=
  (if (65 <=? c) && (c <=? 90) then Some (c - 65)
   else if (97 <=? c) && (c <=? 122) then Some (c - 71)
   else if (48 <=? c) && (c <=? 57) then Some (c + 4)
   else if c =? 43 then Some 62
   else if c =? 47 then Some 63
   else None)%N.

Fixpoint base64_values (s : jsstring) : option (list N) :=
  match s with
  | [] => Some []
  | c :: s' =>
      match base64_value c, base64_values s' with
      | Some v, Some vs => Some (v :: vs)
      | _, _ => None
      end
  end.

Fixpoint base64_groups (fuel : nat) (vs : list N) : option jsstring :=
  match fuel with
  | O => Some []
  | S fuel' =>
      match vs with
      | [] => Some []
      | [_] => None
      | [a; b] => Some [(a * 4 + b / 16)%N]
      | [a; b; c] => Some [(a * 4 + b / 16)%N; ((b mod 16) * 16 + c / 4)%N]
      | a :: b :: c :: d :: rest =>
          option_map
            (fun tail => (a * 4 + b / 16)%N :: ((b mod 16) * 16 + c / 4)%N
                         :: ((c mod 4) * 64 + d)%N :: tail)
            (base64_groups fuel' rest)
      end
  end.

Definition strip_padding (s : jsstring) : jsstring :=
  if (Z.of_nat (List.length s) mod 4 =? 0) then
    match rev s with
    | 61%N :: 61%N :: r => rev r
    | 61%N :: r => rev r
    | _ => s
    end
  else s.

Definition demo_atob (s : jsstring) : option jsstring :=
  let s := strip_padding (filter (fun c => negb (is_blank c)) s) in
  match base64_values s with
  | Some vs => base64_groups (List.length vs) vs
  | None => None
  end.

(** The one token that the platform of the examples has issued, for the
    bucket [b]. *)
Definition demo_claims : list (jsstring * json) :=
  [(js "sub", JStr (js "t")); (js "bucket", JStr (js "b"))].

Definition demo_token : jsstring := js "e30.eyJzdWIiOiJ0IiwiYnVja2V0IjoiYiJ9.c2ln".

(** The platform of the examples.  The digest, the dates and the
    collation are stand-ins (no example depends on their values);
    [decodeURIComponent] is exact on strings without [%] and rejects the
    others; [JSON.parse] reads the payload of [demo_token] and rejects
    every other text; [jwtVerify] accepts [demo_token] under the default
    secret and nothing else. *)
Definition demo_runtime : Runtime :=
  {| MD5_hex := fun _ => js "d41d8cd98f00b204e9800998ecf8427e";
     toUTCString := fun s => s;
     toISOString := fun s => s;
     localeCompare := fun a b =>
       match str_compare a b with Lt => -1 | Eq => 0 | Gt => 1 end;
     decodeURIComponent := fun s =>
       if existsb (N.eqb 37) s then None else Some s;
     atob := demo_atob;
     JSON_parse := fun s =>
       if str_eqb s ([123%N; 34%N] ++ js "sub" ++ [34%N; 58%N; 34%N]
                          ++ js "t" ++ [34%N; 44%N; 34%N] ++ js "bucket"
                          ++ [34%N; 58%N; 34%N] ++ js "b" ++ [34%N; 125%N])
       then Some (JObj demo_claims)
       else None;
     jwtVerify := fun token secret =>
       if str_eqb token demo_token
          && str_eqb secret (js "demo-secret-change-in-production")
       then Some demo_claims else None;
     S3_JWT_SECRET := None |}.

(** A request with the given method, path, query and body, sent with the
    development token. *)
Definition demo_request (m path : String.string)
           (query : list (jsstring * jsstring)) (body : bytes) : request :=
  {| method := js m; pathname := js path; search := [];
     searchParams := query;
     h_Upgrade := None; h_Authorization := Some (js "Bearer foo");
     h_content_type := None; h_x_amz_copy_source := None;
     arrayBuffer := body;
     now := js "2024-01-01T00:00:00.000Z";
     randomUUID := js "123e4567-e89b-12d3-a456-426614174000";
     elapsed := 1; now_after := js "2024-01-01T00:00:00.001Z";
     send_throws := fun _ => false |}.

(** The store after the requests, served in order from the empty store. *)
Definition serve `{Runtime} (reqs : list request) : store :=
  fold_left (fun s req => state_after (fetch req) s) reqs empty_store.

(** A multipart upload of two parts of one byte each. *)
Definition two_small_parts : list request :=
  let id := js "123e4567-e89b-12d3-a456-426614174000" in
  [ demo_request "POST" "/b/k" [(js "uploads", [])] [];
    demo_request "PUT" "/b/k" [(js "uploadId", id); (js "partNumber", js "1")]
                 [Byte.x61];
    demo_request "PUT" "/b/k" [(js "uploadId", id); (js "partNumber", js "2")]
                 [Byte.x62];
    demo_request "POST" "/b/k" [(js "uploadId", id)] [] ].

(** The requests of a session on the empty store: the creation, two
    uploads and the completion. *)
Definition demo_create : request :=
  demo_request "POST" "/b/k" [(js "uploads", [])] [].

Definition demo_uploads : list (Z * request) :=
  [ (1, demo_request "PUT" "/b/k" [] [Byte.x61]);
    (2, demo_request "PUT" "/b/k" [] [Byte.x62]) ].

Definition demo_complete : request := demo_request "POST" "/b/k" [] [].

(** [PUT /b/k] with a body of one byte, and [PUT /b/k] with the header
    [x-amz-copy-source: /b/k]. *)
Definition demo_put : request := demo_request "PUT" "/b/k" [] [Byte.x61].

Definition demo_self_copy : request :=
  {| method := js "PUT"; pathname := js "/b/k"; search := [];
     searchParams := [];
     h_Upgrade := None; h_Authorization := Some (js "Bearer foo");
     h_content_type := None; h_x_amz_copy_source := Some (js "/b/k");
     arrayBuffer := [];
     now := js "2024-01-01T00:00:01.000Z";
     randomUUID := js "123e4567-e89b-12d3-a456-426614174001";
     elapsed := 1; now_after := js "2024-01-01T00:00:01.001Z";
     send_throws := fun _ => false |}.

Definition demo_get : request := demo_request "GET" "/b/k" [] [].

(* ================================================================== *)
(** * Requests as [fetch] reads them *)

Definition is_upgrade (req : request) : bool :=
  match h_Upgrade req with
  | Some v => str_eqb v (js "websocket")
  | None => false
  end.

(** The bucket of a request: the first non-empty segment of the path. *)
Definition request_bucket (req : request) : option jsstring :=
  match filter nonempty (split_on slash (pathname req)) with
  | bucket :: _ => Some bucket
  | [] => None
  end.

(** The token that [fetch] takes from the [Authorization] header. *)
Definition request_token (req : request) : option jsstring :=
  if negb (truthy_opt (h_Authorization req)) then None
  else
    let authHeader := or_default (h_Authorization req) [] in
    if startsWith authHeader (js "Bearer ") then Some (slice_from authHeader 7)
    else if startsWith authHeader (js "AWS4-HMAC-SHA256")
         then credentialMatch authHeader
         else None.

(** The request passes the verification of its token for [bucket]: it is
    not an upgrade, it carries a token other than the development token,
    of three segments, whose payload decodes to JSON with a truthy [sub],
    and [verifyToken] accepts it with a [bucket] claim equal to [bucket]. *)
Definition authenticated `{Runtime} (req : request) (bucket : jsstring) : Prop :=
  is_upgrade req = false
  /\ request_bucket req = Some bucket
  /\ exists token header payload signature decoded payloadJson claims,
       request_token req = Some token
       /\ str_eqb token (js "foo") = false
       /\ split_on dot token = [header; payload; signature]
       /\ atob payload = Some decoded
       /\ JSON_parse decoded = Some payloadJson
       /\ sub_truthy payloadJson = Returned true
       /\ verifyToken token
            [or_default S3_JWT_SECRET (js "demo-secret-change-in-production")]
          = Some claims
       /\ t_bucket claims = Some (JStr bucket).

(** The event that [fetch] broadcasts for a response. *)
Definition event_of (req : request) (response : response) : request_info :=
  {| i_method := method req;
     i_path := pathname req ++ search req;
     i_status := status response;
     i_duration := elapsed req;
     i_timestamp := now_after req |}.

(** The store after [broadcastRequestInfo]: the event is delivered to the
    subscribers whose [send] does not throw, the others are removed. *)
Definition broadcast_store (throws : ws -> bool) (info : request_info)
           (s : store) : store :=
  {| objects := objects s; multipart_uploads := multipart_uploads s;
     multipart_parts := multipart_parts s;
     webSocketClients := filter (fun w => negb (throws w)) (webSocketClients s);
     next_ws := next_ws s;
     sent := sent s ++ map (fun w => (w, info))
                           (filter (fun w => negb (throws w)) (webSocketClients s)) |}.

(** The property that the specification states of every request that is
    not an upgrade: whatever the response, its event reaches every
    subscriber whose [send] does not throw. *)
Definition broadcast_to_all `{Runtime} (req : request) (s : store) : Prop :=
  forall response s',
    fetch req s = (Returned response, s') ->
    forall w, In w (webSocketClients s) -> send_throws req w = false ->
              In (w, event_of req response) (sent s').

(** An upgrade request without credentials, a request without
    [Authorization] header, one with a token whose payload segment is not
    base64, and one with the token of the examples. *)
Definition demo_upgrade : request :=
  {| method := js "GET"; pathname := js "/b"; search := [];
     searchParams := [];
     h_Upgrade := Some (js "websocket"); h_Authorization := None;
     h_content_type := None; h_x_amz_copy_source := None;
     arrayBuffer := [];
     now := js "2024-01-01T00:00:00.000Z";
     randomUUID := js "123e4567-e89b-12d3-a456-426614174002";
     elapsed := 0; now_after := js "2024-01-01T00:00:00.000Z";
     send_throws := fun _ => false |}.

Definition with_authorization (req : request) (h : option jsstring) : request :=
  {| method := method req; pathname := pathname req; search := search req;
     searchParams := searchParams req;
     h_Upgrade := h_Upgrade req; h_Authorization := h;
     h_content_type := h_content_type req;
     h_x_amz_copy_source := h_x_amz_copy_source req;
     arrayBuffer := arrayBuffer req; now := now req;
     randomUUID := randomUUID req; elapsed := elapsed req;
     now_after := now_after req; send_throws := send_throws req |}.

Definition demo_anonymous : request := with_authorization demo_get None.

Definition demo_bad_payload : request :=
  with_authorization demo_get (Some (js "Bearer a.!.c")).

Definition demo_signed : request :=
  with_authorization demo_get (Some (js "Bearer " ++ demo_token)).

(* ================================================================== *)
(** * Listings as the specification states them *)

(** The keys of the objects of a bucket, in table order. *)
Definition bucket_keys (s : store) (bucket : jsstring) : list jsstring :=
  map o_key (filter (listed bucket) (objects s)).

Definition has_slash (k : jsstring) : bool := existsb (N.eqb slash) k.

(** What precedes the first ["/"] of a key. *)
Fixpoint first_segment (k : jsstring) : jsstring :=
  match k with
  | [] => []
  | c :: k' => if N.eqb c slash then [] else c :: first_segment k'
  end.

(** The listing that the specification states for the delimiter ["/"] and
    no prefix: the keys without ["/"] as contents, and the first segments
    of the other keys, with ["/"], as common prefixes. *)
Definition slash_listing_as_specified (keys : list jsstring)
           (r : list_bucket_result) : Prop :=
  (forall k, In k (map c_Key (l_Contents r))
             <-> In k keys /\ has_slash k = false)
  /\ (forall p, In p (l_CommonPrefixes r)
                <-> exists k, In k keys /\ has_slash k = true
                              /\ p = first_segment k ++ js "/").

(** [PUT /b/dir/] with an empty body, and [GET /b?delimiter=%2F]. *)
Definition demo_put_marker : request := demo_request "PUT" "/b/dir/" [] [].

Definition demo_list_slash : request :=
  demo_request "GET" "/b" [(js "delimiter", js "/")] [].

(** Objects [a], [dir/] and [dir/f] in the bucket [b]. *)
Definition demo_tree_puts : list request :=
  [ demo_request "PUT" "/b/a" [] [Byte.x61];
    demo_put_marker;
    demo_request "PUT" "/b/dir/f" [] [Byte.x62] ].

(** A key made of [%], the code unit 0xFFFF and [a], and the prefix made
    of its first two units. *)
Definition demo_odd_key : jsstring := [37; 65535; 97]%N.
Definition demo_odd_prefix : jsstring := [37; 65535]%N.

(** A parent column that holds a non-empty string. *)
Definition nonroot (o : option jsstring) : bool :=
  match o with Some p => nonempty p | None => false end.

(** The contents and the prefixes of [allResults], as [listObjectsV2]
    splits them. *)
Definition contents_of (items : list list_item) : list object_row :=
  flat_map (fun i => match i with
                     | ContentItem _ d => [d]
                     | PrefixItem _ => []
                     end) items.

Definition prefixes_of (items : list list_item) : list jsstring :=
  flat_map (fun i => match i with
                     | PrefixItem v => [v]
                     | ContentItem _ _ => []
                     end) items.

(** The key without its trailing ["/"], if it has one (the [trimmed] of
    [computeParent]). *)
Definition without_trailing_slash (key : jsstring) : jsstring :=
  if endsWith key (js "/") then slice key 0 (-1) else key.

(* ================================================================== *)
(** * Relations between the store before and after a computation *)

(** A computation moves the store along [R], whether it returns or
    throws. *)
Definition steady (R : store -> store -> Prop) {A} (m : M A) : Prop :=
  forall s, R s (state_after m s).

(** The three tables are the same. *)
Definition same_tables (s s' : store) : Prop :=
  objects s' = objects s
  /\ multipart_uploads s' = multipart_uploads s
  /\ multipart_parts s' = multipart_parts s.

(** The subscribers, the numbering of the sockets and the messages
    delivered are the same. *)
Definition same_sockets (s s' : store) : Prop :=
  webSocketClients s' = webSocketClients s
  /\ next_ws s' = next_ws s
  /\ sent s' = sent s.

(** Every object other than [(bucket, key)] has the same rows. *)
Definition same_other_objects (bucket key : jsstring) (s s' : store) : Prop :=
  forall bucket' key', (bucket', key') <> (bucket, key) ->
    object_rows s' bucket' key' = object_rows s bucket' key'.

(** Every object of a bucket other than [bucket] has the same rows. *)
Definition same_other_buckets (bucket : jsstring) (s s' : store) : Prop :=
  forall bucket' key', bucket' <> bucket ->
    object_rows s' bucket' key' = object_rows s bucket' key'.

(* ================================================================== *)
(** * Access *)

(** The secrets that [fetch] hands to [verifyToken]. *)
Definition fetch_secrets `{Runtime} : list jsstring :=
  [or_default S3_JWT_SECRET (js "demo-secret-change-in-production")].

(** The request names a bucket and carries the development token, or a
    token that [verifyToken] accepts with a [bucket] claim equal to that
    bucket. *)
Definition authorized `{Runtime} (req : request) : Prop :=
  exists bucket token,
    request_bucket req = Some bucket
    /\ request_token req = Some token
    /\ (token = js "foo"
        \/ exists claims,
             verifyToken token fetch_secrets = Some claims
             /\ t_bucket claims = Some (JStr bucket)).

(** [GET /c/k] with the token of the examples, which is for the bucket
    [b]. *)
Definition demo_signed_elsewhere : request :=
  with_authorization (demo_request "GET" "/c/k" [] [])
                     (Some (js "Bearer " ++ demo_token)).

(** [PUT /b/other] with a body of one byte. *)
Definition demo_put_other : request :=
  demo_request "PUT" "/b/other" [] [Byte.x62].

(** [PUT /b/k2] with the header [x-amz-copy-source: /b/k], and the same
    for a source that does not exist. *)
Definition demo_copy (source : String.string) : request :=
  {| method := js "PUT"; pathname := js "/b/k2"; search := [];
     searchParams := [];
     h_Upgrade := None; h_Authorization := Some (js "Bearer foo");
     h_content_type := None; h_x_amz_copy_source := Some (js source);
     arrayBuffer := [];
     now := js "2024-01-01T00:00:02.000Z";
     randomUUID := js "123e4567-e89b-12d3-a456-426614174003";
     elapsed := 1; now_after := js "2024-01-01T00:00:02.001Z";
     send_throws := fun _ => false |}.

(* ================================================================== *)
(** * Listings *)

(** The code points of a string: a surrogate pair stands for the code
    point above U+FFFF that it encodes. *)
Fixpoint code_points (s : jsstring) : list N :=
  match s with
  | [] => []
  | c :: s' =>
      if is_high_surrogate c then
        match s' with
        | d :: s'' =>
            (0x10000 + (c - 0xD800) * 0x400 + (d - 0xDC00))%N :: code_points s''
        | [] => [c]
        end
      else c :: code_points s'
  end.

(** The lexicographic order of the code points, which is the order of
    the bytes of the UTF-8 encoding. *)
Fixpoint cp_compare (a b : list N) : comparison :=
  match a, b with
  | [], [] => Eq
  | [], _ :: _ => Lt
  | _ :: _, [] => Gt
  | x :: a', y :: b' =>
      match N.compare x y with
      | Eq => cp_compare a' b'
      | c => c
      end
  end.

Definition cp_leb (a b : jsstring) : bool :=
  match cp_compare (code_points a) (code_points b) with
  | Gt => false
  | _ => true
  end.

(** A prefix whose last unit [c] is followed by [c + 1] in the order of
    the code points: every last unit but 0xD7FF (the last before the
    surrogates), 0xDFFF (the last surrogate) and 0xFFFF. *)
Definition literal_prefix (prefix : jsstring) : bool :=
  match last_opt prefix with
  | Some c => (c <? 0xFFFF)%N && negb (N.eqb c 0xD7FF) && negb (N.eqb c 0xDFFF)
  | None => true
  end.

(** The keys of the bucket in the range of the prefix, as SQLite orders
    them. *)
Definition keys_in_range (s : store) (bucket prefix : jsstring) : list jsstring :=
  sort_by str_leb (filter (in_prefix_range prefix) (bucket_keys s bucket)).

(** The keys of the bucket that start with the prefix, in the order of
    their code points. *)
Definition keys_with_prefix (s : store) (bucket prefix : jsstring)
  : list jsstring :=
  sort_by cp_leb (filter (fun k => startsWith k prefix) (bucket_keys s bucket)).

(** Three objects of one byte, [a], [b] and [c], in the bucket [b], and
    the listing of the bucket two keys at a time. *)
Definition demo_three_puts : list request :=
  [ demo_request "PUT" "/b/c" [] [Byte.x63];
    demo_request "PUT" "/b/a" [] [Byte.x61];
    demo_request "PUT" "/b/b" [] [Byte.x62] ].

Definition demo_page_params : list (jsstring * jsstring) :=
  [(js "max-keys", js "2")].

(** [max-keys=9223372036854775807], which [parseInt] reads as 2^63. *)
Definition demo_huge_params : list (jsstring * jsstring) :=
  [(js "max-keys", js "9223372036854775807")].

(** A first row of an object of the bucket, in the table. *)
Definition listed_in (s : store) (bucket : jsstring) (r : object_row) : Prop :=
  In r (objects s) /\ listed bucket r = true.

(** [GET /b?delimiter=%2F&max-keys=0]. *)
Definition demo_zero_params : list (jsstring * jsstring) :=
  [(js "delimiter", js "/"); (js "max-keys", js "0")].

(** The common prefix that the generic delimiter path derives from a key:
    the prefix and what follows it in the key up to the first occurrence
    of the delimiter, with the first unit of that occurrence; [None] when
    the delimiter does not occur there.  (For a delimiter of one unit this
    is the key up to and including the first delimiter after the prefix;
    of a longer delimiter the code keeps the first unit only.) *)
Definition common_prefix_of (prefix delimiter key : jsstring) : option jsstring :=
  let keyAfterPrefix := slice_from key (len prefix) in
  let delimiterIndex := indexOf keyAfterPrefix delimiter in
  if 0 <=? delimiterIndex
  then Some (prefix ++ slice keyAfterPrefix 0 (delimiterIndex + 1))
  else None.

(** [d] occurs in [s]; [before] is what [s] holds before the first
    occurrence of [d]. *)
Definition occurs_in (d s : jsstring) : Prop :=
  exists a b, s = a ++ d ++ b.

Definition before_first (d s before : jsstring) : Prop :=
  (exists rest, s = before ++ d ++ rest)
  /\ forall a b, s = a ++ d ++ b -> len before <= len a.

(** Objects [a-1], [a-2] and [b] in the bucket [b], and the listing with
    the delimiter ["-"]. *)
Definition demo_dash_puts : list request :=
  [ demo_request "PUT" "/b/a-1" [] [Byte.x61];
    demo_request "PUT" "/b/b" [] [Byte.x62];
    demo_request "PUT" "/b/a-2" [] [Byte.x63] ].

Definition demo_dash_params : list (jsstring * jsstring) :=
  [(js "delimiter", js "-")].

(** The order of the listing of uploads: by key, then by upload id, both
    in the order of their code points. *)
Definition upload_entry_le (a b : upload_entry) : Prop :=
  (m_Key a <> m_Key b /\ cp_leb (m_Key a) (m_Key b) = true)
  \/ (m_Key a = m_Key b /\ cp_leb (m_UploadId a) (m_UploadId b) = true).

(* ================================================================== *)
(** * Text in XML documents *)

(** [s.replace(/c/g, r)] for a pattern of one unit [c] and a replacement
    [r] without [$]. *)
Definition replace_all (c : N) (r : jsstring) (s : jsstring) : jsstring :=
  flat_map (fun x => if N.eqb x c then r else [x]) s.

Definition escapeXml (unsafe : jsstring) : jsstring :=
  replace_all 39 (js "&apos;")
    (replace_all 34 (js "&quot;")
       (replace_all 62 (js "&gt;")
          (replace_all 60 (js "&lt;")
             (replace_all 38 (js "&amp;") unsafe)))).

(** The text that stands for one unit: an entity for [&], [<], [>],
    the double quote and the apostrophe, the unit itself otherwise. *)
Definition escaped_unit (c : N) : jsstring :=
  if N.eqb c 38 then js "&amp;"
  else if N.eqb c 60 then js "&lt;"
  else if N.eqb c 62 then js "&gt;"
  else if N.eqb c 34 then js "&quot;"
  else if N.eqb c 39 then js "&apos;"
  else [c].

(* ================================================================== *)
(** * The worker in front of the Durable Objects *)

(** The handlers that [Worker.fetch] chooses between. *)
Inductive route :=
| S3LogsWebSocket
| S3Request
| TerminalWebSocket
| ReactRouter.

(** [Worker.fetch]: the choice of the handler by [url.pathname]. *)
Definition worker_route (pathname : jsstring) : route :=
  if str_eqb pathname (js "/s3-logs-ws") then S3LogsWebSocket
  else if startsWith pathname (js "/s3-") then S3Request
  else if startsWith pathname (js "/ws") then TerminalWebSocket
  else ReactRouter.

(** [url.pathname.match(/^\/([^\/]+)/)]: the capture group, [None] when
    there is no match. *)
Definition path_match (pathname : jsstring) : option jsstring :=
  match pathname with
  | c :: rest =>
      if N.eqb c slash
      then let segment := first_segment rest in
           if nonempty segment then Some segment else None
      else None
  | [] => None
  end.

(** What [handleS3Request] does with a request: it answers 400 itself, or
    it hands the request to the S3 object of a name. *)
Inductive s3_forward :=
| InvalidS3Path
| ToS3 (name : jsstring).

Definition handleS3Request (pathname : jsstring) : s3_forward :=
  match path_match pathname with
  | None => InvalidS3Path
  | Some m => ToS3 (slice_from m 3)
  end.

(* ================================================================== *)
(** * The activity window *)

(** The state update of [S3Activity] for a message:
    [[request, ...prev].slice(0, 50)]; a message that [JSON.parse]
    rejects ([None]) leaves the state as it is. *)
Definition activity_onmessage {A} (prev : list A) (message : option A) : list A :=
  match message with
  | Some request => slice (request :: prev) 0 50
  | None => prev
  end.

(* ================================================================== *)
(** * Strings *)

Lemma str_eqb_eq (a b : jsstring) : str_eqb a b = true <-> a = b.
Proof.
  revert b; induction a as [|x a IH]; intros [|y b]; simpl;
    try (split; [discriminate|discriminate]); try tauto.
  rewrite andb_true_iff, N.eqb_eq, IH.
  split; [intros [-> ->]; reflexivity | intros H; inversion H; auto].
Qed.

Lemma str_eqb_refl (a : jsstring) : str_eqb a a = true.
Proof. apply str_eqb_eq; reflexivity. Qed.

Lemma str_eqb_neq (a b : jsstring) : str_eqb a b = false <-> a <> b.
Proof.
  rewrite <- str_eqb_eq. destruct (str_eqb a b); split; congruence.
Qed.

Lemma str_eqb_sym (a b : jsstring) : str_eqb a b = str_eqb b a.
Proof.
  destruct (str_eqb a b) eqn:E, (str_eqb b a) eqn:E'; auto.
  - apply str_eqb_eq in E; subst. now rewrite str_eqb_refl in E'.
  - apply str_eqb_eq in E'; subst. now rewrite str_eqb_refl in E.
Qed.

Lemma len_app {A} (l l' : list A) : len (l ++ l') = len l + len l'.
Proof. unfold len. rewrite length_app. lia. Qed.

Lemma len_nonneg {A} (l : list A) : 0 <= len l.
Proof. unfold len. lia. Qed.

Lemma len_map {A B} (f : A -> B) (l : list A) : len (map f l) = len l.
Proof. unfold len. now rewrite length_map. Qed.

Lemma len_nil {A} : len (@nil A) = 0.
Proof. reflexivity. Qed.

Lemma len_cons {A} (x : A) l : len (x :: l) = 1 + len l.
Proof. unfold len. simpl length. lia. Qed.

Lemma CHUNK_SIZE_pos : 0 < CHUNK_SIZE.
Proof. reflexivity. Qed.

(* ================================================================== *)
(** * Sorting *)

Lemma insert_by_head {A} (key : A -> Z) (x : A) (l : list A) :
  (forall y, In y l -> key x <= key y) ->
  insert_by (fun a b => key a <=? key b) x l = x :: l.
Proof.
  destruct l as [|y l]; simpl; auto.
  intros H.
  destruct (Z.leb_spec (key x) (key y)); auto.
  specialize (H y (or_introl eq_refl)). lia.
Qed.

(** A list whose keys ascend is left as it is. *)
Lemma sort_by_ascending {A} (key : A -> Z) (l : list A) :
  StronglySorted (fun a b => key a <= key b) l ->
  sort_by (fun a b => key a <=? key b) l = l.
Proof.
  induction 1 as [|x l Hs IH Hx]; simpl; auto.
  rewrite IH. apply insert_by_head.
  intros y Hy. rewrite Forall_forall in Hx. auto.
Qed.

Lemma zseq_ascending (start : Z) (n : nat) :
  StronglySorted Z.le (zseq start n).
Proof.
  revert start; induction n as [|n IH]; intros start; simpl; constructor; auto.
  assert (H : forall m s, Forall (fun z => s <= z) (zseq s m)).
  { clear. induction m as [|m IH]; intros s; simpl; constructor; try lia.
    eapply Forall_impl; [|apply (IH (s + 1))]. simpl; intros; lia. }
  eapply Forall_impl; [|apply (H n (start + 1))]. simpl; intros; lia.
Qed.

Lemma StronglySorted_map {A B} (f : A -> B) (R : B -> B -> Prop) (l : list A) :
  StronglySorted R (map f l) ->
  StronglySorted (fun a b => R (f a) (f b)) l.
Proof.
  induction l as [|x l IH]; simpl; intros H; constructor;
    inversion H as [|? ? Hs Hx]; subst; auto.
  rewrite Forall_forall in *. intros y Hy. apply Hx. now apply in_map.
Qed.

Lemma sort_by_indices {A} (idx : A -> Z) (l : list A) (start : Z) (n : nat) :
  map idx l = zseq start n ->
  sort_by (fun a b => idx a <=? idx b) l = l.
Proof.
  intros H. apply (sort_by_ascending idx).
  apply StronglySorted_map with (R := Z.le). rewrite H. apply zseq_ascending.
Qed.

(* ================================================================== *)
(** * Slices and chunks *)

Lemma slice_inside {A} (l : list A) (a b : Z) :
  0 <= a <= b -> b <= len l ->
  slice l a b = firstn (Z.to_nat (b - a)) (skipn (Z.to_nat a) l).
Proof.
  intros Ha Hb. unfold slice, rel_index.
  destruct (Z.ltb_spec a 0); [lia|].
  destruct (Z.ltb_spec b 0); [lia|].
  rewrite !Z.min_l by lia. reflexivity.
Qed.

Lemma firstn_skipn_step {A} (l : list A) (a n : nat) :
  firstn n (skipn a l) ++ skipn (a + n) l = skipn a l.
Proof.
  rewrite Nat.add_comm, <- skipn_skipn. apply firstn_skipn.
Qed.

Lemma loop_chunks_concat (data : bytes) :
  forall fuel offset,
    0 <= offset <= len data ->
    len data - offset <= Z.of_nat fuel * CHUNK_SIZE ->
    concat (loop_chunks fuel data (len data) offset)
    = skipn (Z.to_nat offset) data.
Proof.
  pose proof CHUNK_SIZE_pos as Hc.
  induction fuel as [|fuel IH]; intros offset Ho Hf.
  - simpl. assert (offset = len data) by lia. subst.
    unfold len. rewrite Nat2Z.id. now rewrite skipn_all.
  - cbn [loop_chunks]. destruct (Z.ltb_spec offset (len data)) as [Hlt|Hge].
    + cbn [concat].
      destruct (Z.le_gt_cases (offset + CHUNK_SIZE) (len data)) as [Hle|Hgt].
      * rewrite Z.min_l by lia. rewrite IH by lia.
        rewrite slice_inside by lia.
        replace (Z.to_nat (offset + CHUNK_SIZE))
          with (Z.to_nat offset + Z.to_nat (offset + CHUNK_SIZE - offset))%nat by lia.
        apply firstn_skipn_step.
      * rewrite Z.min_r by lia. rewrite slice_inside by lia.
        destruct fuel as [|fuel'].
        -- simpl. rewrite app_nil_r. apply firstn_all2.
           rewrite length_skipn. unfold len in *. lia.
        -- cbn [loop_chunks].
           destruct (Z.ltb_spec (offset + CHUNK_SIZE) (len data)); [lia|].
           simpl. rewrite app_nil_r. apply firstn_all2.
           rewrite length_skipn. unfold len in *. lia.
    + simpl. assert (offset = len data) by lia. subst.
      unfold len. rewrite Nat2Z.id. now rewrite skipn_all.
Qed.

Lemma slice_len_le {A} (l : list A) (a b : Z) :
  0 <= a -> 0 <= b -> len (slice l a b) <= Z.max 0 (b - a).
Proof.
  intros Ha Hb. unfold slice, rel_index, len.
  rewrite length_firstn.
  destruct (Z.ltb_spec a 0); [lia|].
  destruct (Z.ltb_spec b 0); lia.
Qed.

Lemma loop_chunks_bound (data : bytes) (size : Z) :
  forall fuel offset, 0 <= offset ->
    Forall (fun c => len c <= CHUNK_SIZE) (loop_chunks fuel data size offset).
Proof.
  pose proof CHUNK_SIZE_pos as Hc.
  induction fuel as [|fuel IH]; intros offset Ho; simpl; auto.
  destruct (Z.ltb_spec offset size); auto.
  constructor; [|apply IH; lia].
  pose proof (slice_len_le data offset (Z.min (offset + CHUNK_SIZE) size) Ho).
  lia.
Qed.

Lemma fuel_enough (size : Z) :
  0 <= size ->
  size - CHUNK_SIZE <= Z.of_nat (Z.to_nat (size / CHUNK_SIZE)) * CHUNK_SIZE.
Proof.
  intros Hs. pose proof CHUNK_SIZE_pos as Hc.
  rewrite Z2Nat.id by (apply Z.div_pos; lia).
  pose proof (Z.mul_succ_div_gt size CHUNK_SIZE Hc). lia.
Qed.

(** The slices stored for a body, put end to end, are the body. *)
Lemma chunks_of_concat (data : bytes) : concat (chunks_of data) = data.
Proof.
  pose proof CHUNK_SIZE_pos as Hc. pose proof (len_nonneg data) as Hn.
  unfold chunks_of. cbn [concat].
  destruct (Z.eqb_spec (len data) 0) as [H0|H0].
  - destruct (Z.ltb_spec CHUNK_SIZE (len data)); [lia|].
    destruct data; [reflexivity|]. rewrite len_cons in H0.
    pose proof (len_nonneg data). lia.
  - destruct (Z.ltb_spec CHUNK_SIZE (len data)) as [Hlt|Hge].
    + rewrite Z.min_l by lia. rewrite slice_inside by lia.
      rewrite loop_chunks_concat by (try apply fuel_enough; lia).
      simpl skipn at 1. rewrite Z.sub_0_r. apply firstn_skipn.
    + rewrite Z.min_r by lia. rewrite slice_inside by lia.
      simpl. rewrite !app_nil_r, Z.sub_0_r. apply firstn_all2.
      unfold len. lia.
Qed.

Lemma chunks_of_bound (data : bytes) :
  Forall (fun c => len c <= CHUNK_SIZE) (chunks_of data).
Proof.
  pose proof CHUNK_SIZE_pos as Hc.
  unfold chunks_of. constructor.
  - destruct (len data =? 0); [rewrite len_nil; lia|].
    pose proof (slice_len_le data 0 (Z.min CHUNK_SIZE (len data))).
    pose proof (len_nonneg data). lia.
  - destruct (CHUNK_SIZE <? len data); auto.
    apply loop_chunks_bound. lia.
Qed.

Lemma chunks_of_nonempty (data : bytes) : chunks_of data <> [].
Proof. unfold chunks_of. discriminate. Qed.

(* ================================================================== *)
(** * Numbered rows *)

Lemma number_rows_length {A} (mk : Z -> bytes -> A) i ds :
  List.length (number_rows mk i ds) = List.length ds.
Proof. revert i; induction ds; intros; simpl; auto. Qed.

Lemma number_rows_app {A} (mk : Z -> bytes -> A) i ds ds' :
  number_rows mk i (ds ++ ds')
  = number_rows mk i ds ++ number_rows mk (i + len ds) ds'.
Proof.
  revert i; induction ds as [|d ds IH]; intros i; simpl.
  - now rewrite len_nil, Z.add_0_r.
  - rewrite IH, len_cons. do 3 f_equal. lia.
Qed.

Lemma number_rows_indices {A} (mk : Z -> bytes -> A) (idx : A -> Z) i ds :
  (forall j d, idx (mk j d) = j) ->
  map idx (number_rows mk i ds) = zseq i (List.length ds).
Proof.
  intros H. revert i; induction ds as [|d ds IH]; intros i; simpl; auto.
  now rewrite H, IH.
Qed.

Lemma number_rows_data {A} (mk : Z -> bytes -> A) (dat : A -> bytes) i ds :
  (forall j d, dat (mk j d) = d) ->
  map dat (number_rows mk i ds) = ds.
Proof.
  intros H. revert i; induction ds as [|d ds IH]; intros i; simpl; auto.
  now rewrite H, IH.
Qed.

Lemma zseq_app (start : Z) (n m : nat) :
  zseq start (n + m) = zseq start n ++ zseq (start + Z.of_nat n) m.
Proof.
  revert start; induction n as [|n IH]; intros start.
  - simpl. now rewrite Z.add_0_r.
  - cbn [Nat.add zseq app]. rewrite IH. do 3 f_equal. lia.
Qed.

Lemma zseq_lower (start : Z) (n : nat) z : In z (zseq start n) -> start <= z.
Proof.
  revert start; induction n as [|n IH]; intros start; simpl; [tauto|].
  intros [<-|H]; [lia|]. apply IH in H. lia.
Qed.

(* ================================================================== *)
(** * Filters and tables *)

Lemma filter_delete_same {A} (P : A -> bool) (l : list A) :
  filter P (filter (fun r => negb (P r)) l) = [].
Proof.
  induction l as [|x l IH]; simpl; auto.
  destruct (P x) eqn:E; simpl; auto. now rewrite E.
Qed.

Lemma filter_delete_other {A} (P Q : A -> bool) (l : list A) :
  (forall r, P r = true -> Q r = false) ->
  filter P (filter (fun r => negb (Q r)) l) = filter P l.
Proof.
  intros H. induction l as [|x l IH]; simpl; auto.
  destruct (Q x) eqn:E; simpl.
  - destruct (P x) eqn:E'; auto. apply H in E'. congruence.
  - now rewrite IH.
Qed.

Lemma filter_all {A} (P : A -> bool) (l : list A) :
  Forall (fun r => P r = true) l -> filter P l = l.
Proof. induction 1 as [|x l Hx _ IH]; simpl; auto. now rewrite Hx, IH. Qed.

Lemma filter_none {A} (P : A -> bool) (l : list A) :
  Forall (fun r => P r = false) l -> filter P l = [].
Proof. induction 1 as [|x l Hx _ IH]; simpl; auto. now rewrite Hx. Qed.

Lemma filter_and {A} (P Q : A -> bool) (l : list A) :
  filter (fun r => P r && Q r) l = filter Q (filter P l).
Proof.
  induction l as [|x l IH]; simpl; auto.
  destruct (P x); simpl; auto. destruct (Q x); simpl; now rewrite IH.
Qed.

Lemma object_at_spec bucket key r :
  object_at bucket key r = true <-> o_bucket r = bucket /\ o_key r = key.
Proof. unfold object_at. now rewrite andb_true_iff, !str_eqb_eq. Qed.

Lemma part_at_spec uploadId n r :
  part_at uploadId n r = true <-> p_upload_id r = uploadId /\ p_part_number r = n.
Proof. unfold part_at. now rewrite andb_true_iff, str_eqb_eq, Z.eqb_eq. Qed.

Lemma object_at_other bucket key bucket' key' r :
  (bucket', key') <> (bucket, key) ->
  object_at bucket' key' r = true -> object_at bucket key r = false.
Proof.
  intros Hne H. apply object_at_spec in H as [Hb Hk].
  destruct (object_at bucket key r) eqn:E; auto.
  apply object_at_spec in E as [Hb' Hk']. congruence.
Qed.

Lemma part_at_other uploadId n uploadId' n' r :
  (uploadId', n') <> (uploadId, n) ->
  part_at uploadId' n' r = true -> part_at uploadId n r = false.
Proof.
  intros Hne H. apply part_at_spec in H as [Hb Hk].
  destruct (part_at uploadId n r) eqn:E; auto.
  apply part_at_spec in E as [Hb' Hk']. congruence.
Qed.

Lemma with_objects_same (s : store) : with_objects s (objects s) = s.
Proof. now destruct s. Qed.

Lemma with_parts_same (s : store) : with_parts s (multipart_parts s) = s.
Proof. now destruct s. Qed.

Lemma number_rows_at bucket key i ds :
  Forall (fun r => object_at bucket key r = true)
         (number_rows (rest_row bucket key) i ds).
Proof.
  revert i; induction ds as [|d ds IH]; intros i; simpl; constructor; auto.
  apply object_at_spec; auto.
Qed.

Lemma number_parts_at uploadId n i ds :
  Forall (fun r => part_at uploadId n r = true)
         (number_rows (rest_part uploadId n) i ds).
Proof.
  revert i; induction ds as [|d ds IH]; intros i; simpl; constructor; auto.
  apply part_at_spec; auto.
Qed.

(* ================================================================== *)
(** * putObject and getObject *)

Section EngineFacts.
Context {rt : Runtime}.

Lemma insert_object_fresh (r : object_row) (s : store) :
  object_free_from s (o_bucket r) (o_key r) (o_chunk_index r) ->
  insert_object r s = (Returned tt, with_objects s (objects s ++ [r])).
Proof.
  intros Hfree. unfold insert_object.
  destruct (existsb (same_object_pk r) (objects s)) eqn:E; auto.
  apply existsb_exists in E as (x & Hx & Hpk).
  unfold same_object_pk in Hpk. apply andb_true_iff in Hpk as [Hat Hi].
  apply Z.eqb_eq in Hi. specialize (Hfree x Hx Hat). lia.
Qed.

Lemma object_free_from_snoc s s' bucket key i r :
  object_free_from s bucket key i ->
  objects s' = objects s ++ [r] ->
  o_chunk_index r < i + 1 ->
  object_free_from s' bucket key (i + 1).
Proof.
  intros Hfree Hs' Hr x Hx Hat. rewrite Hs' in Hx.
  apply in_app_iff in Hx as [Hx|[<-|[]]].
  - specialize (Hfree x Hx Hat). lia.
  - exact Hr.
Qed.

Lemma putObject_loop_run fuel bucket key data size :
  forall offset i s,
    object_free_from s bucket key i ->
    putObject_loop fuel bucket key data size offset i s
    = (Returned tt,
       with_objects s (objects s
                       ++ number_rows (rest_row bucket key) i
                            (loop_chunks fuel data size offset))).
Proof.
  induction fuel as [|fuel IH]; intros offset i s Hfree; simpl.
  - now rewrite app_nil_r, with_objects_same.
  - destruct (offset <? size).
    + unfold bind. rewrite insert_object_fresh by exact Hfree.
      rewrite IH
        by (eapply object_free_from_snoc; [exact Hfree|reflexivity|simpl; lia]).
      simpl. now rewrite <- app_assoc.
    + unfold ret. now rewrite app_nil_r, with_objects_same.
Qed.

Lemma delete_object_rows_free s bucket key i :
  object_free_from
    (with_objects s (filter (fun r => negb (object_at bucket key r)) (objects s)))
    bucket key i.
Proof.
  intros r Hr Hat. simpl in Hr. apply filter_In in Hr as [_ Hr].
  rewrite Hat in Hr. discriminate.
Qed.

(** What [putObject] does to the store, and what it answers. *)
Lemma putObject_run bucket key req s :
  putObject bucket key req s
  = (Returned {| status := 200;
                 resp_headers := {| ContentType := None; ContentLength := None;
                                    ETag := Some (quoted (MD5_hex (arrayBuffer req)));
                                    LastModified := None |};
                 resp_body := NoBody |},
     with_objects s
       (filter (fun r => negb (object_at bucket key r)) (objects s)
        ++ put_rows bucket key req)).
Proof.
  unfold putObject, try_catch, bind, delete_object_rows, modify.
  rewrite insert_object_fresh by apply delete_object_rows_free.
  cbn [o_bucket o_key o_chunk_index objects with_objects].
  unfold put_rows, put_first_row, chunks_of. cbn [hd tl].
  destruct (CHUNK_SIZE <? len (arrayBuffer req)).
  - rewrite putObject_loop_run.
    + cbn [objects with_objects ret]. now rewrite <- app_assoc.
    + eapply (object_free_from_snoc _ _ bucket key 0).
      * apply delete_object_rows_free.
      * reflexivity.
      * simpl. lia.
  - unfold ret. cbn [number_rows]. reflexivity.
Qed.

Lemma put_rows_at bucket key req :
  Forall (fun r => object_at bucket key r = true) (put_rows bucket key req).
Proof.
  unfold put_rows. constructor.
  - apply object_at_spec; auto.
  - apply number_rows_at.
Qed.

Lemma put_rows_data bucket key req :
  map o_data (put_rows bucket key req) = chunks_of (arrayBuffer req).
Proof.
  unfold put_rows. cbn [map put_first_row o_data].
  rewrite number_rows_data by reflexivity.
  unfold chunks_of. reflexivity.
Qed.

Lemma put_rows_indices bucket key req :
  map o_chunk_index (put_rows bucket key req)
  = zseq 0 (List.length (chunks_of (arrayBuffer req))).
Proof.
  unfold put_rows. cbn [map put_first_row o_chunk_index].
  rewrite number_rows_indices by reflexivity.
  unfold chunks_of. reflexivity.
Qed.

(** The rows of the object after [putObject]. *)
Lemma putObject_rows bucket key req s :
  object_rows (state_after (putObject bucket key req) s) bucket key
  = put_rows bucket key req.
Proof.
  unfold state_after. rewrite putObject_run. unfold object_rows. simpl snd.
  cbn [objects with_objects]. rewrite filter_app, filter_delete_same.
  cbn [app]. apply filter_all, put_rows_at.
Qed.

Lemma putObject_other_rows bucket key req s bucket' key' :
  (bucket', key') <> (bucket, key) ->
  object_rows (state_after (putObject bucket key req) s) bucket' key'
  = object_rows s bucket' key'.
Proof.
  intros Hne. unfold state_after. rewrite putObject_run. unfold object_rows.
  simpl snd. cbn [objects with_objects]. rewrite filter_app.
  rewrite filter_delete_other by (intros r; apply object_at_other; auto).
  rewrite (filter_none _ (put_rows _ _ _)); [apply app_nil_r|].
  eapply Forall_impl; [|apply put_rows_at]. cbv beta. intros r Hr.
  eapply object_at_other; [|exact Hr]. congruence.
Qed.

Lemma typed_array_set_run (done rest source : bytes) :
  len source <= len rest ->
  forall s,
    typed_array_set (done ++ rest) source (len done) s
    = (Returned (done ++ source ++ skipn (List.length source) rest), s).
Proof.
  intros Hle s. unfold typed_array_set.
  rewrite len_app. destruct (Z.ltb_spec (len done + len rest) (len done + len source));
    [lia|].
  unfold ret. do 2 f_equal.
  unfold len. rewrite Nat2Z.id.
  rewrite firstn_app, firstn_all, Nat.sub_diag, firstn_O, app_nil_r.
  f_equal. f_equal.
  rewrite <- Nat2Z.inj_add, Nat2Z.id. rewrite skipn_app.
  rewrite skipn_all2 by lia. simpl. f_equal. lia.
Qed.

Lemma combine_chunks_run (chunks : list object_row) :
  forall (done rest : bytes) s,
    len rest = len (concat (map o_data chunks)) ->
    combine_chunks chunks (done ++ rest) (len done) s
    = (Returned (done ++ concat (map o_data chunks)), s).
Proof.
  induction chunks as [|c chunks IH]; intros done rest s Hlen.
  - simpl in *. unfold ret. destruct rest; [reflexivity|].
    rewrite len_cons, len_nil in Hlen. pose proof (len_nonneg rest). lia.
  - cbn [combine_chunks map concat] in *. rewrite len_app in Hlen.
    unfold bind. rewrite typed_array_set_run
      by (pose proof (len_nonneg (concat (map o_data chunks))); lia).
    rewrite app_assoc. rewrite <- len_app.
    rewrite IH.
    + now rewrite <- app_assoc.
    + unfold len in *. rewrite length_skipn. lia.
Qed.

(** [getObject] on an object whose rows follow the chunk discipline. *)
Lemma getObject_run s bucket key r rest :
  object_rows s bucket key = r :: rest ->
  map o_chunk_index (r :: rest) = zseq 0 (S (List.length rest)) ->
  o_size r = len (concat (map o_data (r :: rest))) ->
  getObject bucket key false s
  = (Returned {| status := 200; resp_headers := object_headers r;
                 resp_body := Binary (concat (map o_data (r :: rest))) |}, s)
  /\ getObject bucket key true s
     = (Returned {| status := 200; resp_headers := object_headers r;
                    resp_body := NoBody |}, s).
Proof.
  intros Hrows Hidx Hsize.
  assert (Hmeta : filter (fun x => object_at bucket key x && (o_chunk_index x =? 0))
                         (objects s) = [r]).
  { rewrite filter_and. fold (object_rows s bucket key). rewrite Hrows.
    cbn [map zseq] in Hidx. injection Hidx as H0 Hrest.
    simpl. rewrite H0. simpl. f_equal.
    apply filter_none. rewrite Forall_forall. intros x Hx.
    apply (in_map o_chunk_index) in Hx. rewrite Hrest in Hx.
    apply zseq_lower in Hx. apply Z.eqb_neq. lia. }
  unfold getObject, try_catch, bind, select_object_meta, gets.
  rewrite Hmeta. split; [|reflexivity].
  cbn [negb]. unfold select_object_chunks, gets.
  fold (object_rows s bucket key). rewrite Hrows.
  rewrite (sort_by_indices o_chunk_index _ _ _ Hidx).
  unfold new_Uint8Array. rewrite Hsize.
  destruct (Z.ltb_spec (len (concat (map o_data (r :: rest)))) 0) as [Hneg|_].
  { pose proof (len_nonneg (concat (map o_data (r :: rest)))). lia. }
  unfold ret at 1.
  pose proof (combine_chunks_run (r :: rest) []
                (repeat Byte.x00 (Z.to_nat (len (concat (map o_data (r :: rest)))))) s)
    as Hc.
  cbn [app] in Hc. rewrite len_nil in Hc. rewrite Hc.
  - unfold ret, object_headers. rewrite Hsize. reflexivity.
  - unfold len. rewrite repeat_length, Nat2Z.id. reflexivity.
Qed.

Lemma getObject_missing s bucket key headOnly :
  filter (fun x => object_at bucket key x && (o_chunk_index x =? 0)) (objects s) = [] ->
  getObject bucket key headOnly s
  = (Returned (errorResponse (js "NoSuchKey")
                             (js "The specified key does not exist.") 404), s).
Proof.
  intros H. unfold getObject, try_catch, bind, select_object_meta, gets.
  now rewrite H.
Qed.

End EngineFacts.

(* ================================================================== *)
(** * uploadPart *)

Section UploadFacts.
Context {rt : Runtime}.

Lemma insert_part_fresh (r : part_row) (s : store) :
  part_free_from s (p_upload_id r) (p_part_number r) (p_chunk_index r) ->
  insert_part r s = (Returned tt, with_parts s (multipart_parts s ++ [r])).
Proof.
  intros Hfree. unfold insert_part.
  destruct (existsb (same_part_pk r) (multipart_parts s)) eqn:E; auto.
  apply existsb_exists in E as (x & Hx & Hpk).
  unfold same_part_pk in Hpk. apply andb_true_iff in Hpk as [Hat Hi].
  apply Z.eqb_eq in Hi. specialize (Hfree x Hx Hat). lia.
Qed.

Lemma part_free_from_snoc s s' uploadId n i r :
  part_free_from s uploadId n i ->
  multipart_parts s' = multipart_parts s ++ [r] ->
  p_chunk_index r < i + 1 ->
  part_free_from s' uploadId n (i + 1).
Proof.
  intros Hfree Hs' Hr x Hx Hat. rewrite Hs' in Hx.
  apply in_app_iff in Hx as [Hx|[<-|[]]].
  - specialize (Hfree x Hx Hat). lia.
  - exact Hr.
Qed.

Lemma uploadPart_loop_run fuel uploadId n data size :
  forall offset i s,
    part_free_from s uploadId n i ->
    uploadPart_loop fuel uploadId n data size offset i s
    = (Returned tt,
       with_parts s (multipart_parts s
                     ++ number_rows (rest_part uploadId n) i
                          (loop_chunks fuel data size offset))).
Proof.
  induction fuel as [|fuel IH]; intros offset i s Hfree; simpl.
  - now rewrite app_nil_r, with_parts_same.
  - destruct (offset <? size).
    + unfold bind. rewrite insert_part_fresh by exact Hfree.
      rewrite IH
        by (eapply part_free_from_snoc; [exact Hfree|reflexivity|simpl; lia]).
      simpl. now rewrite <- app_assoc.
    + unfold ret. now rewrite app_nil_r, with_parts_same.
Qed.

Lemma delete_part_rows_free s uploadId n i :
  part_free_from
    (with_parts s (filter (fun r => negb (part_at uploadId n r)) (multipart_parts s)))
    uploadId n i.
Proof.
  intros r Hr Hat. simpl in Hr. apply filter_In in Hr as [_ Hr].
  rewrite Hat in Hr. discriminate.
Qed.

(** What [uploadPart] does to the store, and what it answers. *)
Lemma uploadPart_run bucket key uploadId n req s :
  uploadPart bucket key uploadId (Some n) req s
  = (Returned {| status := 200;
                 resp_headers := {| ContentType := None; ContentLength := None;
                                    ETag := Some (quoted (MD5_hex (arrayBuffer req)));
                                    LastModified := None |};
                 resp_body := NoBody |},
     with_parts s
       (filter (fun r => negb (part_at uploadId n r)) (multipart_parts s)
        ++ upload_rows uploadId n req)).
Proof.
  unfold uploadPart, try_catch, bind, delete_part_rows, modify.
  rewrite insert_part_fresh by apply delete_part_rows_free.
  cbn [p_upload_id p_part_number p_chunk_index multipart_parts with_parts].
  unfold upload_rows, upload_first_row, chunks_of. cbn [hd tl].
  destruct (CHUNK_SIZE <? len (arrayBuffer req)).
  - rewrite uploadPart_loop_run.
    + cbn [multipart_parts with_parts ret]. now rewrite <- app_assoc.
    + eapply (part_free_from_snoc _ _ uploadId n 0).
      * apply delete_part_rows_free.
      * reflexivity.
      * simpl. lia.
  - unfold ret. cbn [number_rows]. reflexivity.
Qed.

Lemma upload_rows_at uploadId n req :
  Forall (fun r => part_at uploadId n r = true) (upload_rows uploadId n req).
Proof.
  unfold upload_rows. constructor.
  - apply part_at_spec; auto.
  - apply number_parts_at.
Qed.

Lemma upload_rows_data uploadId n req :
  map p_data (upload_rows uploadId n req) = chunks_of (arrayBuffer req).
Proof.
  unfold upload_rows. cbn [map upload_first_row p_data].
  rewrite number_rows_data by reflexivity.
  unfold chunks_of. reflexivity.
Qed.

Lemma upload_rows_indices uploadId n req :
  map p_chunk_index (upload_rows uploadId n req)
  = zseq 0 (List.length (chunks_of (arrayBuffer req))).
Proof.
  unfold upload_rows. cbn [map upload_first_row p_chunk_index].
  rewrite number_rows_indices by reflexivity.
  unfold chunks_of. reflexivity.
Qed.

Lemma uploadPart_rows bucket key uploadId n req s :
  part_rows (state_after (uploadPart bucket key uploadId (Some n) req) s) uploadId n
  = upload_rows uploadId n req.
Proof.
  unfold state_after. rewrite uploadPart_run. unfold part_rows. simpl snd.
  cbn [multipart_parts with_parts]. rewrite filter_app, filter_delete_same.
  cbn [app]. apply filter_all, upload_rows_at.
Qed.

Lemma uploadPart_other_rows bucket key uploadId n req s uploadId' n' :
  (uploadId', n') <> (uploadId, n) ->
  part_rows (state_after (uploadPart bucket key uploadId (Some n) req) s) uploadId' n'
  = part_rows s uploadId' n'.
Proof.
  intros Hne. unfold state_after. rewrite uploadPart_run. unfold part_rows.
  simpl snd. cbn [multipart_parts with_parts]. rewrite filter_app.
  rewrite filter_delete_other by (intros r; apply part_at_other; auto).
  rewrite (filter_none _ (upload_rows _ _ _)); [apply app_nil_r|].
  eapply Forall_impl; [|apply upload_rows_at]. cbv beta. intros r Hr.
  eapply part_at_other; [|exact Hr]. congruence.
Qed.

End UploadFacts.

(* ================================================================== *)
(** * completeMultipartUpload *)

Section CompleteFacts.
Context {rt : Runtime}.

Lemma complete_row_at bucket key ts et lm ct i d :
  object_at bucket key (complete_row bucket key ts et lm ct i d) = true.
Proof.
  unfold complete_row. destruct (i =? 0); apply object_at_spec; auto.
Qed.

Lemma complete_row_index bucket key ts et lm ct i d :
  o_chunk_index (complete_row bucket key ts et lm ct i d) = i.
Proof. unfold complete_row. destruct (i =? 0); reflexivity. Qed.

Lemma complete_row_data bucket key ts et lm ct i d :
  o_data (complete_row bucket key ts et lm ct i d) = d.
Proof. unfold complete_row. destruct (i =? 0); reflexivity. Qed.

Lemma complete_chunks_run bucket key ts et lm ct partChunks :
  forall i s,
    object_free_from s bucket key i ->
    complete_chunks bucket key ts et lm ct partChunks i s
    = (Returned (i + len partChunks),
       with_objects s
         (objects s ++ number_rows (complete_row bucket key ts et lm ct) i
                         (map p_data partChunks))).
Proof.
  induction partChunks as [|c rest IH]; intros i s Hfree.
  - simpl. unfold ret. now rewrite len_nil, Z.add_0_r, app_nil_r, with_objects_same.
  - cbn [complete_chunks map number_rows]. unfold bind.
    assert (Hins :
      (if i =? 0
       then insert_object
              {| o_bucket := bucket; o_key := key; o_chunk_index := i;
                 o_size := ts; o_etag := et; o_last_modified := lm;
                 o_content_type := ct; o_data := p_data c;
                 o_depth := Some (computeDepth key);
                 o_parent := Some (computeParent key) |}
       else insert_object
              {| o_bucket := bucket; o_key := key; o_chunk_index := i;
                 o_size := 0; o_etag := []; o_last_modified := [];
                 o_content_type := []; o_data := p_data c;
                 o_depth := None; o_parent := None |})
      = insert_object (complete_row bucket key ts et lm ct i (p_data c))).
    { unfold complete_row, rest_row. now destruct (i =? 0). }
    rewrite Hins. clear Hins.
    rewrite insert_object_fresh.
    2:{ intros r Hr Hat. rewrite complete_row_index.
        apply Hfree; auto.
        apply object_at_spec in Hat as [Hb Hk]. apply object_at_spec.
        pose proof (complete_row_at bucket key ts et lm ct i (p_data c)) as Hc.
        apply object_at_spec in Hc as [Hb' Hk']. split; congruence. }
    rewrite IH.
    + cbn [objects with_objects]. rewrite len_cons, <- app_assoc.
      cbn [app]. do 2 f_equal. lia.
    + eapply object_free_from_snoc; [exact Hfree|reflexivity|].
      rewrite complete_row_index. lia.
Qed.

Lemma object_free_from_append s s' bucket key i rows :
  object_free_from s bucket key i ->
  objects s' = objects s ++ rows ->
  Forall (fun r => o_chunk_index r < i) rows ->
  object_free_from s' bucket key i.
Proof.
  intros Hfree Hs' Hrows r Hr Hat. rewrite Hs' in Hr.
  apply in_app_iff in Hr as [Hr|Hr]; auto.
  rewrite Forall_forall in Hrows. auto.
Qed.

Lemma object_free_from_mono s bucket key i j :
  object_free_from s bucket key i -> i <= j -> object_free_from s bucket key j.
Proof. intros H Hij r Hr Hat. specialize (H r Hr Hat). lia. Qed.

Lemma number_rows_index_bound bucket key ts et lm ct i ds :
  Forall (fun r => o_chunk_index r < i + len ds)
         (number_rows (complete_row bucket key ts et lm ct) i ds).
Proof.
  revert i; induction ds as [|d ds IH]; intros i; simpl; constructor.
  - rewrite complete_row_index, len_cons. pose proof (len_nonneg ds). lia.
  - eapply Forall_impl; [|apply IH]. cbv beta. intros r Hr.
    rewrite len_cons. lia.
Qed.

Lemma complete_parts_run bucket key uploadId ts et lm ct parts :
  forall i s,
    object_free_from s bucket key i ->
    complete_parts bucket key uploadId ts et lm ct parts i s
    = (Returned (i + len (assembled_chunks s uploadId parts)),
       with_objects s
         (objects s ++ number_rows (complete_row bucket key ts et lm ct) i
                         (assembled_chunks s uploadId parts))).
Proof.
  induction parts as [|p rest IH]; intros i s Hfree.
  - simpl. unfold ret. now rewrite len_nil, Z.add_0_r, app_nil_r, with_objects_same.
  - cbn [complete_parts]. unfold bind at 1. unfold select_part_chunks, gets.
    unfold bind. rewrite complete_chunks_run by exact Hfree.
    fold (part_rows s uploadId (p_part_number p)).
    fold (part_chunks s uploadId (p_part_number p)).
    rewrite IH.
    + cbn [objects with_objects assembled_chunks flat_map].
      change (assembled_chunks
                (with_objects s
                   (objects s ++
                    number_rows (complete_row bucket key ts et lm ct) i
                      (part_chunks s uploadId (p_part_number p))))
                uploadId rest)
        with (assembled_chunks s uploadId rest).
      fold (assembled_chunks s uploadId rest).
      rewrite number_rows_app, len_app, <- app_assoc.
      unfold part_chunks at 3 5. rewrite len_map.
      unfold with_objects. cbn [objects multipart_uploads multipart_parts
                                webSocketClients next_ws sent].
      now rewrite Z.add_assoc.
    + apply (object_free_from_append s _ bucket key _
               (number_rows (complete_row bucket key ts et lm ct) i
                            (part_chunks s uploadId (p_part_number p)))).
      * eapply object_free_from_mono; [exact Hfree|].
        match goal with |- _ <= _ + len ?l => pose proof (len_nonneg l) end. lia.
      * reflexivity.
      * pose proof (number_rows_index_bound bucket key ts et lm ct i
                      (part_chunks s uploadId (p_part_number p))) as Hb.
        unfold part_chunks in Hb at 1. rewrite len_map in Hb. exact Hb.
Qed.

(** What a successful [completeMultipartUpload] does and answers. *)
Lemma completeMultipartUpload_run bucket key uploadId req s upload others :
  filter (fun r => str_eqb (u_upload_id r) uploadId) (multipart_uploads s)
  = upload :: others ->
  upload_parts s uploadId <> [] ->
  completeMultipartUpload bucket key uploadId req s
  = (Returned {| status := 200; resp_headers := xml_headers;
                 resp_body := CompleteMultipartUploadResult bucket key
                                (quoted
                                   (complete_etag req
                                      (upload_parts s uploadId))) |},
     completed_store s bucket key uploadId req (u_content_type upload)).
Proof.
  intros Hup Hparts.
  unfold completeMultipartUpload, try_catch.
  unfold bind at 1. unfold select_upload, gets. rewrite Hup.
  unfold bind at 1. unfold select_parts, gets.
  fold (upload_parts s uploadId).
  destruct (upload_parts s uploadId) as [|p ps] eqn:Eparts; [congruence|].
  unfold bind at 1. unfold delete_object_rows, modify.
  unfold bind at 1.
  rewrite complete_parts_run by apply delete_object_rows_free.
  unfold bind, delete_upload_parts, delete_upload, modify, ret.
  unfold completed_store, complete_etag, total_size. rewrite Eparts.
  reflexivity.
Qed.

Lemma completeMultipartUpload_no_session bucket key uploadId req s :
  filter (fun r => str_eqb (u_upload_id r) uploadId) (multipart_uploads s) = [] ->
  completeMultipartUpload bucket key uploadId req s
  = (Returned (errorResponse (js "NoSuchUpload")
                             (js "The specified upload does not exist") 404), s).
Proof.
  intros Hup. unfold completeMultipartUpload, try_catch, bind, select_upload, gets.
  now rewrite Hup.
Qed.

Lemma completeMultipartUpload_no_parts bucket key uploadId req s upload others :
  filter (fun r => str_eqb (u_upload_id r) uploadId) (multipart_uploads s)
  = upload :: others ->
  upload_parts s uploadId = [] ->
  completeMultipartUpload bucket key uploadId req s
  = (Returned (errorResponse (js "InvalidPart")
                             (js "No parts were uploaded") 400), s).
Proof.
  intros Hup Hparts.
  unfold completeMultipartUpload, try_catch, bind, select_upload, select_parts, gets.
  rewrite Hup. fold (upload_parts s uploadId). now rewrite Hparts.
Qed.

End CompleteFacts.

(* ================================================================== *)
(** * Sorting is a permutation *)

Lemma insert_by_perm {A} (le : A -> A -> bool) (x : A) (l : list A) :
  Permutation (insert_by le x l) (x :: l).
Proof.
  induction l as [|y l IH]; simpl; auto.
  destruct (le x y); auto.
  rewrite IH. apply perm_swap.
Qed.

Lemma sort_by_perm {A} (le : A -> A -> bool) (l : list A) :
  Permutation (sort_by le l) l.
Proof.
  induction l as [|x l IH]; simpl; auto.
  rewrite insert_by_perm. now constructor.
Qed.

Lemma sort_by_In {A} (le : A -> A -> bool) (l : list A) x :
  In x (sort_by le l) <-> In x l.
Proof.
  split; apply Permutation_in; [|symmetry]; apply sort_by_perm.
Qed.

Lemma sort_by_length {A} (le : A -> A -> bool) (l : list A) :
  List.length (sort_by le l) = List.length l.
Proof. apply Permutation_length, sort_by_perm. Qed.

Lemma sort_by_nonempty {A} (le : A -> A -> bool) (l : list A) :
  l <> [] -> sort_by le l <> [].
Proof.
  intros H E. apply H. apply length_zero_iff_nil.
  rewrite <- (sort_by_length le), E. reflexivity.
Qed.

(* ================================================================== *)
(** * The chunk discipline *)

Lemma chunked_first_only {A} (idx : A -> Z) (r : A) (rest : list A) x :
  map idx (r :: rest) = zseq 0 (S (List.length rest)) ->
  In x (r :: rest) -> idx x = 0 -> x = r.
Proof.
  intros Hidx [->|Hx] H0; auto.
  cbn [map zseq] in Hidx. injection Hidx as _ Hrest.
  apply (in_map idx) in Hx. rewrite Hrest in Hx. apply zseq_lower in Hx. lia.
Qed.

Lemma chunked_sorted {A} (idx : A -> Z) (dat : A -> bytes) (rows : list A) size :
  chunked (map idx rows) size (map dat rows) ->
  sort_by (fun a b => idx a <=? idx b) rows = rows.
Proof.
  intros [Hd _ _ _]. eapply sort_by_indices. exact Hd.
Qed.

Lemma total_size_cons p ps : total_size (p :: ps) = p_size p + total_size ps.
Proof.
  unfold total_size. simpl.
  assert (H : forall l a, fold_left (fun acc part => acc + p_size part) l a
                          = a + fold_left (fun acc part => acc + p_size part) l 0).
  { induction l as [|x l IH]; intros a; simpl; [lia|].
    rewrite IH, (IH (p_size x)). lia. }
  apply H.
Qed.

Lemma concat_len_app (a b : list bytes) :
  len (concat (a ++ b)) = len (concat a) + len (concat b).
Proof. now rewrite concat_app, len_app. Qed.

Section AssembledFacts.

Variables (s : store) (uploadId : jsstring).
Hypothesis Hok : parts_ok_at s uploadId.

Lemma part_of_upload p :
  In p (upload_parts s uploadId) ->
  In p (part_rows s uploadId (p_part_number p)) /\ p_chunk_index p = 0.
Proof.
  unfold upload_parts. rewrite sort_by_In, filter_In, andb_true_iff.
  intros (Hin & Hid & H0). apply Z.eqb_eq in H0. split; auto.
  unfold part_rows. apply filter_In. split; auto.
  apply part_at_spec. split; auto. now apply str_eqb_eq.
Qed.

Lemma part_chunks_of_upload p :
  In p (upload_parts s uploadId) ->
  let chunks := part_chunks s uploadId (p_part_number p) in
  chunks = map p_data (part_rows s uploadId (p_part_number p))
  /\ chunks <> []
  /\ p_size p = len (concat chunks)
  /\ Forall (fun c => len c <= CHUNK_SIZE) chunks.
Proof.
  intros Hp chunks. destruct (part_of_upload p Hp) as [Hin H0].
  destruct (Hok (p_part_number p)) as [Hnil|Hch].
  { rewrite Hnil in Hin. destruct Hin. }
  assert (Hc : chunks = map p_data (part_rows s uploadId (p_part_number p))).
  { unfold chunks, part_chunks. now rewrite (chunked_sorted _ _ _ _ Hch). }
  destruct Hch as [Hd Hne Hsz Hb]. rewrite <- Hc in *.
  repeat split; auto.
  destruct (part_rows s uploadId (p_part_number p)) as [|r rest] eqn:E;
    [destruct Hin|].
  rewrite Hc in Hd. rewrite length_map in Hd.
  pose proof (chunked_first_only p_chunk_index r rest p Hd Hin H0). subst p.
  exact Hsz.
Qed.

Lemma assembled_total parts :
  incl parts (upload_parts s uploadId) ->
  total_size parts = len (concat (assembled_chunks s uploadId parts))
  /\ Forall (fun c => len c <= CHUNK_SIZE) (assembled_chunks s uploadId parts)
  /\ (parts <> [] -> assembled_chunks s uploadId parts <> []).
Proof.
  induction parts as [|p ps IH]; intros Hincl.
  - repeat split; auto.
  - destruct IH as (IH1 & IH2 & _).
    { intros x Hx. apply Hincl. now right. }
    destruct (part_chunks_of_upload p) as (_ & Hne & Hsz & Hb).
    { apply Hincl. now left. }
    cbn [assembled_chunks flat_map]. fold (assembled_chunks s uploadId ps).
    repeat split.
    + now rewrite total_size_cons, concat_len_app, IH1, Hsz.
    + apply Forall_app; auto.
    + intros _ E. apply app_eq_nil in E as [E _]. auto.
Qed.

End AssembledFacts.

Section CompletedFacts.
Context {rt : Runtime}.

Lemma completed_rows s bucket key uploadId req ct :
  object_rows (completed_store s bucket key uploadId req ct) bucket key
  = number_rows (complete_row bucket key (total_size (upload_parts s uploadId))
                   (complete_etag req (upload_parts s uploadId)) (now req) ct)
      0 (assembled_chunks s uploadId (upload_parts s uploadId)).
Proof.
  unfold object_rows, completed_store. cbn [objects].
  rewrite filter_app, filter_delete_same. cbn [app].
  apply filter_all.
  generalize 0. generalize (assembled_chunks s uploadId (upload_parts s uploadId)).
  induction l as [|d l IH]; intros i; simpl; constructor; auto.
  apply complete_row_at.
Qed.

Lemma completed_other_rows s bucket key uploadId req ct bucket' key' :
  (bucket', key') <> (bucket, key) ->
  object_rows (completed_store s bucket key uploadId req ct) bucket' key'
  = object_rows s bucket' key'.
Proof.
  intros Hne. unfold object_rows, completed_store. cbn [objects].
  rewrite filter_app.
  rewrite filter_delete_other by (intros r; apply object_at_other; auto).
  rewrite (filter_none _ (number_rows _ _ _)); [apply app_nil_r|].
  generalize 0. generalize (assembled_chunks s uploadId (upload_parts s uploadId)).
  induction l as [|d l IH]; intros i; simpl; constructor; auto.
  eapply object_at_other; [|apply complete_row_at]. congruence.
Qed.

(** The object written by [completeMultipartUpload] follows the chunk
    discipline when the parts do. *)
Lemma completed_chunked s bucket key uploadId req ct :
  parts_ok_at s uploadId ->
  upload_parts s uploadId <> [] ->
  let rows := object_rows (completed_store s bucket key uploadId req ct) bucket key in
  map o_data rows = assembled_chunks s uploadId (upload_parts s uploadId)
  /\ chunked (map o_chunk_index rows) (first_size o_size rows) (map o_data rows)
  /\ exists r rest, rows = r :: rest
       /\ o_depth r = Some (computeDepth key)
       /\ o_parent r = Some (computeParent key).
Proof.
  intros Hok Hparts rows. subst rows. rewrite completed_rows.
  destruct (assembled_total s uploadId Hok (upload_parts s uploadId))
    as (Htot & Hb & Hne); [apply incl_refl|].
  specialize (Hne Hparts).
  set (mk := complete_row _ _ _ _ _ _).
  assert (Hdata : map o_data (number_rows mk 0
                    (assembled_chunks s uploadId (upload_parts s uploadId)))
                  = assembled_chunks s uploadId (upload_parts s uploadId)).
  { apply number_rows_data. intros. apply complete_row_data. }
  split; [exact Hdata|].
  destruct (assembled_chunks s uploadId (upload_parts s uploadId)) as [|d ds] eqn:E;
    [congruence|].
  split.
  - rewrite Hdata. constructor; auto; try discriminate.
    rewrite number_rows_indices by (intros; apply complete_row_index).
    reflexivity.
  - cbn [number_rows]. eexists _, _. split; [reflexivity|].
    unfold mk, complete_row. simpl. auto.
Qed.

(** After a successful [completeMultipartUpload], [getObject] returns the
    chunks of the parts, end to end. *)
Lemma getObject_completed s bucket key uploadId req ct :
  parts_ok_at s uploadId ->
  upload_parts s uploadId <> [] ->
  let s' := completed_store s bucket key uploadId req ct in
  exists hs,
    getObject bucket key false s'
    = (Returned {| status := 200; resp_headers := hs;
                   resp_body :=
                     Binary (concat (assembled_chunks s uploadId
                                       (upload_parts s uploadId))) |}, s')
    /\ ContentLength hs
       = Some (number_toString
                 (len (concat (assembled_chunks s uploadId
                                 (upload_parts s uploadId))))).
Proof.
  intros Hok Hparts s'.
  destruct (completed_chunked s bucket key uploadId req ct Hok Hparts)
    as (Hdata & [Hd Hne Hsz Hb] & r & rest & Hrows & _).
  fold s' in Hdata, Hd, Hne, Hsz, Hb, Hrows.
  rewrite Hrows in *. rewrite length_map in Hd. cbn [first_size] in Hsz.
  destruct (getObject_run s' bucket key r rest Hrows Hd Hsz) as [Hget _].
  rewrite Hdata in Hget, Hsz. eexists. split; [exact Hget|].
  unfold object_headers. cbn [ContentLength]. now rewrite Hsz.
Qed.

End CompletedFacts.

(* ================================================================== *)
(** * Sorted lists of integers *)

Lemma insert_by_map {A} (key : A -> Z) (x : A) (l : list A) :
  map key (insert_by (fun a b => key a <=? key b) x l)
  = insert_by Z.leb (key x) (map key l).
Proof.
  induction l as [|y l IH]; simpl; auto.
  destruct (key x <=? key y); simpl; auto. now rewrite IH.
Qed.

Lemma sort_by_map {A} (key : A -> Z) (l : list A) :
  map key (sort_by (fun a b => key a <=? key b) l) = sort_by Z.leb (map key l).
Proof.
  induction l as [|x l IH]; simpl; auto.
  now rewrite insert_by_map, IH.
Qed.

Lemma insert_by_sorted (x : Z) (l : list Z) :
  StronglySorted Z.le l -> StronglySorted Z.le (insert_by Z.leb x l).
Proof.
  induction 1 as [|y l Hs IH Hy]; simpl.
  - repeat constructor.
  - destruct (Z.leb_spec x y).
    + constructor; [constructor; auto|].
      constructor; auto. eapply Forall_impl; [|exact Hy]. simpl; intros; lia.
    + constructor; auto.
      rewrite Forall_forall in *. intros z Hz.
      eapply Permutation_in in Hz; [|apply insert_by_perm].
      destruct Hz as [<-|Hz]; [lia|auto].
Qed.

Lemma sort_by_sorted (l : list Z) : StronglySorted Z.le (sort_by Z.leb l).
Proof.
  induction l as [|x l IH]; simpl; [constructor|].
  now apply insert_by_sorted.
Qed.

(** Two ascending lists with the same elements are the same list. *)
Lemma sorted_perm_eq (l1 l2 : list Z) :
  StronglySorted Z.le l1 -> StronglySorted Z.le l2 ->
  Permutation l1 l2 -> l1 = l2.
Proof.
  intros H1; revert l2. induction H1 as [|x l1 Hs1 IH Hx]; intros l2 H2 Hp.
  - apply Permutation_nil in Hp. now subst.
  - destruct H2 as [|y l2 Hs2 Hy].
    + symmetry in Hp. apply Permutation_nil in Hp. discriminate.
    + assert (x = y).
      { rewrite Forall_forall in Hx, Hy.
        assert (Hxin : In x (y :: l2)) by (eapply Permutation_in; [exact Hp|now left]).
        assert (Hyin : In y (x :: l1))
          by (eapply Permutation_in; [symmetry; exact Hp|now left]).
        destruct Hxin as [->|Hxin]; auto.
        destruct Hyin as [->|Hyin]; auto.
        specialize (Hx _ Hyin). specialize (Hy _ Hxin). lia. }
      subst y. f_equal. apply IH; auto.
      eapply Permutation_cons_inv; exact Hp.
Qed.

Lemma sort_by_perm_eq (l1 l2 : list Z) :
  Permutation l1 l2 -> sort_by Z.leb l1 = sort_by Z.leb l2.
Proof.
  intros Hp. apply sorted_perm_eq; try apply sort_by_sorted.
  rewrite !sort_by_perm. exact Hp.
Qed.

Lemma map_filter_comm {A B} (f : A -> B) (P : B -> bool) (l : list A) :
  map f (filter (fun x => P (f x)) l) = filter P (map f l).
Proof.
  induction l as [|x l IH]; simpl; auto.
  destruct (P (f x)); simpl; now rewrite IH.
Qed.

Lemma concat_flat_map {A} (f : A -> list bytes) (l : list A) :
  concat (flat_map f l) = concat (map (fun x => concat (f x)) l).
Proof.
  induction l as [|x l IH]; simpl; auto.
  now rewrite concat_app, IH.
Qed.

(* ================================================================== *)
(** * A session of uploads *)

Section SessionFacts.
Context {rt : Runtime}.

Variables (bucket key uploadId : jsstring).

Lemma upload_rows_chunked n req :
  chunked (map p_chunk_index (upload_rows uploadId n req))
          (first_size p_size (upload_rows uploadId n req))
          (map p_data (upload_rows uploadId n req)).
Proof.
  rewrite upload_rows_data, upload_rows_indices. constructor.
  - reflexivity.
  - apply chunks_of_nonempty.
  - unfold upload_rows. cbn [first_size upload_first_row p_size].
    now rewrite chunks_of_concat.
  - apply chunks_of_bound.
Qed.

Lemma uploadPart_objects n req s :
  objects (state_after (uploadPart bucket key uploadId (Some n) req) s) = objects s
  /\ multipart_uploads (state_after (uploadPart bucket key uploadId (Some n) req) s)
     = multipart_uploads s.
Proof. unfold state_after. rewrite uploadPart_run. split; reflexivity. Qed.

Lemma run_uploads_objects uploads :
  forall s,
    objects (run_uploads bucket key uploadId uploads s) = objects s
    /\ multipart_uploads (run_uploads bucket key uploadId uploads s)
       = multipart_uploads s.
Proof.
  induction uploads as [|[n r] rest IH]; intros s; simpl; auto.
  destruct (IH (state_after (uploadPart bucket key uploadId (Some n) r) s))
    as [-> ->].
  apply uploadPart_objects.
Qed.

Lemma run_uploads_rows uploads :
  forall s n,
    part_rows (run_uploads bucket key uploadId uploads s) uploadId n
    = match last_upload uploads n with
      | Some r => upload_rows uploadId n r
      | None => part_rows s uploadId n
      end.
Proof.
  induction uploads as [|[m r] rest IH]; intros s n; simpl; auto.
  rewrite IH. destruct (last_upload rest n); auto.
  destruct (Z.eqb_spec m n) as [->|Hne].
  - apply uploadPart_rows.
  - apply uploadPart_other_rows. congruence.
Qed.

Lemma rest_parts_not_first n i ds :
  1 <= i ->
  filter (fun r => str_eqb (p_upload_id r) uploadId && (p_chunk_index r =? 0))
         (number_rows (rest_part uploadId n) i ds) = [].
Proof.
  revert i; induction ds as [|d ds IH]; intros i Hi; simpl; auto.
  destruct (Z.eqb_spec i 0); [lia|]. rewrite andb_false_r. apply IH. lia.
Qed.

Lemma uploadPart_numbers n req s :
  part_numbers (state_after (uploadPart bucket key uploadId (Some n) req) s) uploadId
  = filter (fun m => negb (m =? n)) (part_numbers s uploadId) ++ [n].
Proof.
  unfold part_numbers, state_after. rewrite uploadPart_run. simpl snd.
  cbn [multipart_parts with_parts]. rewrite filter_app, map_app. f_equal.
  - rewrite <- map_filter_comm. f_equal.
    unfold part_at.
    induction (multipart_parts s) as [|x l IH]; simpl; auto.
    destruct (str_eqb (p_upload_id x) uploadId) eqn:E1,
             (p_part_number x =? n) eqn:E2,
             (p_chunk_index x =? 0) eqn:E3;
      simpl; rewrite ?E1, ?E2, ?E3; simpl; rewrite ?E2; simpl;
      now rewrite IH.
  - unfold upload_rows. cbn [filter upload_first_row p_upload_id p_chunk_index].
    rewrite str_eqb_refl. cbn [andb Z.eqb map]. f_equal.
    rewrite rest_parts_not_first by lia. reflexivity.
Qed.

Lemma run_uploads_numbers uploads :
  forall s,
    NoDup (part_numbers s uploadId) ->
    NoDup (part_numbers (run_uploads bucket key uploadId uploads s) uploadId)
    /\ forall n, In n (part_numbers (run_uploads bucket key uploadId uploads s) uploadId)
                 <-> In n (map fst uploads) \/ In n (part_numbers s uploadId).
Proof.
  induction uploads as [|[m r] rest IH]; intros s Hnd; simpl.
  - split; auto. intros n; tauto.
  - destruct (IH (state_after (uploadPart bucket key uploadId (Some m) r) s))
      as [Hnd' Hin'].
    { rewrite uploadPart_numbers. apply NoDup_app.
      - now apply List.NoDup_filter.
      - repeat constructor. intros [].
      - intros x Hx [<-|[]]. apply filter_In in Hx as [_ Hx].
        now rewrite Z.eqb_refl in Hx. }
    split; auto. intros n. rewrite Hin', uploadPart_numbers, in_app_iff, filter_In.
    simpl. destruct (Z.eqb_spec n m) as [->|Hne]; [tauto|].
    split; [intros [H|[[H _]|[H|[]]]]; auto; congruence|].
    intros [[H|H]|H]; auto; congruence.
Qed.

End SessionFacts.

Section MultipartFacts.
Context {rt : Runtime}.

Lemma createMultipartUpload_run bucket key req s :
  (forall r, In r (multipart_uploads s) -> u_upload_id r <> randomUUID req) ->
  createMultipartUpload bucket key req s
  = (Returned {| status := 200; resp_headers := xml_headers;
                 resp_body := InitiateMultipartUploadResult bucket key
                                (randomUUID req) |},
     with_uploads s
       (multipart_uploads s
        ++ [{| u_upload_id := randomUUID req; u_bucket := bucket; u_key := key;
               u_created_at := now req;
               u_content_type :=
                 or_default (h_content_type req)
                            (js "application/octet-stream") |}])).
Proof.
  intros Hfresh. unfold createMultipartUpload, try_catch, bind, insert_upload.
  cbn [u_upload_id].
  destruct (existsb _ (multipart_uploads s)) eqn:E; [|reflexivity].
  apply existsb_exists in E as (x & Hx & Hid). apply str_eqb_eq in Hid.
  now apply Hfresh in Hx.
Qed.

Lemma last_upload_some uploads n :
  In n (map fst uploads) -> exists r, last_upload uploads n = Some r.
Proof.
  induction uploads as [|[m r] rest IH]; simpl; [tauto|].
  intros [->|H].
  - destruct (last_upload rest n); eauto. rewrite Z.eqb_refl. eauto.
  - destruct (IH H) as [r' ->]. eauto.
Qed.

Lemma last_upload_none uploads n :
  ~ In n (map fst uploads) -> last_upload uploads n = None.
Proof.
  induction uploads as [|[m r] rest IH]; simpl; auto.
  intros H. rewrite IH by tauto.
  destruct (Z.eqb_spec m n); auto. tauto.
Qed.

(** The state of the parts of a fresh identifier after a session. *)
Lemma session_parts bucket key uploadId uploads s :
  (forall r, In r (multipart_parts s) -> p_upload_id r <> uploadId) ->
  let s2 := run_uploads bucket key uploadId uploads s in
  parts_ok_at s2 uploadId
  /\ map p_part_number (upload_parts s2 uploadId) = uploaded_numbers uploads
  /\ forall n, In n (uploaded_numbers uploads) ->
               concat (part_chunks s2 uploadId n) = uploaded_body uploads n.
Proof.
  intros Hfresh s2.
  assert (Hrows0 : forall n, part_rows s uploadId n = []).
  { intros n. unfold part_rows. apply filter_none, Forall_forall.
    intros r Hr. destruct (part_at uploadId n r) eqn:E; auto.
    apply part_at_spec in E as [E _]. now apply Hfresh in Hr. }
  assert (Hnum0 : part_numbers s uploadId = []).
  { unfold part_numbers. rewrite filter_none; auto. apply Forall_forall.
    intros r Hr. destruct (str_eqb (p_upload_id r) uploadId) eqn:E; auto.
    apply str_eqb_eq in E. now apply Hfresh in Hr. }
  split; [|split].
  - intros n. unfold s2. rewrite run_uploads_rows.
    destruct (last_upload uploads n).
    + right. apply upload_rows_chunked.
    + left. apply Hrows0.
  - unfold upload_parts. rewrite sort_by_map. fold (part_numbers s2 uploadId).
    unfold uploaded_numbers. apply sort_by_perm_eq.
    destruct (run_uploads_numbers bucket key uploadId uploads s) as [Hnd Hin].
    { rewrite Hnum0. constructor. }
    apply NoDup_Permutation; auto.
    + apply NoDup_nodup.
    + intros n. fold s2 in Hin. rewrite Hin, Hnum0, nodup_In. simpl. tauto.
  - intros n Hn. unfold uploaded_numbers in Hn.
    rewrite sort_by_In, nodup_In in Hn.
    destruct (last_upload_some uploads n Hn) as [r Hr].
    unfold uploaded_body, part_chunks, s2. rewrite run_uploads_rows, Hr.
    rewrite (chunked_sorted _ _ _ _ (upload_rows_chunked uploadId n r)).
    rewrite upload_rows_data. apply chunks_of_concat.
Qed.

End MultipartFacts.

(* ================================================================== *)
(** * Computations that keep the invariant *)

Lemma store_ok_tables s s' :
  objects s' = objects s -> multipart_parts s' = multipart_parts s ->
  store_ok s -> store_ok s'.
Proof.
  intros Ho Hp [H1 H2]. split.
  - intros b k. unfold object_rows. rewrite Ho. apply H1.
  - intros u n. unfold part_rows. rewrite Hp. apply H2.
Qed.

Lemma preserves_ret {A} (a : A) : preserves (ret a).
Proof. intros s H. exact H. Qed.

Lemma preserves_throw {A} e : preserves (@throw A e).
Proof. intros s H. exact H. Qed.

Lemma preserves_gets {A} (f : store -> A) : preserves (gets f).
Proof. intros s H. exact H. Qed.

Lemma preserves_bind {A B} (m : M A) (k : A -> M B) :
  preserves m -> (forall a, preserves (k a)) -> preserves (bind m k).
Proof.
  intros Hm Hk s Hs. unfold state_after, bind.
  specialize (Hm s Hs). unfold state_after in Hm.
  destruct (m s) as [[a|e] s']; simpl in *; auto.
  apply (Hk a s' Hm).
Qed.

Lemma preserves_try_catch {A} (m : M A) (h : exn -> M A) :
  preserves m -> (forall e, preserves (h e)) -> preserves (try_catch m h).
Proof.
  intros Hm Hh s Hs. unfold state_after, try_catch.
  specialize (Hm s Hs). unfold state_after in Hm.
  destruct (m s) as [[a|e] s']; simpl in *; auto.
  apply (Hh e s' Hm).
Qed.

Lemma preserves_for_each {A} (xs : list A) (body : A -> M unit) :
  (forall x, preserves (body x)) -> preserves (for_each xs body).
Proof.
  intros H. induction xs as [|x xs IH]; simpl.
  - apply preserves_ret.
  - apply preserves_bind; auto.
Qed.

(** One step of a proof that a computation keeps the invariant. *)
Ltac preserves_step :=
  match goal with
  | |- preserves (ret _) => apply preserves_ret
  | |- preserves (throw _) => apply preserves_throw
  | |- preserves (gets _) => apply preserves_gets
  | |- preserves (bind _ _) => apply preserves_bind; [|intros ?]
  | |- preserves (try_catch _ _) => apply preserves_try_catch; [|intros ?]
  | |- preserves (for_each _ _) => apply preserves_for_each; intros ?
  | |- preserves (if ?b then _ else _) => destruct b
  | |- preserves (match ?x with _ => _ end) => destruct x
  | |- preserves (let _ := _ in _) => cbv zeta
  end.

Section PreservesFacts.
Context {rt : Runtime}.

Lemma preserves_tables {A} (m : M A) :
  (forall s, objects (state_after m s) = objects s
             /\ multipart_parts (state_after m s) = multipart_parts s) ->
  preserves m.
Proof.
  intros H s Hs. destruct (H s) as [Ho Hp]. eapply store_ok_tables; eauto.
Qed.

Lemma preserves_insert_upload r : preserves (insert_upload r).
Proof.
  apply preserves_tables. intros s. unfold state_after, insert_upload.
  destruct (existsb _ _); auto.
Qed.

Lemma preserves_delete_upload u : preserves (delete_upload u).
Proof. apply preserves_tables. intros s. auto. Qed.

Lemma preserves_clients_add w : preserves (clients_add w).
Proof. apply preserves_tables. intros s. auto. Qed.

Lemma preserves_clients_delete w : preserves (clients_delete w).
Proof. apply preserves_tables. intros s. auto. Qed.

Lemma preserves_new_WebSocketPair : preserves new_WebSocketPair.
Proof. apply preserves_tables. intros s. auto. Qed.

Lemma preserves_ws_send t w m : preserves (ws_send t w m).
Proof.
  apply preserves_tables. intros s. unfold state_after, ws_send.
  destruct (t w); auto.
Qed.

Lemma preserves_select_limit {A} n (rows : store -> list A) :
  preserves (select_limit n rows).
Proof. unfold select_limit. repeat preserves_step. Qed.

Lemma preserves_typed_array_set t src o : preserves (typed_array_set t src o).
Proof. unfold typed_array_set. repeat preserves_step. Qed.

Lemma preserves_combine_chunks chunks :
  forall buf o, preserves (combine_chunks chunks buf o).
Proof.
  induction chunks as [|c rest IH]; intros buf o; simpl.
  - apply preserves_ret.
  - apply preserves_bind; [apply preserves_typed_array_set|auto].
Qed.

Lemma preserves_getObject bucket key headOnly :
  preserves (getObject bucket key headOnly).
Proof.
  unfold getObject, select_object_meta, select_object_chunks, new_Uint8Array.
  repeat (preserves_step || apply preserves_combine_chunks).
Qed.

Lemma preserves_headBucket bucket : preserves (headBucket bucket).
Proof. apply preserves_ret. Qed.

Lemma preserves_listObjectsV2 bucket params :
  preserves (listObjectsV2 bucket params).
Proof.
  unfold listObjectsV2, list_slash, list_delimiter, list_plain.
  repeat (preserves_step || apply preserves_select_limit).
Qed.

Lemma preserves_listMultipartUploads bucket params :
  preserves (listMultipartUploads bucket params).
Proof.
  unfold listMultipartUploads.
  repeat (preserves_step || apply preserves_select_limit).
Qed.

Lemma preserves_createMultipartUpload bucket key req :
  preserves (createMultipartUpload bucket key req).
Proof.
  unfold createMultipartUpload.
  repeat (preserves_step || apply preserves_insert_upload).
Qed.

Lemma preserves_handleWebSocketUpgrade req :
  preserves (handleWebSocketUpgrade req).
Proof.
  unfold handleWebSocketUpgrade.
  repeat (preserves_step || apply preserves_new_WebSocketPair
          || apply preserves_clients_add).
Qed.

Lemma preserves_broadcast_send t m clients :
  forall toRemove, preserves (broadcast_send t m clients toRemove).
Proof.
  induction clients as [|w rest IH]; intros toRemove; simpl.
  - apply preserves_ret.
  - repeat (preserves_step || apply preserves_ws_send || apply IH).
Qed.

Lemma preserves_broadcastRequestInfo t info :
  preserves (broadcastRequestInfo t info).
Proof.
  unfold broadcastRequestInfo.
  repeat (preserves_step || apply preserves_broadcast_send
          || apply preserves_clients_delete).
Qed.

End PreservesFacts.

(* ================================================================== *)
(** * copyObject *)

Section CopyFacts.
Context {rt : Runtime}.

Lemma copy_row_index bucket destKey meta lm chunk :
  o_chunk_index (copy_row bucket destKey meta lm chunk) = o_chunk_index chunk.
Proof.
  unfold copy_row. destruct (Z.eqb_spec (o_chunk_index chunk) 0); simpl; auto.
Qed.

Lemma copy_row_data bucket destKey meta lm chunk :
  o_data (copy_row bucket destKey meta lm chunk) = o_data chunk.
Proof. unfold copy_row. destruct (o_chunk_index chunk =? 0); reflexivity. Qed.

Lemma copy_row_at bucket destKey meta lm chunk :
  object_at bucket destKey (copy_row bucket destKey meta lm chunk) = true.
Proof.
  unfold copy_row. destruct (o_chunk_index chunk =? 0); apply object_at_spec; auto.
Qed.

(** With a matching source, [copyObject] is [copy_from]. *)
Lemma copyObject_copy_from bucket destKey copySource req sourceKey :
  copy_source_key bucket copySource = Some sourceKey ->
  copyObject bucket destKey copySource req
  = try_catch (copy_from bucket destKey sourceKey req)
      (fun _ => ret (errorResponse (js "InternalError")
                                   (js "Failed to copy object") 500)).
Proof.
  unfold copy_source_key, copyObject. cbv zeta.
  destruct (indexOf _ _ =? -1); [discriminate|].
  destruct (str_eqb _ bucket) eqn:Eb; [|discriminate].
  intros ->. cbn [negb]. apply str_eqb_eq in Eb. rewrite Eb. reflexivity.
Qed.

Lemma copy_loop_run bucket destKey meta lm chunks :
  forall i s,
    map o_chunk_index chunks = zseq i (List.length chunks) ->
    object_free_from s bucket destKey i ->
    for_each chunks (fun chunk =>
      if o_chunk_index chunk =? 0 then
        insert_object
          {| o_bucket := bucket; o_key := destKey;
             o_chunk_index := 0; o_size := o_size meta;
             o_etag := o_etag meta; o_last_modified := lm;
             o_content_type := o_content_type meta;
             o_data := o_data chunk;
             o_depth := Some (computeDepth destKey);
             o_parent := Some (computeParent destKey) |}
      else
        insert_object
          {| o_bucket := bucket; o_key := destKey;
             o_chunk_index := o_chunk_index chunk; o_size := 0;
             o_etag := []; o_last_modified := [];
             o_content_type := []; o_data := o_data chunk;
             o_depth := None; o_parent := None |}) s
    = (Returned tt,
       with_objects s (objects s ++ map (copy_row bucket destKey meta lm) chunks)).
Proof.
  induction chunks as [|c rest IH]; intros i s Hidx Hfree.
  - simpl. unfold ret. now rewrite app_nil_r, with_objects_same.
  - cbn [map List.length zseq] in Hidx. injection Hidx as Hc Hrest.
    cbn [for_each map]. unfold bind.
    match goal with
    | |- context [(if ?b then insert_object ?x else insert_object ?y) s] =>
        replace (if b then insert_object x else insert_object y)
          with (insert_object (copy_row bucket destKey meta lm c))
          by (unfold copy_row; destruct b; reflexivity)
    end.
    rewrite insert_object_fresh.
    2:{ intros r Hr Hat. rewrite copy_row_index, Hc. apply Hfree; auto.
        pose proof (copy_row_at bucket destKey meta lm c) as Hd.
        apply object_at_spec in Hd as [Hb Hk].
        apply object_at_spec in Hat as [Hb' Hk']. apply object_at_spec.
        split; congruence. }
    rewrite (IH (i + 1)); auto.
    + cbn [objects with_objects]. now rewrite <- app_assoc.
    + eapply object_free_from_snoc; [exact Hfree|reflexivity|].
      rewrite copy_row_index. lia.
Qed.

(** The rows of the source that [copyObject] still finds after it deleted
    the destination. *)
Lemma rows_after_delete s bucket destKey sourceKey :
  filter (object_at bucket sourceKey)
         (filter (fun r => negb (object_at bucket destKey r)) (objects s))
  = if str_eqb sourceKey destKey then [] else object_rows s bucket sourceKey.
Proof.
  destruct (str_eqb sourceKey destKey) eqn:E.
  - apply str_eqb_eq in E. subst. apply filter_delete_same.
  - apply filter_delete_other. intros r. apply object_at_other.
    apply str_eqb_neq in E. congruence.
Qed.

Lemma meta_of_chunked s bucket key r rest size :
  object_rows s bucket key = r :: rest ->
  chunked (map o_chunk_index (r :: rest)) size (map o_data (r :: rest)) ->
  filter (fun x => object_at bucket key x && (o_chunk_index x =? 0)) (objects s)
  = [r].
Proof.
  intros Hrows [Hidx _ _ _]. rewrite length_map in Hidx.
  rewrite filter_and. fold (object_rows s bucket key). rewrite Hrows.
  cbn [map List.length zseq] in Hidx. injection Hidx as H0 Hrest.
  simpl. rewrite H0. simpl. f_equal.
  apply filter_none. rewrite Forall_forall. intros x Hx.
  apply (in_map o_chunk_index) in Hx. rewrite Hrest in Hx.
  apply zseq_lower in Hx. apply Z.eqb_neq. lia.
Qed.

Lemma meta_of_empty s bucket key :
  object_rows s bucket key = [] ->
  filter (fun x => object_at bucket key x && (o_chunk_index x =? 0)) (objects s)
  = [].
Proof.
  intros H. rewrite filter_and. fold (object_rows s bucket key). now rewrite H.
Qed.

(** [copy_from] on a source that follows the chunk discipline. *)
Lemma copy_from_run s bucket destKey sourceKey req r rest :
  object_rows s bucket sourceKey = r :: rest ->
  chunked (map o_chunk_index (r :: rest)) (o_size r) (map o_data (r :: rest)) ->
  copy_from bucket destKey sourceKey req s
  = (Returned {| status := 200; resp_headers := xml_headers;
                 resp_body := CopyObjectResult (now req) (quoted (o_etag r)) |},
     with_objects s
       (filter (fun x => negb (object_at bucket destKey x)) (objects s)
        ++ map (copy_row bucket destKey r (now req))
               (if str_eqb sourceKey destKey then [] else r :: rest))).
Proof.
  intros Hrows Hch.
  unfold copy_from. unfold bind at 1. unfold select_object_meta, gets.
  rewrite (meta_of_chunked s bucket sourceKey r rest _ Hrows Hch).
  cbv zeta. unfold bind at 1. unfold delete_object_rows, modify.
  unfold bind at 1. unfold select_object_chunks, gets.
  cbn [objects with_objects]. rewrite rows_after_delete, Hrows.
  unfold bind.
  destruct (str_eqb sourceKey destKey).
  - simpl. unfold ret. now rewrite app_nil_r.
  - destruct Hch as [Hidx _ _ _]. rewrite length_map in Hidx.
    rewrite (sort_by_indices o_chunk_index _ _ _ Hidx).
    rewrite (copy_loop_run bucket destKey r (now req) (r :: rest) 0).
    + reflexivity.
    + exact Hidx.
    + apply delete_object_rows_free.
Qed.

Lemma copy_from_missing s bucket destKey sourceKey req :
  filter (fun x => object_at bucket sourceKey x && (o_chunk_index x =? 0))
         (objects s) = [] ->
  copy_from bucket destKey sourceKey req s
  = (Returned (errorResponse (js "NoSuchKey")
                 (js "The specified source key does not exist.") 404), s).
Proof.
  intros H. unfold copy_from, bind, select_object_meta, gets. now rewrite H.
Qed.

End CopyFacts.

(* ================================================================== *)
(** * The handlers keep the invariant *)

Lemma key_pair_dec (a b : jsstring * jsstring) : a = b \/ a <> b.
Proof.
  destruct a as [a1 a2], b as [b1 b2].
  destruct (str_eqb a1 b1) eqn:E1; [apply str_eqb_eq in E1|apply str_eqb_neq in E1];
    [|right; congruence].
  destruct (str_eqb a2 b2) eqn:E2; [apply str_eqb_eq in E2|apply str_eqb_neq in E2];
    [left|right]; congruence.
Qed.

Lemma part_pair_dec (a b : jsstring * Z) : a = b \/ a <> b.
Proof.
  destruct a as [a1 a2], b as [b1 b2].
  destruct (str_eqb a1 b1) eqn:E1; [apply str_eqb_eq in E1|apply str_eqb_neq in E1];
    [|right; congruence].
  destruct (Z.eq_dec a2 b2); [left|right]; congruence.
Qed.

(** Replacing the rows of one object by rows that follow the discipline. *)
Lemma store_ok_replace_object s s' bucket key rows :
  store_ok s ->
  objects s' = filter (fun r => negb (object_at bucket key r)) (objects s) ++ rows ->
  multipart_parts s' = multipart_parts s ->
  Forall (fun r => object_at bucket key r = true) rows ->
  object_ok key rows ->
  store_ok s'.
Proof.
  intros [Ho Hp] Hobj Hparts Hat Hok. split.
  - intros b k. unfold object_rows. rewrite Hobj, filter_app.
    destruct (key_pair_dec (b, k) (bucket, key)) as [E|E].
    + injection E as -> ->. rewrite filter_delete_same. cbn [app].
      now rewrite filter_all.
    + rewrite filter_delete_other by (intros r; apply object_at_other; auto).
      rewrite (filter_none _ rows); [rewrite app_nil_r; apply Ho|].
      eapply Forall_impl; [|exact Hat]. cbv beta. intros r Hr.
      eapply object_at_other; [|exact Hr]. congruence.
  - intros u n. unfold part_rows. rewrite Hparts. apply Hp.
Qed.

Lemma store_ok_replace_part s s' uploadId n rows :
  store_ok s ->
  multipart_parts s'
  = filter (fun r => negb (part_at uploadId n r)) (multipart_parts s) ++ rows ->
  objects s' = objects s ->
  Forall (fun r => part_at uploadId n r = true) rows ->
  part_ok rows ->
  store_ok s'.
Proof.
  intros [Ho Hp] Hparts Hobj Hat Hok. split.
  - intros b k. unfold object_rows. rewrite Hobj. apply Ho.
  - intros u m. unfold part_rows. rewrite Hparts, filter_app.
    destruct (part_pair_dec (u, m) (uploadId, n)) as [E|E].
    + injection E as -> ->. rewrite filter_delete_same. cbn [app].
      now rewrite filter_all.
    + rewrite filter_delete_other by (intros r; apply part_at_other; auto).
      rewrite (filter_none _ rows); [rewrite app_nil_r; apply Hp|].
      eapply Forall_impl; [|exact Hat]. cbv beta. intros r Hr.
      eapply part_at_other; [|exact Hr]. congruence.
Qed.

(** Deleting every part row of an upload. *)
Lemma part_rows_delete_upload (l : list part_row) uploadId u n :
  filter (part_at u n)
         (filter (fun r => negb (str_eqb (p_upload_id r) uploadId)) l)
  = if str_eqb u uploadId then [] else filter (part_at u n) l.
Proof.
  induction l as [|x l IH]; simpl.
  - now destruct (str_eqb u uploadId).
  - destruct (str_eqb (p_upload_id x) uploadId) eqn:E1; simpl.
    + rewrite IH. destruct (str_eqb u uploadId) eqn:E2; auto.
      unfold part_at. destruct (str_eqb (p_upload_id x) u) eqn:E3; auto.
      apply str_eqb_eq in E1, E3. subst. now rewrite str_eqb_refl in E2.
    + rewrite IH. destruct (str_eqb u uploadId) eqn:E2; auto.
      unfold part_at. destruct (str_eqb (p_upload_id x) u) eqn:E3; auto.
      apply str_eqb_eq in E2, E3. subst. now rewrite str_eqb_refl in E1.
Qed.

Lemma store_ok_delete_upload_parts s s' uploadId :
  store_ok s ->
  multipart_parts s'
  = filter (fun r => negb (str_eqb (p_upload_id r) uploadId)) (multipart_parts s) ->
  (forall b k, object_ok k (object_rows s' b k)) ->
  store_ok s'.
Proof.
  intros [Ho Hp] Hparts Hobj. split; auto.
  intros u n. unfold part_rows. rewrite Hparts, part_rows_delete_upload.
  destruct (str_eqb u uploadId); [now left|apply Hp].
Qed.

Section HandlersKeep.
Context {rt : Runtime}.

Lemma put_rows_ok bucket key req : object_ok key (put_rows bucket key req).
Proof.
  right. split.
  - rewrite put_rows_data, put_rows_indices. constructor.
    + reflexivity.
    + apply chunks_of_nonempty.
    + unfold put_rows. cbn [first_size put_first_row o_size].
      now rewrite chunks_of_concat.
    + apply chunks_of_bound.
  - unfold put_rows. eexists _, _. split; [reflexivity|]. split; reflexivity.
Qed.

Lemma preserves_putObject bucket key req : preserves (putObject bucket key req).
Proof.
  intros s Hs. unfold state_after. rewrite putObject_run. simpl snd.
  eapply store_ok_replace_object; [exact Hs|reflexivity|reflexivity| |].
  - apply put_rows_at.
  - apply put_rows_ok.
Qed.

Lemma preserves_deleteObject bucket key : preserves (deleteObject bucket key).
Proof.
  intros s Hs. unfold state_after, deleteObject, try_catch, bind,
    delete_object_rows, modify, ret. simpl snd.
  eapply (store_ok_replace_object s _ bucket key []); auto.
  - cbn [objects with_objects]. now rewrite app_nil_r.
  - now left.
Qed.

Lemma preserves_uploadPart bucket key uploadId partNumber req :
  preserves (uploadPart bucket key uploadId partNumber req).
Proof.
  destruct partNumber as [n|].
  - intros s Hs. unfold state_after. rewrite uploadPart_run. simpl snd.
    eapply store_ok_replace_part; [exact Hs|reflexivity|reflexivity| |].
    + apply upload_rows_at.
    + right. apply upload_rows_chunked.
  - unfold uploadPart. repeat preserves_step.
Qed.

Lemma preserves_abortMultipartUpload uploadId :
  preserves (abortMultipartUpload uploadId).
Proof.
  intros s Hs. unfold state_after, abortMultipartUpload, try_catch, bind,
    delete_upload_parts, delete_upload, modify, ret. simpl snd.
  eapply store_ok_delete_upload_parts; [exact Hs|reflexivity|].
  intros b k. apply Hs.
Qed.

Lemma preserves_completeMultipartUpload bucket key uploadId req :
  preserves (completeMultipartUpload bucket key uploadId req).
Proof.
  intros s Hs. unfold state_after.
  destruct (filter (fun r => str_eqb (u_upload_id r) uploadId) (multipart_uploads s))
    as [|upload others] eqn:Hup.
  { now rewrite completeMultipartUpload_no_session. }
  destruct (upload_parts s uploadId) as [|p ps] eqn:Hparts.
  { now rewrite (completeMultipartUpload_no_parts _ _ _ _ _ _ _ Hup Hparts). }
  rewrite (completeMultipartUpload_run _ _ _ _ _ _ _ Hup)
    by (rewrite Hparts; discriminate).
  simpl snd.
  eapply store_ok_delete_upload_parts; [exact Hs|reflexivity|].
  intros b k.
  destruct (key_pair_dec (b, k) (bucket, key)) as [E|E].
  - injection E as -> ->.
    destruct (completed_chunked s bucket key uploadId req (u_content_type upload))
      as (_ & Hch & Hfirst).
    + intros n. apply Hs.
    + rewrite Hparts. discriminate.
    + right. split; assumption.
  - rewrite completed_other_rows by exact E. apply Hs.
Qed.

Lemma copied_rows_ok bucket destKey r rest lm :
  chunked (map o_chunk_index (r :: rest)) (o_size r) (map o_data (r :: rest)) ->
  object_ok destKey (map (copy_row bucket destKey r lm) (r :: rest)).
Proof.
  intros [Hidx Hne Hsz Hb]. right.
  assert (H0 : o_chunk_index r = 0).
  { rewrite length_map in Hidx. cbn [map List.length zseq] in Hidx. congruence. }
  split.
  - rewrite !map_map.
    rewrite (map_ext _ o_chunk_index) by (intros; apply copy_row_index).
    rewrite (map_ext (fun x => o_data (copy_row bucket destKey r lm x)) o_data)
      by (intros; apply copy_row_data).
    constructor; auto.
    cbn [map first_size]. unfold copy_row. rewrite H0. simpl. exact Hsz.
  - cbn [map]. eexists _, _. split; [reflexivity|].
    unfold copy_row. rewrite H0. simpl. auto.
Qed.

Lemma preserves_copy_from bucket destKey sourceKey req :
  preserves (copy_from bucket destKey sourceKey req).
Proof.
  intros s Hs. unfold state_after.
  destruct Hs as [Ho Hp].
  destruct (Ho bucket sourceKey) as [Hnil|(Hch & r & rest & Hrows & _)].
  - rewrite copy_from_missing by (now apply meta_of_empty). split; auto.
  - rewrite Hrows in Hch. cbn [first_size] in Hch.
    rewrite (copy_from_run s bucket destKey sourceKey req r rest Hrows Hch).
    simpl snd.
    eapply (store_ok_replace_object s _ bucket destKey); [split; auto|reflexivity
                                                         |reflexivity| |].
    + apply Forall_forall. intros x Hx. apply in_map_iff in Hx as (c & <- & _).
      apply copy_row_at.
    + destruct (str_eqb sourceKey destKey); [now left|].
      now apply copied_rows_ok.
Qed.

Lemma preserves_copyObject bucket destKey copySource req :
  preserves (copyObject bucket destKey copySource req).
Proof.
  destruct (copy_source_key bucket copySource) as [sourceKey|] eqn:E.
  - rewrite (copyObject_copy_from _ _ _ _ _ E).
    apply preserves_try_catch; [apply preserves_copy_from|].
    intros e. apply preserves_ret.
  - unfold copy_source_key in E. unfold copyObject. cbv zeta in *.
    apply preserves_try_catch; [|intros e; apply preserves_ret].
    destruct (indexOf _ _ =? -1); [apply preserves_ret|].
    destruct (decodeURIComponent _) as [k|]; [|apply preserves_throw].
    destruct (str_eqb _ bucket); [discriminate|]. apply preserves_ret.
Qed.

Lemma preserves_handleRequest bucket key method req :
  preserves (handleRequest bucket key method req).
Proof.
  unfold handleRequest. cbv zeta.
  repeat match goal with
         | |- preserves (if ?b then _ else _) => destruct b
         end;
    first [ apply preserves_headBucket
          | apply preserves_listMultipartUploads
          | apply preserves_listObjectsV2
          | apply preserves_getObject
          | apply preserves_createMultipartUpload
          | apply preserves_uploadPart
          | apply preserves_completeMultipartUpload
          | apply preserves_abortMultipartUpload
          | apply preserves_copyObject
          | apply preserves_putObject
          | apply preserves_deleteObject
          | apply preserves_ret ].
Qed.

Lemma preserves_lift {A} (o : outcome A) : preserves (lift o).
Proof. intros s H. exact H. Qed.

Lemma preserves_fetch req : preserves (fetch req).
Proof.
  unfold fetch, fetch_with_token. cbv zeta.
  repeat (preserves_step
          || apply preserves_handleWebSocketUpgrade
          || apply preserves_lift
          || apply preserves_handleRequest
          || apply preserves_broadcastRequestInfo).
Qed.

Lemma empty_store_ok : store_ok empty_store.
Proof. split; intros; now left. Qed.

(** Every reachable state satisfies the invariant. *)
Lemma reachable_ok s : reachable s -> store_ok s.
Proof.
  induction 1 as [|s req _ IH|s w _ IH].
  - apply empty_store_ok.
  - now apply preserves_fetch.
  - now apply (preserves_clients_delete w).
Qed.

End HandlersKeep.

(* ================================================================== *)
(** * The layout of stored objects *)

Lemma concat_len_bound (cs : list bytes) :
  Forall (fun c => len c <= CHUNK_SIZE) cs ->
  len (concat cs) <= Z.of_nat (List.length cs) * CHUNK_SIZE.
Proof.
  induction 1 as [|c cs Hc _ IH]; cbn [concat List.length].
  - rewrite len_nil. lia.
  - rewrite len_app, Nat2Z.inj_succ. lia.
Qed.

Lemma zseq_higher (n : nat) :
  filter (fun i => 1 <=? i) (zseq 0 (S n)) = zseq 1 n.
Proof.
  simpl. apply filter_all. apply Forall_forall. intros z Hz.
  apply zseq_lower in Hz. apply Z.leb_le. lia.
Qed.

Lemma sort_by_sorted_id (l : list Z) :
  StronglySorted Z.le l -> sort_by Z.leb l = l.
Proof.
  intros H. apply sorted_perm_eq; auto.
  - apply sort_by_sorted.
  - apply sort_by_perm.
Qed.

Lemma store_ok_dense_by_rows s : store_ok s -> dense_by_rows s.
Proof.
  intros [Ho _] bucket key size Hsize rows. subst rows.
  pose proof CHUNK_SIZE_pos as Hc.
  unfold object_size in Hsize.
  destruct (Ho bucket key) as [Hnil|(Hch & r & rest & Hrows & _)].
  { rewrite (meta_of_empty _ _ _ Hnil) in Hsize. discriminate. }
  rewrite Hrows in Hch.
  rewrite (meta_of_chunked s bucket key r rest _ Hrows Hch) in Hsize.
  injection Hsize as <-.
  destruct Hch as [Hidx Hne Hsz Hb]. cbn [first_size] in Hsz.
  unfold higher_indices. rewrite Hrows, Hidx, length_map.
  rewrite sort_by_sorted_id by apply zseq_ascending.
  cbn [List.length]. rewrite Nat.sub_succ, Nat.sub_0_r.
  repeat split.
  - lia.
  - apply zseq_higher.
  - apply Forall_forall. intros x Hx. rewrite Forall_forall in Hb.
    apply Hb. now apply in_map.
  - exact Hsz.
  - apply concat_len_bound in Hb. rewrite length_map in Hb.
    cbn [List.length] in Hb. rewrite <- Hsz in Hb.
    unfold ceil_div. apply Z.lt_succ_r.
    apply Z.div_lt_upper_bound; lia.
Qed.

Section ServeFacts.
Context {rt : Runtime}.

Lemma serve_from_reachable reqs :
  forall s, reachable s ->
            reachable (fold_left (fun s req => state_after (fetch req) s) reqs s).
Proof.
  induction reqs as [|req reqs IH]; intros s Hs; simpl; auto.
  apply IH. now constructor.
Qed.

Lemma serve_reachable reqs : reachable (serve reqs).
Proof. apply serve_from_reachable. constructor. Qed.

End ServeFacts.

(* ================================================================== *)
(** * Copies *)

Section CopyResults.
Context {rt : Runtime}.

Lemma try_catch_returned {A} (m : M A) h s a s' :
  m s = (Returned a, s') -> try_catch m h s = (Returned a, s').
Proof. intros H. unfold try_catch. now rewrite H. Qed.

(** A copy between two keys: both objects exist afterwards and have the
    same bytes. *)
Lemma copyObject_distinct_keys s bucket destKey copySource sourceKey req :
  store_ok s ->
  copy_source_key bucket copySource = Some sourceKey ->
  sourceKey <> destKey ->
  object_rows s bucket sourceKey <> [] ->
  let s' := state_after (copyObject bucket destKey copySource req) s in
  (exists r, result_of (copyObject bucket destKey copySource req) s = Returned r
             /\ status r = 200)
  /\ exists hs hd body,
       getObject bucket sourceKey false s
       = (Returned {| status := 200; resp_headers := hs;
                      resp_body := Binary body |}, s)
       /\ getObject bucket sourceKey false s'
          = (Returned {| status := 200; resp_headers := hs;
                         resp_body := Binary body |}, s')
       /\ getObject bucket destKey false s'
          = (Returned {| status := 200; resp_headers := hd;
                         resp_body := Binary body |}, s').
Proof.
  intros [Ho Hp] Hsrc Hne Hex s'.
  destruct (Ho bucket sourceKey) as [Hnil|(Hch & r & rest & Hrows & _)];
    [congruence|].
  rewrite Hrows in Hch. cbn [first_size] in Hch.
  pose proof (copy_from_run s bucket destKey sourceKey req r rest Hrows Hch) as Hrun.
  apply str_eqb_neq in Hne. rewrite Hne in Hrun.
  assert (Hcopy : copyObject bucket destKey copySource req s = _)
    by (rewrite (copyObject_copy_from _ _ _ _ _ Hsrc);
        apply try_catch_returned; exact Hrun).
  split.
  { unfold result_of. rewrite Hcopy. eexists; split; reflexivity. }
  assert (Hs' : objects s'
                = filter (fun x => negb (object_at bucket destKey x)) (objects s)
                  ++ map (copy_row bucket destKey r (now req)) (r :: rest)).
  { unfold s', state_after. now rewrite Hcopy. }
  destruct Hch as [Hidx Hnon Hsz Hb]. rewrite length_map in Hidx.
  assert (Hsrc' : object_rows s' bucket sourceKey = r :: rest).
  { unfold object_rows. rewrite Hs', filter_app.
    rewrite filter_delete_other
      by (intros x; apply object_at_other; apply str_eqb_neq in Hne; congruence).
    fold (object_rows s bucket sourceKey). rewrite Hrows.
    rewrite (filter_none _ (map _ _)); [apply app_nil_r|].
    apply Forall_forall. intros x Hx. apply in_map_iff in Hx as (c & <- & _).
    eapply object_at_other; [|apply copy_row_at].
    apply str_eqb_neq in Hne. congruence. }
  assert (Hdst' : object_rows s' bucket destKey
                  = map (copy_row bucket destKey r (now req)) (r :: rest)).
  { unfold object_rows. rewrite Hs', filter_app, filter_delete_same. cbn [app].
    apply filter_all. apply Forall_forall. intros x Hx.
    apply in_map_iff in Hx as (c & <- & _). apply copy_row_at. }
  destruct (getObject_run s bucket sourceKey r rest Hrows Hidx Hsz) as [Hg0 _].
  destruct (getObject_run s' bucket sourceKey r rest Hsrc' Hidx Hsz) as [Hg1 _].
  cbn [map] in Hdst'.
  assert (Hdata : map o_data (copy_row bucket destKey r (now req) r
                              :: map (copy_row bucket destKey r (now req)) rest)
                  = map o_data (r :: rest)).
  { change (map o_data (map (copy_row bucket destKey r (now req)) (r :: rest))
            = map o_data (r :: rest)).
    rewrite map_map. apply map_ext. intros; apply copy_row_data. }
  assert (H0 : o_chunk_index r = 0)
    by (cbn [map List.length zseq] in Hidx; congruence).
  destruct (getObject_run s' bucket destKey _ _ Hdst') as [Hg2 _].
  - change (map o_chunk_index (map (copy_row bucket destKey r (now req)) (r :: rest))
            = zseq 0 (S (List.length (map (copy_row bucket destKey r (now req)) rest)))).
    rewrite map_map, length_map.
    rewrite (map_ext _ o_chunk_index) by (intros; apply copy_row_index).
    exact Hidx.
  - rewrite Hdata. unfold copy_row. rewrite H0. simpl o_size. exact Hsz.
  - rewrite Hdata in Hg2. eauto 10.
Qed.

(** A copy of a key onto itself answers 200 and removes the object. *)
Lemma copyObject_same_key s bucket key copySource req :
  store_ok s ->
  copy_source_key bucket copySource = Some key ->
  object_rows s bucket key <> [] ->
  let s' := state_after (copyObject bucket key copySource req) s in
  (exists r, result_of (copyObject bucket key copySource req) s = Returned r
             /\ status r = 200)
  /\ getObject bucket key false s'
     = (Returned (errorResponse (js "NoSuchKey")
                                (js "The specified key does not exist.") 404), s').
Proof.
  intros [Ho Hp] Hsrc Hex s'.
  destruct (Ho bucket key) as [Hnil|(Hch & r & rest & Hrows & _)];
    [congruence|].
  rewrite Hrows in Hch. cbn [first_size] in Hch.
  pose proof (copy_from_run s bucket key key req r rest Hrows Hch) as Hrun.
  rewrite str_eqb_refl in Hrun.
  assert (Hcopy : copyObject bucket key copySource req s = _)
    by (rewrite (copyObject_copy_from _ _ _ _ _ Hsrc);
        apply try_catch_returned; exact Hrun).
  split.
  { unfold result_of. rewrite Hcopy. eexists; split; reflexivity. }
  apply getObject_missing. unfold s', state_after. rewrite Hcopy. simpl snd.
  cbn [objects with_objects map]. rewrite app_nil_r, filter_and.
  now rewrite filter_delete_same.
Qed.

(** A copy whose source does not exist answers 404 NoSuchKey. *)
Lemma copyObject_missing_source s bucket destKey copySource sourceKey req :
  copy_source_key bucket copySource = Some sourceKey ->
  object_size s bucket sourceKey = None ->
  copyObject bucket destKey copySource req s
  = (Returned (errorResponse (js "NoSuchKey")
                 (js "The specified source key does not exist.") 404), s).
Proof.
  intros Hsrc Hnone. rewrite (copyObject_copy_from _ _ _ _ _ Hsrc).
  apply try_catch_returned. apply copy_from_missing.
  unfold object_size in Hnone. destruct (filter _ _); [reflexivity|discriminate].
Qed.

End CopyResults.

(* ================================================================== *)
(** * fetch *)

Section FetchFacts.
Context {rt : Runtime}.

Lemma fetch_upgrade req :
  is_upgrade req = true -> fetch req = handleWebSocketUpgrade req.
Proof. unfold is_upgrade, fetch. now intros ->. Qed.

Lemma fetch_token req bucket token :
  is_upgrade req = false ->
  request_bucket req = Some bucket ->
  request_token req = Some token ->
  fetch req = fetch_with_token bucket token req.
Proof.
  unfold is_upgrade, request_bucket, request_token, fetch. intros -> Hb Ht.
  cbv zeta in *.
  destruct (filter nonempty (split_on slash (pathname req))) as [|b rest];
    [discriminate|].
  injection Hb as ->.
  destruct (negb (truthy_opt (h_Authorization req))); [discriminate|].
  destruct (startsWith _ (js "Bearer ")).
  - now injection Ht as ->.
  - destruct (startsWith _ (js "AWS4-HMAC-SHA256")); [|discriminate].
    now rewrite Ht.
Qed.

Lemma fetch_no_token req bucket :
  is_upgrade req = false ->
  request_bucket req = Some bucket ->
  request_token req = None ->
  forall s, exists message,
    fetch req s = (Returned (errorResponse (js "Unauthorized") message 401), s).
Proof.
  unfold is_upgrade, request_bucket, request_token, fetch. intros -> Hb Ht s.
  cbv zeta in *.
  destruct (filter nonempty (split_on slash (pathname req))) as [|b rest];
    [discriminate|].
  destruct (negb (truthy_opt (h_Authorization req))); [eexists; reflexivity|].
  destruct (startsWith _ (js "Bearer ")); [discriminate|].
  destruct (startsWith _ (js "AWS4-HMAC-SHA256")); [|eexists; reflexivity].
  rewrite Ht. eexists; reflexivity.
Qed.

(** A token that is not made of three segments is answered 401. *)
Lemma fetch_with_token_format bucket token req s :
  str_eqb token (js "foo") = false ->
  len (split_on dot token) <> 3 ->
  fetch_with_token bucket token req s
  = (Returned (errorResponse (js "Unauthorized") (js "Invalid token format") 401),
     s).
Proof.
  intros Hfoo Hparts. unfold fetch_with_token. rewrite Hfoo. cbv zeta.
  apply Z.eqb_neq in Hparts. now rewrite Hparts.
Qed.

(** A token that [verifyToken] rejects is answered 401. *)
Lemma fetch_with_token_rejected bucket token req s header payload signature
      decoded payloadJson :
  str_eqb token (js "foo") = false ->
  split_on dot token = [header; payload; signature] ->
  atob payload = Some decoded ->
  JSON_parse decoded = Some payloadJson ->
  sub_truthy payloadJson = Returned true ->
  verifyToken token
    [or_default S3_JWT_SECRET (js "demo-secret-change-in-production")] = None ->
  fetch_with_token bucket token req s
  = (Returned (errorResponse (js "Unauthorized") (js "Invalid token") 401), s).
Proof.
  intros Hfoo Hparts Hatob Hjson Hsub Hver.
  unfold fetch_with_token. rewrite Hfoo. cbv zeta. rewrite Hparts.
  cbn [len List.length Z.of_nat Z.eqb negb nth].
  change (Z.of_nat 3 =? 3) with true. cbn [negb].
  rewrite Hatob, Hjson. unfold bind, ret, lift. rewrite Hsub. cbn [negb].
  now rewrite Hver.
Qed.

(** A token whose payload segment [atob] rejects makes [fetch] throw: the
    decoding is outside every [try]. *)
Lemma fetch_with_token_undecodable bucket token req s header payload signature :
  str_eqb token (js "foo") = false ->
  split_on dot token = [header; payload; signature] ->
  atob payload = None ->
  fetch_with_token bucket token req s = (Thrown InvalidCharacterError, s).
Proof.
  intros Hfoo Hparts Hatob.
  unfold fetch_with_token. rewrite Hfoo. cbv zeta. rewrite Hparts.
  change (len [header; payload; signature] =? 3) with true. cbn [negb nth].
  now rewrite Hatob.
Qed.

(** A payload that is not JSON makes [fetch] throw as well. *)
Lemma fetch_with_token_not_json bucket token req s header payload signature
      decoded :
  str_eqb token (js "foo") = false ->
  split_on dot token = [header; payload; signature] ->
  atob payload = Some decoded ->
  JSON_parse decoded = None ->
  fetch_with_token bucket token req s = (Thrown SyntaxError, s).
Proof.
  intros Hfoo Hparts Hatob Hjson.
  unfold fetch_with_token. rewrite Hfoo. cbv zeta. rewrite Hparts.
  change (len [header; payload; signature] =? 3) with true. cbn [negb nth].
  now rewrite Hatob, Hjson.
Qed.

Lemma broadcast_send_run throws info clients :
  forall toRemove s,
    broadcast_send throws info clients toRemove s
    = (Returned (toRemove ++ filter throws clients),
       {| objects := objects s; multipart_uploads := multipart_uploads s;
          multipart_parts := multipart_parts s;
          webSocketClients := webSocketClients s;
          next_ws := next_ws s;
          sent := sent s ++ map (fun w => (w, info))
                                (filter (fun w => negb (throws w)) clients) |}).
Proof.
  induction clients as [|w rest IH]; intros toRemove s.
  - simpl. unfold ret. rewrite !app_nil_r. now destruct s.
  - cbn [broadcast_send filter]. unfold bind at 1, try_catch, bind, ws_send.
    destruct (throws w) eqn:E; cbn [negb].
    + unfold ret. rewrite IH. now rewrite <- app_assoc.
    + unfold ret. rewrite IH. cbn [objects multipart_uploads multipart_parts
                                   webSocketClients next_ws sent map].
      now rewrite <- app_assoc.
Qed.

Lemma delete_clients_run (l : list ws) :
  forall s,
    for_each l clients_delete s
    = (Returned tt,
       {| objects := objects s; multipart_uploads := multipart_uploads s;
          multipart_parts := multipart_parts s;
          webSocketClients :=
            filter (fun x => negb (existsb (Nat.eqb x) l)) (webSocketClients s);
          next_ws := next_ws s; sent := sent s |}).
Proof.
  induction l as [|w l IH]; intros s.
  - simpl. unfold ret. f_equal. destruct s; simpl. f_equal.
    symmetry. apply filter_all. apply Forall_forall. auto.
  - cbn [for_each]. unfold bind, clients_delete. rewrite IH.
    cbn [objects multipart_uploads multipart_parts webSocketClients next_ws sent].
    do 2 f_equal.
    induction (webSocketClients s) as [|x xs IHx]; simpl; auto.
    rewrite (Nat.eqb_sym w x).
    destruct (Nat.eqb x w); simpl; auto.
    destruct (existsb (Nat.eqb x) l); simpl; auto. now rewrite IHx.
Qed.

Lemma broadcastRequestInfo_run throws info s :
  broadcastRequestInfo throws info s
  = (Returned tt, broadcast_store throws info s).
Proof.
  unfold broadcastRequestInfo. cbv zeta. unfold bind at 1, gets.
  unfold bind. rewrite broadcast_send_run, delete_clients_run.
  unfold broadcast_store.
  cbn [objects multipart_uploads multipart_parts webSocketClients next_ws sent app].
  do 2 f_equal.
  apply filter_ext_in. intros x Hx. f_equal.
  destruct (throws x) eqn:E.
  - apply existsb_exists. exists x. split; [|apply Nat.eqb_refl].
    apply filter_In. auto.
  - destruct (existsb _ _) eqn:E'; auto.
    apply existsb_exists in E' as (y & Hy & Hxy). apply Nat.eqb_eq in Hxy. subst.
    apply filter_In in Hy as [_ Hy]. congruence.
Qed.

(** The path of a verified token: the handler's response is broadcast. *)
Lemma fetch_authenticated req bucket key response s s1 :
  authenticated req bucket ->
  extract_key bucket req = Returned key ->
  handleRequest bucket key (method req) req s = (Returned response, s1) ->
  fetch req s
  = (Returned response,
     broadcast_store (send_throws req) (event_of req response) s1).
Proof.
  intros (Hup & Hb & token & header & payload & signature & decoded
          & payloadJson & claims & Ht & Hfoo & Hparts & Hatob & Hjson & Hsub
          & Hver & Hclaim) Hkey Hhandle.
  rewrite (fetch_token req bucket token Hup Hb Ht).
  unfold fetch_with_token. rewrite Hfoo. cbv zeta. rewrite Hparts.
  change (len [header; payload; signature] =? 3) with true. cbn [negb nth].
  rewrite Hatob, Hjson. unfold bind at 1, ret at 1.
  unfold bind at 1, lift at 1. rewrite Hsub. cbn [negb].
  rewrite Hver, Hclaim, str_eqb_refl. cbn [negb].
  unfold bind at 1, lift. rewrite Hkey.
  unfold bind at 1. rewrite Hhandle.
  unfold bind. rewrite broadcastRequestInfo_run. reflexivity.
Qed.

End FetchFacts.

(* ================================================================== *)
(** * Prefix ranges *)

(** Numbers within the safe integers are their own doubles, and a limit
    within them fits. *)
Lemma to_double_safe (z : Z) :
  Z.abs z <= MAX_SAFE_INTEGER -> to_double z = z.
Proof.
  intros H. unfold to_double, MAX_SAFE_INTEGER in *. cbv zeta.
  destruct (Z.ltb_spec (Z.abs z) (2 ^ 53)); [reflexivity|lia].
Qed.

Lemma js_add_safe (a b : Z) :
  Z.abs (a + b) <= MAX_SAFE_INTEGER -> js_add a b = a + b.
Proof. apply to_double_safe. Qed.

Lemma js_mul_safe (a b : Z) :
  Z.abs (a * b) <= MAX_SAFE_INTEGER -> js_mul a b = a * b.
Proof. apply to_double_safe. Qed.

Lemma limit_fits_safe (n : Z) :
  Z.abs n <= MAX_SAFE_INTEGER -> limit_fits n = true.
Proof.
  unfold limit_fits, MAX_SAFE_INTEGER. intros H.
  destruct (Z.ltb_spec (- 2 ^ 63) n); [|lia].
  destruct (Z.ltb_spec n (2 ^ 63)); [reflexivity|lia].
Qed.

Lemma select_limit_safe {A} (n : Z) (rows : store -> list A) :
  Z.abs n <= MAX_SAFE_INTEGER ->
  select_limit n rows = gets (fun s => sql_limit n (rows s)).
Proof. intros H. unfold select_limit. now rewrite limit_fits_safe. Qed.

(** [LIMIT maxKeys + 1] and [LIMIT maxKeys * 10 + 1] for a [maxKeys] of
    which they are safe integers. *)
Lemma select_limit_plus1 {A} (maxKeys : Z) (rows : store -> list A) :
  Z.abs maxKeys < MAX_SAFE_INTEGER ->
  select_limit (js_add maxKeys 1) rows
  = gets (fun s => sql_limit (maxKeys + 1) (rows s)).
Proof.
  intros H. rewrite js_add_safe by lia. apply select_limit_safe. lia.
Qed.

Lemma select_limit_times10 {A} (maxKeys : Z) (rows : store -> list A) :
  Z.abs (maxKeys * 10) < MAX_SAFE_INTEGER ->
  select_limit (js_add (js_mul maxKeys 10) 1) rows
  = gets (fun s => sql_limit (maxKeys * 10 + 1) (rows s)).
Proof.
  intros H. rewrite js_mul_safe by lia. rewrite js_add_safe by lia.
  apply select_limit_safe. lia.
Qed.

(** A limit that does not fit makes the statement fail. *)
Lemma select_limit_mismatch {A} (n : Z) (rows : store -> list A) (s : store) :
  limit_fits n = false -> select_limit n rows s = (Thrown SqlError, s).
Proof. intros H. unfold select_limit. now rewrite H. Qed.

Lemma unit_rank_inj (x y : N) : unit_rank x = unit_rank y -> x = y.
Proof.
  unfold unit_rank.
  destruct (N.ltb_spec x 0xD800), (N.ltb_spec x 0xE000),
    (N.ltb_spec x 0x10000), (N.ltb_spec y 0xD800), (N.ltb_spec y 0xE000),
    (N.ltb_spec y 0x10000); lia.
Qed.

Lemma unit_rank_eqb (x y : N) :
  (unit_rank x ?= unit_rank y)%N = Eq <-> x = y.
Proof.
  rewrite N.compare_eq_iff. split; [apply unit_rank_inj|now intros ->].
Qed.

(** The successor of a unit is the next in the order, but for the last
    unit before the surrogates, the last surrogate and 0xFFFF. *)
Lemma unit_rank_succ (c : N) :
  (c < 0xFFFF)%N -> c <> 0xD7FF%N -> c <> 0xDFFF%N ->
  unit_rank (c + 1) = (unit_rank c + 1)%N.
Proof.
  intros H1 H2 H3. unfold unit_rank.
  destruct (N.ltb_spec c 0xD800), (N.ltb_spec c 0xE000),
    (N.ltb_spec c 0x10000), (N.ltb_spec (c + 1) 0xD800),
    (N.ltb_spec (c + 1) 0xE000), (N.ltb_spec (c + 1) 0x10000); lia.
Qed.

Lemma str_compare_refl (a : jsstring) : str_compare a a = Eq.
Proof. induction a as [|x a IH]; simpl; auto. now rewrite N.compare_refl. Qed.

(** On a prefix [q ++ [c]] and the bound [q ++ [c']], with [c'] the unit
    that follows [c] in the order, the range test is the literal prefix
    test. *)
Lemma range_is_prefix (q : jsstring) (c c' : N) (k : jsstring) :
  unit_rank c' = (unit_rank c + 1)%N ->
  str_leb (q ++ [c]) k && str_ltb k (q ++ [c']) = startsWith k (q ++ [c]).
Proof.
  intros Hc'.
  revert k. induction q as [|y q IH]; intros [|x k]; try reflexivity.
  - unfold str_leb, str_ltb. cbn [app str_compare startsWith].
    rewrite (N.compare_antisym (unit_rank x) (unit_rank c)), Hc'.
    destruct (N.compare_spec (unit_rank x) (unit_rank c)) as [He|Hlt|Hgt];
      cbn [CompOpp].
    + apply unit_rank_inj in He. subst x. rewrite N.eqb_refl.
      destruct (N.compare_spec (unit_rank c) (unit_rank c + 1)); try lia.
      destruct k; reflexivity.
    + destruct (N.eqb_spec x c); [subst; lia|]. reflexivity.
    + destruct (N.eqb_spec x c); [subst; lia|].
      destruct (N.compare_spec (unit_rank x) (unit_rank c + 1));
        try lia; destruct k; reflexivity.
  - specialize (IH k). unfold str_leb, str_ltb in *.
    cbn [app str_compare startsWith].
    destruct (N.eqb_spec x y) as [->|Hne].
    + rewrite N.compare_refl. exact IH.
    + destruct (N.compare (unit_rank y) (unit_rank x)) eqn:E1.
      * apply unit_rank_eqb in E1. congruence.
      * apply N.compare_lt_iff in E1.
        now rewrite (proj2 (N.compare_gt_iff (unit_rank x) (unit_rank y)) E1).
      * reflexivity.
Qed.

Lemma len_snoc {A} (q : list A) (c : A) : len (q ++ [c]) = len q + 1.
Proof. rewrite len_app. reflexivity. Qed.

Lemma slice_drop_last {A} (q : list A) (c : A) : slice (q ++ [c]) 0 (-1) = q.
Proof.
  unfold slice, rel_index. rewrite len_snoc.
  pose proof (len_nonneg q).
  change (0 <? 0) with false. change (-1 <? 0) with true. cbv iota.
  rewrite Z.min_l, Z.max_l by lia. simpl skipn.
  replace (Z.to_nat (len q + 1 + -1 - 0)) with (List.length q)
    by (unfold len; lia).
  rewrite firstn_app, firstn_all, Nat.sub_diag. simpl. apply app_nil_r.
Qed.

Lemma charCodeAt_last (q : jsstring) (c : N) :
  charCodeAt (q ++ [c]) (len (q ++ [c]) - 1) = Some (Z.of_N c).
Proof.
  unfold charCodeAt. rewrite len_snoc.
  pose proof (len_nonneg q).
  destruct (Z.leb_spec 0 (len q + 1 - 1)); [|lia].
  destruct (Z.ltb_spec (len q + 1 - 1) (len q + 1)); [|lia].
  cbn [andb].
  replace (Z.to_nat (len q + 1 - 1)) with (List.length q + 0)%nat
    by (unfold len; lia).
  rewrite nth_error_app2, Nat.add_comm, Nat.add_sub by lia. reflexivity.
Qed.

(** The upper bound of the range, when the last unit is below 0xFFFF. *)
Lemma prefixUpperBound_next (q : jsstring) (c : N) :
  (c < 65535)%N -> prefixUpperBound (q ++ [c]) = q ++ [(c + 1)%N].
Proof.
  intros Hc. unfold prefixUpperBound.
  rewrite slice_drop_last, charCodeAt_last. cbn [plus1 option_map fromCharCode].
  rewrite Z.mod_small by lia. do 2 f_equal. lia.
Qed.

(** At 0xFFFF the bound wraps to 0 and the range is empty. *)
Lemma prefixUpperBound_wraps (q : jsstring) :
  prefixUpperBound (q ++ [65535%N]) = q ++ [0%N].
Proof.
  unfold prefixUpperBound.
  rewrite slice_drop_last, charCodeAt_last. reflexivity.
Qed.

(** The range of a prefix is the literal prefix test, but for a prefix
    that ends in 0xD7FF, 0xDFFF or 0xFFFF. *)
Lemma in_prefix_range_literal (prefix k : jsstring) (q : jsstring) (c : N) :
  prefix = q ++ [c] ->
  (c < 0xFFFF)%N -> c <> 0xD7FF%N -> c <> 0xDFFF%N ->
  in_prefix_range prefix k = startsWith k prefix.
Proof.
  intros -> Hc H1 H2. unfold in_prefix_range.
  replace (nonempty (q ++ [c])) with true by (now destruct q).
  rewrite prefixUpperBound_next by exact Hc. apply range_is_prefix.
  now apply unit_rank_succ.
Qed.

Lemma slice_take {A} (l : list A) (m : Z) :
  0 <= m -> slice l 0 m = firstn (Z.to_nat m) l.
Proof.
  intros Hm. unfold slice, rel_index. pose proof (len_nonneg l).
  change (0 <? 0) with false. cbv iota. destruct (Z.ltb_spec m 0); [lia|].
  rewrite (Z.min_l 0) by lia. simpl skipn. rewrite Z.sub_0_r.
  destruct (Z.le_gt_cases m (len l)).
  - now rewrite Z.min_l by lia.
  - rewrite Z.min_r by lia. unfold len. rewrite Nat2Z.id.
    rewrite firstn_all. symmetry. apply firstn_all2. unfold len in *. lia.
Qed.

Section PlainListing.
Context {rt : Runtime}.

(** The listing without delimiter for a prefix whose last unit is below
    0xFFFF and neither 0xD7FF nor 0xDFFF: the first [maxKeys] rows, by
    key, of the objects of the bucket whose key starts with the prefix and
    follows the marker. *)
Lemma list_plain_literal bucket prefix q c continuationToken startAfter maxKeys s :
  prefix = q ++ [c] ->
  (c < 0xFFFF)%N -> c <> 0xD7FF%N -> c <> 0xDFFF%N ->
  0 <= maxKeys < MAX_SAFE_INTEGER ->
  exists isTruncated token,
    list_plain bucket prefix continuationToken startAfter maxKeys s
    = (Returned
         (firstn (Z.to_nat maxKeys)
            (sort_by key_leb
               (filter (fun r =>
                          listed bucket r
                          && startsWith (o_key r) prefix
                          && after_marker continuationToken startAfter (o_key r))
                       (objects s))),
          [], isTruncated, token), s).
Proof.
  intros Hp Hc Hc1 Hc2 Hm.
  assert (Hf : filter (fun r => listed bucket r
                                && in_prefix_range prefix (o_key r)
                                && after_marker continuationToken startAfter (o_key r))
                      (objects s)
               = filter (fun r => listed bucket r
                                  && startsWith (o_key r) prefix
                                  && after_marker continuationToken startAfter (o_key r))
                        (objects s)).
  { apply filter_ext. intros r.
    now rewrite (in_prefix_range_literal prefix (o_key r) q c Hp Hc Hc1 Hc2). }
  unfold list_plain. rewrite select_limit_plus1 by lia.
  unfold bind, gets, ret. cbv zeta. rewrite Hf.
  rewrite slice_take by lia.
  unfold sql_limit. destruct (Z.ltb_spec (maxKeys + 1) 0); [lia|].
  rewrite firstn_firstn, Nat.min_l by lia.
  eexists _, _. reflexivity.
Qed.

End PlainListing.

Section PrefixListing.
Context {rt : Runtime}.

(** [listObjectsV2] without delimiter, for a prefix whose last unit is
    below 0xFFFF and neither 0xD7FF nor 0xDFFF (a prefix with [%] or [_]
    in particular), and a [max-keys] below the greatest safe integer: the
    keys returned are the first [max-keys], in key order, of the keys of
    the bucket that start with the prefix, unit for unit, and follow the
    marker. *)
Lemma listObjectsV2_literal_prefix s bucket params prefix q c maxKeys :
  or_default (params_get params (js "delimiter")) [] = [] ->
  or_default (params_get params (js "prefix")) [] = prefix ->
  prefix = q ++ [c] ->
  (c < 0xFFFF)%N -> c <> 0xD7FF%N -> c <> 0xDFFF%N ->
  parseInt (or_default (params_get params (js "max-keys")) (js "1000"))
  = Some maxKeys ->
  0 <= maxKeys < MAX_SAFE_INTEGER ->
  exists r,
    listObjectsV2 bucket params s
    = (Returned {| status := 200; resp_headers := xml_headers;
                   resp_body := ListBucketResult r |}, s)
    /\ l_CommonPrefixes r = []
    /\ map c_Key (l_Contents r)
       = map o_key
           (firstn (Z.to_nat maxKeys)
              (sort_by key_leb
                 (filter (fun r =>
                            listed bucket r
                            && startsWith (o_key r) prefix
                            && after_marker
                                 (or_default (params_get params (js "continuation-token")) [])
                                 (or_default (params_get params (js "start-after")) [])
                                 (o_key r))
                         (objects s)))).
Proof.
  intros Hd Hp Hq Hc Hc1 Hc2 Hm Hm0.
  destruct (list_plain_literal bucket prefix q c
              (or_default (params_get params (js "continuation-token")) [])
              (or_default (params_get params (js "start-after")) [])
              maxKeys s Hq Hc Hc1 Hc2 Hm0) as (isTruncated & token & Hrun).
  unfold listObjectsV2, try_catch. cbv zeta. rewrite Hd, Hp, Hm.
  change (str_eqb [] (js "/")) with false. cbn [nonempty].
  unfold bind. rewrite Hrun. unfold ret.
  eexists. split; [reflexivity|]. cbn [l_CommonPrefixes l_Contents].
  split; [reflexivity|]. rewrite map_map. reflexivity.
Qed.

End PrefixListing.

(* ================================================================== *)
(** * Keys, parents and first segments *)

Lemma computeDepth_app (a b : jsstring) :
  computeDepth (a ++ b) = computeDepth a + computeDepth b.
Proof. unfold computeDepth. now rewrite filter_app, len_app. Qed.

Lemma computeDepth_nonneg (a : jsstring) : 0 <= computeDepth a.
Proof. apply len_nonneg. Qed.

Lemma computeDepth_slash : computeDepth [slash] = 1.
Proof. reflexivity. Qed.

Lemma depth_zero_no_slash (q : jsstring) :
  computeDepth q = 0 -> ~ In slash q.
Proof.
  unfold computeDepth. intros H Hin.
  assert (Hf : In slash (filter (N.eqb slash) q))
    by (apply filter_In; split; [exact Hin|apply N.eqb_refl]).
  destruct (filter (N.eqb slash) q); [destruct Hf|].
  rewrite len_cons in H. pose proof (len_nonneg l). lia.
Qed.

Lemma first_segment_app (q rest : jsstring) :
  ~ In slash q -> first_segment (q ++ slash :: rest) = q.
Proof.
  induction q as [|x q IH]; simpl; intros H.
  - reflexivity.
  - destruct (N.eqb_spec x slash) as [->|_]; [tauto|].
    rewrite IH; tauto.
Qed.

Lemma has_slash_app (q rest : jsstring) : has_slash (q ++ slash :: rest) = true.
Proof.
  unfold has_slash. apply existsb_exists. exists slash.
  split; [apply in_app_iff; right; now left|reflexivity].
Qed.

Lemma lastIndexOf_from_spec (s : jsstring) (c : N) :
  forall i found,
    (lastIndexOf_from s c i found = found /\ ~ In c s)
    \/ (i <= lastIndexOf_from s c i found < i + len s
        /\ nth_error s (Z.to_nat (lastIndexOf_from s c i found - i)) = Some c).
Proof.
  induction s as [|x s IH]; intros i found; simpl.
  - left. split; auto.
  - destruct (IH (i + 1) (if N.eqb x c then i else found)) as [[Hr Hn]|[Hr Hn]].
    + rewrite Hr. destruct (N.eqb_spec x c) as [->|Hne].
      * right. rewrite len_cons. pose proof (len_nonneg s).
        split; [lia|]. now rewrite Z.sub_diag.
      * left. split; auto. intros [E|E]; [congruence|tauto].
    + right. rewrite len_cons. split; [lia|].
      replace (Z.to_nat (lastIndexOf_from s c (i + 1) (if N.eqb x c then i else found) - i))
        with (S (Z.to_nat (lastIndexOf_from s c (i + 1)
                             (if N.eqb x c then i else found) - (i + 1))))
        by lia.
      exact Hn.
Qed.

Lemma nth_error_split_at {A} (l : list A) (n : nat) (c : A) :
  nth_error l n = Some c -> l = firstn n l ++ c :: skipn (S n) l.
Proof.
  revert n; induction l as [|x l IH]; intros [|n]; simpl; try discriminate.
  - now intros [= ->].
  - intros H. f_equal. auto.
Qed.

(** The key without its trailing ["/"], if it has one, is a prefix of the
    key. *)
Lemma trimmed_prefix (key : jsstring) :
  exists tail,
    key = (if endsWith key (js "/") then slice key 0 (-1) else key) ++ tail.
Proof.
  destruct (endsWith key (js "/")).
  - exists (skipn (Z.to_nat (len key - 1)) key).
    destruct key as [|x key]; [reflexivity|].
    unfold slice, rel_index. rewrite len_cons. pose proof (len_nonneg key).
    change (0 <? 0) with false. change (-1 <? 0) with true. cbv iota.
    rewrite Z.min_l, Z.max_l by lia.
    replace (Z.to_nat (1 + len key + -1 - 0)) with (Z.to_nat (1 + len key - 1)) by lia.
    change (skipn (Z.to_nat 0) (x :: key)) with (x :: key).
    now rewrite firstn_skipn.
  - exists []. now rewrite app_nil_r.
Qed.

(** The parent of a key is empty, or it ends in ["/"] and starts the key. *)
Lemma computeParent_cases (key : jsstring) :
  computeParent key = []
  \/ exists q rest, computeParent key = q ++ [slash] /\ key = q ++ slash :: rest.
Proof.
  unfold computeParent. cbv zeta.
  destruct (trimmed_prefix key) as [tail Htail].
  set (trimmed := if endsWith key (js "/") then slice key 0 (-1) else key) in *.
  unfold lastIndexOf.
  destruct (lastIndexOf_from_spec trimmed slash 0 (-1)) as [[Hr _]|[Hr Hn]].
  - rewrite Hr. now left.
  - set (i := lastIndexOf_from trimmed slash 0 (-1)) in *.
    destruct (Z.eqb_spec i (-1)); [lia|]. right.
    rewrite Z.sub_0_r in Hn. rewrite slice_inside by lia.
    simpl skipn. rewrite Z.sub_0_r.
    pose proof (nth_error_split_at _ _ _ Hn) as Hsplit.
    exists (firstn (Z.to_nat i) trimmed), (skipn (S (Z.to_nat i)) trimmed ++ tail).
    split.
    + replace (Z.to_nat (i + 1)) with (S (Z.to_nat i)) by lia.
      rewrite Hsplit at 1.
      rewrite firstn_app, firstn_firstn, Nat.min_r by lia.
      rewrite length_firstn.
      assert (Hlen : (Z.to_nat i < List.length trimmed)%nat)
        by (unfold len in Hr; lia).
      rewrite Nat.min_l by lia.
      replace (S (Z.to_nat i) - Z.to_nat i)%nat with 1%nat by lia.
      reflexivity.
    + rewrite Htail at 1. rewrite Hsplit at 1. now rewrite <- app_assoc.
Qed.

Lemma computeParent_depth_le (key : jsstring) :
  computeDepth (computeParent key) <= computeDepth key.
Proof.
  destruct (computeParent_cases key) as [->|(q & rest & -> & Hk)].
  - apply computeDepth_nonneg.
  - rewrite Hk. rewrite !computeDepth_app.
    change (slash :: rest) with ([slash] ++ rest). rewrite computeDepth_app.
    pose proof (computeDepth_nonneg rest). lia.
Qed.

(** A parent with one ["/"] is the first segment of the key, with ["/"]. *)
Lemma parent_first_segment (key : jsstring) :
  computeDepth (computeParent key) = 1 ->
  has_slash key = true /\ computeParent key = first_segment key ++ js "/".
Proof.
  intros Hd.
  destruct (computeParent_cases key) as [E|(q & rest & E & Hk)].
  - rewrite E in Hd. discriminate.
  - rewrite E in *. rewrite computeDepth_app, computeDepth_slash in Hd.
    assert (Hq : ~ In slash q) by (apply depth_zero_no_slash; lia).
    rewrite Hk. split; [apply has_slash_app|].
    now rewrite first_segment_app.
Qed.

(* ================================================================== *)
(** * The listing with the delimiter "/" *)

Lemma opt_str_eqb_eq (a b : option jsstring) :
  opt_str_eqb a b = true <-> a = b.
Proof.
  destruct a as [a|], b as [b|]; simpl; try (split; congruence).
  rewrite str_eqb_eq. split; congruence.
Qed.

Lemma distinct_In (l : list (option jsstring)) x :
  In x (distinct l) <-> In x l.
Proof.
  induction l as [|y l IH]; simpl; [tauto|].
  rewrite filter_In, IH. split.
  - intros [H|[H _]]; auto.
  - intros [H|H]; auto.
    destruct (opt_str_eqb y x) eqn:E.
    + apply opt_str_eqb_eq in E. auto.
    + right. auto.
Qed.

Lemma filter_filter_length {A} (P Q : A -> bool) (l : list A) :
  (List.length (filter P (filter Q l)) <= List.length (filter P l))%nat.
Proof.
  induction l as [|x l IH]; simpl; auto.
  destruct (Q x); simpl; destruct (P x); simpl; lia.
Qed.

Lemma distinct_filter_length (P : option jsstring -> bool) l :
  (List.length (filter P (distinct l)) <= List.length (filter P l))%nat.
Proof.
  induction l as [|y l IH]; simpl; auto.
  pose proof (filter_filter_length P (fun z => negb (opt_str_eqb y z)) (distinct l)).
  destruct (P y); simpl; lia.
Qed.

Lemma insert_by_filter_length {A} (le : A -> A -> bool) (P : A -> bool) x l :
  List.length (filter P (insert_by le x l)) = List.length (filter P (x :: l)).
Proof.
  induction l as [|y l IH]; simpl; auto.
  destruct (le x y); simpl; auto.
  simpl in IH. destruct (P y) eqn:Ey, (P x) eqn:Ex; simpl in *; lia.
Qed.

Lemma sort_by_filter_length {A} (le : A -> A -> bool) (P : A -> bool) l :
  List.length (filter P (sort_by le l)) = List.length (filter P l).
Proof.
  induction l as [|x l IH]; simpl; auto.
  rewrite insert_by_filter_length. simpl. destruct (P x); simpl; lia.
Qed.

Lemma filter_map_length {A B} (f : A -> B) (P : B -> bool) (l : list A) :
  List.length (filter P (map f l)) = List.length (filter (fun x => P (f x)) l).
Proof.
  induction l as [|x l IH]; simpl; auto. destruct (P (f x)); simpl; lia.
Qed.

Lemma filter_disjoint_length {A} (P Q R : A -> bool) (l : list A) :
  (forall x, P x = true -> R x = true) ->
  (forall x, Q x = true -> R x = true) ->
  (forall x, P x = true -> Q x = false) ->
  (List.length (filter P l) + List.length (filter Q l)
   <= List.length (filter R l))%nat.
Proof.
  intros HP HQ HPQ. induction l as [|x l IH]; simpl; auto.
  destruct (P x) eqn:EP, (Q x) eqn:EQ, (R x) eqn:ER; simpl;
    try lia;
    try (apply HP in EP; congruence);
    try (apply HQ in EQ; congruence).
  apply HPQ in EP. congruence.
Qed.

Lemma sql_limit_all {A} (n : Z) (l : list A) :
  len l <= n -> sql_limit n l = l.
Proof.
  intros H. unfold sql_limit. destruct (n <? 0); auto.
  apply firstn_all2. unfold len in H. lia.
Qed.

Lemma includes_In (l : list jsstring) x : includes l x = true <-> In x l.
Proof.
  unfold includes. rewrite existsb_exists. split.
  - intros (y & Hy & E). apply str_eqb_eq in E. now subst.
  - intros H. exists x. split; auto. apply str_eqb_refl.
Qed.

Lemma collect_length prefix td rows :
  forall acc,
    (List.length (fold_left (collect_prefix prefix td) rows acc)
     <= List.length acc + List.length (filter nonroot rows))%nat.
Proof.
  induction rows as [|row rows IH]; intros acc; simpl; [lia|].
  specialize (IH (collect_prefix prefix td acc row)).
  assert (Hstep : (List.length (collect_prefix prefix td acc row)
                   <= List.length acc + (if nonroot row then 1 else 0))%nat).
  { unfold collect_prefix, nonroot. destruct row as [p|]; [|lia].
    destruct (nonempty p); simpl; [|lia].
    destruct (startsWith p prefix && (computeDepth p =? td)); [|lia].
    destruct (includes acc p); simpl; [lia|].
    rewrite length_app. simpl. lia. }
  destruct (nonroot row); simpl; lia.
Qed.

Lemma collect_prefix_In prefix td acc row p :
  In p (collect_prefix prefix td acc row)
  <-> In p acc
      \/ (row = Some p /\ nonempty p = true
          /\ startsWith p prefix = true /\ computeDepth p = td).
Proof.
  unfold collect_prefix. destruct row as [q|].
  2:{ split; [auto|]. intros [H|[H _]]; [auto|discriminate]. }
  destruct (nonempty q && startsWith q prefix && (computeDepth q =? td)) eqn:E.
  - apply andb_true_iff in E as [E E3]. apply andb_true_iff in E as [E1 E2].
    apply Z.eqb_eq in E3.
    destruct (includes acc q) eqn:Ei; cbn [negb].
    + apply includes_In in Ei. split; [auto|].
      intros [H|[H _]]; [auto|]. injection H as <-. exact Ei.
    + rewrite in_app_iff. simpl. split.
      * intros [H|[<-|[]]]; [auto|]. right. auto.
      * intros [H|[H _]]; [auto|]. injection H as <-. auto.
  - split; [auto|]. intros [H|(H & H1 & H2 & H3)]; [auto|].
    injection H as <-. rewrite H1, H2 in E. simpl in E.
    apply Z.eqb_neq in E. congruence.
Qed.

Lemma collect_In prefix td rows :
  forall acc p,
    In p (fold_left (collect_prefix prefix td) rows acc)
    <-> In p acc
        \/ (In (Some p) rows /\ nonempty p = true
            /\ startsWith p prefix = true /\ computeDepth p = td).
Proof.
  induction rows as [|row rows IH]; intros acc p; simpl; [tauto|].
  rewrite IH, collect_prefix_In. tauto.
Qed.

Lemma contents_of_In items d :
  In d (contents_of items) <-> exists v, In (ContentItem v d) items.
Proof.
  unfold contents_of. rewrite in_flat_map. split.
  - intros ([v|v d'] & Hi & Hd); simpl in Hd; [destruct Hd|].
    destruct Hd as [->|[]]. eauto.
  - intros (v & Hv). exists (ContentItem v d). split; auto. now left.
Qed.

Lemma prefixes_of_In items p :
  In p (prefixes_of items) <-> In (PrefixItem p) items.
Proof.
  unfold prefixes_of. rewrite in_flat_map. split.
  - intros ([v|v d'] & Hi & Hd); simpl in Hd; [|destruct Hd].
    destruct Hd as [->|[]]. auto.
  - intros Hv. exists (PrefixItem p). split; auto. now left.
Qed.

(** The columns [depth] and [parent] of the first row of an object. *)
Lemma listed_row_columns s bucket r :
  store_ok s -> In r (objects s) -> listed bucket r = true ->
  o_depth r = Some (computeDepth (o_key r))
  /\ o_parent r = Some (computeParent (o_key r)).
Proof.
  intros [Ho _] Hin Hl. unfold listed in Hl.
  apply andb_true_iff in Hl as [Hb H0]. apply Z.eqb_eq in H0.
  assert (Hr : In r (object_rows s (o_bucket r) (o_key r))).
  { apply filter_In. split; auto. apply object_at_spec. auto. }
  destruct (Ho (o_bucket r) (o_key r)) as [Hnil|(Hch & r0 & rest & Hrows & Hd & Hp)].
  - rewrite Hnil in Hr. destruct Hr.
  - rewrite Hrows in *. destruct Hch as [Hidx _ _ _]. rewrite length_map in Hidx.
    pose proof (chunked_first_only o_chunk_index r0 rest r Hidx Hr H0). subst r0.
    auto.
Qed.

Section SlashListing.
Context {rt : Runtime}.

Variables (s : store) (bucket : jsstring).
Hypothesis Hok : store_ok s.

(** The rows that the two statements of the fast path select at the root
    of the bucket. *)
Let F1 (r : object_row) : bool :=
  listed bucket r
  && match o_depth r with Some d => 1 <=? d | None => false end.

Let F2 (r : object_row) : bool :=
  listed bucket r && col_test (str_eqb []) (o_parent r).

Lemma bucket_keys_In k :
  In k (bucket_keys s bucket)
  <-> exists r, In r (objects s) /\ listed bucket r = true /\ o_key r = k.
Proof.
  unfold bucket_keys. rewrite in_map_iff. split.
  - intros (r & Hk & Hr). apply filter_In in Hr. exists r. tauto.
  - intros (r & Hr & Hl & Hk). exists r. split; auto. apply filter_In. auto.
Qed.

Lemma root_parents_In p :
  In (Some p) (map o_parent (filter F1 (objects s)))
  /\ nonempty p = true /\ startsWith p [] = true /\ computeDepth p = 1
  <-> exists k, In k (bucket_keys s bucket)
                /\ computeParent k = p /\ computeDepth p = 1.
Proof.
  split.
  - intros (Hin & _ & _ & Hd). apply in_map_iff in Hin as (r & Hp & Hr).
    apply filter_In in Hr as [Hr HF]. unfold F1 in HF.
    apply andb_true_iff in HF as [Hl _].
    destruct (listed_row_columns s bucket r Hok Hr Hl) as [_ Hpar].
    exists (o_key r). repeat split; auto.
    + apply bucket_keys_In. eauto.
    + congruence.
  - intros (k & Hk & Hp & Hd). apply bucket_keys_In in Hk as (r & Hr & Hl & <-).
    destruct (listed_row_columns s bucket r Hok Hr Hl) as [Hdep Hpar].
    split; [|split; [|split]]; auto.
    + apply in_map_iff. exists r. split; [congruence|].
      apply filter_In. split; auto. unfold F1. rewrite Hl, Hdep. simpl.
      apply Z.leb_le. pose proof (computeParent_depth_le (o_key r)).
      rewrite Hp in H. lia.
    + destruct p; [discriminate|reflexivity].
    + now destruct p.
Qed.

Lemma root_contents_In d :
  In d (filter F2 (objects s))
  <-> In d (objects s) /\ listed bucket d = true /\ computeParent (o_key d) = [].
Proof.
  rewrite filter_In. unfold F2. split.
  - intros (Hd & HF). apply andb_true_iff in HF as [Hl Hc].
    destruct (listed_row_columns s bucket d Hok Hd Hl) as [_ Hpar].
    rewrite Hpar in Hc. cbn [col_test] in Hc. apply str_eqb_eq in Hc. auto.
  - intros (Hd & Hl & Hp).
    destruct (listed_row_columns s bucket d Hok Hd Hl) as [_ Hpar].
    split; auto. rewrite Hl, Hpar, Hp. reflexivity.
Qed.

Lemma root_counts :
  (List.length (filter nonroot (map o_parent (filter F1 (objects s))))
   + List.length (filter F2 (objects s))
   <= List.length (bucket_keys s bucket))%nat.
Proof.
  unfold bucket_keys. rewrite length_map, filter_map_length.
  rewrite <- filter_and.
  apply filter_disjoint_length.
  - intros x H. apply andb_true_iff in H as [H _]. unfold F1 in H.
    now apply andb_true_iff in H as [H _].
  - intros x H. unfold F2 in H. now apply andb_true_iff in H as [H _].
  - intros x H. apply andb_true_iff in H as [_ H]. unfold F2.
    destruct (o_parent x) as [p|]; [|discriminate]. simpl in *.
    destruct p; [discriminate|]. apply andb_false_r.
Qed.

(** The fast path at the root of a bucket that holds at most [maxKeys]
    objects. *)
Lemma list_slash_root maxKeys :
  len (bucket_keys s bucket) <= maxKeys ->
  maxKeys < MAX_SAFE_INTEGER ->
  exists objs cps,
    list_slash bucket [] [] [] maxKeys s = (Returned (objs, cps, false, []), s)
    /\ (forall k, In k (map o_key objs)
                  <-> In k (bucket_keys s bucket) /\ computeParent k = [])
    /\ (forall p, In p cps
                  <-> exists k, In k (bucket_keys s bucket)
                                /\ computeParent k = p /\ computeDepth p = 1).
Proof.
  intros Hlen Hsafe. pose proof root_counts as Hcount.
  pose proof (len_nonneg (bucket_keys s bucket)) as Hnn.
  unfold list_slash. cbv zeta. change (computeDepth [] + 1) with 1.
  rewrite !select_limit_plus1 by lia.
  cbn [nonempty orb]. unfold bind at 1, gets at 1.
  assert (E1 : filter (fun r => listed bucket r
                                && match o_depth r with
                                   | Some d => 1 <=? d
                                   | None => false
                                   end && true && true) (objects s)
               = filter F1 (objects s))
    by (apply filter_ext; intros r; unfold F1; now rewrite !andb_true_r).
  rewrite E1. clear E1.
  set (parents := map o_parent (filter F1 (objects s))) in *.
  assert (Hplen : (List.length (sort_by opt_str_leb (distinct parents))
                   <= List.length (bucket_keys s bucket))%nat).
  { rewrite sort_by_length.
    pose proof (distinct_filter_length (fun _ => true) parents) as H.
    rewrite !filter_all in H by (apply Forall_forall; auto).
    unfold parents in *. rewrite length_map in *.
    unfold bucket_keys. rewrite length_map.
    eapply Nat.le_trans; [exact H|].
    unfold F1. rewrite filter_and. apply filter_length_le. }
  rewrite sql_limit_all by (unfold len in *; lia).
  set (cps := fold_left (collect_prefix [] 1)
                        (sort_by opt_str_leb (distinct parents)) []).
  unfold bind at 1, gets at 1.
  assert (E2 : filter (fun r => listed bucket r
                                && col_test (str_eqb []) (o_parent r)
                                && after_marker [] [] (o_key r)) (objects s)
               = filter F2 (objects s))
    by (apply filter_ext; intros r; unfold F2, after_marker; simpl;
        now rewrite andb_true_r).
  rewrite E2. clear E2.
  assert (Hclen : (List.length cps
                   <= List.length (filter nonroot parents))%nat).
  { unfold cps. etransitivity; [apply collect_length|]. simpl.
    rewrite sort_by_filter_length. apply distinct_filter_length. }
  rewrite sql_limit_all
    by (unfold len in *; rewrite sort_by_length; unfold parents in *; lia).
  set (objs2 := sort_by key_leb (filter F2 (objects s))).
  set (allResults := sort_by _ (map PrefixItem cps ++ _)).
  assert (Hall : len allResults <= maxKeys).
  { unfold allResults, len. rewrite sort_by_length, length_app, !length_map.
    unfold objs2. rewrite sort_by_length. unfold len in Hlen. lia. }
  unfold bind at 1.
  destruct (Z.ltb_spec maxKeys (len allResults)) as [Hlt|_]; [lia|].
  unfold ret. cbv beta iota.
  fold (contents_of allResults). fold (prefixes_of allResults).
  eexists _, _. split; [reflexivity|]. split.
  - intros k. rewrite in_map_iff. split.
    + intros (d & <- & Hd). apply contents_of_In in Hd as (v & Hv).
      unfold allResults in Hv. rewrite sort_by_In, in_app_iff in Hv.
      destruct Hv as [Hv|Hv]; apply in_map_iff in Hv as (x & Hx & Hin);
        [discriminate|]. injection Hx as _ ->.
      unfold objs2 in Hin. rewrite sort_by_In in Hin.
      apply root_contents_In in Hin as (Hd & Hl & Hp).
      split; auto. apply bucket_keys_In. eauto.
    + intros (Hk & Hp). apply bucket_keys_In in Hk as (r & Hr & Hl & <-).
      exists r. split; auto. apply contents_of_In. exists (o_key r).
      unfold allResults. rewrite sort_by_In, in_app_iff. right.
      apply in_map_iff. exists r. split; auto.
      unfold objs2. rewrite sort_by_In. apply root_contents_In. auto.
  - intros p. rewrite <- root_parents_In. fold parents.
    rewrite prefixes_of_In. unfold allResults.
    rewrite sort_by_In, in_app_iff. split.
    + intros [H|H]; apply in_map_iff in H as (x & Hx & Hin); [|discriminate].
      injection Hx as ->. unfold cps in Hin. apply collect_In in Hin.
      destruct Hin as [[]|(Hin & Hrest)].
      rewrite sort_by_In, distinct_In in Hin. auto.
    + intros (Hin & Hrest). left. apply in_map_iff. exists p. split; auto.
      unfold cps. apply collect_In. right. split; auto.
      now rewrite sort_by_In, distinct_In.
Qed.

End SlashListing.

(** The parent is empty exactly when the key has no ["/"] before its last
    unit. *)
Lemma computeParent_empty_iff (key : jsstring) :
  computeParent key = [] <-> has_slash (without_trailing_slash key) = false.
Proof.
  unfold computeParent, without_trailing_slash, has_slash, lastIndexOf. cbv zeta.
  set (trimmed := if endsWith key (js "/") then slice key 0 (-1) else key).
  destruct (lastIndexOf_from_spec trimmed slash 0 (-1)) as [[Hr Hn]|[Hr Hn]].
  - rewrite Hr. simpl. split; auto. intros _.
    destruct (existsb (N.eqb slash) trimmed) eqn:E; auto.
    apply existsb_exists in E as (x & Hx & Hxe). apply N.eqb_eq in Hxe.
    subst. tauto.
  - set (i := lastIndexOf_from trimmed slash 0 (-1)) in *.
    destruct (Z.eqb_spec i (-1)); [lia|].
    rewrite Z.sub_0_r in Hn. split.
    + intros E. rewrite slice_inside in E by lia. simpl skipn in E.
      rewrite Z.sub_0_r in E.
      apply (f_equal (@List.length N)) in E. rewrite length_firstn in E.
      simpl in E. unfold len in Hr. lia.
    + intros E. assert (Hin : In slash trimmed) by (eapply nth_error_In; eauto).
      assert (Ht : existsb (N.eqb slash) trimmed = true)
        by (apply existsb_exists; exists slash; split;
            [exact Hin|apply N.eqb_refl]).
      change (existsb (N.eqb slash) trimmed = false) in E.
      rewrite Ht in E. discriminate.
Qed.

(* ================================================================== *)
(** * The number of chunks that putObject writes *)

Lemma ceil_div_small (x : Z) : - CHUNK_SIZE < x <= 0 -> ceil_div x CHUNK_SIZE = 0.
Proof.
  intros H. unfold ceil_div. apply Z.div_small.
  pose proof CHUNK_SIZE_pos. lia.
Qed.

Lemma ceil_div_step (x : Z) :
  ceil_div x CHUNK_SIZE = 1 + ceil_div (x - CHUNK_SIZE) CHUNK_SIZE.
Proof.
  unfold ceil_div.
  replace (x + CHUNK_SIZE - 1) with (x - CHUNK_SIZE + CHUNK_SIZE - 1 + 1 * CHUNK_SIZE)
    by lia.
  rewrite Z.div_add by (pose proof CHUNK_SIZE_pos; lia). lia.
Qed.

Lemma loop_chunks_length (data : bytes) (size : Z) :
  forall fuel offset,
    - CHUNK_SIZE < size - offset ->
    size - offset <= Z.of_nat fuel * CHUNK_SIZE ->
    Z.of_nat (List.length (loop_chunks fuel data size offset))
    = ceil_div (size - offset) CHUNK_SIZE.
Proof.
  pose proof CHUNK_SIZE_pos as Hc.
  induction fuel as [|fuel IH]; intros offset Hlo Hhi.
  - cbn [loop_chunks List.length]. symmetry. apply ceil_div_small. lia.
  - cbn [loop_chunks]. destruct (Z.ltb_spec offset size).
    + cbn [List.length]. rewrite Nat2Z.inj_succ, IH by lia.
      rewrite (ceil_div_step (size - offset)).
      replace (size - (offset + CHUNK_SIZE)) with (size - offset - CHUNK_SIZE)
        by lia.
      lia.
    + cbn [List.length]. symmetry. apply ceil_div_small. lia.
Qed.

(** [putObject] writes [max 1 (ceil (size / CHUNK_SIZE))] rows. *)
Lemma chunks_of_length (data : bytes) :
  Z.of_nat (List.length (chunks_of data))
  = Z.max 1 (ceil_div (len data) CHUNK_SIZE).
Proof.
  pose proof CHUNK_SIZE_pos as Hc. pose proof (len_nonneg data) as Hn.
  unfold chunks_of. cbn [List.length]. rewrite Nat2Z.inj_succ.
  destruct (Z.ltb_spec CHUNK_SIZE (len data)) as [Hlt|Hge].
  - rewrite loop_chunks_length by (try apply fuel_enough; lia).
    rewrite (ceil_div_step (len data)).
    assert (0 <= ceil_div (len data - CHUNK_SIZE) CHUNK_SIZE)
      by (unfold ceil_div; apply Z.div_pos; lia).
    lia.
  - cbn [List.length].
    assert (ceil_div (len data) CHUNK_SIZE <= 1).
    { destruct (Z.eq_dec (len data) 0) as [E|E].
      - rewrite ceil_div_small by lia. lia.
      - rewrite ceil_div_step. rewrite ceil_div_small by lia. lia. }
    lia.
Qed.

Section PutLayout.
Context {rt : Runtime}.

(** An object that [putObject] has just written has the layout of the
    specification. *)
Lemma putObject_higher_indices bucket key req s :
  higher_indices (state_after (putObject bucket key req) s) bucket key
  = if CHUNK_SIZE <? len (arrayBuffer req)
    then zseq 1 (Z.to_nat (ceil_div (len (arrayBuffer req)) CHUNK_SIZE - 1))
    else [].
Proof.
  pose proof CHUNK_SIZE_pos as Hc.
  unfold higher_indices. rewrite putObject_rows, put_rows_indices.
  rewrite sort_by_sorted_id by apply zseq_ascending.
  pose proof (chunks_of_length (arrayBuffer req)) as Hlen.
  destruct (List.length (chunks_of (arrayBuffer req))) as [|n] eqn:E.
  { pose proof (chunks_of_nonempty (arrayBuffer req)) as Hne.
    apply length_zero_iff_nil in E. congruence. }
  rewrite zseq_higher.
  destruct (Z.ltb_spec CHUNK_SIZE (len (arrayBuffer req))) as [Hlt|Hge].
  - f_equal. lia.
  - pose proof (len_nonneg (arrayBuffer req)).
    assert (ceil_div (len (arrayBuffer req)) CHUNK_SIZE <= 1).
    { destruct (Z.eq_dec (len (arrayBuffer req)) 0) as [E0|E0].
      - rewrite ceil_div_small by lia. lia.
      - rewrite ceil_div_step. rewrite ceil_div_small by lia. lia. }
    assert (n = 0%nat) by lia. subst. reflexivity.
Qed.

End PutLayout.

(* ================================================================== *)
(** * The properties of the specification *)

(** C1 (round trip, chunking fidelity).  For every store, bucket, key and
    body [b] of any length, [putObject] answers 200; afterwards [getObject]
    answers 200 with a body equal to [b] byte for byte and a
    [Content-Length] that is the decimal rendering of the length of [b],
    and the HEAD form answers 200 with the same [Content-Length] and no
    body. *)
Theorem putObject_getObject_roundtrip {rt : Runtime}
        (s : store) (bucket key : jsstring) (req : request) :
  let b := arrayBuffer req in
  let s' := state_after (putObject bucket key req) s in
  (exists r, result_of (putObject bucket key req) s = Returned r
             /\ status r = 200)
  /\ (exists hs,
        getObject bucket key false s'
        = (Returned {| status := 200; resp_headers := hs;
                       resp_body := Binary b |}, s')
        /\ ContentLength hs = Some (number_toString (len b)))
  /\ (exists hs,
        getObject bucket key true s'
        = (Returned {| status := 200; resp_headers := hs;
                       resp_body := NoBody |}, s')
        /\ ContentLength hs = Some (number_toString (len b))).
Proof.
  intros b s'.
  split.
  { unfold result_of. rewrite putObject_run. eexists; split; reflexivity. }
  pose proof (putObject_rows bucket key req s) as Hrows. fold s' in Hrows.
  unfold put_rows in Hrows.
  destruct (getObject_run s' bucket key _ _ Hrows) as [Hget Hhead].
  - fold (put_rows bucket key req). rewrite put_rows_indices.
    f_equal. rewrite number_rows_length. unfold chunks_of. reflexivity.
  - fold (put_rows bucket key req). rewrite put_rows_data, chunks_of_concat.
    reflexivity.
  - fold (put_rows bucket key req) in Hget.
    rewrite put_rows_data, chunks_of_concat in Hget.
    split; eexists; (split; [eassumption|reflexivity]).
Qed.

(** C2 (multipart atomicity).  Take an upload identifier that is not in
    use, [createMultipartUpload] drawing it, and then any non-empty
    sequence of [uploadPart] calls for it.  Before
    [completeMultipartUpload] is called, [getObject] on the key answers
    404 NoSuchKey if the key held no object at the start;
    [completeMultipartUpload] then answers 200, and after it [getObject]
    answers 200 with exactly the parts' bytes (for each part number those
    of its last upload) put end to end in ascending order of part number. *)
Theorem multipart_atomicity {rt : Runtime}
        (s : store) (bucket key : jsstring) (create : request)
        (uploads : list (Z * request)) (complete : request) :
  let uploadId := randomUUID create in
  let s1 := state_after (createMultipartUpload bucket key create) s in
  let s2 := run_uploads bucket key uploadId uploads s1 in
  let s3 := state_after (completeMultipartUpload bucket key uploadId complete) s2 in
  fresh_upload_id s uploadId ->
  uploads <> [] ->
  (object_rows s bucket key = [] ->
   getObject bucket key false s2
   = (Returned (errorResponse (js "NoSuchKey")
                              (js "The specified key does not exist.") 404), s2))
  /\ (exists r, result_of (completeMultipartUpload bucket key uploadId complete) s2
                = Returned r /\ status r = 200)
  /\ (exists hs,
        getObject bucket key false s3
        = (Returned {| status := 200; resp_headers := hs;
                       resp_body := Binary (parts_concatenated uploads) |}, s3)).
Proof.
  intros uploadId s1 s2 s3 [Hfu Hfp] Hne.
  assert (Hs1 : s1 = with_uploads s
                  (multipart_uploads s
                   ++ [{| u_upload_id := uploadId; u_bucket := bucket;
                          u_key := key; u_created_at := now create;
                          u_content_type :=
                            or_default (h_content_type create)
                                       (js "application/octet-stream") |}])).
  { unfold s1, state_after. now rewrite createMultipartUpload_run. }
  destruct (run_uploads_objects bucket key uploadId uploads s1) as [Hobj Hupl].
  fold s2 in Hobj, Hupl.
  split.
  { intros Hnone. apply getObject_missing. rewrite Hobj, Hs1.
    cbn [objects with_uploads]. rewrite filter_and.
    fold (object_rows s bucket key). now rewrite Hnone. }
  destruct (session_parts bucket key uploadId uploads s1) as (Hok & Hnums & Hbody).
  { rewrite Hs1. exact Hfp. }
  fold s2 in Hok, Hnums, Hbody.
  assert (Hparts : upload_parts s2 uploadId <> []).
  { intros E. rewrite E in Hnums. simpl in Hnums.
    destruct uploads as [|[n r] rest]; [congruence|].
    assert (Hin : In n (uploaded_numbers ((n, r) :: rest))).
    { unfold uploaded_numbers. rewrite sort_by_In, nodup_In. now left. }
    rewrite <- Hnums in Hin. destruct Hin. }
  assert (Hsession :
    filter (fun r => str_eqb (u_upload_id r) uploadId) (multipart_uploads s2)
    = [{| u_upload_id := uploadId; u_bucket := bucket; u_key := key;
          u_created_at := now create;
          u_content_type :=
            or_default (h_content_type create)
                       (js "application/octet-stream") |}]).
  { rewrite Hupl, Hs1. cbn [multipart_uploads with_uploads].
    rewrite filter_app. rewrite filter_none.
    - simpl. now rewrite str_eqb_refl.
    - apply Forall_forall. intros r Hr. apply str_eqb_neq. auto. }
  pose proof (completeMultipartUpload_run bucket key uploadId complete s2 _ _
                Hsession Hparts) as Hrun.
  split.
  { unfold result_of. rewrite Hrun. eexists; split; reflexivity. }
  unfold s3, state_after. rewrite Hrun. simpl snd.
  destruct (getObject_completed s2 bucket key uploadId complete
              (or_default (h_content_type create) (js "application/octet-stream"))
              Hok Hparts) as (hs & Hget & _).
  assert (Heq : concat (assembled_chunks s2 uploadId (upload_parts s2 uploadId))
                = parts_concatenated uploads).
  { unfold assembled_chunks. rewrite concat_flat_map. unfold parts_concatenated.
    rewrite <- Hnums, map_map. f_equal. apply map_ext_in.
    intros p Hp. apply Hbody. rewrite <- Hnums. now apply in_map. }
  rewrite Heq in Hget. exists hs. exact Hget.
Qed.

Lemma multipart_atomicity_witness :
  fresh_upload_id empty_store (randomUUID demo_create)
  /\ demo_uploads <> []
  /\ exists hs s3,
       @getObject demo_runtime (js "b") (js "k") false s3
       = (Returned {| status := 200; resp_headers := hs;
                      resp_body := Binary [Byte.x61; Byte.x62] |}, s3).
Proof.
  assert (Hfresh : fresh_upload_id empty_store (randomUUID demo_create))
    by (split; intros r []).
  assert (Hne : demo_uploads <> []) by discriminate.
  split; [exact Hfresh|]. split; [exact Hne|].
  destruct (@multipart_atomicity demo_runtime empty_store (js "b") (js "k")
              demo_create demo_uploads demo_complete Hfresh Hne)
    as (_ & _ & hs & Hget).
  exists hs. eexists. exact Hget.
Defined.

(** C3, as stated, fails: a multipart upload of two parts of one byte
    each is completed into an object of size 2 that has a row of index 1,
    although 2 is not above [CHUNK_SIZE]. *)
Lemma small_multipart_object_has_second_chunk :
  exists s, @reachable demo_runtime s /\ ~ dense_by_size s.
Proof.
  exists (@serve demo_runtime two_small_parts). split.
  - apply serve_reachable.
  - intros H. specialize (H (js "b") (js "k") 2).
    destruct H as [H _]; [reflexivity|vm_compute; discriminate|].
    vm_compute in H. discriminate.
Qed.

(** C3, amended.  In every reachable state, for every stored object of
    total size [size] with [n] rows: [n >= 1], the rows of index 1 and more
    are exactly [1, 2, ..., n - 1], every chunk holds at most [CHUNK_SIZE]
    bytes and the chunks hold [size] bytes together, so that
    [n >= ceil(size / CHUNK_SIZE)] (rows of index 1 and more exist whenever
    [size > CHUNK_SIZE], and may exist below it). *)
Theorem reachable_dense_by_rows {rt : Runtime} (s : store) :
  reachable s -> dense_by_rows s.
Proof.
  intros Hr. apply store_ok_dense_by_rows. now apply reachable_ok.
Qed.

Lemma reachable_dense_by_rows_witness :
  @reachable demo_runtime (@serve demo_runtime two_small_parts)
  /\ dense_by_rows (@serve demo_runtime two_small_parts).
Proof.
  split.
  - apply serve_reachable.
  - apply (@reachable_dense_by_rows demo_runtime). apply serve_reachable.
Defined.

(** C4 fails on the code for [src = dst]: after [PUT /b/k], a copy of
    [/b/k] onto [/b/k] answers 200, and [GET /b/k] then answers 404
    NoSuchKey.  ([copyObject] deletes the destination rows before it reads
    the chunks of the source; see [copyObject_same_key] for every store, and
    [copyObject_distinct_keys], [copyObject_missing_source] for the rest of
    the claim.) *)
Theorem copy_onto_itself_loses_object :
  (exists hs,
     result_of (@fetch demo_runtime demo_get) (@serve demo_runtime [demo_put])
     = Returned {| status := 200; resp_headers := hs;
                   resp_body := Binary [Byte.x61] |})
  /\ (exists r,
        result_of (@fetch demo_runtime demo_self_copy)
                  (@serve demo_runtime [demo_put])
        = Returned r /\ status r = 200)
  /\ result_of (@fetch demo_runtime demo_get)
               (@serve demo_runtime [demo_put; demo_self_copy])
     = Returned (errorResponse (js "NoSuchKey")
                               (js "The specified key does not exist.") 404).
Proof.
  split; [|split].
  - eexists. vm_compute. reflexivity.
  - eexists. split; vm_compute; reflexivity.
  - vm_compute. reflexivity.
Qed.

(** C5, as stated, fails: in a bucket that holds the single key [dir/]
    (a directory marker), the listing with the delimiter ["/"] and no
    prefix returns [dir/] among the contents, although the key contains
    ["/"], and returns no common prefix. *)
Lemma directory_marker_is_listed_as_content :
  exists r,
    result_of (@fetch demo_runtime demo_list_slash)
              (@serve demo_runtime [demo_put_marker])
    = Returned {| status := 200; resp_headers := xml_headers;
                  resp_body := ListBucketResult r |}
    /\ ~ slash_listing_as_specified
          (bucket_keys (@serve demo_runtime [demo_put_marker]) (js "b")) r.
Proof.
  eexists. split; [vm_compute; reflexivity|].
  intros [H _]. destruct (H (js "dir/")) as [H1 _].
  destruct (H1 (or_introl eq_refl)) as [_ H2]. discriminate.
Qed.

(** C5, amended.  In every reachable state, for a bucket that holds at
    most max-keys objects and a max-keys below the greatest safe integer
    (2^53 - 1), [listObjectsV2] with the delimiter ["/"], no prefix and no
    marker answers 200, not truncated, and
    - its contents are exactly the keys that have no ["/"] before their last
      unit (the keys without ["/"] and the directory markers [name/] of the
      root);
    - every common prefix is [s + "/"] for the first segment [s] of a stored
      key that contains ["/"];
    - [s + "/"] is a common prefix for every stored key whose parent is
      [s + "/"], that is for every first-level directory that directly holds
      an object or a directory marker. *)
Theorem slash_listing_at_root {rt : Runtime}
        (s : store) (bucket : jsstring) (params : list (jsstring * jsstring))
        (maxKeys : Z) :
  reachable s ->
  params_get params (js "delimiter") = Some (js "/") ->
  or_default (params_get params (js "prefix")) [] = [] ->
  or_default (params_get params (js "start-after")) [] = [] ->
  or_default (params_get params (js "continuation-token")) [] = [] ->
  parseInt (or_default (params_get params (js "max-keys")) (js "1000"))
  = Some maxKeys ->
  len (bucket_keys s bucket) <= maxKeys ->
  maxKeys < MAX_SAFE_INTEGER ->
  exists r,
    listObjectsV2 bucket params s
    = (Returned {| status := 200; resp_headers := xml_headers;
                   resp_body := ListBucketResult r |}, s)
    /\ l_IsTruncated r = false
    /\ (forall k, In k (map c_Key (l_Contents r))
                  <-> In k (bucket_keys s bucket)
                      /\ has_slash (without_trailing_slash k) = false)
    /\ (forall p, In p (l_CommonPrefixes r) ->
                  exists k, In k (bucket_keys s bucket)
                            /\ has_slash k = true
                            /\ p = first_segment k ++ js "/")
    /\ (forall k, In k (bucket_keys s bucket) ->
                  computeDepth (computeParent k) = 1 ->
                  In (computeParent k) (l_CommonPrefixes r)).
Proof.
  intros Hr Hd Hp Hsa Hct Hm Hlen Hsafe.
  destruct (list_slash_root s bucket (reachable_ok s Hr) maxKeys Hlen Hsafe)
    as (objs & cps & Hrun & Hobjs & Hcps).
  unfold listObjectsV2, try_catch. cbv zeta.
  rewrite Hd, Hp, Hsa, Hct, Hm.
  change (or_default (Some (js "/")) []) with (js "/").
  change (str_eqb (js "/") (js "/")) with true. cbv iota.
  unfold bind. rewrite Hrun. unfold ret.
  eexists. split; [reflexivity|].
  cbn [l_IsTruncated l_Contents l_CommonPrefixes].
  split; [reflexivity|]. split; [|split].
  - intros k. rewrite map_map. cbn [to_contents c_Key].
    rewrite Hobjs, computeParent_empty_iff. reflexivity.
  - intros p Hin. apply Hcps in Hin as (k & Hk & Hpar & Hdep).
    exists k. rewrite <- Hpar in Hdep.
    destruct (parent_first_segment k Hdep) as [Hs Hf].
    repeat split; auto. congruence.
  - intros k Hk Hdep. apply Hcps. eauto.
Qed.

Lemma slash_listing_at_root_witness :
  @reachable demo_runtime (@serve demo_runtime demo_tree_puts)
  /\ len (bucket_keys (@serve demo_runtime demo_tree_puts) (js "b")) <= 1000
  /\ 1000 < MAX_SAFE_INTEGER
  /\ exists r,
       @listObjectsV2 demo_runtime (js "b") [(js "delimiter", js "/")]
                      (@serve demo_runtime demo_tree_puts)
       = (Returned {| status := 200; resp_headers := xml_headers;
                      resp_body := ListBucketResult r |},
          @serve demo_runtime demo_tree_puts)
       /\ l_IsTruncated r = false
       /\ In (js "a") (map c_Key (l_Contents r))
       /\ In (js "dir/") (map c_Key (l_Contents r))
       /\ In (js "dir/") (l_CommonPrefixes r).
Proof.
  assert (Hr : @reachable demo_runtime (@serve demo_runtime demo_tree_puts))
    by apply serve_reachable.
  assert (Hkeys : bucket_keys (@serve demo_runtime demo_tree_puts) (js "b")
                  = [js "a"; js "dir/"; js "dir/f"])
    by (vm_compute; reflexivity).
  assert (Hlen : len (bucket_keys (@serve demo_runtime demo_tree_puts) (js "b"))
                 <= 1000) by (rewrite Hkeys; vm_compute; discriminate).
  assert (Hsafe : 1000 < MAX_SAFE_INTEGER) by reflexivity.
  split; [exact Hr|]. split; [exact Hlen|]. split; [exact Hsafe|].
  destruct (@slash_listing_at_root demo_runtime
              (@serve demo_runtime demo_tree_puts) (js "b")
              [(js "delimiter", js "/")] 1000 Hr eq_refl eq_refl eq_refl
              eq_refl eq_refl Hlen Hsafe) as (r & Hrun & Ht & Hc & _ & Hp).
  exists r. split; [exact Hrun|]. split; [exact Ht|].
  rewrite Hkeys in Hc, Hp. repeat split.
  - apply Hc. split; [now left|reflexivity].
  - apply Hc. split; [right; now left|reflexivity].
  - apply (Hp (js "dir/f")); [right; right; now left|reflexivity].
Defined.

(** C6 fails on the code for a prefix that ends in the code unit 0xFFFF:
    with the object ["%\uFFFFa"] stored, the listing for the prefix
    ["%\uFFFF"] (which contains [%], and which the key starts with) returns
    no key.  [String.fromCharCode] wraps 0x10000 to 0, so the upper bound of
    the range is below the prefix.  (For a last unit below 0xFFFF other
    than 0xD7FF and 0xDFFF the claim holds:
    [listObjectsV2_literal_prefix].) *)
Theorem prefix_ending_in_FFFF_lists_nothing :
  let s := state_after (@putObject demo_runtime (js "b") demo_odd_key demo_put)
                       empty_store in
  startsWith demo_odd_key demo_odd_prefix = true
  /\ bucket_keys s (js "b") = [demo_odd_key]
  /\ prefixUpperBound demo_odd_prefix = [37; 0]%N
  /\ exists r,
       result_of (@listObjectsV2 demo_runtime (js "b")
                    [(js "prefix", demo_odd_prefix)]) s
       = Returned {| status := 200; resp_headers := xml_headers;
                     resp_body := ListBucketResult r |}
       /\ l_Contents r = [] /\ l_IsTruncated r = false.
Proof.
  cbv zeta. split; [reflexivity|]. split; [reflexivity|]. split; [reflexivity|].
  eexists. split; [vm_compute; reflexivity|]. split; reflexivity.
Qed.

(** C7 fails on the code: a request whose token is [a.!.c] (three
    segments, the middle one not base64) is not answered with the XML error
    envelope; [fetch] throws [InvalidCharacterError], the decoding of the
    payload being outside every [try].  (For every platform:
    [fetch_with_token_undecodable], [fetch_with_token_not_json]; the 401
    answers of the claim: [fetch_with_token_format],
    [fetch_with_token_rejected], [fetch_no_token].) *)
Theorem undecodable_payload_is_not_caught :
  is_upgrade demo_bad_payload = false
  /\ request_token demo_bad_payload = Some (js "a.!.c")
  /\ @fetch demo_runtime demo_bad_payload empty_store
     = (Thrown InvalidCharacterError, empty_store).
Proof.
  split; [reflexivity|]. split; [reflexivity|]. vm_compute. reflexivity.
Qed.

(** C8, as stated, fails: with one subscriber, a request without
    [Authorization] header is answered 401 and no event is sent. *)
Lemma rejected_request_is_not_broadcast :
  is_upgrade demo_anonymous = false
  /\ ~ @broadcast_to_all demo_runtime demo_anonymous
        (@serve demo_runtime [demo_upgrade]).
Proof.
  split; [reflexivity|]. intros H.
  specialize (H _ _ eq_refl 0%nat (or_introl eq_refl) eq_refl).
  destruct H.
Qed.

(** C8, amended.  For every request that is not an upgrade and passes the
    verification of its token (a token other than the development token),
    whose key decodes and whose handler returns a response: [fetch]
    returns that response, and when the response is produced the event
    {method, path+search, status, duration, timestamp} is sent to every
    subscribed socket whose [send] does not throw, in order of
    subscription; the sockets whose [send] throws are removed from the
    set, the others stay. *)
Theorem authenticated_request_is_broadcast {rt : Runtime}
        (req : request) (bucket key : jsstring) (response : response)
        (s s1 : store) :
  authenticated req bucket ->
  extract_key bucket req = Returned key ->
  handleRequest bucket key (method req) req s = (Returned response, s1) ->
  let s2 := state_after (fetch req) s in
  result_of (fetch req) s = Returned response
  /\ sent s2
     = sent s1 ++ map (fun w => (w, event_of req response))
                      (filter (fun w => negb (send_throws req w))
                              (webSocketClients s1))
  /\ webSocketClients s2
     = filter (fun w => negb (send_throws req w)) (webSocketClients s1)
  /\ objects s2 = objects s1
  /\ multipart_uploads s2 = multipart_uploads s1
  /\ multipart_parts s2 = multipart_parts s1.
Proof.
  intros Hauth Hkey Hhandle s2. subst s2. unfold result_of, state_after.
  rewrite (fetch_authenticated req bucket key response s s1 Hauth Hkey Hhandle).
  repeat split.
Qed.

Lemma authenticated_request_is_broadcast_witness :
  @authenticated demo_runtime demo_signed (js "b")
  /\ @extract_key demo_runtime (js "b") demo_signed = Returned (js "k")
  /\ sent (state_after (@fetch demo_runtime demo_signed)
                       (@serve demo_runtime [demo_upgrade]))
     = [(0%nat, event_of demo_signed
                  (errorResponse (js "NoSuchKey")
                     (js "The specified key does not exist.") 404))].
Proof.
  assert (Hauth : @authenticated demo_runtime demo_signed (js "b")).
  { split; [reflexivity|]. split; [reflexivity|].
    exists demo_token, (js "e30"), (js "eyJzdWIiOiJ0IiwiYnVja2V0IjoiYiJ9"),
           (js "c2ln").
    eexists _, _, _. repeat split; reflexivity. }
  split; [exact Hauth|]. split; [reflexivity|].
  exact (proj1 (proj2
    (@authenticated_request_is_broadcast demo_runtime demo_signed (js "b")
       (js "k") _ (@serve demo_runtime [demo_upgrade]) _ Hauth eq_refl eq_refl))).
Defined.

(** C9 (upgrade before authentication).  Every request whose [Upgrade]
    header is [websocket], whatever its path and whether or not it carries
    an [Authorization] header, is answered 101 with a new socket, and that
    socket is in the subscriber set afterwards; the earlier subscribers
    stay, and nothing else of the store changes. *)
Theorem upgrade_needs_no_credentials {rt : Runtime} (req : request) (s : store) :
  h_Upgrade req = Some (js "websocket") ->
  let s' := state_after (fetch req) s in
  result_of (fetch req) s
  = Returned {| status := 101; resp_headers := no_headers;
                resp_body := WebSocketBody (next_ws s) |}
  /\ In (next_ws s) (webSocketClients s')
  /\ (forall w, In w (webSocketClients s) -> In w (webSocketClients s'))
  /\ objects s' = objects s
  /\ multipart_uploads s' = multipart_uploads s
  /\ multipart_parts s' = multipart_parts s
  /\ sent s' = sent s.
Proof.
  intros Hup s'. subst s'. unfold result_of, state_after.
  rewrite fetch_upgrade by (unfold is_upgrade; now rewrite Hup).
  unfold handleWebSocketUpgrade, bind, new_WebSocketPair, clients_add, ret.
  cbn [fst snd objects multipart_uploads multipart_parts webSocketClients
       next_ws sent].
  repeat split.
  - destruct (existsb (Nat.eqb (next_ws s)) (webSocketClients s)) eqn:E.
    + apply existsb_exists in E as (x & Hx & Hxe).
      apply Nat.eqb_eq in Hxe. now subst.
    + apply in_app_iff. right. now left.
  - intros w Hw. destruct (existsb _ _); auto. apply in_app_iff. now left.
Qed.

Lemma upgrade_needs_no_credentials_witness :
  h_Upgrade demo_upgrade = Some (js "websocket")
  /\ h_Authorization demo_upgrade = None
  /\ result_of (@fetch demo_runtime demo_upgrade) empty_store
     = Returned {| status := 101; resp_headers := no_headers;
                   resp_body := WebSocketBody 0%nat |}.
Proof.
  split; [reflexivity|]. split; [reflexivity|].
  exact (proj1 (@upgrade_needs_no_credentials demo_runtime demo_upgrade
                  empty_store eq_refl)).
Defined.

(** C10 (UploadPart does not look at the session).  For every store,
    whether or not [multipart_uploads] holds a row for [uploadId], and for
    every part number, [uploadPart] answers 200 with the quoted MD5 of the
    body as [ETag]; it leaves [multipart_uploads] and [objects] as they
    were, and the rows of [multipart_parts] for this [uploadId] and part
    number are afterwards the chunk rows of the body, each keyed by
    [uploadId]. *)
Theorem uploadPart_ignores_session {rt : Runtime}
        (s : store) (bucket key uploadId : jsstring) (n : Z) (req : request) :
  let s' := state_after (uploadPart bucket key uploadId (Some n) req) s in
  result_of (uploadPart bucket key uploadId (Some n) req) s
  = Returned {| status := 200;
                resp_headers :=
                  {| ContentType := None; ContentLength := None;
                     ETag := Some (quoted (MD5_hex (arrayBuffer req)));
                     LastModified := None |};
                resp_body := NoBody |}
  /\ multipart_uploads s' = multipart_uploads s
  /\ objects s' = objects s
  /\ part_rows s' uploadId n <> []
  /\ Forall (fun r => p_upload_id r = uploadId) (part_rows s' uploadId n)
  /\ concat (map p_data (part_rows s' uploadId n)) = arrayBuffer req.
Proof.
  intros s'. subst s'. rewrite uploadPart_rows.
  unfold result_of, state_after. rewrite uploadPart_run.
  repeat split.
  - discriminate.
  - eapply Forall_impl; [|apply upload_rows_at].
    intros r Hr. now apply part_at_spec in Hr.
  - rewrite upload_rows_data. apply chunks_of_concat.
Qed.


(* ================================================================== *)
(** * What a computation leaves as it is *)

Section Steady.
Variable R : store -> store -> Prop.
Hypothesis R_refl : forall s, R s s.
Hypothesis R_trans : forall a b c, R a b -> R b c -> R a c.

Lemma steady_ret {A} (a : A) : steady R (ret a).
Proof. intros s. apply R_refl. Qed.

Lemma steady_throw {A} e : steady R (@throw A e).
Proof. intros s. apply R_refl. Qed.

Lemma steady_gets {A} (f : store -> A) : steady R (gets f).
Proof. intros s. apply R_refl. Qed.

Lemma steady_lift {A} (o : outcome A) : steady R (lift o).
Proof. intros s. apply R_refl. Qed.

Lemma steady_bind {A B} (m : M A) (k : A -> M B) :
  steady R m -> (forall a, steady R (k a)) -> steady R (bind m k).
Proof.
  intros Hm Hk s. unfold state_after, bind.
  specialize (Hm s). unfold state_after in Hm.
  destruct (m s) as [[a|e] s']; simpl in *; auto.
  eapply R_trans; [exact Hm|]. apply (Hk a s').
Qed.

Lemma steady_try_catch {A} (m : M A) (h : exn -> M A) :
  steady R m -> (forall e, steady R (h e)) -> steady R (try_catch m h).
Proof.
  intros Hm Hh s. unfold state_after, try_catch.
  specialize (Hm s). unfold state_after in Hm.
  destruct (m s) as [[a|e] s']; simpl in *; auto.
  eapply R_trans; [exact Hm|]. apply (Hh e s').
Qed.

Lemma steady_bind_lift {A B} (o : outcome A) (k : A -> M B) :
  (forall a, o = Returned a -> steady R (k a)) -> steady R (bind (lift o) k).
Proof.
  intros H s. unfold state_after, bind, lift. destruct o as [a|e].
  - apply (H a eq_refl s).
  - apply R_refl.
Qed.

Lemma steady_for_each {A} (xs : list A) (body : A -> M unit) :
  (forall x, steady R (body x)) -> steady R (for_each xs body).
Proof.
  intros H. induction xs as [|x xs IH]; simpl.
  - apply steady_ret.
  - apply steady_bind; auto.
Qed.

End Steady.

(** One step of a proof that a computation is steady; the reflexivity and
    the transitivity of the relation are among the hypotheses. *)
Ltac steady_step :=
  match goal with
  | |- steady _ (ret _) => apply steady_ret; assumption
  | |- steady _ (throw _) => apply steady_throw; assumption
  | |- steady _ (gets _) => apply steady_gets; assumption
  | |- steady _ (lift _) => apply steady_lift; assumption
  | |- steady _ (bind _ _) =>
      apply steady_bind; [assumption| |intros ?]
  | |- steady _ (try_catch _ _) =>
      apply steady_try_catch; [assumption| |intros ?]
  | |- steady _ (for_each _ _) =>
      apply steady_for_each; [assumption|assumption|intros ?]
  | |- steady _ (if ?b then _ else _) => destruct b
  | |- steady _ (match ?x with _ => _ end) => destruct x
  | |- steady _ (let _ := _ in _) => cbv zeta
  end.

(** The handlers that only read. *)
Section SteadyReaders.
Context {rt : Runtime}.
Variable R : store -> store -> Prop.
Hypothesis R_refl : forall s, R s s.
Hypothesis R_trans : forall a b c, R a b -> R b c -> R a c.

Lemma steady_typed_array_set t src o : steady R (typed_array_set t src o).
Proof. unfold typed_array_set. repeat steady_step. Qed.

Lemma steady_combine_chunks chunks :
  forall buf o, steady R (combine_chunks chunks buf o).
Proof.
  induction chunks as [|c rest IH]; intros buf o; simpl.
  - now apply steady_ret.
  - apply steady_bind; auto. apply steady_typed_array_set.
Qed.

Lemma steady_getObject bucket key headOnly :
  steady R (getObject bucket key headOnly).
Proof.
  unfold getObject, select_object_meta, select_object_chunks, new_Uint8Array.
  repeat (steady_step || apply steady_combine_chunks).
Qed.

Lemma steady_headBucket bucket : steady R (headBucket bucket).
Proof. now apply steady_ret. Qed.

Lemma steady_select_limit {A} n (rows : store -> list A) :
  steady R (select_limit n rows).
Proof. unfold select_limit. repeat steady_step. Qed.

Lemma steady_listObjectsV2 bucket params :
  steady R (listObjectsV2 bucket params).
Proof.
  unfold listObjectsV2, list_slash, list_delimiter, list_plain.
  repeat (steady_step || apply steady_select_limit).
Qed.

Lemma steady_listMultipartUploads bucket params :
  steady R (listMultipartUploads bucket params).
Proof.
  unfold listMultipartUploads.
  repeat (steady_step || apply steady_select_limit).
Qed.

End SteadyReaders.

(** The handlers that write: they reach the tables through the statements
    below only, and the statements on [objects] are for the bucket and the
    key of the request. *)
Section SteadyWriters.
Context {rt : Runtime}.
Variable R : store -> store -> Prop.
Variables bucket key : jsstring.
Hypothesis R_refl : forall s, R s s.
Hypothesis R_trans : forall a b c, R a b -> R b c -> R a c.
Hypothesis R_insert_object :
  forall r, o_bucket r = bucket -> o_key r = key -> steady R (insert_object r).
Hypothesis R_delete_object : steady R (delete_object_rows bucket key).
Hypothesis R_insert_part : forall r, steady R (insert_part r).
Hypothesis R_delete_part : forall u n, steady R (delete_part_rows u n).
Hypothesis R_delete_upload_parts : forall u, steady R (delete_upload_parts u).
Hypothesis R_insert_upload : forall r, steady R (insert_upload r).
Hypothesis R_delete_upload : forall u, steady R (delete_upload u).

Lemma steady_putObject_loop fuel data size :
  forall offset i, steady R (putObject_loop fuel bucket key data size offset i).
Proof.
  induction fuel as [|fuel IH]; intros offset i; simpl.
  - now apply steady_ret.
  - destruct (offset <? size); [|now apply steady_ret].
    apply steady_bind; auto.
Qed.

Lemma steady_putObject req : steady R (putObject bucket key req).
Proof.
  unfold putObject. cbv zeta.
  repeat (steady_step || apply steady_putObject_loop
          || (apply R_insert_object; reflexivity) || apply R_delete_object).
Qed.

Lemma steady_deleteObject : steady R (deleteObject bucket key).
Proof.
  unfold deleteObject. repeat (steady_step || apply R_delete_object).
Qed.

Lemma steady_copyObject copySource req :
  steady R (copyObject bucket key copySource req).
Proof.
  unfold copyObject, select_object_meta, select_object_chunks. cbv zeta.
  repeat (steady_step || (apply R_insert_object; reflexivity)
          || apply R_delete_object).
Qed.

Lemma steady_createMultipartUpload b k req :
  steady R (createMultipartUpload b k req).
Proof.
  unfold createMultipartUpload. cbv zeta.
  repeat (steady_step || apply R_insert_upload).
Qed.

Lemma steady_uploadPart_loop fuel u n data size :
  forall offset i, steady R (uploadPart_loop fuel u n data size offset i).
Proof.
  induction fuel as [|fuel IH]; intros offset i; simpl.
  - now apply steady_ret.
  - destruct (offset <? size); [|now apply steady_ret].
    apply steady_bind; auto.
Qed.

Lemma steady_uploadPart b k u partNumber req :
  steady R (uploadPart b k u partNumber req).
Proof.
  unfold uploadPart. cbv zeta.
  repeat (steady_step || apply steady_uploadPart_loop
          || apply R_insert_part || apply R_delete_part).
Qed.

Lemma steady_complete_chunks ts et lm ct partChunks :
  forall i, steady R (complete_chunks bucket key ts et lm ct partChunks i).
Proof.
  induction partChunks as [|c rest IH]; intros i; simpl.
  - now apply steady_ret.
  - apply steady_bind; auto.
    destruct (i =? 0); apply R_insert_object; reflexivity.
Qed.

Lemma steady_complete_parts u ts et lm ct parts :
  forall i, steady R (complete_parts bucket key u ts et lm ct parts i).
Proof.
  induction parts as [|p rest IH]; intros i; simpl.
  - now apply steady_ret.
  - unfold select_part_chunks.
    repeat (steady_step || apply steady_complete_chunks || apply IH).
Qed.

Lemma steady_completeMultipartUpload u req :
  steady R (completeMultipartUpload bucket key u req).
Proof.
  unfold completeMultipartUpload, select_upload, select_parts. cbv zeta.
  repeat (steady_step || apply steady_complete_parts
          || apply R_delete_object || apply R_delete_upload_parts
          || apply R_delete_upload).
Qed.

Lemma steady_abortMultipartUpload u : steady R (abortMultipartUpload u).
Proof.
  unfold abortMultipartUpload.
  repeat (steady_step || apply R_delete_upload_parts || apply R_delete_upload).
Qed.

Lemma steady_handleRequest method req :
  steady R (handleRequest bucket key method req).
Proof.
  unfold handleRequest. cbv zeta.
  repeat match goal with
         | |- steady _ (if ?b then _ else _) => destruct b
         end;
    first [ now apply steady_headBucket
          | now apply steady_listMultipartUploads
          | now apply steady_listObjectsV2
          | now apply steady_getObject
          | apply steady_createMultipartUpload
          | apply steady_uploadPart
          | apply steady_completeMultipartUpload
          | apply steady_abortMultipartUpload
          | apply steady_copyObject
          | apply steady_putObject
          | apply steady_deleteObject
          | now apply steady_ret ].
Qed.

End SteadyWriters.

(** [fetch], given what [handleRequest] does for the bucket and the key of
    the request. *)
Section SteadyFetch.
Context {rt : Runtime}.
Variable R : store -> store -> Prop.
Variable req : request.
Hypothesis R_refl : forall s, R s s.
Hypothesis R_trans : forall a b c, R a b -> R b c -> R a c.
Hypothesis R_clients_add : forall w, steady R (clients_add w).
Hypothesis R_clients_delete : forall w, steady R (clients_delete w).
Hypothesis R_new_WebSocketPair : steady R new_WebSocketPair.
Hypothesis R_ws_send : forall t w m, steady R (ws_send t w m).
Hypothesis R_handleRequest :
  forall bucket key,
    request_bucket req = Some bucket ->
    extract_key bucket req = Returned key ->
    steady R (handleRequest bucket key (method req) req).

Lemma steady_handleWebSocketUpgrade : steady R (handleWebSocketUpgrade req).
Proof.
  unfold handleWebSocketUpgrade.
  repeat (steady_step || apply R_new_WebSocketPair || apply R_clients_add).
Qed.

Lemma steady_broadcast_send t m clients :
  forall toRemove, steady R (broadcast_send t m clients toRemove).
Proof.
  induction clients as [|w rest IH]; intros toRemove; simpl.
  - now apply steady_ret.
  - repeat (steady_step || apply R_ws_send || apply IH).
Qed.

Lemma steady_broadcastRequestInfo t info :
  steady R (broadcastRequestInfo t info).
Proof.
  unfold broadcastRequestInfo.
  repeat (steady_step || apply steady_broadcast_send || apply R_clients_delete).
Qed.

Lemma steady_served bucket :
  request_bucket req = Some bucket ->
  steady R (key <- lift (extract_key bucket req) ;;
            handleRequest bucket key (method req) req).
Proof.
  intros Hb. apply steady_bind_lift; [assumption|].
  intros key Hk. now apply R_handleRequest.
Qed.

Lemma steady_fetch_with_token bucket token :
  request_bucket req = Some bucket ->
  steady R (fetch_with_token bucket token req).
Proof.
  intros Hb. unfold fetch_with_token. cbv zeta.
  destruct (str_eqb token (js "foo")); [now apply steady_served|].
  repeat match goal with
         | |- steady _ (bind (lift (extract_key _ _)) _) =>
             apply steady_bind_lift; [assumption|intros key Hk]
         | |- steady _ (handleRequest _ _ _ _) => now apply R_handleRequest
         | |- steady _ (broadcastRequestInfo _ _) =>
             apply steady_broadcastRequestInfo
         | _ => steady_step
         end.
Qed.

Lemma steady_fetch : steady R (fetch req).
Proof.
  unfold fetch.
  destruct (match h_Upgrade req with Some v => _ | None => _ end);
    [apply steady_handleWebSocketUpgrade|].
  cbv zeta.
  destruct (filter nonempty (split_on slash (pathname req)))
    as [|bucket rest] eqn:Hparts; [now apply steady_ret|].
  assert (Hb : request_bucket req = Some bucket).
  { unfold request_bucket. now rewrite Hparts. }
  repeat (steady_step || apply (steady_fetch_with_token _ _ Hb)).
Qed.

End SteadyFetch.

(* ================================================================== *)
(** * The relations that the handlers keep *)

Lemma same_tables_refl s : same_tables s s.
Proof. repeat split. Qed.

Lemma same_tables_trans a b c :
  same_tables a b -> same_tables b c -> same_tables a c.
Proof. intros (H1 & H2 & H3) (H4 & H5 & H6). repeat split; congruence. Qed.

Lemma same_sockets_refl s : same_sockets s s.
Proof. repeat split. Qed.

Lemma same_sockets_trans a b c :
  same_sockets a b -> same_sockets b c -> same_sockets a c.
Proof. intros (H1 & H2 & H3) (H4 & H5 & H6). repeat split; congruence. Qed.

Lemma same_other_objects_refl bucket key s : same_other_objects bucket key s s.
Proof. intros b k _. reflexivity. Qed.

Lemma same_other_objects_trans bucket key a b c :
  same_other_objects bucket key a b -> same_other_objects bucket key b c ->
  same_other_objects bucket key a c.
Proof. intros H1 H2 b' k' Hne. rewrite H2, H1; auto. Qed.

Lemma same_other_objects_tables bucket key s s' :
  objects s' = objects s -> same_other_objects bucket key s s'.
Proof. intros H b k _. unfold object_rows. now rewrite H. Qed.

Lemma same_other_objects_bucket bucket key s s' :
  same_other_objects bucket key s s' -> same_other_buckets bucket s s'.
Proof. intros H b k Hne. apply H. congruence. Qed.

Lemma same_other_buckets_refl bucket s : same_other_buckets bucket s s.
Proof. intros b k _. reflexivity. Qed.

Lemma same_other_buckets_trans bucket a b c :
  same_other_buckets bucket a b -> same_other_buckets bucket b c ->
  same_other_buckets bucket a c.
Proof. intros H1 H2 b' k' Hne. rewrite H2, H1; auto. Qed.

Section Frames.
Context {rt : Runtime}.

Lemma insert_object_other bucket key r :
  o_bucket r = bucket -> o_key r = key ->
  steady (same_other_objects bucket key) (insert_object r).
Proof.
  intros Hb Hk s b' k' Hne. unfold state_after, insert_object.
  destruct (existsb _ _); [reflexivity|].
  cbn [snd]. unfold object_rows. cbn [objects with_objects].
  rewrite filter_app. cbn [filter].
  replace (object_at b' k' r) with false; [now rewrite app_nil_r|].
  symmetry. apply (object_at_other b' k' bucket key r).
  - congruence.
  - apply object_at_spec. auto.
Qed.

Lemma delete_object_rows_other bucket key :
  steady (same_other_objects bucket key) (delete_object_rows bucket key).
Proof.
  intros s b' k' Hne. unfold state_after, delete_object_rows, modify.
  cbn [snd]. unfold object_rows. cbn [objects with_objects].
  apply filter_delete_other. intros r Hr.
  now apply (object_at_other bucket key b' k' r).
Qed.

(** A request on [(bucket, key)] writes no row of another object. *)
Lemma handleRequest_other_objects bucket key method req :
  steady (same_other_objects bucket key) (handleRequest bucket key method req).
Proof.
  apply steady_handleRequest.
  - apply same_other_objects_refl.
  - apply same_other_objects_trans.
  - apply insert_object_other.
  - apply delete_object_rows_other.
  - intros r s. apply same_other_objects_tables.
    unfold state_after, insert_part. now destruct (existsb _ _).
  - intros u n s. now apply same_other_objects_tables.
  - intros u s. now apply same_other_objects_tables.
  - intros r s. apply same_other_objects_tables.
    unfold state_after, insert_upload. now destruct (existsb _ _).
  - intros u s. now apply same_other_objects_tables.
Qed.

(** [handleRequest] sends nothing and subscribes nobody. *)
Lemma handleRequest_same_sockets bucket key method req :
  steady same_sockets (handleRequest bucket key method req).
Proof.
  apply steady_handleRequest.
  - apply same_sockets_refl.
  - apply same_sockets_trans.
  - intros r _ _ s. unfold state_after, insert_object.
    destruct (existsb _ _); repeat split.
  - intros s. repeat split.
  - intros r s. unfold state_after, insert_part.
    destruct (existsb _ _); repeat split.
  - intros u n s. repeat split.
  - intros u s. repeat split.
  - intros r s. unfold state_after, insert_upload.
    destruct (existsb _ _); repeat split.
  - intros u s. repeat split.
Qed.

(** The methods GET and HEAD are served by handlers that only read. *)
Lemma handleRequest_reads bucket key method req :
  method = js "GET" \/ method = js "HEAD" ->
  steady eq (handleRequest bucket key method req).
Proof.
  assert (Ht : forall a b c : store, a = b -> b = c -> a = c)
    by (intros; congruence).
  assert (Hr : forall s : store, s = s) by reflexivity.
  intros [-> | ->]; unfold handleRequest; cbv zeta;
    change (str_eqb (js "GET") (js "HEAD")) with false;
    change (str_eqb (js "HEAD") (js "GET")) with false;
    change (str_eqb (js "GET") (js "GET")) with true;
    change (str_eqb (js "HEAD") (js "HEAD")) with true;
    cbn [andb orb];
    destruct (nonempty key); cbn [negb andb];
    repeat match goal with
           | |- steady _ (if ?b then _ else _) => destruct b
           end;
    first [ now apply steady_headBucket
          | now apply steady_listMultipartUploads
          | now apply steady_listObjectsV2
          | now apply steady_getObject ].
Qed.

End Frames.

(* ================================================================== *)
(** * Requests and the objects they do not name *)

Section ReadByRows.
Context {rt : Runtime}.

Lemma combine_chunks_state chunks :
  forall buf o s s0,
    combine_chunks chunks buf o s = (fst (combine_chunks chunks buf o s0), s).
Proof.
  induction chunks as [|c rest IH]; intros buf o s s0; simpl.
  - reflexivity.
  - unfold bind, typed_array_set.
    destruct (len buf <? o + len (o_data c)); [reflexivity|].
    unfold ret. apply IH.
Qed.

(** The answer of [getObject] is a function of the rows of the object. *)
Lemma getObject_by_rows bucket key headOnly s s0 :
  object_rows s0 bucket key = object_rows s bucket key ->
  getObject bucket key headOnly s
  = (result_of (getObject bucket key headOnly) s0, s).
Proof.
  intros Hrows.
  unfold result_of, getObject, try_catch, bind, select_object_meta,
    select_object_chunks, gets.
  cbv beta. rewrite !filter_and. fold (object_rows s bucket key).
  fold (object_rows s0 bucket key). rewrite Hrows.
  destruct (filter _ (object_rows s bucket key)) as [|row others];
    [reflexivity|].
  destruct headOnly; [reflexivity|].
  cbv beta. fold (object_rows s bucket key). fold (object_rows s0 bucket key).
  rewrite Hrows.
  destruct (sort_by _ (object_rows s bucket key)) as [|c cs]; [reflexivity|].
  unfold new_Uint8Array.
  destruct (o_size row <? 0); [reflexivity|]. unfold ret.
  rewrite (combine_chunks_state _ _ _ s s0).
  destruct (combine_chunks _ _ _ s0) as [[a|e] s1]; reflexivity.
Qed.

Lemma getObject_same_rows bucket key headOnly s s' :
  object_rows s' bucket key = object_rows s bucket key ->
  result_of (getObject bucket key headOnly) s'
  = result_of (getObject bucket key headOnly) s.
Proof.
  intros H. unfold result_of at 1.
  now rewrite (getObject_by_rows bucket key headOnly s' s (eq_sym H)).
Qed.

Lemma getObject_state bucket key headOnly s :
  state_after (getObject bucket key headOnly) s = s.
Proof.
  unfold state_after.
  now rewrite (getObject_by_rows bucket key headOnly s s eq_refl).
Qed.

End ReadByRows.

Section FetchFrames.
Context {rt : Runtime}.

Lemma sockets_keep_objects (R : store -> store -> Prop) :
  (forall s s', objects s' = objects s -> R s s') ->
  (forall w, steady R (clients_add w))
  /\ (forall w, steady R (clients_delete w))
  /\ steady R new_WebSocketPair
  /\ (forall t w m, steady R (ws_send t w m)).
Proof.
  intros H. repeat split; intros; intros s; apply H; try reflexivity.
  unfold state_after, ws_send. now destruct (t w).
Qed.

Lemma fetch_other_objects req bucket key :
  request_bucket req = Some bucket ->
  extract_key bucket req = Returned key ->
  steady (same_other_objects bucket key) (fetch req).
Proof.
  intros Hb Hk.
  destruct (sockets_keep_objects (same_other_objects bucket key))
    as (H1 & H2 & H3 & H4).
  { intros s s'. apply same_other_objects_tables. }
  apply steady_fetch;
    [apply same_other_objects_refl|apply same_other_objects_trans
    |exact H1|exact H2|exact H3|exact H4|].
  intros b k Hb' Hk'. rewrite Hb in Hb'. injection Hb' as <-.
    rewrite Hk in Hk'. injection Hk' as <-.
    apply handleRequest_other_objects.
Qed.

Lemma fetch_other_buckets req bucket :
  request_bucket req = Some bucket ->
  steady (same_other_buckets bucket) (fetch req).
Proof.
  intros Hb.
  destruct (sockets_keep_objects (same_other_buckets bucket))
    as (H1 & H2 & H3 & H4).
  { intros s s' H b k _. unfold object_rows. now rewrite H. }
  apply steady_fetch;
    [apply same_other_buckets_refl|apply same_other_buckets_trans
    |exact H1|exact H2|exact H3|exact H4|].
  intros b k Hb' _ s. rewrite Hb in Hb'. injection Hb' as <-.
    eapply same_other_objects_bucket. apply handleRequest_other_objects.
Qed.

Lemma fetch_reads req :
  method req = js "GET" \/ method req = js "HEAD" ->
  steady same_tables (fetch req).
Proof.
  intros Hm. apply steady_fetch.
  - apply same_tables_refl.
  - apply same_tables_trans.
  - intros w s. repeat split.
  - intros w s. repeat split.
  - intros s. repeat split.
  - intros t w m s. unfold state_after, ws_send.
    destruct (t w); repeat split.
  - intros b k _ _ s.
    rewrite <- (handleRequest_reads b k (method req) req Hm s).
    apply same_tables_refl.
Qed.

End FetchFrames.

(* ================================================================== *)
(** * Access *)

Section AccessFacts.
Context {rt : Runtime}.

Lemma fetch_no_bucket req s :
  is_upgrade req = false ->
  request_bucket req = None ->
  fetch req s
  = (Returned (errorResponse (js "NoSuchBucket") (js "No bucket specified") 404),
     s).
Proof.
  unfold is_upgrade, request_bucket, fetch. intros -> Hb. cbv zeta.
  destruct (filter nonempty (split_on slash (pathname req))); [reflexivity|].
  discriminate.
Qed.

Lemma only_slashes_no_bucket (p : jsstring) :
  Forall (fun c => c = slash) p -> filter nonempty (split_on slash p) = [].
Proof.
  induction 1 as [|c p Hc _ IH]; [reflexivity|].
  subst c. cbn [split_on]. change (N.eqb slash slash) with true.
  cbv iota. cbn [filter nonempty]. exact IH.
Qed.

(** A token that is not the development token and that [verifyToken] does
    not accept for [bucket] never reaches [handleRequest]. *)
Lemma fetch_with_token_refuses bucket token req s :
  str_eqb token (js "foo") = false ->
  (forall claims, verifyToken token fetch_secrets = Some claims ->
                  t_bucket claims <> Some (JStr bucket)) ->
  state_after (fetch_with_token bucket token req) s = s.
Proof.
  intros Hfoo Hv. unfold state_after, fetch_with_token. rewrite Hfoo. cbv zeta.
  destruct (negb _); [reflexivity|].
  unfold bind, throw, ret, lift.
  destruct (atob _); [|reflexivity].
  destruct (JSON_parse _); [|reflexivity].
  destruct (sub_truthy _) as [[|]|]; try reflexivity.
  cbn [negb].
  change [or_default S3_JWT_SECRET (js "demo-secret-change-in-production")]
    with fetch_secrets.
  destruct (verifyToken token fetch_secrets) as [claims|] eqn:E; [|reflexivity].
  specialize (Hv claims eq_refl).
  destruct (t_bucket claims) as [[| | |b| |]|]; try reflexivity.
  destruct (str_eqb b bucket) eqn:Eb; [|reflexivity].
  apply str_eqb_eq in Eb. subst b. now destruct Hv.
Qed.

Lemma bucket_claim_dec (claims : S3TokenPayload) (bucket : jsstring) :
  t_bucket claims = Some (JStr bucket) \/ t_bucket claims <> Some (JStr bucket).
Proof.
  destruct (t_bucket claims) as [[| | |b| |]|];
    try (right; discriminate).
  destruct (str_eqb b bucket) eqn:E.
  - apply str_eqb_eq in E. subst. now left.
  - apply str_eqb_neq in E. right. congruence.
Qed.

Lemma take_credential_app (token rest : jsstring) :
  Forall (fun c => c <> slash /\ c <> 44%N) token ->
  take_credential (token ++ slash :: rest) = token.
Proof.
  induction 1 as [|c token [H1 H2] _ IH]; cbn [app take_credential].
  - now rewrite N.eqb_refl.
  - apply N.eqb_neq in H1, H2. rewrite H1, H2. cbn [orb]. now rewrite IH.
Qed.

Lemma slice_from_app {A} (a b : list A) : slice_from (a ++ b) (len a) = b.
Proof.
  unfold slice_from, slice, rel_index.
  pose proof (len_nonneg a) as Ha. pose proof (len_nonneg b) as Hb.
  rewrite len_app.
  destruct (len a <? 0) eqn:E1; [apply Z.ltb_lt in E1; lia|].
  destruct (len a + len b <? 0) eqn:E2; [apply Z.ltb_lt in E2; lia|].
  rewrite !Z.min_l by lia.
  replace (len a + len b - len a) with (len b) by lia.
  unfold len at 2. rewrite Nat2Z.id, skipn_app, skipn_all, Nat.sub_diag.
  cbn [app skipn]. unfold len. rewrite Nat2Z.id. apply firstn_all.
Qed.

End AccessFacts.

(* ================================================================== *)
(** * Objects *)

Section ObjectFacts.
Context {rt : Runtime}.

(** [getObject] on an object of a store that satisfies the invariant. *)
Lemma getObject_stored s bucket key r rest :
  store_ok s ->
  object_rows s bucket key = r :: rest ->
  let body := concat (map o_data (r :: rest)) in
  getObject bucket key false s
  = (Returned {| status := 200; resp_headers := object_headers r;
                 resp_body := Binary body |}, s)
  /\ getObject bucket key true s
     = (Returned {| status := 200; resp_headers := object_headers r;
                    resp_body := NoBody |}, s)
  /\ o_size r = len body.
Proof.
  intros [Ho _] Hrows body.
  destruct (Ho bucket key) as [Hnil|(Hch & _)]; [congruence|].
  rewrite Hrows in Hch. destruct Hch as [Hidx _ Hsz _].
  rewrite length_map in Hidx. cbn [first_size] in Hsz.
  destruct (getObject_run s bucket key r rest Hrows Hidx Hsz) as [H1 H2].
  auto.
Qed.

Lemma getObject_absent s bucket key headOnly :
  object_rows s bucket key = [] ->
  getObject bucket key headOnly s
  = (Returned (errorResponse (js "NoSuchKey")
                             (js "The specified key does not exist.") 404), s).
Proof.
  intros H. apply getObject_missing. now apply meta_of_empty.
Qed.

Lemma deleteObject_run bucket key s :
  deleteObject bucket key s
  = (Returned {| status := 204; resp_headers := no_headers; resp_body := NoBody |},
     with_objects s (filter (fun r => negb (object_at bucket key r)) (objects s))).
Proof. reflexivity. Qed.

Lemma object_size_rows s bucket key :
  store_ok s ->
  object_size s bucket key <> None <-> object_rows s bucket key <> [].
Proof.
  intros [Ho _]. unfold object_size. rewrite filter_and.
  fold (object_rows s bucket key).
  destruct (Ho bucket key) as [Hnil|(Hch & r & rest & Hrows & _)].
  - rewrite Hnil. cbn. tauto.
  - rewrite Hrows in *. destruct Hch as [Hidx _ _ _].
    rewrite length_map in Hidx. cbn [map zseq List.length] in Hidx.
    injection Hidx as H0 _. cbn [filter]. rewrite H0. cbn.
    split; intros _; discriminate.
Qed.

End ObjectFacts.

(* ================================================================== *)
(** * The order of keys *)

Lemma str_compare_antisym (a b : jsstring) :
  str_compare b a = CompOpp (str_compare a b).
Proof.
  revert b. induction a as [|x a IH]; intros [|y b]; try reflexivity.
  cbn [str_compare]. rewrite (N.compare_antisym (unit_rank x) (unit_rank y)).
  destruct (N.compare (unit_rank x) (unit_rank y)); cbn [CompOpp]; auto.
Qed.

Lemma str_compare_eq (a b : jsstring) : str_compare a b = Eq -> a = b.
Proof.
  revert b. induction a as [|x a IH]; intros [|y b]; cbn [str_compare];
    try discriminate; auto.
  destruct (N.compare (unit_rank x) (unit_rank y)) eqn:E; try discriminate.
  apply unit_rank_eqb in E. intros H. f_equal; auto.
Qed.

Lemma str_leb_refl (a : jsstring) : str_leb a a = true.
Proof. unfold str_leb. now rewrite str_compare_refl. Qed.

Lemma str_leb_total (a b : jsstring) : str_leb a b = true \/ str_leb b a = true.
Proof.
  unfold str_leb. rewrite (str_compare_antisym a b).
  destruct (str_compare a b); cbn; auto.
Qed.

Lemma str_leb_antisym (a b : jsstring) :
  str_leb a b = true -> str_leb b a = true -> a = b.
Proof.
  unfold str_leb. rewrite (str_compare_antisym a b).
  destruct (str_compare a b) eqn:E; cbn; try discriminate.
  intros _ _. now apply str_compare_eq.
Qed.

Lemma str_leb_trans (a b c : jsstring) :
  str_leb a b = true -> str_leb b c = true -> str_leb a c = true.
Proof.
  unfold str_leb. revert b c.
  induction a as [|x a IH]; intros [|y b] [|z c]; cbn [str_compare];
    try discriminate; auto.
  destruct (N.compare (unit_rank x) (unit_rank y)) eqn:Exy;
    destruct (N.compare (unit_rank y) (unit_rank z)) eqn:Eyz;
    intros H1 H2; try discriminate.
  - apply unit_rank_eqb in Exy, Eyz. subst. rewrite N.compare_refl.
    now apply (IH b c).
  - apply unit_rank_eqb in Exy. subst. now rewrite Eyz.
  - apply unit_rank_eqb in Eyz. subst. now rewrite Exy.
  - apply N.compare_lt_iff in Exy. apply N.compare_lt_iff in Eyz.
    assert (H : (unit_rank x < unit_rank z)%N)
      by (eapply N.lt_trans; eassumption).
    apply N.compare_lt_iff in H. now rewrite H.
Qed.

Lemma str_ltb_leb (a b : jsstring) :
  str_ltb a b = negb (str_leb b a).
Proof.
  unfold str_ltb, str_leb. rewrite (str_compare_antisym a b).
  destruct (str_compare a b); reflexivity.
Qed.

Lemma str_ltb_neq (a b : jsstring) :
  str_leb a b = true -> a <> b -> str_ltb a b = true.
Proof.
  unfold str_leb, str_ltb. destruct (str_compare a b) eqn:E; intros H1 H2.
  - apply str_compare_eq in E. contradiction.
  - reflexivity.
  - discriminate.
Qed.

(* ================================================================== *)
(** * Sorting with a total order *)

Section SortFacts.
Context {A : Type}.
Variable le : A -> A -> bool.
Hypothesis le_total : forall a b, le a b = true \/ le b a = true.
Hypothesis le_trans : forall a b c, le a b = true -> le b c = true -> le a c = true.

Let R (a b : A) : Prop := le a b = true.

Lemma insert_by_sorted' (x : A) (l : list A) :
  StronglySorted R l -> StronglySorted R (insert_by le x l).
Proof.
  induction 1 as [|y l Hs IH Hall]; cbn [insert_by].
  - constructor; constructor.
  - destruct (le x y) eqn:E.
    + constructor; [constructor; assumption|].
      constructor; [exact E|].
      eapply Forall_impl; [|exact Hall]. intros z Hz. now apply (le_trans x y z).
    + constructor; [exact IH|].
      assert (Hyx : R y x) by (destruct (le_total x y); [congruence|assumption]).
      apply Forall_forall. intros z Hz.
      apply (Permutation_in _ (insert_by_perm le x l)) in Hz.
      destruct Hz as [<-|Hz]; [exact Hyx|].
      rewrite Forall_forall in Hall. now apply Hall.
Qed.

Lemma sort_by_sorted' (l : list A) : StronglySorted R (sort_by le l).
Proof.
  induction l as [|x l IH]; cbn [sort_by]; [constructor|].
  now apply insert_by_sorted'.
Qed.

Lemma filter_sorted' (P : A -> bool) (l : list A) :
  StronglySorted R l -> StronglySorted R (filter P l).
Proof.
  induction 1 as [|y l Hs IH Hall]; cbn [filter]; [constructor|].
  destruct (P y); [|exact IH].
  constructor; [exact IH|].
  apply Forall_forall. intros z Hz. apply filter_In in Hz as [Hz _].
  rewrite Forall_forall in Hall. now apply Hall.
Qed.

Hypothesis le_antisym : forall a b, le a b = true -> le b a = true -> a = b.

Lemma sorted_perm_eq' (l1 l2 : list A) :
  StronglySorted R l1 -> StronglySorted R l2 -> Permutation l1 l2 -> l1 = l2.
Proof.
  intros H1. revert l2. induction H1 as [|x l1 Hs1 IH Hall1]; intros l2 H2 Hp.
  - apply Permutation_nil in Hp. now subst.
  - destruct H2 as [|y l2 Hs2 Hall2].
    + apply Permutation_sym, Permutation_nil in Hp. discriminate.
    + assert (Hxy : x = y).
      { assert (Hx : In x (y :: l2))
          by (apply (Permutation_in _ Hp); now left).
        assert (Hy : In y (x :: l1))
          by (apply (Permutation_in _ (Permutation_sym Hp)); now left).
        rewrite Forall_forall in Hall1, Hall2.
        destruct Hx as [->|Hx]; [reflexivity|].
        destruct Hy as [->|Hy]; [reflexivity|].
        apply le_antisym; [now apply Hall1|now apply Hall2]. }
      subst y. f_equal. apply IH; [exact Hs2|].
      now apply Permutation_cons_inv in Hp.
Qed.

Lemma filter_perm' (P : A -> bool) (l1 l2 : list A) :
  Permutation l1 l2 -> Permutation (filter P l1) (filter P l2).
Proof.
  induction 1 as [|x l1 l2 _ IH|x y l|l1 l2 l3 _ IH1 _ IH2]; cbn [filter].
  - constructor.
  - destruct (P x); auto.
  - destruct (P x), (P y); auto using Permutation_refl, perm_swap.
  - eapply Permutation_trans; eauto.
Qed.

(** Selecting and then sorting is sorting and then selecting. *)
Lemma sort_by_filter (P : A -> bool) (l : list A) :
  sort_by le (filter P l) = filter P (sort_by le l).
Proof.
  apply sorted_perm_eq'.
  - apply sort_by_sorted'.
  - apply filter_sorted', sort_by_sorted'.
  - eapply Permutation_trans; [apply sort_by_perm|].
    apply filter_perm'. apply Permutation_sym, sort_by_perm.
Qed.

(** In a sorted list without repetition, the elements above the last
    element of a front part are those of the rest. *)
Lemma filter_above_last (lt : A -> A -> bool) (front rest : list A) (t : A) :
  (forall a b, lt a b = negb (le b a)) ->
  StronglySorted R (front ++ rest) ->
  NoDup (front ++ rest) ->
  last_opt front = Some t ->
  filter (lt t) (front ++ rest) = rest.
Proof.
  intros Hlt Hs Hnd Hlast.
  assert (Hfront : exists f, front = f ++ [t]).
  { unfold last_opt in Hlast. destruct (rev front) as [|x r] eqn:E;
      [discriminate|]. injection Hlast as ->.
    exists (rev r). rewrite <- (rev_involutive front), E. reflexivity. }
  destruct Hfront as [f ->]. clear Hlast.
  rewrite <- app_assoc in *. cbn [app] in *.
  rewrite filter_app. cbn [filter].
  assert (Htt : lt t t = false).
  { rewrite Hlt. destruct (le_total t t) as [H|H]; now rewrite H. }
  rewrite Htt.
  assert (Hf : filter (lt t) f = []).
  { apply filter_none. apply Forall_forall. intros x Hx.
    rewrite Hlt. apply negb_false_iff.
    clear Hnd Htt. induction f as [|y f IH]; [destruct Hx|].
    cbn [app] in Hs. inversion Hs as [|? ? Hs' Hall]; subst.
    destruct Hx as [->|Hx]; [|now apply IH].
    rewrite Forall_forall in Hall. apply Hall. apply in_app_iff. right. now left. }
  rewrite Hf. cbn [app].
  apply filter_all. apply Forall_forall. intros x Hx.
  assert (Htx : R t x).
  { clear Hf Htt Hnd. induction f as [|y f IH].
    - cbn [app] in Hs. inversion Hs as [|? ? _ Hall]; subst.
      rewrite Forall_forall in Hall. now apply Hall.
    - cbn [app] in Hs. inversion Hs; subst. now apply IH. }
  rewrite Hlt. apply negb_true_iff. apply not_true_is_false. intros Hxt.
  assert (E : x = t) by now apply le_antisym.
  subst x. apply NoDup_remove_2 in Hnd. apply Hnd.
  apply in_app_iff. now right.
Qed.

End SortFacts.

Lemma insert_by_map' {A B} (f : A -> B) (le : B -> B -> bool) (x : A) (l : list A) :
  map f (insert_by (fun a b => le (f a) (f b)) x l)
  = insert_by le (f x) (map f l).
Proof.
  induction l as [|y l IH]; cbn [insert_by map]; [reflexivity|].
  destruct (le (f x) (f y)); cbn [map]; [reflexivity|]. now rewrite IH.
Qed.

Lemma sort_by_map' {A B} (f : A -> B) (le : B -> B -> bool) (l : list A) :
  map f (sort_by (fun a b => le (f a) (f b)) l) = sort_by le (map f l).
Proof.
  induction l as [|x l IH]; cbn [sort_by map]; [reflexivity|].
  now rewrite insert_by_map', IH.
Qed.

Lemma sort_by_keys_sorted (l : list jsstring) :
  StronglySorted (fun a b => str_leb a b = true) (sort_by str_leb l).
Proof. apply sort_by_sorted'; [apply str_leb_total|apply str_leb_trans]. Qed.

Lemma sort_by_keys_filter (P : jsstring -> bool) (l : list jsstring) :
  sort_by str_leb (filter P l) = filter P (sort_by str_leb l).
Proof.
  apply sort_by_filter;
    [apply str_leb_total|apply str_leb_trans|apply str_leb_antisym].
Qed.

(* ================================================================== *)
(** * Listings *)

Lemma NoDup_map_filter {A} (f : A -> jsstring) (P : A -> bool) (l : list A) :
  (forall k, (List.length (filter (fun r => P r && str_eqb (f r) k) l) <= 1)%nat) ->
  NoDup (map f (filter P l)).
Proof.
  induction l as [|r l IH]; intros H; cbn [filter map]; [constructor|].
  assert (Hl : forall k,
             (List.length (filter (fun r => P r && str_eqb (f r) k) l) <= 1)%nat).
  { intros k. specialize (H k). cbn [filter] in H.
    destruct (P r && str_eqb (f r) k); cbn [List.length] in H; lia. }
  destruct (P r) eqn:HP; [|now apply IH].
  cbn [map]. constructor; [|now apply IH].
  intros Hin. apply in_map_iff in Hin as (r' & Hf & Hr').
  specialize (H (f r)). cbn [filter] in H.
  rewrite HP, str_eqb_refl in H. cbn [andb List.length] in H.
  assert (Hin' : In r' (filter (fun x => P x && str_eqb (f x) (f r)) l)).
  { apply filter_In in Hr' as [Hr' HP']. apply filter_In. split; [exact Hr'|].
    rewrite HP', Hf, str_eqb_refl. reflexivity. }
  destruct (filter (fun x => P x && str_eqb (f x) (f r)) l);
    [destruct Hin'|cbn [List.length] in H; lia].
Qed.

(** A bucket holds each key once. *)
Lemma bucket_keys_NoDup s bucket : store_ok s -> NoDup (bucket_keys s bucket).
Proof.
  intros Hs. apply NoDup_map_filter. intros k.
  rewrite (filter_ext _ (fun x => object_at bucket k x && (o_chunk_index x =? 0))).
  2:{ intros r. unfold listed, object_at.
      destruct (str_eqb (o_bucket r) bucket), (o_chunk_index r =? 0),
        (str_eqb (o_key r) k); reflexivity. }
  destruct Hs as [Ho _].
  destruct (Ho bucket k) as [Hnil|(Hch & r & rest & Hrows & _)].
  - rewrite (meta_of_empty s bucket k Hnil). cbn. lia.
  - rewrite Hrows in Hch.
    rewrite (meta_of_chunked s bucket k r rest _ Hrows Hch). cbn. lia.
Qed.

Lemma keys_in_range_In s bucket prefix k :
  In k (keys_in_range s bucket prefix)
  <-> In k (bucket_keys s bucket) /\ in_prefix_range prefix k = true.
Proof.
  unfold keys_in_range. rewrite sort_by_In, filter_In. reflexivity.
Qed.

Lemma keys_in_range_NoDup s bucket prefix :
  store_ok s -> NoDup (keys_in_range s bucket prefix).
Proof.
  intros Hs. unfold keys_in_range.
  eapply Permutation_NoDup; [apply Permutation_sym, sort_by_perm|].
  apply NoDup_filter. now apply bucket_keys_NoDup.
Qed.

(** The keys of the rows that the listing without delimiter selects. *)
Lemma plain_rows_keys s bucket prefix continuationToken startAfter :
  map o_key
      (sort_by key_leb
         (filter (fun r => listed bucket r
                           && in_prefix_range prefix (o_key r)
                           && after_marker continuationToken startAfter (o_key r))
                 (objects s)))
  = filter (after_marker continuationToken startAfter)
           (keys_in_range s bucket prefix).
Proof.
  unfold key_leb. rewrite (sort_by_map' o_key str_leb).
  rewrite !filter_and.
  rewrite (map_filter_comm o_key (after_marker continuationToken startAfter)).
  rewrite (map_filter_comm o_key (in_prefix_range prefix)).
  rewrite sort_by_keys_filter. reflexivity.
Qed.

Lemma last_opt_map {A B} (f : A -> B) (l : list A) :
  last_opt (map f l) = option_map f (last_opt l).
Proof.
  unfold last_opt. rewrite <- map_rev. now destruct (rev l).
Qed.

Lemma len_firstn {A} (n : Z) (l : list A) :
  0 <= n -> len (firstn (Z.to_nat n) l) = Z.min n (len l).
Proof.
  intros Hn. unfold len. rewrite length_firstn. lia.
Qed.

(** The listing without delimiter is a window on the keys in range that
    follow the marker. *)
Lemma list_plain_window bucket prefix continuationToken startAfter maxKeys s :
  0 <= maxKeys < MAX_SAFE_INTEGER ->
  let K := filter (after_marker continuationToken startAfter)
                  (keys_in_range s bucket prefix) in
  exists objs token,
    list_plain bucket prefix continuationToken startAfter maxKeys s
    = (Returned (objs, [], maxKeys <? len K, token), s)
    /\ map o_key objs = firstn (Z.to_nat maxKeys) K
    /\ token = match last_opt (firstn (Z.to_nat maxKeys) K) with
               | Some k => if maxKeys <? len K then k else []
               | None => []
               end.
Proof.
  intros Hm K.
  unfold list_plain. rewrite select_limit_plus1 by lia.
  unfold bind, gets, ret. cbv zeta.
  set (R := sort_by key_leb _).
  assert (HR : map o_key R = K) by apply plain_rows_keys.
  rewrite slice_take by lia.
  unfold sql_limit. destruct (Z.ltb_spec (maxKeys + 1) 0); [lia|].
  rewrite firstn_firstn, Nat.min_l by lia.
  assert (Hlen : len (firstn (Z.to_nat (maxKeys + 1)) R) = Z.min (maxKeys + 1) (len K)).
  { rewrite len_firstn by lia. now rewrite <- HR, len_map. }
  assert (Ht : (maxKeys <? len (firstn (Z.to_nat (maxKeys + 1)) R))
               = (maxKeys <? len K)).
  { rewrite Hlen. destruct (Z.ltb_spec maxKeys (len K));
      destruct (Z.ltb_spec maxKeys (Z.min (maxKeys + 1) (len K))); lia. }
  rewrite Ht.
  assert (Hk : map o_key (firstn (Z.to_nat maxKeys) R)
               = firstn (Z.to_nat maxKeys) K).
  { now rewrite <- firstn_map, HR. }
  eexists _, _. split; [reflexivity|]. split; [exact Hk|].
  rewrite <- Hk, last_opt_map.
  now destruct (last_opt (firstn (Z.to_nat maxKeys) R)).
Qed.

Lemma after_marker_none k : after_marker [] [] k = true.
Proof. reflexivity. Qed.

Lemma after_marker_token t k :
  nonempty t = true -> after_marker t [] k = str_ltb t k.
Proof.
  intros H. unfold after_marker, str_or. now rewrite H.
Qed.

Lemma skipn_len {A} (n : Z) (l : list A) :
  0 <= n <= len l -> len (skipn (Z.to_nat n) l) = len l - n.
Proof.
  intros H. unfold len in *. rewrite length_skipn. lia.
Qed.


Lemma In_firstn {A} (n : nat) (l : list A) x : In x (firstn n l) -> In x l.
Proof.
  intros H. rewrite <- (firstn_skipn n l). apply in_app_iff. now left.
Qed.

Lemma sql_limit_In {A} (n : Z) (l : list A) x : In x (sql_limit n l) -> In x l.
Proof.
  unfold sql_limit. destruct (n <? 0); [auto|]. apply In_firstn.
Qed.

Lemma slice_In {A} (l : list A) (m : Z) x : 0 <= m -> In x (slice l 0 m) -> In x l.
Proof. intros Hm. rewrite slice_take by exact Hm. apply In_firstn. Qed.

Lemma selected_rows_listed s bucket (G : object_row -> bool)
      (le : object_row -> object_row -> bool) n r :
  In r (sql_limit n (sort_by le (filter (fun r => listed bucket r && G r)
                                        (objects s)))) ->
  listed_in s bucket r.
Proof.
  intros H. apply sql_limit_In in H. apply sort_by_In in H.
  apply filter_In in H as [Hin Hp]. apply andb_true_iff in Hp as [Hl _].
  split; assumption.
Qed.

Lemma list_plain_bound bucket prefix continuationToken startAfter maxKeys s :
  0 <= maxKeys < MAX_SAFE_INTEGER ->
  exists objs isTruncated token,
    list_plain bucket prefix continuationToken startAfter maxKeys s
    = (Returned (objs, [], isTruncated, token), s)
    /\ len objs <= maxKeys
    /\ Forall (listed_in s bucket) objs.
Proof.
  intros Hm. unfold list_plain. rewrite select_limit_plus1 by lia.
  unfold bind, gets, ret. cbv zeta.
  eexists _, _, _. split; [reflexivity|]. split.
  - rewrite slice_take by lia. rewrite len_firstn by lia. lia.
  - apply Forall_forall. intros r Hr. apply slice_In in Hr; [|lia].
    eapply (selected_rows_listed s bucket
              (fun r => in_prefix_range prefix (o_key r)
                        && after_marker continuationToken startAfter (o_key r))).
    erewrite filter_ext; [exact Hr|].
    intros x. cbv beta. now rewrite andb_assoc.
Qed.

Lemma delimiter_loop_bound prefix delimiter maxKeys rows :
  forall cps objs count token,
    count = len cps + len objs -> count <= maxKeys ->
    let '(cps', objs', _, _) :=
      delimiter_loop prefix delimiter maxKeys rows cps objs count token in
    len cps' + len objs' <= maxKeys
    /\ forall r, In r objs' -> In r objs \/ In r rows.
Proof.
  induction rows as [|row rest IH]; intros cps objs count token Hc Hm;
    cbn [delimiter_loop].
  - split; [lia|auto].
  - destruct (Z.leb_spec maxKeys count) as [Hge|Hlt]; [split; [lia|auto]|].
    cbv zeta.
    destruct (0 <=? indexOf _ delimiter).
    + destruct (negb (includes cps _)).
      * specialize (IH (cps ++ [prefix ++ slice (slice_from (o_key row) (len prefix)) 0
                                  (indexOf (slice_from (o_key row) (len prefix))
                                           delimiter + 1)])
                       objs (count + 1) (o_key row)).
        destruct (delimiter_loop _ _ _ rest _ _ _ _) as [[[cps' objs'] tr] tok].
        destruct IH as [H1 H2].
        { rewrite len_app. cbn. lia. }
        { lia. }
        split; [exact H1|]. intros r Hr. destruct (H2 r Hr); cbn [In]; auto.
      * specialize (IH cps objs count token Hc Hm).
        destruct (delimiter_loop _ _ _ rest _ _ _ _) as [[[cps' objs'] tr] tok].
        destruct IH as [H1 H2].
        split; [exact H1|]. intros r Hr. destruct (H2 r Hr); cbn [In]; auto.
    + specialize (IH cps (objs ++ [row]) (count + 1) (o_key row)).
      destruct (delimiter_loop _ _ _ rest _ _ _ _) as [[[cps' objs'] tr] tok].
      destruct IH as [H1 H2].
      { rewrite len_app. cbn. lia. }
      { lia. }
      split; [exact H1|]. intros r Hr.
      destruct (H2 r Hr) as [H|H]; cbn [In]; auto.
      apply in_app_iff in H as [H|[<-|[]]]; auto.
Qed.

Lemma split_items_length (items : list list_item) :
  len (contents_of items) + len (prefixes_of items) = len items.
Proof.
  induction items as [|[v|v d] items IH]; [reflexivity| |];
    cbn [contents_of prefixes_of flat_map app];
    fold (contents_of items); fold (prefixes_of items);
    rewrite ?len_cons; lia.
Qed.

Lemma last_opt_none {A} (l : list A) : last_opt l = None -> l = [].
Proof.
  unfold last_opt. destruct (rev l) eqn:E; [|discriminate].
  intros _. rewrite <- (rev_involutive l), E. reflexivity.
Qed.

Lemma splice_keep_firstn {A} (l : list A) (n : Z) :
  0 <= n -> splice_keep l n = firstn (Z.to_nat n) l.
Proof.
  intros Hn. unfold splice_keep, rel_index.
  destruct (Z.ltb_spec n 0); [lia|].
  destruct (Z.le_gt_cases n (len l)).
  - now rewrite Z.min_l by lia.
  - rewrite Z.min_r by lia. unfold len in *. rewrite Nat2Z.id.
    rewrite firstn_all. symmetry. apply firstn_all2. lia.
Qed.

Section ListBounds.
Context {rt : Runtime}.

Lemma list_delimiter_bound bucket prefix delimiter continuationToken startAfter
      maxKeys s :
  0 <= maxKeys -> maxKeys * 10 < MAX_SAFE_INTEGER ->
  exists objs cps isTruncated token,
    list_delimiter bucket prefix delimiter continuationToken startAfter maxKeys s
    = (Returned (objs, cps, isTruncated, token), s)
    /\ len objs + len cps <= maxKeys
    /\ Forall (listed_in s bucket) objs.
Proof.
  intros Hm Hsafe. unfold list_delimiter.
  rewrite select_limit_times10 by lia. unfold bind, gets.
  set (rows := sql_limit _ _).
  pose proof (delimiter_loop_bound prefix delimiter maxKeys rows [] [] 0 []
                eq_refl Hm) as H.
  destruct (delimiter_loop prefix delimiter maxKeys rows [] [] 0 [])
    as [[[cps objs] tr] tok].
  destruct H as [H1 H2]. unfold ret.
  eexists _, _, _, _. split; [reflexivity|]. split; [lia|].
  apply Forall_forall. intros r Hr. destruct (H2 r Hr) as [[]|Hin].
  eapply (selected_rows_listed s bucket
            (fun r => in_prefix_range prefix (o_key r)
                      && after_marker continuationToken startAfter (o_key r))).
  erewrite filter_ext; [exact Hin|].
  intros x. cbv beta. now rewrite andb_assoc.
Qed.

Lemma list_slash_bound bucket prefix continuationToken startAfter maxKeys s :
  1 <= maxKeys < MAX_SAFE_INTEGER ->
  exists objs cps isTruncated token,
    list_slash bucket prefix continuationToken startAfter maxKeys s
    = (Returned (objs, cps, isTruncated, token), s)
    /\ len objs + len cps <= maxKeys
    /\ Forall (listed_in s bucket) objs.
Proof.
  intros Hm. unfold list_slash. cbv zeta.
  rewrite !select_limit_plus1 by lia.
  unfold bind at 1, gets at 1. unfold bind at 1, gets at 1.
  set (cps := fold_left _ _ []).
  set (objs := sql_limit (maxKeys + 1) (sort_by key_leb _)).
  set (allResults := sort_by _ (map PrefixItem cps ++ _)).
  assert (Hobjs : forall d v, In (ContentItem v d) allResults -> listed_in s bucket d).
  { intros d v Hin. unfold allResults in Hin.
    rewrite sort_by_In, in_app_iff in Hin.
    destruct Hin as [Hin|Hin]; apply in_map_iff in Hin as (x & Hx & Hin);
      [discriminate|]. injection Hx as _ ->.
    eapply (selected_rows_listed s bucket
              (fun r => col_test (str_eqb prefix) (o_parent r)
                        && after_marker continuationToken startAfter (o_key r))).
    erewrite filter_ext; [exact Hin|].
    intros x. cbv beta. now rewrite andb_assoc. }
  unfold bind at 1.
  destruct (Z.ltb_spec maxKeys (len allResults)) as [Hlt|Hge].
  - rewrite splice_keep_firstn by lia.
    set (kept := firstn (Z.to_nat maxKeys) allResults).
    assert (Hk : len kept = maxKeys).
    { unfold kept. rewrite len_firstn by lia. lia. }
    destruct (last_opt kept) as [lastItem|] eqn:Hlast.
    2:{ apply last_opt_none in Hlast. rewrite Hlast in Hk. cbn in Hk. lia. }
    unfold ret. cbv beta iota.
    fold (contents_of kept). fold (prefixes_of kept).
    eexists _, _, _, _. split; [reflexivity|]. split.
    + rewrite split_items_length. lia.
    + apply Forall_forall. intros d Hd. apply contents_of_In in Hd as (v & Hv).
      apply In_firstn in Hv. eauto.
  - unfold ret. cbv beta iota.
    fold (contents_of allResults). fold (prefixes_of allResults).
    eexists _, _, _, _. split; [reflexivity|]. split.
    + rewrite split_items_length. lia.
    + apply Forall_forall. intros d Hd. apply contents_of_In in Hd as (v & Hv).
      eauto.
Qed.

(** With [maxKeys = 0] the fast path empties the list of results and
    then reads its last item. *)
Lemma list_slash_zero s bucket row :
  In row (objects s) -> listed bucket row = true -> o_parent row = Some [] ->
  list_slash bucket [] [] [] 0 s = (Thrown TypeError, s).
Proof.
  intros Hin Hl Hparent. unfold list_slash. cbv zeta.
  rewrite !select_limit_plus1 by (vm_compute; reflexivity).
  unfold bind at 1, gets at 1. unfold bind at 1, gets at 1.
  set (cps := fold_left _ _ []).
  set (objs := sql_limit (0 + 1) (sort_by key_leb _)).
  set (allResults := sort_by _ (map PrefixItem cps ++ _)).
  assert (Hobjs : objs <> []).
  { unfold objs, sql_limit. change (0 + 1 <? 0) with false. cbv iota.
    change (Z.to_nat (0 + 1)) with 1%nat.
    assert (HI : In row (sort_by key_leb
              (filter (fun r => listed bucket r
                                && col_test (str_eqb []) (o_parent r)
                                && after_marker [] [] (o_key r)) (objects s)))).
    { apply sort_by_In. apply filter_In. split; [exact Hin|].
      rewrite Hl, Hparent. reflexivity. }
    destruct (sort_by key_leb _); [destruct HI|]. discriminate. }
  assert (Hall : 0 < len allResults).
  { unfold allResults, len. rewrite sort_by_length, length_app, !length_map.
    destruct objs; [congruence|]. cbn [List.length]. lia. }
  apply Z.ltb_lt in Hall. unfold bind at 1. rewrite Hall.
  rewrite splice_keep_firstn by lia. cbn [Z.to_nat firstn].
  change (last_opt []) with (@None list_item). reflexivity.
Qed.

End ListBounds.

(** The loop of the generic delimiter path on rows that fit in
    [maxKeys]: it is not cut short, the common prefixes are those of the
    rows, each once, and the contents are the rows without delimiter. *)
Lemma delimiter_loop_all prefix delimiter maxKeys rows :
  forall cps objs count token,
    count + len rows <= maxKeys ->
    NoDup cps ->
    exists cps' objs' token',
      delimiter_loop prefix delimiter maxKeys rows cps objs count token
      = (cps', objs', false, token')
      /\ NoDup cps'
      /\ (forall p, In p cps'
            <-> In p cps
                \/ exists r, In r rows
                             /\ common_prefix_of prefix delimiter (o_key r) = Some p)
      /\ (forall d, In d objs'
            <-> In d objs
                \/ (In d rows
                    /\ common_prefix_of prefix delimiter (o_key d) = None)).
Proof.
  induction rows as [|row rest IH]; intros cps objs count token Hc Hnd;
    cbn [delimiter_loop].
  - exists cps, objs, token. split; [reflexivity|]. split; [exact Hnd|].
    split; intros x; split; auto; intros [H|H]; auto.
    + destruct H as (r & [] & _).
    + destruct H as [[] _].
  - rewrite len_cons in Hc. pose proof (len_nonneg rest) as Hrest.
    destruct (Z.leb_spec maxKeys count) as [Hge|Hlt]; [lia|].
    cbv zeta.
    assert (Hgroup : common_prefix_of prefix delimiter (o_key row)
                     = if 0 <=? indexOf (slice_from (o_key row) (len prefix)) delimiter
                       then Some (prefix ++ slice (slice_from (o_key row) (len prefix)) 0
                                    (indexOf (slice_from (o_key row) (len prefix))
                                             delimiter + 1))
                       else None) by reflexivity.
    destruct (0 <=? indexOf (slice_from (o_key row) (len prefix)) delimiter).
    + set (cp := prefix ++ _) in *.
      destruct (includes cps cp) eqn:Hinc; cbn [negb].
      * destruct (IH cps objs count token) as (cps' & objs' & tok' & Hrun & Hn & Hp & Ho);
          [lia|exact Hnd|].
        exists cps', objs', tok'. split; [exact Hrun|]. split; [exact Hn|].
        split.
        -- intros p. rewrite Hp. cbn [In]. split.
           ++ intros [H|(r & Hr & Hg)]; eauto.
           ++ intros [H|(r & [<-|Hr] & Hg)]; eauto.
              rewrite Hgroup in Hg. injection Hg as <-.
              left. now apply includes_In.
        -- intros d. rewrite Ho. cbn [In]. split.
           ++ intros [H|[Hr Hg]]; auto.
           ++ intros [H|[[<-|Hr] Hg]]; auto. congruence.
      * destruct (IH (cps ++ [cp]) objs (count + 1) (o_key row))
          as (cps' & objs' & tok' & Hrun & Hn & Hp & Ho); [lia| |].
        { apply NoDup_app; [exact Hnd|repeat constructor; auto|].
          intros x Hx [<-|[]]. apply includes_In in Hx. congruence. }
        exists cps', objs', tok'. split; [exact Hrun|]. split; [exact Hn|].
        split.
        -- intros p. rewrite Hp, in_app_iff. cbn [In]. split.
           ++ intros [[H|[<-|[]]]|(r & Hr & Hg)]; eauto.
           ++ intros [H|(r & [<-|Hr] & Hg)]; eauto.
              rewrite Hgroup in Hg. injection Hg as <-. auto.
        -- intros d. rewrite Ho. cbn [In]. split.
           ++ intros [H|[Hr Hg]]; auto.
           ++ intros [H|[[<-|Hr] Hg]]; auto. congruence.
    + destruct (IH cps (objs ++ [row]) (count + 1) (o_key row))
        as (cps' & objs' & tok' & Hrun & Hn & Hp & Ho); [lia|exact Hnd|].
      exists cps', objs', tok'. split; [exact Hrun|]. split; [exact Hn|].
      split.
      * intros p. rewrite Hp. cbn [In]. split.
        -- intros [H|(r & Hr & Hg)]; eauto.
        -- intros [H|(r & [<-|Hr] & Hg)]; eauto. congruence.
      * intros d. rewrite Ho, in_app_iff. cbn [In]. split.
        -- intros [[H|[<-|[]]]|[Hr Hg]]; auto.
        -- intros [H|[[<-|Hr] Hg]]; auto.
Qed.

(* ================================================================== *)
(** * The listing of uploads *)

Lemma str_compare_lt (a b : jsstring) :
  str_compare a b = Lt <-> str_leb a b = true /\ a <> b.
Proof.
  unfold str_leb. split.
  - intros H. rewrite H. split; [reflexivity|].
    intros ->. rewrite str_compare_refl in H. discriminate.
  - intros [H Hne]. destruct (str_compare a b) eqn:E; try discriminate; auto.
    apply str_compare_eq in E. contradiction.
Qed.

Lemma str_compare_lt_trans (a b c : jsstring) :
  str_compare a b = Lt -> str_compare b c = Lt -> str_compare a c = Lt.
Proof.
  rewrite !str_compare_lt. intros [H1 N1] [H2 N2]. split.
  - eapply str_leb_trans; eassumption.
  - intros ->. apply N2. now apply str_leb_antisym.
Qed.

Lemma upload_leb_total (a b : upload_row) :
  upload_leb a b = true \/ upload_leb b a = true.
Proof.
  unfold upload_leb. rewrite (str_compare_antisym (u_key a) (u_key b)).
  destruct (str_compare (u_key a) (u_key b)); cbn [CompOpp]; auto.
  apply str_leb_total.
Qed.

Lemma upload_leb_trans (a b c : upload_row) :
  upload_leb a b = true -> upload_leb b c = true -> upload_leb a c = true.
Proof.
  unfold upload_leb.
  destruct (str_compare (u_key a) (u_key b)) eqn:E1; try discriminate;
    destruct (str_compare (u_key b) (u_key c)) eqn:E2; try discriminate;
    intros H1 H2.
  - apply str_compare_eq in E1, E2. rewrite E1, E2, str_compare_refl.
    eapply str_leb_trans; eassumption.
  - apply str_compare_eq in E1. now rewrite E1, E2.
  - apply str_compare_eq in E2. now rewrite <- E2, E1.
  - now rewrite (str_compare_lt_trans _ _ _ E1 E2).
Qed.

Lemma StronglySorted_map_intro {A B} (f : A -> B) (R : A -> A -> Prop)
      (S : B -> B -> Prop) (l : list A) :
  (forall a b, R a b -> S (f a) (f b)) ->
  StronglySorted R l -> StronglySorted S (map f l).
Proof.
  intros H. induction 1 as [|x l Hs IH Hall]; cbn [map]; constructor; auto.
  apply Forall_forall. intros y Hy. apply in_map_iff in Hy as (z & <- & Hz).
  rewrite Forall_forall in Hall. auto.
Qed.

(* ================================================================== *)
(** * escapeXml *)

Lemma escapeXml_cons (c : N) (s : jsstring) :
  escapeXml (c :: s) = escaped_unit c ++ escapeXml s.
Proof.
  unfold escapeXml, replace_all, escaped_unit. cbn [flat_map].
  rewrite !flat_map_app. f_equal.
  destruct (N.eqb_spec c 38) as [->|H38]; [reflexivity|].
  cbn [flat_map app].
  destruct (N.eqb_spec c 60) as [->|H60]; [reflexivity|].
  cbn [flat_map app].
  destruct (N.eqb_spec c 62) as [->|H62]; [reflexivity|].
  cbn [flat_map app].
  destruct (N.eqb_spec c 34) as [->|H34]; [reflexivity|].
  cbn [flat_map app].
  destruct (N.eqb_spec c 39) as [->|H39]; reflexivity.
Qed.

Lemma escapeXml_single_pass (s : jsstring) :
  escapeXml s = flat_map escaped_unit s.
Proof.
  induction s as [|c s IH]; [reflexivity|].
  rewrite escapeXml_cons. cbn [flat_map]. now rewrite IH.
Qed.

Lemma escaped_unit_cases (c : N) :
  (escaped_unit c = [c]
   /\ c <> 38%N /\ c <> 60%N /\ c <> 62%N /\ c <> 34%N /\ c <> 39%N)
  \/ (c = 38%N /\ escaped_unit c = js "&amp;")
  \/ (c = 60%N /\ escaped_unit c = js "&lt;")
  \/ (c = 62%N /\ escaped_unit c = js "&gt;")
  \/ (c = 34%N /\ escaped_unit c = js "&quot;")
  \/ (c = 39%N /\ escaped_unit c = js "&apos;").
Proof.
  unfold escaped_unit.
  destruct (N.eqb_spec c 38) as [->|H38]; [auto|].
  destruct (N.eqb_spec c 60) as [->|H60]; [auto 6|].
  destruct (N.eqb_spec c 62) as [->|H62]; [auto 6|].
  destruct (N.eqb_spec c 34) as [->|H34]; [auto 8|].
  destruct (N.eqb_spec c 39) as [->|H39]; [auto 8|].
  left. auto 8.
Qed.

(* ================================================================== *)
(** * The worker and its paths *)

Lemma split_on_first (s : jsstring) :
  exists rest, split_on slash s = first_segment s :: rest.
Proof.
  induction s as [|c s (rest & IH)]; cbn [split_on first_segment].
  - now exists [].
  - destruct (N.eqb c slash); [eexists; reflexivity|].
    rewrite IH. eexists; reflexivity.
Qed.

Lemma startsWith_app (p s : jsstring) : startsWith (p ++ s) p = true.
Proof.
  induction p as [|c p IH]; cbn [app startsWith].
  - now destruct s.
  - now rewrite N.eqb_refl.
Qed.

Lemma startsWith_split (s p : jsstring) :
  startsWith s p = true -> exists rest, s = p ++ rest.
Proof.
  revert s. induction p as [|c p IH]; intros s H.
  - now exists s.
  - destruct s as [|x s]; [discriminate|]. cbn [startsWith] in H.
    apply andb_true_iff in H as [Hx Hs]. apply N.eqb_eq in Hx. subst x.
    destruct (IH s Hs) as [rest ->]. now exists rest.
Qed.

(* ================================================================== *)
(** * The window of recent requests *)

Lemma firstn_firstn_S {A} (n : nat) (x : A) (l : list A) :
  firstn (S n) (x :: firstn (S n) l) = firstn (S n) (x :: l).
Proof.
  rewrite !firstn_cons. f_equal. rewrite firstn_firstn. f_equal. lia.
Qed.

(* ================================================================== *)
(** * The order of SQLite and the code points *)

Lemma is_high_surrogate_spec (c : N) :
  is_high_surrogate c = true <-> (0xD800 <= c < 0xDC00)%N.
Proof.
  unfold is_high_surrogate. rewrite andb_true_iff, N.leb_le, N.ltb_lt.
  reflexivity.
Qed.

Lemma is_low_surrogate_spec (c : N) :
  is_low_surrogate c = true <-> (0xDC00 <= c < 0xE000)%N.
Proof.
  unfold is_low_surrogate. rewrite andb_true_iff, N.leb_le, N.ltb_lt.
  reflexivity.
Qed.

Lemma well_formed_high (c : N) (s : jsstring) :
  is_high_surrogate c = true -> well_formed (c :: s) = true ->
  exists d s', s = d :: s' /\ is_low_surrogate d = true
               /\ well_formed s' = true.
Proof.
  intros Hc H. cbn [well_formed] in H. rewrite Hc in H.
  destruct s as [|d s']; [discriminate|].
  apply andb_true_iff in H as [Hd Hs]. eauto.
Qed.

Lemma well_formed_other (c : N) (s : jsstring) :
  is_high_surrogate c = false -> well_formed (c :: s) = true ->
  ~ (0xD800 <= c < 0xE000)%N /\ (c < 0x10000)%N /\ well_formed s = true.
Proof.
  intros Hc H. cbn [well_formed] in H. rewrite Hc in H.
  apply andb_true_iff in H as [H Hs]. apply andb_true_iff in H as [Hl Hb].
  apply N.ltb_lt in Hb. apply negb_true_iff in Hl.
  split; [|auto]. intros Hr.
  destruct (N.lt_ge_cases c 0xDC00) as [Hlt|Hge].
  - assert (E : is_high_surrogate c = true)
      by (apply is_high_surrogate_spec; lia). congruence.
  - assert (E : is_low_surrogate c = true)
      by (apply is_low_surrogate_spec; lia). congruence.
Qed.

Lemma unit_rank_surrogate (c : N) :
  (0xD800 <= c < 0xE000)%N -> unit_rank c = (c + 0x2000)%N.
Proof.
  intros H. unfold unit_rank.
  destruct (N.ltb_spec c 0xD800); [lia|].
  destruct (N.ltb_spec c 0xE000); [reflexivity|lia].
Qed.

Lemma unit_rank_other (c : N) :
  ~ (0xD800 <= c < 0xE000)%N -> (c < 0x10000)%N ->
  unit_rank c = (if c <? 0xD800 then c else c - 0x800)%N
  /\ (unit_rank c < 0xF800)%N.
Proof.
  intros H1 H2. unfold unit_rank.
  destruct (N.ltb_spec c 0xD800); [split; [reflexivity|lia]|].
  destruct (N.ltb_spec c 0xE000); [lia|].
  destruct (N.ltb_spec c 0x10000); [split; [reflexivity|lia]|lia].
Qed.

Lemma N_compare_ext (x y x' y' : N) :
  ((x < y)%N -> (x' < y')%N) -> (x = y -> x' = y') ->
  ((y < x)%N -> (y' < x')%N) ->
  (x ?= y)%N = (x' ?= y')%N.
Proof.
  intros H1 H2 H3.
  destruct (N.compare_spec x y) as [E|L|G]; symmetry.
  - apply N.compare_eq_iff. auto.
  - apply N.compare_lt_iff. auto.
  - apply N.compare_gt_iff. auto.
Qed.

(** On well-formed strings the order of SQLite is the order of the code
    points. *)
Lemma str_compare_code_points (a b : jsstring) :
  well_formed a = true -> well_formed b = true ->
  str_compare a b = cp_compare (code_points a) (code_points b).
Proof.
  remember (List.length a) as n eqn:Hn. revert a b Hn.
  induction n as [n IH] using lt_wf_ind. intros a b Hn Ha Hb.
  destruct a as [|c a].
  { destruct b as [|c2 b]; [reflexivity|]. cbn [str_compare code_points].
    destruct (is_high_surrogate c2); [destruct b|]; reflexivity. }
  destruct (is_high_surrogate c) eqn:Hc.
  - destruct (well_formed_high c a Hc Ha) as (d & a' & -> & Hd & Ha').
    destruct b as [|c2 b].
    { cbn [str_compare code_points]. rewrite Hc. reflexivity. }
    cbn [code_points]. rewrite Hc.
    apply is_high_surrogate_spec in Hc. apply is_low_surrogate_spec in Hd.
    destruct (is_high_surrogate c2) eqn:Hc2.
    + destruct (well_formed_high c2 b Hc2 Hb) as (d2 & b' & -> & Hd2 & Hb').
      apply is_high_surrogate_spec in Hc2. apply is_low_surrogate_spec in Hd2.
      cbn [str_compare cp_compare].
      rewrite !unit_rank_surrogate by lia.
      destruct (N.compare_spec (c + 0x2000) (c2 + 0x2000)) as [E|L|G].
      * assert (c = c2) by lia. subst c2.
        destruct (N.compare_spec (d + 0x2000) (d2 + 0x2000)) as [E2|L2|G2].
        -- assert (d = d2) by lia. subst d2. rewrite N.compare_refl.
           apply (IH (List.length a')); auto. subst n. cbn [List.length]. lia.
        -- symmetry.
           replace (_ ?= _)%N with Lt; [reflexivity|].
           symmetry. apply N.compare_lt_iff. lia.
        -- symmetry.
           replace (_ ?= _)%N with Gt; [reflexivity|].
           symmetry. apply N.compare_gt_iff. lia.
      * symmetry. replace (_ ?= _)%N with Lt; [reflexivity|].
        symmetry. apply N.compare_lt_iff. lia.
      * symmetry. replace (_ ?= _)%N with Gt; [reflexivity|].
        symmetry. apply N.compare_gt_iff. lia.
    + destruct (well_formed_other c2 b Hc2 Hb) as (Hs2 & Hb2 & Hb').
      destruct (unit_rank_other c2 Hs2 Hb2) as [_ Hr2].
      cbn [str_compare cp_compare]. rewrite (unit_rank_surrogate c) by lia.
      replace (c + 0x2000 ?= unit_rank c2)%N with Gt
        by (symmetry; apply N.compare_gt_iff; lia).
      replace (_ ?= c2)%N with Gt; [reflexivity|].
      symmetry. apply N.compare_gt_iff. lia.
  - destruct (well_formed_other c a Hc Ha) as (Hs & Hbmp & Ha').
    destruct (unit_rank_other c Hs Hbmp) as [Hrank Hr].
    destruct b as [|c2 b].
    { cbn [str_compare code_points]. rewrite Hc. reflexivity. }
    cbn [code_points]. rewrite Hc.
    destruct (is_high_surrogate c2) eqn:Hc2.
    + destruct (well_formed_high c2 b Hc2 Hb) as (d2 & b' & -> & Hd2 & Hb').
      apply is_high_surrogate_spec in Hc2. apply is_low_surrogate_spec in Hd2.
      cbn [str_compare cp_compare]. rewrite (unit_rank_surrogate c2) by lia.
      replace (unit_rank c ?= c2 + 0x2000)%N with Lt
        by (symmetry; apply N.compare_lt_iff; lia).
      replace (c ?= _)%N with Lt; [reflexivity|].
      symmetry. apply N.compare_lt_iff. lia.
    + destruct (well_formed_other c2 b Hc2 Hb) as (Hs2 & Hb2 & Hb').
      destruct (unit_rank_other c2 Hs2 Hb2) as [Hrank2 _].
      cbn [str_compare cp_compare].
      assert (E : (unit_rank c ?= unit_rank c2)%N = (c ?= c2)%N).
      { rewrite Hrank, Hrank2. apply N_compare_ext;
          destruct (N.ltb_spec c 0xD800), (N.ltb_spec c2 0xD800); lia. }
      rewrite E. destruct (c ?= c2)%N; auto.
      apply (IH (List.length a)); auto. subst n. cbn [List.length]. lia.
Qed.

Lemma str_leb_cp_leb (a b : jsstring) :
  well_formed a = true -> well_formed b = true -> str_leb a b = cp_leb a b.
Proof.
  intros Ha Hb. unfold str_leb, cp_leb.
  now rewrite str_compare_code_points.
Qed.

(** Two orders that agree on the elements of a list sort it alike. *)
Lemma insert_by_ext_in {A} (le1 le2 : A -> A -> bool) (x : A) (l : list A) :
  (forall y, In y l -> le1 x y = le2 x y) ->
  insert_by le1 x l = insert_by le2 x l.
Proof.
  induction l as [|y l IH]; intros H; cbn [insert_by]; [reflexivity|].
  rewrite (H y) by now left. destruct (le2 x y); [reflexivity|].
  f_equal. apply IH. intros z Hz. apply H. now right.
Qed.

Lemma sort_by_ext_in {A} (le1 le2 : A -> A -> bool) (l : list A) :
  (forall x y, In x l -> In y l -> le1 x y = le2 x y) ->
  sort_by le1 l = sort_by le2 l.
Proof.
  induction l as [|x l IH]; intros H; cbn [sort_by]; [reflexivity|].
  rewrite IH by (intros; apply H; now right).
  apply insert_by_ext_in. intros y Hy. apply sort_by_In in Hy.
  apply H; [now left|now right].
Qed.

Lemma StronglySorted_ext_in {A} (R1 R2 : A -> A -> Prop) (l : list A) :
  (forall x y, In x l -> In y l -> R1 x y -> R2 x y) ->
  StronglySorted R1 l -> StronglySorted R2 l.
Proof.
  induction l as [|x l IH]; intros H Hs; [constructor|].
  inversion Hs as [|? ? Hs' Hall]; subst. constructor.
  - apply IH; [|exact Hs']. intros; apply H; auto; now right.
  - rewrite Forall_forall in *. intros y Hy. apply H; auto; [now left|now right].
Qed.

Lemma last_opt_snoc {A} (l : list A) (c : A) :
  last_opt l = Some c -> exists q, l = q ++ [c].
Proof.
  unfold last_opt. intros H. destruct (rev l) as [|x r] eqn:E; [discriminate|].
  injection H as ->. exists (rev r).
  rewrite <- (rev_involutive l), E. reflexivity.
Qed.

(** For a literal prefix the range of the listing holds the keys that
    start with the prefix. *)
Lemma in_prefix_range_starts (prefix k : jsstring) :
  literal_prefix prefix = true ->
  in_prefix_range prefix k = startsWith k prefix.
Proof.
  unfold literal_prefix. intros H.
  destruct (last_opt prefix) as [c|] eqn:E.
  - destruct (last_opt_snoc prefix c E) as [q Hq].
    apply andb_true_iff in H as [H H3]. apply andb_true_iff in H as [H1 H2].
    apply N.ltb_lt in H1. apply negb_true_iff, N.eqb_neq in H2, H3.
    now apply (in_prefix_range_literal prefix k q c).
  - apply last_opt_none in E. subst prefix. now destruct k.
Qed.

Lemma keys_in_range_starts s bucket prefix :
  literal_prefix prefix = true ->
  Forall (fun k => well_formed k = true) (bucket_keys s bucket) ->
  keys_in_range s bucket prefix = keys_with_prefix s bucket prefix.
Proof.
  intros Hp Hwf. unfold keys_in_range, keys_with_prefix.
  rewrite (filter_ext (in_prefix_range prefix) (fun k => startsWith k prefix))
    by (intros k; now apply in_prefix_range_starts).
  apply sort_by_ext_in. intros x y Hx Hy.
  apply filter_In in Hx as [Hx _]. apply filter_In in Hy as [Hy _].
  rewrite Forall_forall in Hwf. apply str_leb_cp_leb; auto.
Qed.

(* ================================================================== *)
(** * Limits that do not fit *)

(** Rounding to a double does not take a number below the power of two
    under it. *)
Lemma to_double_large (z : Z) : 2 ^ 63 <= z -> 2 ^ 63 <= to_double z.
Proof.
  intros H. unfold to_double. cbv zeta.
  assert (Ha : Z.abs z = z) by lia. rewrite Ha.
  destruct (Z.ltb_spec z (2 ^ 53)); [lia|].
  destruct (Z.ltb_spec z 0); [lia|].
  assert (Hlog : 63 <= Z.log2 z).
  { change 63 with (Z.log2 (2 ^ 63)). apply Z.log2_le_mono. exact H. }
  set (e := Z.log2 z - 52) in *.
  assert (He : 11 <= e) by (unfold e; lia).
  set (q := Z.shiftr z e).
  assert (Hpow : 2 ^ 52 * 2 ^ e <= z).
  { rewrite <- Z.pow_add_r by lia.
    replace (52 + e) with (Z.log2 z) by (unfold e; lia).
    apply Z.log2_spec. lia. }
  assert (Hq : 2 ^ 52 <= q).
  { unfold q. rewrite Z.shiftr_div_pow2 by lia.
    apply Z.div_le_lower_bound; [apply Z.pow_pos_nonneg; lia|].
    rewrite Z.mul_comm. exact Hpow. }
  match goal with
  | |- context [Z.min (Z.shiftl ?Q e) Infinity] => set (q' := Q)
  end.
  assert (Hq' : q <= q') by (unfold q'; destruct (_ || _); lia).
  assert (Hbig : 2 ^ 63 <= 2 ^ 52 * 2 ^ e).
  { rewrite <- Z.pow_add_r by lia. apply Z.pow_le_mono_r; lia. }
  apply Z.min_glb.
  - rewrite Z.shiftl_mul_pow2 by lia.
    assert (0 < 2 ^ e) by (apply Z.pow_pos_nonneg; lia). nia.
  - unfold Infinity. apply Z.pow_le_mono_r; lia.
Qed.

Lemma limit_fits_large (n : Z) : 2 ^ 63 <= n -> limit_fits n = false.
Proof.
  intros H. unfold limit_fits. destruct (Z.ltb_spec n (2 ^ 63)); [lia|].
  apply andb_false_r.
Qed.

(** From [2 ^ 63] on, neither [maxKeys + 1] nor [maxKeys * 10 + 1] fits a
    limit. *)
Lemma limit_plus1_large (maxKeys : Z) :
  2 ^ 63 <= maxKeys -> limit_fits (js_add maxKeys 1) = false.
Proof.
  intros H. apply limit_fits_large, to_double_large. lia.
Qed.

Lemma limit_times10_large (maxKeys : Z) :
  2 ^ 63 <= maxKeys -> limit_fits (js_add (js_mul maxKeys 10) 1) = false.
Proof.
  intros H. apply limit_fits_large. unfold js_add. apply to_double_large.
  assert (2 ^ 63 <= js_mul maxKeys 10) by (apply to_double_large; lia). lia.
Qed.

Section HugeLimits.
Context {rt : Runtime}.

(** With a [max-keys] from [2 ^ 63] on, the first statement of every
    path fails. *)
Lemma listObjectsV2_huge s bucket params maxKeys :
  parseInt (or_default (params_get params (js "max-keys")) (js "1000"))
  = Some maxKeys ->
  2 ^ 63 <= maxKeys ->
  listObjectsV2 bucket params s
  = (Returned (errorResponse (js "InternalError")
                             (js "Failed to list objects") 500), s).
Proof.
  intros Hm Hbig. unfold listObjectsV2, try_catch. cbv zeta. rewrite Hm.
  unfold bind at 1.
  destruct (str_eqb _ (js "/")).
  - unfold list_slash. cbv zeta. unfold bind at 1.
    rewrite select_limit_mismatch by now apply limit_plus1_large.
    reflexivity.
  - destruct (nonempty _).
    + unfold list_delimiter. unfold bind at 1.
      rewrite select_limit_mismatch by now apply limit_times10_large.
      reflexivity.
    + unfold list_plain. unfold bind at 1.
      rewrite select_limit_mismatch by now apply limit_plus1_large.
      reflexivity.
Qed.

End HugeLimits.

(* ================================================================== *)
(** * The first occurrence of a delimiter *)

Lemma startsWith_occurs (s p : jsstring) :
  startsWith s p = false -> forall b, s <> p ++ b.
Proof.
  intros H b ->. now rewrite startsWith_app in H.
Qed.

(** [indexOf]: a negative result when the string does not occur, and
    otherwise the length of what precedes its first occurrence. *)
Lemma indexOf_from_spec (p s : jsstring) :
  forall i,
    (indexOf_from s p i = -1 /\ ~ occurs_in p s)
    \/ exists n : nat,
         indexOf_from s p i = i + Z.of_nat n
         /\ (n <= List.length s)%nat
         /\ before_first p s (firstn n s).
Proof.
  induction s as [|x s IH]; intros i.
  - cbn [indexOf_from]. destruct (startsWith [] p) eqn:E.
    + right. exists 0%nat. split; [lia|]. split; [reflexivity|].
      apply startsWith_split in E as [rest E]. split.
      * exists rest. exact E.
      * intros a b _. cbn. apply len_nonneg.
    + left. split; [reflexivity|]. intros (a & b & H).
      destruct a; [|discriminate]. now apply (startsWith_occurs [] p E b).
  - cbn [indexOf_from]. destruct (startsWith (x :: s) p) eqn:E.
    + right. exists 0%nat. split; [lia|]. split; [cbn; lia|].
      apply startsWith_split in E as [rest E]. split.
      * exists rest. exact E.
      * intros a b _. cbn. apply len_nonneg.
    + destruct (IH (i + 1)) as [[Hidx Hno]|(n & Hidx & Hn & [Hex Hmin])].
      * left. split; [exact Hidx|]. intros (a & b & H).
        destruct a as [|y a]; [now apply (startsWith_occurs _ p E b)|].
        injection H as _ H. apply Hno. now exists a, b.
      * right. exists (S n). split; [lia|]. split; [cbn; lia|].
        destruct Hex as [rest Hrest]. split.
        -- exists rest. cbn [firstn app]. now rewrite <- Hrest.
        -- intros a b H.
           destruct a as [|y a]; [now destruct (startsWith_occurs _ p E b)|].
           injection H as _ H. cbn [firstn]. rewrite !len_cons.
           specialize (Hmin a b H). lia.
Qed.

Lemma before_first_unique (d s b1 b2 : jsstring) :
  before_first d s b1 -> before_first d s b2 -> b1 = b2.
Proof.
  intros [[r1 H1] M1] [[r2 H2] M2].
  assert (Hlen : List.length b1 = List.length b2).
  { specialize (M1 b2 r2 H2). specialize (M2 b1 r1 H1). unfold len in *. lia. }
  rewrite H1 in H2. clear -H2 Hlen. revert b2 H2 Hlen.
  induction b1 as [|x b1 IH]; intros [|y b2] H Hlen; try discriminate; auto.
  injection H as -> H. injection Hlen as Hlen. f_equal. now apply IH.
Qed.

(** The grouping of the generic delimiter path in words: no group when
    the delimiter does not occur after the prefix, and otherwise the
    prefix, what precedes the first occurrence, and the first unit of the
    delimiter. *)
Lemma common_prefix_of_spec (prefix delimiter after : jsstring) :
  nonempty delimiter = true ->
  (common_prefix_of prefix delimiter (prefix ++ after) = None
   <-> ~ occurs_in delimiter after)
  /\ (forall p,
        common_prefix_of prefix delimiter (prefix ++ after) = Some p
        <-> exists before,
              before_first delimiter after before
              /\ p = prefix ++ before ++ firstn 1 delimiter).
Proof.
  intros Hne. unfold common_prefix_of. cbv zeta.
  rewrite slice_from_app. unfold indexOf.
  destruct (indexOf_from_spec delimiter after 0)
    as [[Hidx Hno]|(n & Hidx & Hn & Hbf)]; rewrite Hidx.
  - change (0 <=? -1) with false. cbv iota. split; [tauto|].
    intros p. split; [discriminate|].
    intros (before & [[rest Hrest] _] & _). destruct Hno. now exists before, rest.
  - destruct (Z.leb_spec 0 (0 + Z.of_nat n)) as [_|Hneg]; [|lia].
    assert (Hslice : slice after 0 (0 + Z.of_nat n + 1)
                     = firstn n after ++ firstn 1 delimiter).
    { rewrite slice_take by lia.
      replace (Z.to_nat (0 + Z.of_nat n + 1)) with (S n) by lia.
      destruct Hbf as [[rest Hrest] _].
      assert (Hl : List.length (firstn n after) = n)
        by (rewrite length_firstn; lia).
      rewrite Hrest at 1. rewrite firstn_app, Hl.
      rewrite firstn_all2 by lia.
      replace (S n - n)%nat with 1%nat by lia.
      destruct delimiter; [discriminate|reflexivity]. }
    rewrite Hslice. split.
    + split; [discriminate|]. intros Hno. destruct Hno.
      destruct Hbf as [[rest Hrest] _]. now exists (firstn n after), rest.
    + intros p. split.
      * intros H. injection H as <-. now exists (firstn n after).
      * intros (before & Hb & ->).
        now rewrite (before_first_unique delimiter after before
                       (firstn n after) Hb Hbf).
Qed.

(* ================================================================== *)
(** * Further properties of the engine *)

(** X1 (a request changes one object).  [fetch] for a request whose path
    names the bucket [bucket] writes no row of an object of another
    bucket, and when the path gives the key [key], no row of an object
    other than [(bucket, key)], whatever the method, the outcome of the
    authentication and the outcome of the handler; [getObject] therefore
    answers for every other object as it did before. *)
Theorem request_changes_one_object {rt : Runtime}
        (req : request) (bucket : jsstring) (s : store) :
  request_bucket req = Some bucket ->
  let s' := state_after (fetch req) s in
  (forall bucket' key', bucket' <> bucket ->
     object_rows s' bucket' key' = object_rows s bucket' key')
  /\ (forall bucket' key' headOnly, bucket' <> bucket ->
        result_of (getObject bucket' key' headOnly) s'
        = result_of (getObject bucket' key' headOnly) s)
  /\ (forall key key', extract_key bucket req = Returned key -> key' <> key ->
        object_rows s' bucket key' = object_rows s bucket key')
  /\ (forall key key' headOnly,
        extract_key bucket req = Returned key -> key' <> key ->
        result_of (getObject bucket key' headOnly) s'
        = result_of (getObject bucket key' headOnly) s).
Proof.
  intros Hb s'. subst s'.
  pose proof (fetch_other_buckets req bucket Hb s) as Hbuckets.
  assert (Hkeys : forall key key', extract_key bucket req = Returned key ->
            key' <> key ->
            object_rows (state_after (fetch req) s) bucket key'
            = object_rows s bucket key').
  { intros key key' Hk Hne.
    apply (fetch_other_objects req bucket key Hb Hk s). congruence. }
  split; [exact Hbuckets|]. split; [|split; [exact Hkeys|]].
  - intros b' k' h Hne. apply getObject_same_rows. now apply Hbuckets.
  - intros key key' h Hk Hne. apply getObject_same_rows. eapply Hkeys; eauto.
Qed.

Lemma request_changes_one_object_witness :
  request_bucket demo_put_other = Some (js "b")
  /\ result_of (@getObject demo_runtime (js "b") (js "k") false)
               (@serve demo_runtime [demo_put; demo_put_other])
     = result_of (@getObject demo_runtime (js "b") (js "k") false)
                 (@serve demo_runtime [demo_put]).
Proof.
  split; [reflexivity|].
  refine (proj2 (proj2 (proj2
    (@request_changes_one_object demo_runtime demo_put_other (js "b")
       (@serve demo_runtime [demo_put]) eq_refl)))
    (js "other") (js "k") false eq_refl _).
  discriminate.
Defined.

(** X2 (GET and HEAD write nothing).  A request whose method is GET or
    HEAD leaves the tables [objects], [multipart_uploads] and
    [multipart_parts] as they were, whatever its path, its parameters and
    its credentials, and whether [fetch] returns or throws. *)
Theorem get_and_head_write_nothing {rt : Runtime} (req : request) (s : store) :
  method req = js "GET" \/ method req = js "HEAD" ->
  let s' := state_after (fetch req) s in
  objects s' = objects s
  /\ multipart_uploads s' = multipart_uploads s
  /\ multipart_parts s' = multipart_parts s.
Proof.
  intros Hm. exact (fetch_reads req Hm s).
Qed.

Lemma get_and_head_write_nothing_witness :
  method demo_list_slash = js "GET"
  /\ objects (state_after (@fetch demo_runtime demo_list_slash)
                          (@serve demo_runtime [demo_put]))
     = objects (@serve demo_runtime [demo_put]).
Proof.
  split; [reflexivity|].
  exact (proj1 (@get_and_head_write_nothing demo_runtime demo_list_slash
                  (@serve demo_runtime [demo_put]) (or_introl eq_refl))).
Defined.

(** X3 (no write without a token).  If [fetch] changes a row of
    [objects], [multipart_uploads] or [multipart_parts], then the request
    named a bucket and carried either the development token or a token
    that [verifyToken] accepts with a [bucket] claim equal to that bucket.
    A request with no credentials, with a malformed, undecodable or
    rejected token, or with a token for another bucket changes no table,
    whether it is answered or [fetch] throws. *)
Theorem tables_change_only_when_authorized {rt : Runtime}
        (req : request) (s : store) :
  ~ same_tables s (state_after (fetch req) s) -> authorized req.
Proof.
  intros Hch.
  destruct (is_upgrade req) eqn:Hu.
  { exfalso. apply Hch. rewrite fetch_upgrade by exact Hu. repeat split. }
  destruct (request_bucket req) as [bucket|] eqn:Hb.
  2:{ exfalso. apply Hch. unfold state_after.
      rewrite fetch_no_bucket by assumption. apply same_tables_refl. }
  destruct (request_token req) as [token|] eqn:Ht.
  2:{ exfalso. apply Hch. unfold state_after.
      destruct (fetch_no_token req bucket Hu Hb Ht s) as [m ->].
      apply same_tables_refl. }
  exists bucket, token. split; [exact Hb|]. split; [exact Ht|].
  destruct (str_eqb token (js "foo")) eqn:Hfoo.
  { left. now apply str_eqb_eq. }
  right.
  assert (Hno : (forall claims, verifyToken token fetch_secrets = Some claims ->
                                t_bucket claims <> Some (JStr bucket)) -> False).
  { intros Hv. apply Hch. rewrite (fetch_token req bucket token Hu Hb Ht).
    rewrite fetch_with_token_refuses by assumption. apply same_tables_refl. }
  destruct (verifyToken token fetch_secrets) as [claims|] eqn:Hv.
  - exists claims. split; [reflexivity|].
    destruct (bucket_claim_dec claims bucket) as [E|E]; [exact E|].
    exfalso. apply Hno. intros c Hc. congruence.
  - exfalso. apply Hno. discriminate.
Qed.

Lemma tables_change_only_when_authorized_witness :
  ~ same_tables empty_store (state_after (@fetch demo_runtime demo_put) empty_store)
  /\ @authorized demo_runtime demo_put.
Proof.
  assert (H : ~ same_tables empty_store
                  (state_after (@fetch demo_runtime demo_put) empty_store)).
  { intros [H _]. vm_compute in H. discriminate. }
  split; [exact H|].
  exact (@tables_change_only_when_authorized demo_runtime demo_put empty_store H).
Defined.

(** X4 (a token is good for one bucket).  A request whose token has
    three segments, of which the second decodes ([atob], then
    [JSON.parse]) to a payload with a truthy [sub], and which
    [verifyToken] accepts with a [bucket] claim other than the bucket of
    the path, is answered 403 Forbidden; the store is as it was and
    nothing is broadcast.  (A token that [verifyToken] would accept but
    whose second segment [atob] does not decode never reaches this
    answer: [fetch] throws before, see
    [fetch_with_token_undecodable].) *)
Theorem token_for_another_bucket_is_refused {rt : Runtime}
        (req : request) (bucket token header payload signature decoded : jsstring)
        (payloadJson : json) (claims : S3TokenPayload) (s : store) :
  is_upgrade req = false ->
  request_bucket req = Some bucket ->
  request_token req = Some token ->
  str_eqb token (js "foo") = false ->
  split_on dot token = [header; payload; signature] ->
  atob payload = Some decoded ->
  JSON_parse decoded = Some payloadJson ->
  sub_truthy payloadJson = Returned true ->
  verifyToken token fetch_secrets = Some claims ->
  t_bucket claims <> Some (JStr bucket) ->
  fetch req s
  = (Returned (errorResponse (js "Forbidden")
                             (js "Token not valid for this bucket") 403), s).
Proof.
  intros Hu Hb Ht Hfoo Hparts Ha Hj Hsub Hv Hne.
  rewrite (fetch_token req bucket token Hu Hb Ht).
  unfold fetch_with_token. rewrite Hfoo, Hparts. cbv zeta.
  change (negb (len [header; payload; signature] =? 3)) with false. cbv iota.
  cbn [nth]. rewrite Ha, Hj. unfold bind, ret, lift. rewrite Hsub.
  cbn [negb].
  change [or_default S3_JWT_SECRET (js "demo-secret-change-in-production")]
    with fetch_secrets.
  rewrite Hv.
  destruct (t_bucket claims) as [[| | |b| |]|]; try reflexivity.
  destruct (str_eqb b bucket) eqn:Eb; [|reflexivity].
  apply str_eqb_eq in Eb. subst b. now destruct Hne.
Qed.

Lemma token_for_another_bucket_is_refused_witness :
  request_bucket demo_signed_elsewhere = Some (js "c")
  /\ request_token demo_signed_elsewhere = Some demo_token
  /\ @verifyToken demo_runtime demo_token (@fetch_secrets demo_runtime)
     = Some {| t_sub := Some (JStr (js "t")); t_bucket := Some (JStr (js "b"));
               t_exp := None; t_iat := None |}
  /\ @fetch demo_runtime demo_signed_elsewhere (@serve demo_runtime [demo_put])
     = (Returned (errorResponse (js "Forbidden")
                                (js "Token not valid for this bucket") 403),
        @serve demo_runtime [demo_put]).
Proof.
  split; [reflexivity|]. split; [reflexivity|]. split; [reflexivity|].
  apply (@token_for_another_bucket_is_refused demo_runtime
           demo_signed_elsewhere (js "c") demo_token (js "e30")
           (js "eyJzdWIiOiJ0IiwiYnVja2V0IjoiYiJ9") (js "c2ln")
           _ (JObj demo_claims) _ _
           eq_refl eq_refl eq_refl eq_refl eq_refl eq_refl eq_refl eq_refl
           eq_refl).
  discriminate.
Defined.

(** X5 (the development token).  A request whose token is ["foo"] is
    handed to [handleRequest] for whatever bucket its path names, without
    [verifyToken] being consulted, and no event is broadcast for it: the
    subscribers and the messages delivered are as before. *)
Theorem development_token_is_served_unverified {rt : Runtime}
        (req : request) (bucket : jsstring) (s : store) :
  is_upgrade req = false ->
  request_bucket req = Some bucket ->
  request_token req = Some (js "foo") ->
  let s' := state_after (fetch req) s in
  fetch req s
  = (key <- lift (extract_key bucket req) ;;
     handleRequest bucket key (method req) req) s
  /\ sent s' = sent s
  /\ webSocketClients s' = webSocketClients s.
Proof.
  intros Hu Hb Ht s'. subst s'.
  rewrite (fetch_token req bucket (js "foo") Hu Hb Ht).
  unfold fetch_with_token.
  change (str_eqb (js "foo") (js "foo")) with true. cbv iota zeta.
  split; [reflexivity|].
  assert (H : steady same_sockets
                (key <- lift (extract_key bucket req) ;;
                 handleRequest bucket key (method req) req)).
  { apply steady_bind_lift; [apply same_sockets_refl|].
    intros key _. apply handleRequest_same_sockets. }
  destruct (H s) as (H1 & _ & H3). split; assumption.
Qed.

Lemma development_token_is_served_unverified_witness :
  request_token demo_put = Some (js "foo")
  /\ sent (state_after (@fetch demo_runtime demo_put)
                       (@serve demo_runtime [demo_upgrade]))
     = sent (@serve demo_runtime [demo_upgrade])
  /\ objects (state_after (@fetch demo_runtime demo_put)
                          (@serve demo_runtime [demo_upgrade])) <> [].
Proof.
  split; [reflexivity|]. split.
  - exact (proj1 (proj2
      (@development_token_is_served_unverified demo_runtime demo_put (js "b")
         (@serve demo_runtime [demo_upgrade]) eq_refl eq_refl eq_refl))).
  - vm_compute. discriminate.
Defined.

(** X6 (the two forms of the Authorization header).  The header
    [AWS4-HMAC-SHA256 Credential=<token>/...], for a non-empty token
    without ["/"] and [","], yields that token, and [fetch] then does
    exactly what it does for the header [Bearer <token>]. *)
Theorem aws_credential_is_the_token {rt : Runtime}
        (req : request) (token rest : jsstring) :
  nonempty token = true ->
  Forall (fun c => c <> slash /\ c <> 44%N) token ->
  let aws := with_authorization req
               (Some (js "AWS4-HMAC-SHA256 Credential=" ++ token
                      ++ js "/" ++ rest)) in
  let bearer := with_authorization req (Some (js "Bearer " ++ token)) in
  request_token aws = Some token
  /\ request_token bearer = Some token
  /\ forall s, fetch aws s = fetch bearer s.
Proof.
  intros Hne Htok aws bearer.
  assert (Haws : request_token aws = Some token).
  { unfold request_token, aws. cbn [h_Authorization with_authorization].
    change (js "AWS4-HMAC-SHA256 Credential=" ++ token ++ js "/" ++ rest)
      with (js "AWS4-HMAC-SHA256 " ++ js "Credential=" ++ token
            ++ slash :: rest).
    cbn -[take_credential slice_from].
    change (slice_from (67%N :: 114%N :: 101%N :: 100%N :: 101%N :: 110%N
                        :: 116%N :: 105%N :: 97%N :: 108%N :: 61%N
                        :: token ++ slash :: rest) 11)
      with (slice_from (js "Credential=" ++ token ++ slash :: rest)
                       (len (js "Credential="))).
    rewrite slice_from_app, take_credential_app by exact Htok.
    replace (startsWith (token ++ slash :: rest) []) with true
      by (destruct token; reflexivity).
    now rewrite Hne. }
  assert (Hbearer : request_token bearer = Some token).
  { unfold request_token, bearer. cbn [h_Authorization with_authorization].
    cbn -[slice_from].
    change (slice_from (66%N :: 101%N :: 97%N :: 114%N :: 101%N :: 114%N
                        :: 32%N :: token) 7)
      with (slice_from (js "Bearer " ++ token) (len (js "Bearer "))).
    rewrite slice_from_app. now destruct token. }
  split; [exact Haws|]. split; [exact Hbearer|].
  intros s.
  destruct (is_upgrade req) eqn:Hu.
  { rewrite (fetch_upgrade aws Hu), (fetch_upgrade bearer Hu). reflexivity. }
  destruct (request_bucket req) as [bucket|] eqn:Hb.
  - rewrite (fetch_token aws bucket token Hu Hb Haws).
    rewrite (fetch_token bearer bucket token Hu Hb Hbearer).
    reflexivity.
  - rewrite (fetch_no_bucket aws s Hu Hb), (fetch_no_bucket bearer s Hu Hb).
    reflexivity.
Qed.

Lemma aws_credential_is_the_token_witness :
  request_token
    (with_authorization demo_get
       (Some (js "AWS4-HMAC-SHA256 Credential=" ++ demo_token
              ++ js "/" ++ js "20231201/auto/s3/aws4_request, SignedHeaders=host")))
  = Some demo_token.
Proof.
  refine (proj1 (@aws_credential_is_the_token demo_runtime demo_get demo_token
                   (js "20231201/auto/s3/aws4_request, SignedHeaders=host")
                   eq_refl _)).
  repeat constructor; discriminate.
Defined.

(** X7 (verifyToken and the rotation of secrets).  [verifyToken]
    accepts a token exactly when [jwtVerify] accepts it under one of the
    secrets with a payload whose [sub] and [bucket] are truthy; the claims
    that it returns have a truthy [sub] and a truthy [bucket].  With no
    secret it accepts nothing. *)
Theorem verifyToken_accepts {rt : Runtime} (token : jsstring)
        (secrets : list jsstring) :
  ((exists claims, verifyToken token secrets = Some claims)
   <-> exists secret payload,
         In secret secrets
         /\ jwtVerify token secret = Some payload
         /\ truthy (json_field payload (js "sub")) = true
         /\ truthy (json_field payload (js "bucket")) = true)
  /\ (forall claims, verifyToken token secrets = Some claims ->
        truthy (t_sub claims) = true /\ truthy (t_bucket claims) = true)
  /\ verifyToken token [] = None.
Proof.
  split; [|split; [|reflexivity]].
  - induction secrets as [|secret rest IH]; cbn [verifyToken].
    + split; [intros [c H]; discriminate|intros (x & p & [] & _)].
    + destruct (jwtVerify token secret) as [payload|] eqn:Hj.
      * destruct (truthy (json_field payload (js "sub"))) eqn:Hs;
          destruct (truthy (json_field payload (js "bucket"))) eqn:Hb;
          cbn [negb orb].
        -- split; [|eexists; reflexivity].
           intros _. exists secret, payload. cbn [In]. auto.
        -- rewrite IH. split.
           ++ intros (x & p & Hin & H). exists x, p. cbn [In]. auto.
           ++ intros (x & p & [<-|Hin] & Hx & Hs' & Hb').
              ** rewrite Hj in Hx. injection Hx as <-. congruence.
              ** exists x, p. auto.
        -- rewrite IH. split.
           ++ intros (x & p & Hin & H). exists x, p. cbn [In]. auto.
           ++ intros (x & p & [<-|Hin] & Hx & Hs' & Hb').
              ** rewrite Hj in Hx. injection Hx as <-. congruence.
              ** exists x, p. auto.
        -- rewrite IH. split.
           ++ intros (x & p & Hin & H). exists x, p. cbn [In]. auto.
           ++ intros (x & p & [<-|Hin] & Hx & Hs' & Hb').
              ** rewrite Hj in Hx. injection Hx as <-. congruence.
              ** exists x, p. auto.
      * rewrite IH. split.
        -- intros (x & p & Hin & H). exists x, p. cbn [In]. auto.
        -- intros (x & p & [<-|Hin] & Hx & Hrest).
           ++ congruence.
           ++ exists x, p. auto.
  - induction secrets as [|secret rest IH]; cbn [verifyToken];
      intros claims H; [discriminate|].
    destruct (jwtVerify token secret) as [payload|]; [|now apply IH].
    destruct (truthy (json_field payload (js "sub"))) eqn:Hs;
      destruct (truthy (json_field payload (js "bucket"))) eqn:Hb;
      cbn [negb orb] in H; try (now apply IH).
    injection H as <-. cbn [t_sub t_bucket]. auto.
Qed.

(** X8 (a path without a bucket).  A request that is not an upgrade
    and whose path holds no unit other than ["/"] is answered 404
    NoSuchBucket, before its credentials are looked at; the store is as
    it was. *)
Theorem path_without_bucket {rt : Runtime} (req : request) (s : store) :
  is_upgrade req = false ->
  Forall (fun c => c = slash) (pathname req) ->
  fetch req s
  = (Returned (errorResponse (js "NoSuchBucket") (js "No bucket specified") 404),
     s).
Proof.
  intros Hu Hp. apply fetch_no_bucket; [exact Hu|].
  unfold request_bucket. now rewrite only_slashes_no_bucket.
Qed.

Lemma path_without_bucket_witness :
  @fetch demo_runtime (with_authorization (demo_request "GET" "//" [] []) None)
         empty_store
  = (Returned (errorResponse (js "NoSuchBucket") (js "No bucket specified") 404),
     empty_store).
Proof.
  apply (@path_without_bucket demo_runtime
           (with_authorization (demo_request "GET" "//" [] []) None)
           empty_store eq_refl).
  repeat constructor.
Defined.

(** X9 (deletion).  [deleteObject] answers 204 whether or not the key
    holds an object; afterwards no row of the object is left, GET and
    HEAD on the key answer 404 NoSuchKey, and the rows of every other
    object and of the multipart tables are as before. *)
Theorem deleteObject_removes_object {rt : Runtime}
        (s : store) (bucket key : jsstring) :
  let s' := state_after (deleteObject bucket key) s in
  result_of (deleteObject bucket key) s
  = Returned {| status := 204; resp_headers := no_headers; resp_body := NoBody |}
  /\ object_rows s' bucket key = []
  /\ (forall headOnly,
        getObject bucket key headOnly s'
        = (Returned (errorResponse (js "NoSuchKey")
                       (js "The specified key does not exist.") 404), s'))
  /\ (forall bucket' key', (bucket', key') <> (bucket, key) ->
        object_rows s' bucket' key' = object_rows s bucket' key')
  /\ multipart_uploads s' = multipart_uploads s
  /\ multipart_parts s' = multipart_parts s.
Proof.
  intros s'. subst s'. unfold result_of, state_after.
  rewrite deleteObject_run. cbn [fst snd].
  assert (Hrows : object_rows
                    (with_objects s
                       (filter (fun r => negb (object_at bucket key r)) (objects s)))
                    bucket key = []).
  { unfold object_rows. cbn [objects with_objects]. apply filter_delete_same. }
  split; [reflexivity|]. split; [exact Hrows|]. split; [|split].
  - intros h. now apply getObject_absent.
  - intros b k Hne. unfold object_rows. cbn [objects with_objects].
    apply filter_delete_other. intros r Hr.
    now apply (object_at_other bucket key b k r).
  - split; reflexivity.
Qed.

(** X10 (the metadata of a stored object).  After [putObject], GET and
    HEAD on the key answer 200 with the [ETag] that the PUT returned (the
    quoted MD5 of the body), the [Content-Type] of the PUT request, or
    [application/octet-stream] when the request had none or an empty one,
    and the time of the PUT as [Last-Modified]. *)
Theorem putObject_metadata {rt : Runtime}
        (s : store) (bucket key : jsstring) (req : request) :
  let s' := state_after (putObject bucket key req) s in
  let hs := {| ContentType :=
                 Some (or_default (h_content_type req)
                                  (js "application/octet-stream"));
               ContentLength := Some (number_toString (len (arrayBuffer req)));
               ETag := Some (quoted (MD5_hex (arrayBuffer req)));
               LastModified := Some (toUTCString (now req)) |} in
  (exists put_response,
     result_of (putObject bucket key req) s = Returned put_response
     /\ ETag (resp_headers put_response) = ETag hs)
  /\ result_of (getObject bucket key false) s'
     = Returned {| status := 200; resp_headers := hs;
                   resp_body := Binary (arrayBuffer req) |}
  /\ result_of (getObject bucket key true) s'
     = Returned {| status := 200; resp_headers := hs; resp_body := NoBody |}.
Proof.
  intros s' hs. split.
  { unfold result_of. rewrite putObject_run. eexists. split; reflexivity. }
  pose proof (putObject_rows bucket key req s) as Hrows. fold s' in Hrows.
  unfold put_rows in Hrows.
  destruct (getObject_run s' bucket key _ _ Hrows) as [Hget Hhead].
  - fold (put_rows bucket key req). rewrite put_rows_indices.
    f_equal. rewrite number_rows_length. unfold chunks_of. reflexivity.
  - fold (put_rows bucket key req). rewrite put_rows_data, chunks_of_concat.
    reflexivity.
  - fold (put_rows bucket key req) in Hget.
    rewrite put_rows_data, chunks_of_concat in Hget.
    unfold result_of. rewrite Hget, Hhead. split; reflexivity.
Qed.

(** X11 (GET and HEAD agree).  In every reachable state and for every
    key: either the key holds no object, and GET and HEAD both answer 404
    NoSuchKey; or GET answers 200 with a body of which [Content-Length]
    is the length, and HEAD answers 200 with the same headers and no
    body.  Neither answers 500 and neither changes the store. *)
Theorem reachable_get_is_consistent {rt : Runtime}
        (s : store) (bucket key : jsstring) :
  reachable s ->
  (forall headOnly,
     getObject bucket key headOnly s
     = (Returned (errorResponse (js "NoSuchKey")
                    (js "The specified key does not exist.") 404), s))
  \/ exists hs body,
       getObject bucket key false s
       = (Returned {| status := 200; resp_headers := hs;
                      resp_body := Binary body |}, s)
       /\ getObject bucket key true s
          = (Returned {| status := 200; resp_headers := hs;
                         resp_body := NoBody |}, s)
       /\ ContentLength hs = Some (number_toString (len body)).
Proof.
  intros Hr. apply reachable_ok in Hr.
  destruct (object_rows s bucket key) as [|r rest] eqn:Hrows.
  - left. intros h. now apply getObject_absent.
  - right. destruct (getObject_stored s bucket key r rest Hr Hrows)
      as (H1 & H2 & H3).
    eexists _, _. split; [exact H1|]. split; [exact H2|].
    unfold object_headers. cbn [ContentLength]. now rewrite H3.
Qed.

Lemma reachable_get_is_consistent_witness :
  @reachable demo_runtime (@serve demo_runtime [demo_put])
  /\ exists hs,
       @getObject demo_runtime (js "b") (js "k") true
                  (@serve demo_runtime [demo_put])
       = (Returned {| status := 200; resp_headers := hs; resp_body := NoBody |},
          @serve demo_runtime [demo_put])
       /\ ContentLength hs = Some (js "1").
Proof.
  assert (Hr : @reachable demo_runtime (@serve demo_runtime [demo_put]))
    by apply serve_reachable.
  split; [exact Hr|].
  destruct (@reachable_get_is_consistent demo_runtime
              (@serve demo_runtime [demo_put]) (js "b") (js "k") Hr)
    as [Hnone|(hs & body & Hget & Hhead & Hlen)].
  - specialize (Hnone true). vm_compute in Hnone. discriminate.
  - exists hs. split; [exact Hhead|].
    vm_compute in Hget. injection Hget as <- <-. exact Hlen.
Defined.

(** X12 (copy between two keys).  In a reachable state, [copyObject] from
    a key that holds an object to another key of the bucket answers 200
    with the [ETag] of the source; afterwards GET on the source answers
    as before, and GET on the destination answers 200 with the same body,
    [Content-Type], [Content-Length] and [ETag], and with the time of the
    copy as [Last-Modified]. *)
Theorem copyObject_copies_object {rt : Runtime}
        (s : store) (bucket destKey copySource sourceKey : jsstring)
        (req : request) :
  reachable s ->
  copy_source_key bucket copySource = Some sourceKey ->
  sourceKey <> destKey ->
  object_rows s bucket sourceKey <> [] ->
  let s' := state_after (copyObject bucket destKey copySource req) s in
  exists contentType contentLength etag lastModified body,
    let hs := {| ContentType := contentType; ContentLength := contentLength;
                 ETag := Some etag; LastModified := lastModified |} in
    getObject bucket sourceKey false s
    = (Returned {| status := 200; resp_headers := hs;
                   resp_body := Binary body |}, s)
    /\ result_of (copyObject bucket destKey copySource req) s
       = Returned {| status := 200; resp_headers := xml_headers;
                     resp_body := CopyObjectResult (now req) etag |}
    /\ getObject bucket sourceKey false s'
       = (Returned {| status := 200; resp_headers := hs;
                      resp_body := Binary body |}, s')
    /\ getObject bucket destKey false s'
       = (Returned {| status := 200;
                      resp_headers :=
                        {| ContentType := contentType;
                           ContentLength := contentLength;
                           ETag := Some etag;
                           LastModified := Some (toUTCString (now req)) |};
                      resp_body := Binary body |}, s').
Proof.
  intros Hr Hsrc Hne Hex s'. apply reachable_ok in Hr.
  destruct (object_rows s bucket sourceKey) as [|r rest] eqn:Hrows;
    [congruence|]. clear Hex.
  destruct (getObject_stored s bucket sourceKey r rest Hr Hrows)
    as (Hg0 & _ & Hsz).
  destruct Hr as [Ho Hp].
  destruct (Ho bucket sourceKey) as [Hnil|(Hch & _)]; [congruence|].
  rewrite Hrows in Hch. cbn [first_size] in Hch.
  pose proof (copy_from_run s bucket destKey sourceKey req r rest Hrows Hch)
    as Hrun.
  pose proof Hne as Hne'. apply str_eqb_neq in Hne'. rewrite Hne' in Hrun.
  assert (Hcopy : copyObject bucket destKey copySource req s = _)
    by (rewrite (copyObject_copy_from _ _ _ _ _ Hsrc);
        apply try_catch_returned; exact Hrun).
  assert (Hs' : objects s'
                = filter (fun x => negb (object_at bucket destKey x)) (objects s)
                  ++ map (copy_row bucket destKey r (now req)) (r :: rest)).
  { unfold s', state_after. now rewrite Hcopy. }
  destruct Hch as [Hidx Hnon _ Hb]. rewrite length_map in Hidx.
  assert (Hsrc' : object_rows s' bucket sourceKey = r :: rest).
  { unfold object_rows. rewrite Hs', filter_app.
    rewrite filter_delete_other
      by (intros x; apply object_at_other; congruence).
    fold (object_rows s bucket sourceKey). rewrite Hrows.
    rewrite (filter_none _ (map _ _)); [apply app_nil_r|].
    apply Forall_forall. intros x Hx. apply in_map_iff in Hx as (c & <- & _).
    eapply object_at_other; [|apply copy_row_at]. congruence. }
  assert (Hdst' : object_rows s' bucket destKey
                  = map (copy_row bucket destKey r (now req)) (r :: rest)).
  { unfold object_rows. rewrite Hs', filter_app, filter_delete_same. cbn [app].
    apply filter_all. apply Forall_forall. intros x Hx.
    apply in_map_iff in Hx as (c & <- & _). apply copy_row_at. }
  destruct (getObject_run s' bucket sourceKey r rest Hsrc' Hidx Hsz) as [Hg1 _].
  cbn [map] in Hdst'.
  assert (Hdata : map o_data (copy_row bucket destKey r (now req) r
                              :: map (copy_row bucket destKey r (now req)) rest)
                  = map o_data (r :: rest)).
  { change (map o_data (map (copy_row bucket destKey r (now req)) (r :: rest))
            = map o_data (r :: rest)).
    rewrite map_map. apply map_ext. intros; apply copy_row_data. }
  assert (H0 : o_chunk_index r = 0)
    by (cbn [map List.length zseq] in Hidx; congruence).
  destruct (getObject_run s' bucket destKey _ _ Hdst') as [Hg2 _].
  - change (map o_chunk_index (map (copy_row bucket destKey r (now req)) (r :: rest))
            = zseq 0 (S (List.length (map (copy_row bucket destKey r (now req)) rest)))).
    rewrite map_map, length_map.
    rewrite (map_ext _ o_chunk_index) by (intros; apply copy_row_index).
    exact Hidx.
  - rewrite Hdata. unfold copy_row. rewrite H0. simpl o_size. exact Hsz.
  - rewrite Hdata in Hg2.
    exists (Some (o_content_type r)), (Some (number_toString (o_size r))),
           (quoted (o_etag r)), (Some (toUTCString (o_last_modified r))),
           (concat (map o_data (r :: rest))).
    cbv zeta. split; [exact Hg0|]. split.
    { unfold result_of. now rewrite Hcopy. }
    split; [exact Hg1|].
    rewrite Hg2. unfold object_headers, copy_row. rewrite H0. reflexivity.
Qed.

Lemma copyObject_copies_object_witness :
  @reachable demo_runtime (@serve demo_runtime [demo_put])
  /\ @copy_source_key demo_runtime (js "b") (js "/b/k") = Some (js "k")
  /\ exists hs,
       @getObject demo_runtime (js "b") (js "k2") false
         (state_after (@copyObject demo_runtime (js "b") (js "k2") (js "/b/k")
                         (demo_copy "/b/k"))
                      (@serve demo_runtime [demo_put]))
       = (Returned {| status := 200; resp_headers := hs;
                      resp_body := Binary [Byte.x61] |},
          state_after (@copyObject demo_runtime (js "b") (js "k2") (js "/b/k")
                         (demo_copy "/b/k"))
                      (@serve demo_runtime [demo_put])).
Proof.
  assert (Hr : @reachable demo_runtime (@serve demo_runtime [demo_put]))
    by apply serve_reachable.
  split; [exact Hr|]. split; [reflexivity|].
  assert (Hne : js "k" <> js "k2") by discriminate.
  assert (Hex : object_rows (@serve demo_runtime [demo_put]) (js "b") (js "k")
                <> []) by (vm_compute; discriminate).
  destruct (@copyObject_copies_object demo_runtime
              (@serve demo_runtime [demo_put]) (js "b") (js "k2") (js "/b/k")
              (js "k") (demo_copy "/b/k") Hr eq_refl Hne Hex)
    as (ct & cl & etag & lm & body & Hsrc & _ & _ & Hdst).
  vm_compute in Hsrc. injection Hsrc as <- <- <- <- <-.
  eexists. exact Hdst.
Defined.

(** X13 (a copy that is refused).  When [copyObject] answers 400 (a
    source without key, or in another bucket) or 404 (no object at the
    source), the store is as it was: the destination keeps the object
    that it held. *)
Theorem refused_copy_changes_nothing {rt : Runtime}
        (s : store) (bucket destKey copySource : jsstring) (req : request)
        (r : response) :
  result_of (copyObject bucket destKey copySource req) s = Returned r ->
  status r = 400 \/ status r = 404 ->
  state_after (copyObject bucket destKey copySource req) s = s.
Proof.
  unfold result_of, state_after.
  destruct (copyObject bucket destKey copySource req s) as [o s1] eqn:Hrun.
  cbn [fst snd]. intros -> Hst.
  unfold copyObject, try_catch in Hrun. cbv zeta in Hrun.
  destruct (indexOf _ _ =? -1) in Hrun; [now injection Hrun|].
  destruct (decodeURIComponent _) as [sourceKey|] in Hrun.
  2:{ cbn in Hrun. injection Hrun as <- _. cbn in Hst.
      destruct Hst; discriminate. }
  destruct (negb _) in Hrun; [now injection Hrun|].
  unfold bind at 1 in Hrun. unfold select_object_meta, gets in Hrun.
  destruct (filter _ (objects s)) as [|sourceMeta others] in Hrun;
    [now injection Hrun|].
  exfalso. unfold bind, delete_object_rows, modify, select_object_chunks, gets,
    ret in Hrun.
  destruct (for_each _ _ _) as [[[]|e] s2] in Hrun;
    injection Hrun as <- _; cbn in Hst; destruct Hst; discriminate.
Qed.

Lemma refused_copy_changes_nothing_witness :
  state_after (@copyObject demo_runtime (js "b") (js "k2") (js "/b/none")
                 (demo_copy "/b/none"))
              (@serve demo_runtime [demo_put])
  = @serve demo_runtime [demo_put].
Proof.
  apply (@refused_copy_changes_nothing demo_runtime
           (@serve demo_runtime [demo_put]) (js "b") (js "k2") (js "/b/none")
           (demo_copy "/b/none")
           (errorResponse (js "NoSuchKey")
              (js "The specified source key does not exist.") 404)).
  - vm_compute. reflexivity.
  - right. reflexivity.
Defined.

(* ================================================================== *)
(** * Multipart uploads *)

(** X14 (the object of a completed upload).  In a reachable state, for
    a session that has at least one part, [completeMultipartUpload]
    answers 200 with the ETag [<uuid without dashes>-<number of parts>],
    written between double quotes in the [ETag] element of the answer;
    the object is written at the bucket and key of the completing
    request, whatever bucket and key the session was created for.  GET
    on that key then answers 200 with the [Content-Type] given when the
    session was created, the same quoted ETag, the time of the completion
    as [Last-Modified], and a body whose length is the sum of the sizes
    of the parts. *)
Theorem completed_object_metadata {rt : Runtime}
        (s : store) (bucket key uploadId : jsstring) (req : request)
        (upload : upload_row) (others : list upload_row) :
  reachable s ->
  filter (fun r => str_eqb (u_upload_id r) uploadId) (multipart_uploads s)
  = upload :: others ->
  upload_parts s uploadId <> [] ->
  let s' := state_after (completeMultipartUpload bucket key uploadId req) s in
  let etag := remove_dashes (randomUUID req) ++ js "-"
              ++ number_toString (len (upload_parts s uploadId)) in
  result_of (completeMultipartUpload bucket key uploadId req) s
  = Returned {| status := 200; resp_headers := xml_headers;
                resp_body := CompleteMultipartUploadResult bucket key
                               (quoted etag) |}
  /\ (exists body,
        getObject bucket key false s'
        = (Returned {| status := 200;
                       resp_headers :=
                         {| ContentType := Some (u_content_type upload);
                            ContentLength := Some (number_toString (len body));
                            ETag := Some (quoted etag);
                            LastModified := Some (toUTCString (now req)) |};
                       resp_body := Binary body |}, s')
        /\ len body = total_size (upload_parts s uploadId))
  /\ (forall bucket' key', (bucket', key') <> (bucket, key) ->
        object_rows s' bucket' key' = object_rows s bucket' key').
Proof.
  intros Hr Hup Hparts s' etag. apply reachable_ok in Hr.
  pose proof (completeMultipartUpload_run bucket key uploadId req s upload
                others Hup Hparts) as Hrun.
  assert (Hs' : s' = completed_store s bucket key uploadId req
                       (u_content_type upload)).
  { unfold s', state_after. now rewrite Hrun. }
  split; [unfold result_of; now rewrite Hrun|].
  assert (Hok : parts_ok_at s uploadId) by (intros n; apply Hr).
  split.
  - destruct (completed_chunked s bucket key uploadId req
                (u_content_type upload) Hok Hparts)
      as (Hdata & [Hd Hne Hsz Hb] & r & rest & Hrows & _).
    rewrite <- Hs' in Hdata, Hd, Hne, Hsz, Hb, Hrows.
    rewrite Hrows in *. rewrite length_map in Hd. cbn [first_size] in Hsz.
    destruct (getObject_run s' bucket key r rest Hrows Hd Hsz) as [Hget _].
    destruct (assembled_total s uploadId Hok (upload_parts s uploadId))
      as (Htot & _ & _); [apply incl_refl|].
    assert (Hfirst : object_headers r
                     = {| ContentType := Some (u_content_type upload);
                          ContentLength :=
                            Some (number_toString
                                    (len (concat (map o_data (r :: rest)))));
                          ETag := Some (quoted etag);
                          LastModified := Some (toUTCString (now req)) |}).
    { pose proof (completed_rows s bucket key uploadId req
                    (u_content_type upload)) as Hcr.
      rewrite <- Hs', Hrows in Hcr.
      destruct (assembled_chunks s uploadId (upload_parts s uploadId))
        as [|d ds]; [discriminate|].
      cbn [number_rows] in Hcr. injection Hcr as Hr0 _.
      unfold object_headers. rewrite <- Hsz. rewrite Hr0.
      unfold complete_row. cbn. reflexivity. }
    rewrite Hfirst in Hget.
    eexists. split; [exact Hget|]. rewrite Hdata. now rewrite Htot.
  - intros b k Hne. rewrite Hs'. now apply completed_other_rows.
Qed.

Lemma completed_object_metadata_witness :
  let s := @serve demo_runtime (firstn 3 two_small_parts) in
  let uploadId := js "123e4567-e89b-12d3-a456-426614174000" in
  @reachable demo_runtime s
  /\ upload_parts s uploadId <> []
  /\ result_of (completeMultipartUpload (js "b") (js "k") uploadId
                  demo_complete) s
     = Returned {| status := 200; resp_headers := xml_headers;
                   resp_body :=
                     CompleteMultipartUploadResult (js "b") (js "k")
                       (quoted (js "123e4567e89b12d3a456426614174000-2")) |}.
Proof.
  intros s uploadId.
  assert (Hr : @reachable demo_runtime s) by apply serve_reachable.
  assert (Hp : upload_parts s uploadId <> []) by (vm_compute; discriminate).
  split; [exact Hr|]. split; [exact Hp|].
  exact (proj1 (@completed_object_metadata demo_runtime s (js "b") (js "k")
                  uploadId demo_complete
                  {| u_upload_id := uploadId; u_bucket := js "b";
                     u_key := js "k";
                     u_created_at := js "2024-01-01T00:00:00.000Z";
                     u_content_type := js "application/octet-stream" |} []
                  Hr eq_refl Hp)).
Defined.

(** X15 (a completed upload is gone).  After a
    [completeMultipartUpload] that found the session and at least one
    part, no row of [multipart_uploads] and none of [multipart_parts]
    carries the upload identifier, the rows of the other uploads are as
    before, and a second [completeMultipartUpload] for the identifier
    answers 404 NoSuchUpload and changes nothing. *)
Theorem completed_upload_is_gone
        (s : store) (bucket key uploadId : jsstring) (req : request)
        (upload : upload_row) (others : list upload_row) :
  filter (fun r => str_eqb (u_upload_id r) uploadId) (multipart_uploads s)
  = upload :: others ->
  upload_parts s uploadId <> [] ->
  let s' := state_after (completeMultipartUpload bucket key uploadId req) s in
  fresh_upload_id s' uploadId
  /\ (forall r, u_upload_id r <> uploadId ->
        (In r (multipart_uploads s') <-> In r (multipart_uploads s)))
  /\ (forall r, p_upload_id r <> uploadId ->
        (In r (multipart_parts s') <-> In r (multipart_parts s)))
  /\ (forall bucket' key' req',
        completeMultipartUpload bucket' key' uploadId req' s'
        = (Returned (errorResponse (js "NoSuchUpload")
                       (js "The specified upload does not exist") 404), s')).
Proof.
  intros Hup Hparts s'.
  pose proof (completeMultipartUpload_run bucket key uploadId req s upload
                others Hup Hparts) as Hrun.
  assert (Hu : multipart_uploads s'
               = filter (fun r => negb (str_eqb (u_upload_id r) uploadId))
                        (multipart_uploads s)).
  { unfold s', state_after. now rewrite Hrun. }
  assert (Hp : multipart_parts s'
               = filter (fun r => negb (str_eqb (p_upload_id r) uploadId))
                        (multipart_parts s)).
  { unfold s', state_after. now rewrite Hrun. }
  split; [|split; [|split]].
  - split; intros r Hin Heq.
    + rewrite Hu in Hin. apply filter_In in Hin as [_ Hin].
      rewrite Heq, str_eqb_refl in Hin. discriminate.
    + rewrite Hp in Hin. apply filter_In in Hin as [_ Hin].
      rewrite Heq, str_eqb_refl in Hin. discriminate.
  - intros r Hne. rewrite Hu, filter_In. apply str_eqb_neq in Hne.
    rewrite Hne. cbn. tauto.
  - intros r Hne. rewrite Hp, filter_In. apply str_eqb_neq in Hne.
    rewrite Hne. cbn. tauto.
  - intros b k req'. apply completeMultipartUpload_no_session.
    rewrite Hu. apply filter_delete_same.
Qed.

Lemma completed_upload_is_gone_witness :
  let uploadId := js "123e4567-e89b-12d3-a456-426614174000" in
  upload_parts (@serve demo_runtime (firstn 3 two_small_parts)) uploadId <> []
  /\ completeMultipartUpload (js "b") (js "k") uploadId
       demo_complete (@serve demo_runtime two_small_parts)
     = (Returned (errorResponse (js "NoSuchUpload")
                    (js "The specified upload does not exist") 404),
        @serve demo_runtime two_small_parts).
Proof.
  intros uploadId.
  assert (Hp : upload_parts (@serve demo_runtime (firstn 3 two_small_parts))
                            uploadId <> []) by (vm_compute; discriminate).
  split; [exact Hp|].
  exact (proj2 (proj2 (proj2
    (completed_upload_is_gone
       (@serve demo_runtime (firstn 3 two_small_parts)) (js "b") (js "k")
       uploadId (nth 3 two_small_parts demo_get)
       {| u_upload_id := uploadId; u_bucket := js "b"; u_key := js "k";
          u_created_at := js "2024-01-01T00:00:00.000Z";
          u_content_type := js "application/octet-stream" |} []
       eq_refl Hp))) (js "b") (js "k") demo_complete).
Defined.

(** X16 (abort).  [abortMultipartUpload] answers 204 whether or not the
    upload exists.  Afterwards no session and no part carries the
    identifier, so that [completeMultipartUpload] for it answers 404
    NoSuchUpload; the objects and the rows of the other uploads are as
    before. *)
Theorem abortMultipartUpload_discards
        (s : store) (uploadId : jsstring) :
  let s' := state_after (abortMultipartUpload uploadId) s in
  result_of (abortMultipartUpload uploadId) s
  = Returned {| status := 204; resp_headers := no_headers; resp_body := NoBody |}
  /\ fresh_upload_id s' uploadId
  /\ objects s' = objects s
  /\ (forall r, u_upload_id r <> uploadId ->
        (In r (multipart_uploads s') <-> In r (multipart_uploads s)))
  /\ (forall r, p_upload_id r <> uploadId ->
        (In r (multipart_parts s') <-> In r (multipart_parts s)))
  /\ (forall bucket key req,
        completeMultipartUpload bucket key uploadId req s'
        = (Returned (errorResponse (js "NoSuchUpload")
                       (js "The specified upload does not exist") 404), s')).
Proof.
  intros s'.
  assert (Hu : multipart_uploads s'
               = filter (fun r => negb (str_eqb (u_upload_id r) uploadId))
                        (multipart_uploads s)) by reflexivity.
  assert (Hp : multipart_parts s'
               = filter (fun r => negb (str_eqb (p_upload_id r) uploadId))
                        (multipart_parts s)) by reflexivity.
  split; [reflexivity|]. split; [|split; [reflexivity|split; [|split]]].
  - split; intros r Hin Heq.
    + rewrite Hu in Hin. apply filter_In in Hin as [_ Hin].
      rewrite Heq, str_eqb_refl in Hin. discriminate.
    + rewrite Hp in Hin. apply filter_In in Hin as [_ Hin].
      rewrite Heq, str_eqb_refl in Hin. discriminate.
  - intros r Hne. rewrite Hu, filter_In. apply str_eqb_neq in Hne.
    rewrite Hne. cbn. tauto.
  - intros r Hne. rewrite Hp, filter_In. apply str_eqb_neq in Hne.
    rewrite Hne. cbn. tauto.
  - intros b k req. apply completeMultipartUpload_no_session.
    rewrite Hu. apply filter_delete_same.
Qed.

(** X17 (an upload that cannot be completed).  When no part has been
    uploaded for the identifier, [completeMultipartUpload] answers 404
    NoSuchUpload if there is no session and 400 InvalidPart if there is
    one; in both cases the store is as it was: the session stays open,
    and an object that the key holds is not deleted. *)
Theorem upload_without_parts_is_not_completed
        (s : store) (bucket key uploadId : jsstring) (req : request) :
  upload_parts s uploadId = [] ->
  completeMultipartUpload bucket key uploadId req s
  = (Returned
       (if existsb (fun r => str_eqb (u_upload_id r) uploadId)
                   (multipart_uploads s)
        then errorResponse (js "InvalidPart") (js "No parts were uploaded") 400
        else errorResponse (js "NoSuchUpload")
                           (js "The specified upload does not exist") 404),
     s).
Proof.
  intros Hparts.
  destruct (filter (fun r => str_eqb (u_upload_id r) uploadId)
                   (multipart_uploads s)) as [|upload others] eqn:Hup.
  - rewrite (completeMultipartUpload_no_session _ _ _ _ _ Hup).
    replace (existsb _ _) with false; [reflexivity|].
    symmetry. apply not_true_is_false. intros H.
    apply existsb_exists in H as (x & Hx & Hxe).
    assert (Hin : In x []) by (rewrite <- Hup; apply filter_In; auto).
    destruct Hin.
  - rewrite (completeMultipartUpload_no_parts _ _ _ _ _ _ _ Hup Hparts).
    replace (existsb _ _) with true; [reflexivity|].
    symmetry. apply existsb_exists. exists upload.
    assert (Hin : In upload (upload :: others)) by now left.
    rewrite <- Hup in Hin. apply filter_In in Hin. exact Hin.
Qed.

Lemma upload_without_parts_is_not_completed_witness :
  completeMultipartUpload (js "b") (js "k")
     (js "123e4567-e89b-12d3-a456-426614174000") demo_complete
     (@serve demo_runtime [demo_put; demo_create])
  = (Returned (errorResponse (js "InvalidPart") (js "No parts were uploaded") 400),
     @serve demo_runtime [demo_put; demo_create]).
Proof.
  exact (upload_without_parts_is_not_completed
           (@serve demo_runtime [demo_put; demo_create]) (js "b") (js "k")
           (js "123e4567-e89b-12d3-a456-426614174000") demo_complete eq_refl).
Defined.

(** X18 (paging through a bucket).  In a reachable state whose keys are
    well-formed strings, for a well-formed prefix that does not end in
    0xD7FF, 0xDFFF or 0xFFFF and a [max-keys] from 0 up to the greatest
    safe integer (2^53 - 1) excluded, let [K] be the keys of the bucket
    that start with the prefix, in the order of their code points (the
    order of their UTF-8 bytes); [K] holds each of these keys once.
    [listObjectsV2] without delimiter and without marker answers 200 with
    the first [max-keys] keys of [K], in that order, and is truncated
    exactly when [K] holds more.  When it returns a continuation token,
    the same request with that token answers 200 with the next
    [max-keys] keys of [K]: no key is skipped and none is repeated. *)
Theorem plain_listing_pages {rt : Runtime}
        (s : store) (bucket : jsstring) (params : list (jsstring * jsstring))
        (maxKeys : Z) :
  let prefix := or_default (params_get params (js "prefix")) [] in
  let K := keys_with_prefix s bucket prefix in
  reachable s ->
  Forall (fun k => well_formed k = true) (bucket_keys s bucket) ->
  well_formed prefix = true ->
  literal_prefix prefix = true ->
  or_default (params_get params (js "delimiter")) [] = [] ->
  or_default (params_get params (js "start-after")) [] = [] ->
  or_default (params_get params (js "continuation-token")) [] = [] ->
  parseInt (or_default (params_get params (js "max-keys")) (js "1000"))
  = Some maxKeys ->
  0 <= maxKeys < MAX_SAFE_INTEGER ->
  StronglySorted (fun a b => cp_leb a b = true) K
  /\ NoDup K
  /\ (forall k, In k K
        <-> In k (bucket_keys s bucket) /\ startsWith k prefix = true)
  /\ exists page,
       listObjectsV2 bucket params s
       = (Returned {| status := 200; resp_headers := xml_headers;
                      resp_body := ListBucketResult page |}, s)
       /\ map c_Key (l_Contents page) = firstn (Z.to_nat maxKeys) K
       /\ l_CommonPrefixes page = []
       /\ l_IsTruncated page = (maxKeys <? len K)
       /\ forall token,
            l_NextContinuationToken page = Some token ->
            exists next,
              listObjectsV2 bucket ((js "continuation-token", token) :: params) s
              = (Returned {| status := 200; resp_headers := xml_headers;
                             resp_body := ListBucketResult next |}, s)
              /\ map c_Key (l_Contents next)
                 = firstn (Z.to_nat maxKeys) (skipn (Z.to_nat maxKeys) K)
              /\ l_IsTruncated next = (maxKeys + maxKeys <? len K).
Proof.
  intros prefix K Hr Hwf Hwp Hlit Hd Hsa Hct Hm Hm0. apply reachable_ok in Hr.
  assert (HK : K = keys_in_range s bucket prefix)
    by (symmetry; now apply keys_in_range_starts).
  clearbody K. subst K. set (K := keys_in_range s bucket prefix).
  assert (HIn : forall k, In k K
                  <-> In k (bucket_keys s bucket) /\ startsWith k prefix = true).
  { intros k. unfold K. rewrite keys_in_range_In.
    now rewrite in_prefix_range_starts. }
  assert (Hsorted : StronglySorted (fun a b => cp_leb a b = true) K).
  { apply (StronglySorted_ext_in (fun a b => str_leb a b = true));
      [|apply sort_by_keys_sorted].
    rewrite Forall_forall in Hwf. intros x y Hx Hy.
    apply HIn in Hx as [Hx _]. apply HIn in Hy as [Hy _].
    now rewrite str_leb_cp_leb by auto. }
  assert (Hnd : NoDup K) by now apply keys_in_range_NoDup.
  split; [exact Hsorted|]. split; [exact Hnd|].
  split; [exact HIn|].
  destruct (list_plain_window bucket prefix [] [] maxKeys s Hm0)
    as (objs & tok & Hrun & Hkeys & Htok).
  rewrite (filter_all (after_marker [] [])) in Hrun, Hkeys, Htok
    by (apply Forall_forall; intros; apply after_marker_none).
  fold K in Hrun, Hkeys, Htok.
  eexists. split.
  { unfold listObjectsV2, try_catch. cbv zeta. rewrite Hd, Hsa, Hct, Hm.
    fold prefix. change (str_eqb [] (js "/")) with false. cbn [nonempty].
    unfold bind. rewrite Hrun. unfold ret. reflexivity. }
  cbn [l_Contents l_CommonPrefixes l_IsTruncated l_NextContinuationToken].
  split; [now rewrite map_map|]. split; [reflexivity|]. split; [reflexivity|].
  intros token Htoken.
  destruct (nonempty tok && (maxKeys <? len K)) eqn:E; [|discriminate].
  injection Htoken as ->. apply andb_true_iff in E as [Hne Htr].
  rewrite Htr in Htok.
  destruct (last_opt (firstn (Z.to_nat maxKeys) K)) as [k|] eqn:Hlast;
    [|subst; discriminate].
  subst k. apply Z.ltb_lt in Htr.
  assert (Hfilter : filter (after_marker token []) K = skipn (Z.to_nat maxKeys) K).
  { rewrite (filter_ext _ (str_ltb token))
      by (intros; now apply after_marker_token).
    rewrite <- (firstn_skipn (Z.to_nat maxKeys) K) at 1.
    apply (filter_above_last str_leb str_leb_total str_leb_antisym).
    - intros a b. apply str_ltb_leb.
    - rewrite firstn_skipn. apply sort_by_keys_sorted.
    - now rewrite firstn_skipn.
    - exact Hlast. }
  destruct (list_plain_window bucket prefix token [] maxKeys s Hm0)
    as (objs2 & tok2 & Hrun2 & Hkeys2 & _).
  fold K in Hrun2, Hkeys2. rewrite Hfilter in Hrun2, Hkeys2.
  eexists. split.
  { unfold listObjectsV2, try_catch. cbv zeta.
    change (params_get ((js "continuation-token", token) :: params)
                       (js "delimiter"))
      with (params_get params (js "delimiter")).
    change (params_get ((js "continuation-token", token) :: params)
                       (js "prefix"))
      with (params_get params (js "prefix")).
    change (params_get ((js "continuation-token", token) :: params)
                       (js "max-keys"))
      with (params_get params (js "max-keys")).
    change (params_get ((js "continuation-token", token) :: params)
                       (js "start-after"))
      with (params_get params (js "start-after")).
    change (params_get ((js "continuation-token", token) :: params)
                       (js "continuation-token"))
      with (Some token).
    rewrite Hd, Hsa, Hm. fold prefix.
    replace (or_default (Some token) []) with token
      by (unfold or_default, str_or; now rewrite Hne).
    change (str_eqb [] (js "/")) with false. cbn [nonempty].
    unfold bind. rewrite Hrun2. unfold ret. reflexivity. }
  cbn [l_Contents l_IsTruncated].
  split; [now rewrite map_map|].
  rewrite skipn_len by (pose proof (len_nonneg K); lia).
  destruct (Z.ltb_spec maxKeys (len K - maxKeys));
    destruct (Z.ltb_spec (maxKeys + maxKeys) (len K)); lia.
Qed.

Lemma plain_listing_pages_witness :
  @reachable demo_runtime (@serve demo_runtime demo_three_puts)
  /\ Forall (fun k => well_formed k = true)
            (bucket_keys (@serve demo_runtime demo_three_puts) (js "b"))
  /\ keys_with_prefix (@serve demo_runtime demo_three_puts) (js "b") []
     = [js "a"; js "b"; js "c"]
  /\ exists page next,
       @listObjectsV2 demo_runtime (js "b") demo_page_params
                      (@serve demo_runtime demo_three_puts)
       = (Returned {| status := 200; resp_headers := xml_headers;
                      resp_body := ListBucketResult page |},
          @serve demo_runtime demo_three_puts)
       /\ map c_Key (l_Contents page) = [js "a"; js "b"]
       /\ l_NextContinuationToken page = Some (js "b")
       /\ @listObjectsV2 demo_runtime (js "b")
            ((js "continuation-token", js "b") :: demo_page_params)
            (@serve demo_runtime demo_three_puts)
          = (Returned {| status := 200; resp_headers := xml_headers;
                         resp_body := ListBucketResult next |},
             @serve demo_runtime demo_three_puts)
       /\ map c_Key (l_Contents next) = [js "c"].
Proof.
  assert (Hr : @reachable demo_runtime (@serve demo_runtime demo_three_puts))
    by apply serve_reachable.
  assert (Hwf : Forall (fun k => well_formed k = true)
                  (bucket_keys (@serve demo_runtime demo_three_puts) (js "b")))
    by (vm_compute; repeat constructor).
  split; [exact Hr|]. split; [exact Hwf|]. split; [reflexivity|].
  destruct (@plain_listing_pages demo_runtime
              (@serve demo_runtime demo_three_puts) (js "b") demo_page_params 2
              Hr Hwf eq_refl eq_refl eq_refl eq_refl eq_refl eq_refl)
    as (_ & _ & _ & page & Hpage & Hkeys & _ & _ & Hnext);
    [split; [lia|reflexivity]|].
  assert (Htoken : l_NextContinuationToken page = Some (js "b")).
  { vm_compute in Hpage. injection Hpage as <-. reflexivity. }
  destruct (Hnext (js "b") Htoken) as (next & Hrun & Hkeys2 & _).
  exists page, next. repeat split; assumption.
Defined.

(** X19 (a listing holds at most max-keys entries).  For every store,
    with any prefix, delimiter and marker: when [max-keys] is at least 1
    and ten times it is below the greatest safe integer (2^53 - 1),
    [listObjectsV2] answers 200 and leaves the store as it was,
    [KeyCount] is the number of contents plus the number of common
    prefixes and is at most [max-keys], and every entry of the contents
    gives the key, the size and the quoted ETag of the first row of an
    object of the bucket; when [max-keys] is 2^63 or more, the limit
    bound to the first SELECT does not fit a 64-bit integer and
    [listObjectsV2] answers 500 InternalError. *)
Theorem listing_holds_at_most_max_keys {rt : Runtime}
        (s : store) (bucket : jsstring) (params : list (jsstring * jsstring))
        (maxKeys : Z) :
  parseInt (or_default (params_get params (js "max-keys")) (js "1000"))
  = Some maxKeys ->
  (1 <= maxKeys -> maxKeys * 10 < MAX_SAFE_INTEGER ->
   exists r,
     listObjectsV2 bucket params s
     = (Returned {| status := 200; resp_headers := xml_headers;
                    resp_body := ListBucketResult r |}, s)
     /\ l_MaxKeys r = maxKeys
     /\ l_KeyCount r = len (l_Contents r) + len (l_CommonPrefixes r)
     /\ l_KeyCount r <= maxKeys
     /\ forall c, In c (l_Contents r) ->
          exists row, In row (objects s)
                      /\ o_bucket row = bucket /\ o_chunk_index row = 0
                      /\ c_Key c = o_key row /\ c_Size c = o_size row
                      /\ c_ETag c = quoted (o_etag row))
  /\ (2 ^ 63 <= maxKeys ->
      listObjectsV2 bucket params s
      = (Returned (errorResponse (js "InternalError")
                                 (js "Failed to list objects") 500), s)).
Proof.
  intros Hm. split; [|now apply listObjectsV2_huge].
  intros Hpos Hsafe.
  assert (Hpath : exists objs cps isTruncated token,
            (if str_eqb (or_default (params_get params (js "delimiter")) [])
                        (js "/")
             then list_slash bucket
                    (or_default (params_get params (js "prefix")) [])
                    (or_default (params_get params (js "continuation-token")) [])
                    (or_default (params_get params (js "start-after")) [])
                    maxKeys
             else if nonempty (or_default (params_get params (js "delimiter")) [])
             then list_delimiter bucket
                    (or_default (params_get params (js "prefix")) [])
                    (or_default (params_get params (js "delimiter")) [])
                    (or_default (params_get params (js "continuation-token")) [])
                    (or_default (params_get params (js "start-after")) [])
                    maxKeys
             else list_plain bucket
                    (or_default (params_get params (js "prefix")) [])
                    (or_default (params_get params (js "continuation-token")) [])
                    (or_default (params_get params (js "start-after")) [])
                    maxKeys) s
            = (Returned (objs, cps, isTruncated, token), s)
            /\ len objs + len cps <= maxKeys
            /\ Forall (listed_in s bucket) objs).
  { destruct (str_eqb _ (js "/")); [apply list_slash_bound; lia|].
    destruct (nonempty _); [apply list_delimiter_bound; lia|].
    destruct (list_plain_bound bucket
                (or_default (params_get params (js "prefix")) [])
                (or_default (params_get params (js "continuation-token")) [])
                (or_default (params_get params (js "start-after")) [])
                maxKeys s) as (objs & tr & tok & H1 & H2 & H3); [lia|].
    exists objs, [], tr, tok. rewrite len_nil. repeat split; auto. lia. }
  destruct Hpath as (objs & cps & tr & tok & Hrun & Hlen & Hrows).
  unfold listObjectsV2, try_catch. cbv zeta. rewrite Hm.
  unfold bind. rewrite Hrun. unfold ret.
  eexists. split; [reflexivity|].
  cbn [l_MaxKeys l_KeyCount l_Contents l_CommonPrefixes].
  rewrite len_map. repeat split; try lia.
  intros c Hc. apply in_map_iff in Hc as (row & <- & Hin).
  rewrite Forall_forall in Hrows. destruct (Hrows row Hin) as [Hobj Hl].
  unfold listed in Hl. apply andb_true_iff in Hl as [Hb Hi].
  apply str_eqb_eq in Hb. apply Z.eqb_eq in Hi.
  exists row. repeat split; auto.
Qed.

Lemma listing_holds_at_most_max_keys_witness :
  (exists r,
     @listObjectsV2 demo_runtime (js "b") demo_page_params
                    (@serve demo_runtime demo_three_puts)
     = (Returned {| status := 200; resp_headers := xml_headers;
                    resp_body := ListBucketResult r |},
        @serve demo_runtime demo_three_puts)
     /\ l_KeyCount r <= 2)
  /\ @listObjectsV2 demo_runtime (js "b") demo_huge_params
                    (@serve demo_runtime demo_three_puts)
     = (Returned (errorResponse (js "InternalError")
                                (js "Failed to list objects") 500),
        @serve demo_runtime demo_three_puts).
Proof.
  split.
  - destruct (proj1 (@listing_holds_at_most_max_keys demo_runtime
                       (@serve demo_runtime demo_three_puts) (js "b")
                       demo_page_params 2 eq_refl))
      as (r & Hrun & _ & _ & Hle & _); [lia|reflexivity|].
    exists r. split; assumption.
  - apply (proj2 (@listing_holds_at_most_max_keys demo_runtime
                    (@serve demo_runtime demo_three_puts) (js "b")
                    demo_huge_params (2 ^ 63) eq_refl)).
    reflexivity.
Defined.

(** X20 (max-keys=0).  With [max-keys=0], no prefix and no marker, on a
    bucket that holds an object at its root: without delimiter
    [listObjectsV2] answers 200 with no entry, [IsTruncated] true and no
    continuation token; with the delimiter ["/"] it answers 500
    InternalError (the last item of the emptied result list does not
    exist). *)
Theorem listing_with_zero_max_keys {rt : Runtime}
        (s : store) (bucket : jsstring) (params : list (jsstring * jsstring))
        (row : object_row) :
  parseInt (or_default (params_get params (js "max-keys")) (js "1000")) = Some 0 ->
  or_default (params_get params (js "prefix")) [] = [] ->
  or_default (params_get params (js "start-after")) [] = [] ->
  or_default (params_get params (js "continuation-token")) [] = [] ->
  In row (objects s) -> listed bucket row = true -> o_parent row = Some [] ->
  (or_default (params_get params (js "delimiter")) [] = [] ->
   exists r,
     listObjectsV2 bucket params s
     = (Returned {| status := 200; resp_headers := xml_headers;
                    resp_body := ListBucketResult r |}, s)
     /\ l_Contents r = [] /\ l_CommonPrefixes r = []
     /\ l_IsTruncated r = true /\ l_NextContinuationToken r = None)
  /\ (or_default (params_get params (js "delimiter")) [] = js "/" ->
      listObjectsV2 bucket params s
      = (Returned (errorResponse (js "InternalError")
                                 (js "Failed to list objects") 500), s)).
Proof.
  intros Hm Hp Hsa Hct Hin Hl Hparent. split; intros Hd.
  - destruct (list_plain_window bucket [] [] [] 0 s)
      as (objs & tok & Hrun & Hkeys & Htok); [split; [lia|reflexivity]|].
    rewrite (filter_all (after_marker [] [])) in Hrun, Hkeys, Htok
      by (apply Forall_forall; intros; apply after_marker_none).
    cbn [Z.to_nat firstn] in Hkeys, Htok. change (last_opt []) with (@None jsstring) in Htok.
    cbv iota in Htok. subst tok.
    assert (Hobjs : objs = []) by (now destruct objs).
    subst objs.
    assert (Hk : 0 < len (keys_in_range s bucket [])).
    { assert (HI : In (o_key row) (keys_in_range s bucket [])).
      { apply keys_in_range_In. split; [|reflexivity].
        apply bucket_keys_In. eauto. }
      destruct (keys_in_range s bucket []); [destruct HI|].
      rewrite len_cons. pose proof (len_nonneg l). lia. }
    apply Z.ltb_lt in Hk. rewrite Hk in Hrun.
    unfold listObjectsV2, try_catch. cbv zeta. rewrite Hd, Hp, Hsa, Hct, Hm.
    change (str_eqb [] (js "/")) with false. cbn [nonempty].
    unfold bind. rewrite Hrun. unfold ret.
    eexists. split; [reflexivity|]. repeat split.
  - unfold listObjectsV2, try_catch. cbv zeta. rewrite Hd, Hp, Hsa, Hct, Hm.
    change (str_eqb (js "/") (js "/")) with true. cbv iota.
    unfold bind. now rewrite (list_slash_zero s bucket row Hin Hl Hparent).
Qed.

Lemma listing_with_zero_max_keys_witness :
  @listObjectsV2 demo_runtime (js "b") demo_zero_params
                 (@serve demo_runtime [demo_put])
  = (Returned (errorResponse (js "InternalError")
                             (js "Failed to list objects") 500),
     @serve demo_runtime [demo_put]).
Proof.
  refine (proj2 (@listing_with_zero_max_keys demo_runtime
                   (@serve demo_runtime [demo_put]) (js "b") demo_zero_params
                   (put_first_row (js "b") (js "k") demo_put)
                   eq_refl eq_refl eq_refl eq_refl _ eq_refl eq_refl) eq_refl).
  left. reflexivity.
Defined.

(** X21 (grouping by a delimiter other than ["/"]).  For a bucket whose
    keys are well-formed strings and a well-formed prefix that does not
    end in 0xD7FF, 0xDFFF or 0xFFFF, let [K] be the keys of the bucket
    that start with the prefix, and let [max-keys] be at least their
    number, ten times it being below the greatest safe integer.
    [listObjectsV2] with a delimiter other than ["/"] and no marker
    answers 200, not truncated; its contents are the keys of [K] in
    which the delimiter does not occur after the prefix; its common
    prefixes are, each once, the prefix followed by what a key of [K]
    holds after it before the first occurrence of the delimiter, and by
    the first unit of the delimiter.  (For a delimiter of one unit this
    is the key up to and including the first delimiter; of a longer
    delimiter the common prefix holds the first unit only.) *)
Theorem delimiter_listing_groups_keys {rt : Runtime}
        (s : store) (bucket : jsstring) (params : list (jsstring * jsstring))
        (maxKeys : Z) :
  let prefix := or_default (params_get params (js "prefix")) [] in
  let delimiter := or_default (params_get params (js "delimiter")) [] in
  let K := filter (fun k => startsWith k prefix) (bucket_keys s bucket) in
  Forall (fun k => well_formed k = true) (bucket_keys s bucket) ->
  well_formed prefix = true ->
  literal_prefix prefix = true ->
  nonempty delimiter = true ->
  delimiter <> js "/" ->
  or_default (params_get params (js "start-after")) [] = [] ->
  or_default (params_get params (js "continuation-token")) [] = [] ->
  parseInt (or_default (params_get params (js "max-keys")) (js "1000"))
  = Some maxKeys ->
  len K <= maxKeys ->
  maxKeys * 10 < MAX_SAFE_INTEGER ->
  exists r,
    listObjectsV2 bucket params s
    = (Returned {| status := 200; resp_headers := xml_headers;
                   resp_body := ListBucketResult r |}, s)
    /\ l_IsTruncated r = false
    /\ NoDup (l_CommonPrefixes r)
    /\ (forall k, In k (map c_Key (l_Contents r))
          <-> In k K
              /\ forall after, k = prefix ++ after ->
                               ~ occurs_in delimiter after)
    /\ (forall p, In p (l_CommonPrefixes r)
          <-> exists k after before,
                In k K /\ k = prefix ++ after
                /\ before_first delimiter after before
                /\ p = prefix ++ before ++ firstn 1 delimiter).
Proof.
  intros prefix delimiter K Hwf Hwp Hlit Hne Hslash Hsa Hct Hm Hlen Hsafe.
  pose proof (len_nonneg K) as HK.
  set (K' := keys_in_range s bucket prefix).
  assert (HIn : forall k, In k K' <-> In k K).
  { intros k. unfold K', K. rewrite keys_in_range_In, filter_In.
    now rewrite in_prefix_range_starts. }
  assert (HlenK : len K' = len K).
  { unfold K', K, keys_in_range, len. rewrite sort_by_length.
    now rewrite (filter_ext (in_prefix_range prefix)
                            (fun k => startsWith k prefix))
      by (intros k; now apply in_prefix_range_starts). }
  assert (Hgroup : forall k, In k K ->
            exists after, k = prefix ++ after
              /\ (common_prefix_of prefix delimiter k = None
                  <-> ~ occurs_in delimiter after)
              /\ (forall p, common_prefix_of prefix delimiter k = Some p
                    <-> exists before,
                          before_first delimiter after before
                          /\ p = prefix ++ before ++ firstn 1 delimiter)).
  { intros k Hk. apply filter_In in Hk as [_ Hk].
    apply startsWith_split in Hk as [after ->]. exists after.
    split; [reflexivity|]. now apply common_prefix_of_spec. }
  set (R := sort_by key_leb
              (filter (fun r => listed bucket r
                                && in_prefix_range prefix (o_key r)
                                && after_marker [] [] (o_key r)) (objects s))).
  assert (HR : map o_key R = K').
  { unfold R. rewrite plain_rows_keys. apply filter_all.
    apply Forall_forall. intros; apply after_marker_none. }
  assert (HlenR : len R = len K) by (now rewrite <- HlenK, <- HR, len_map).
  destruct (delimiter_loop_all prefix delimiter maxKeys R [] [] 0 [])
    as (cps & objs & tok & Hloop & Hnd & Hp & Ho); [lia|constructor|].
  exists {| l_Name := bucket; l_Prefix := prefix; l_Delimiter := Some delimiter;
            l_KeyCount := len objs + len cps; l_MaxKeys := maxKeys;
            l_IsTruncated := false; l_NextContinuationToken := None;
            l_Contents := map to_contents objs; l_CommonPrefixes := cps |}.
  split.
  { unfold listObjectsV2, try_catch. cbv zeta. fold prefix. fold delimiter.
    rewrite Hsa, Hct, Hm.
    apply str_eqb_neq in Hslash. rewrite Hslash, Hne.
    unfold list_delimiter. rewrite select_limit_times10 by lia.
    unfold bind, gets.
    fold R. rewrite sql_limit_all by lia. rewrite Hloop.
    unfold ret. now rewrite andb_false_r. }
  cbn [l_IsTruncated l_CommonPrefixes l_Contents].
  split; [reflexivity|]. split; [exact Hnd|]. split.
  - intros k. rewrite map_map. cbn [to_contents c_Key].
    rewrite in_map_iff. split.
    + intros (d & <- & Hd). apply Ho in Hd as [[]|[Hd Hg]].
      assert (Hk : In (o_key d) K) by (apply HIn; rewrite <- HR; now apply in_map).
      split; [exact Hk|]. intros after Hafter.
      destruct (Hgroup _ Hk) as (after' & Ha' & Hnone & _).
      rewrite Ha' in Hafter. apply app_inv_head in Hafter. subst after'.
      now apply Hnone.
    + intros [Hk Hno].
      destruct (Hgroup _ Hk) as (after & Ha & Hnone & _).
      apply HIn in Hk. rewrite <- HR in Hk.
      apply in_map_iff in Hk as (d & Hd1 & Hd).
      exists d. split; [exact Hd1|]. apply Ho. right. split; [exact Hd|].
      rewrite Hd1. apply Hnone. now apply Hno.
  - intros p. rewrite Hp. split.
    + intros [[]|(r & Hr & Hg)].
      assert (Hk : In (o_key r) K) by (apply HIn; rewrite <- HR; now apply in_map).
      destruct (Hgroup _ Hk) as (after & Ha & _ & Hsome).
      apply Hsome in Hg as (before & Hb & ->).
      exists (o_key r), after, before. auto.
    + intros (k & after & before & Hk & Ha & Hb & ->). right.
      destruct (Hgroup _ Hk) as (after' & Ha' & _ & Hsome).
      rewrite Ha' in Ha. apply app_inv_head in Ha. subst after'.
      apply HIn in Hk. rewrite <- HR in Hk.
      apply in_map_iff in Hk as (d & Hd1 & Hd).
      exists d. split; [exact Hd|]. rewrite Hd1. apply Hsome. eauto.
Qed.

Lemma delimiter_listing_groups_keys_witness :
  Forall (fun k => well_formed k = true)
         (bucket_keys (@serve demo_runtime demo_dash_puts) (js "b"))
  /\ exists r,
       @listObjectsV2 demo_runtime (js "b") demo_dash_params
                      (@serve demo_runtime demo_dash_puts)
       = (Returned {| status := 200; resp_headers := xml_headers;
                      resp_body := ListBucketResult r |},
          @serve demo_runtime demo_dash_puts)
       /\ map c_Key (l_Contents r) = [js "b"]
       /\ l_CommonPrefixes r = [js "a-"].
Proof.
  assert (Hwf : Forall (fun k => well_formed k = true)
                  (bucket_keys (@serve demo_runtime demo_dash_puts) (js "b")))
    by (vm_compute; repeat constructor).
  split; [exact Hwf|].
  destruct (@delimiter_listing_groups_keys demo_runtime
              (@serve demo_runtime demo_dash_puts) (js "b") demo_dash_params
              1000 Hwf eq_refl eq_refl eq_refl)
    as (r & Hrun & _); try reflexivity; try discriminate.
  exists r. split; [exact Hrun|].
  vm_compute in Hrun. injection Hrun as <-. split; reflexivity.
Defined.

(** X22 (the listing of uploads).  With no prefix and no marker, a
    [max-uploads] at least the number of sessions of the bucket and below
    the greatest safe integer (2^53 - 1), and sessions of which the keys
    and the upload ids are well-formed strings, [listMultipartUploads]
    answers 200, not truncated, with one entry for each session of the
    bucket and no entry of another bucket, ordered by key and then by
    upload id, each in the order of its code points (the order of the
    UTF-8 bytes). *)
Theorem listMultipartUploads_lists_sessions {rt : Runtime}
        (s : store) (bucket : jsstring) (params : list (jsstring * jsstring))
        (maxUploads : Z) :
  or_default (params_get params (js "prefix")) [] = [] ->
  or_default (params_get params (js "key-marker")) [] = [] ->
  parseInt (or_default (params_get params (js "max-uploads")) (js "1000"))
  = Some maxUploads ->
  len (filter (fun r => str_eqb (u_bucket r) bucket) (multipart_uploads s))
  <= maxUploads ->
  maxUploads < MAX_SAFE_INTEGER ->
  Forall (fun r => well_formed (u_key r) && well_formed (u_upload_id r) = true)
         (filter (fun r => str_eqb (u_bucket r) bucket) (multipart_uploads s)) ->
  exists r,
    listMultipartUploads bucket params s
    = (Returned {| status := 200; resp_headers := xml_headers;
                   resp_body := ListMultipartUploadsResult r |}, s)
    /\ lu_IsTruncated r = false
    /\ (forall key uploadId,
          (exists e, In e (lu_Uploads r)
                     /\ m_Key e = key /\ m_UploadId e = uploadId)
          <-> exists row, In row (multipart_uploads s)
                          /\ u_bucket row = bucket
                          /\ u_key row = key /\ u_upload_id row = uploadId)
    /\ StronglySorted upload_entry_le (lu_Uploads r).
Proof.
  intros Hp Hk Hm Hlen Hsafe Hwf.
  set (F := fun r : upload_row => str_eqb (u_bucket r) bucket) in *.
  pose proof (len_nonneg (filter F (multipart_uploads s))) as H0.
  set (rows := sort_by upload_leb (filter F (multipart_uploads s))).
  assert (Hrows : len rows = len (filter F (multipart_uploads s)))
    by (unfold rows, len; now rewrite sort_by_length).
  exists {| lu_Bucket := bucket; lu_KeyMarker := [];
            lu_UploadIdMarker :=
              or_default (params_get params (js "upload-id-marker")) [];
            lu_MaxUploads := maxUploads; lu_IsTruncated := false;
            lu_Prefix := None; lu_NextKeyMarker := None;
            lu_NextUploadIdMarker := None;
            lu_Uploads :=
              map (fun row => {| m_Key := u_key row;
                                 m_UploadId := u_upload_id row;
                                 m_Initiated := toISOString (u_created_at row) |})
                  rows |}.
  split.
  { unfold listMultipartUploads, try_catch. cbv zeta. rewrite Hp, Hk, Hm.
    cbn [nonempty]. rewrite select_limit_plus1 by lia. unfold bind, gets.
    rewrite (filter_ext _ F)
      by (intros r; unfold F, in_prefix_range; cbn [nonempty];
          now rewrite !andb_true_r).
    fold rows. rewrite sql_limit_all by lia.
    destruct (Z.ltb_spec maxUploads (len rows)) as [Hlt|_]; [lia|].
    rewrite slice_take by lia.
    rewrite firstn_all2 by (unfold len in *; lia).
    destruct (last_opt rows); reflexivity. }
  cbn [lu_IsTruncated lu_Uploads]. split; [reflexivity|]. split.
  - intros key uploadId. split.
    + intros (e & He & <- & <-). apply in_map_iff in He as (row & <- & Hrow).
      unfold rows in Hrow. apply sort_by_In, filter_In in Hrow as [Hin HF].
      apply str_eqb_eq in HF. exists row. auto.
    + intros (row & Hin & Hb & <- & <-).
      exists {| m_Key := u_key row; m_UploadId := u_upload_id row;
                m_Initiated := toISOString (u_created_at row) |}.
      split; [|split; reflexivity].
      apply in_map_iff. exists row. split; [reflexivity|].
      unfold rows. apply sort_by_In, filter_In. split; [exact Hin|].
      unfold F. now apply str_eqb_eq.
  - apply (StronglySorted_map_intro _
             (fun a b => upload_entry_le
                           {| m_Key := u_key a; m_UploadId := u_upload_id a;
                              m_Initiated := toISOString (u_created_at a) |}
                           {| m_Key := u_key b; m_UploadId := u_upload_id b;
                              m_Initiated := toISOString (u_created_at b) |}));
      [auto|].
    apply (StronglySorted_ext_in (fun a b => upload_leb a b = true));
      [|apply sort_by_sorted'; [apply upload_leb_total|apply upload_leb_trans]].
    rewrite Forall_forall in Hwf. intros a b Ha Hb H.
    unfold rows in Ha, Hb. apply sort_by_In in Ha, Hb.
    apply Hwf, andb_true_iff in Ha as [Ha1 Ha2].
    apply Hwf, andb_true_iff in Hb as [Hb1 Hb2].
    unfold upload_leb in H. unfold upload_entry_le.
    cbn [m_Key m_UploadId].
    destruct (str_compare (u_key a) (u_key b)) eqn:E; try discriminate.
    + right. split; [now apply str_compare_eq|].
      now rewrite <- str_leb_cp_leb.
    + left. apply str_compare_lt in E as [E1 E2]. split; [exact E2|].
      now rewrite <- str_leb_cp_leb.
Qed.

Lemma listMultipartUploads_lists_sessions_witness :
  exists r,
    @listMultipartUploads demo_runtime (js "b") [(js "uploads", [])]
                          (@serve demo_runtime [demo_create])
    = (Returned {| status := 200; resp_headers := xml_headers;
                   resp_body := ListMultipartUploadsResult r |},
       @serve demo_runtime [demo_create])
    /\ exists e, In e (lu_Uploads r)
                 /\ m_Key e = js "k"
                 /\ m_UploadId e = js "123e4567-e89b-12d3-a456-426614174000".
Proof.
  destruct (@listMultipartUploads_lists_sessions demo_runtime
              (@serve demo_runtime [demo_create]) (js "b") [(js "uploads", [])]
              1000 eq_refl eq_refl eq_refl)
    as (r & Hrun & _ & Hin & _);
    [vm_compute; discriminate|reflexivity|vm_compute; repeat constructor|].
  exists r. split; [exact Hrun|].
  apply Hin. eexists. split; [left; reflexivity|]. repeat split.
Defined.

(** X23 (escapeXml leaves no markup).  The five replacements of
    [escapeXml], in their order, amount to one pass that writes an entity
    for each of [&], [<], [>], the double quote and the apostrophe and
    copies every other unit: an [&] written by a replacement is not
    escaped again.  The result holds no [<], no [>], no double quote and
    no apostrophe. *)
Theorem escapeXml_leaves_no_markup (s : jsstring) :
  escapeXml s = flat_map escaped_unit s
  /\ forall c, In c (escapeXml s) ->
       c <> 60%N /\ c <> 62%N /\ c <> 34%N /\ c <> 39%N.
Proof.
  split; [apply escapeXml_single_pass|].
  intros c. rewrite escapeXml_single_pass, in_flat_map.
  intros (x & _ & Hc).
  destruct (escaped_unit_cases x)
    as [(E & H)|[(-> & E)|[(-> & E)|[(-> & E)|[(-> & E)|(-> & E)]]]]];
    rewrite E in Hc; cbn in Hc.
  - destruct Hc as [<-|[]]. tauto.
  - repeat (destruct Hc as [<-|Hc]; [repeat split; discriminate|]).
    destruct Hc.
  - repeat (destruct Hc as [<-|Hc]; [repeat split; discriminate|]).
    destruct Hc.
  - repeat (destruct Hc as [<-|Hc]; [repeat split; discriminate|]).
    destruct Hc.
  - repeat (destruct Hc as [<-|Hc]; [repeat split; discriminate|]).
    destruct Hc.
  - repeat (destruct Hc as [<-|Hc]; [repeat split; discriminate|]).
    destruct Hc.
Qed.

(** X24 (escapeXml loses nothing).  Two different texts have different
    escaped forms: a key, a prefix or an upload id can be read back from
    the XML document without ambiguity. *)
Theorem escapeXml_is_injective (a b : jsstring) :
  a <> b -> escapeXml a <> escapeXml b.
Proof.
  intros Hne Heq. apply Hne. clear Hne.
  rewrite !escapeXml_single_pass in Heq.
  revert b Heq. induction a as [|x a IH]; intros [|y b] Heq.
  - reflexivity.
  - exfalso. cbn [flat_map] in Heq.
    destruct (escaped_unit_cases y)
      as [(E & _)|[(_ & E)|[(_ & E)|[(_ & E)|[(_ & E)|(_ & E)]]]]];
      rewrite E in Heq; discriminate.
  - exfalso. cbn [flat_map] in Heq.
    destruct (escaped_unit_cases x)
      as [(E & _)|[(_ & E)|[(_ & E)|[(_ & E)|[(_ & E)|(_ & E)]]]]];
      rewrite E in Heq; discriminate.
  - cbn [flat_map] in Heq.
    destruct (escaped_unit_cases x)
      as [(Ex & Hx)|[(-> & Ex)|[(-> & Ex)|[(-> & Ex)|[(-> & Ex)|(-> & Ex)]]]]];
      destruct (escaped_unit_cases y)
        as [(Ey & Hy)|[(-> & Ey)|[(-> & Ey)|[(-> & Ey)|[(-> & Ey)|(-> & Ey)]]]]];
      rewrite ?Ex, ?Ey in Heq; cbn in Heq;
      try (injection Heq; intros; subst;
           first [ f_equal; now apply IH | tauto | discriminate ]);
      try discriminate.
Qed.

Lemma escapeXml_is_injective_witness :
  escapeXml (js "<") <> escapeXml (js "&lt;").
Proof.
  apply (escapeXml_is_injective (js "<") (js "&lt;")). discriminate.
Defined.

(** X25 (the columns behind the fast listing).  In every reachable state
    the first row of every object carries in [depth] the number of ["/"]
    in its key and in [parent] the key up to and including the last
    ["/"] before its last unit (the empty string when there is none);
    the parent is a prefix of the key and holds at most as many ["/"] as
    the key. *)
Theorem reachable_columns_follow_key {rt : Runtime} (s : store) (r : object_row) :
  reachable s ->
  In r (objects s) ->
  o_chunk_index r = 0 ->
  o_depth r = Some (computeDepth (o_key r))
  /\ o_parent r = Some (computeParent (o_key r))
  /\ startsWith (o_key r) (computeParent (o_key r)) = true
  /\ computeDepth (computeParent (o_key r)) <= computeDepth (o_key r).
Proof.
  intros Hr Hin H0. apply reachable_ok in Hr.
  destruct (listed_row_columns s (o_bucket r) r Hr Hin) as [Hd Hp].
  { unfold listed. rewrite str_eqb_refl, H0. reflexivity. }
  split; [exact Hd|]. split; [exact Hp|]. split.
  - destruct (computeParent_cases (o_key r)) as [->|(q & rest & -> & Hk)].
    + now destruct (o_key r).
    + rewrite Hk at 1.
      change (q ++ slash :: rest) with (q ++ [slash] ++ rest).
      rewrite app_assoc. apply startsWith_app.
  - apply computeParent_depth_le.
Qed.

Lemma reachable_columns_follow_key_witness :
  let s := @serve demo_runtime [demo_request "PUT" "/b/dir/file" [] []] in
  @reachable demo_runtime s
  /\ forall r, In r (objects s) -> o_chunk_index r = 0 ->
       o_depth r = Some 1 /\ o_parent r = Some (js "dir/").
Proof.
  intros s.
  assert (Hr : @reachable demo_runtime s) by apply serve_reachable.
  split; [exact Hr|]. intros r Hin H0.
  destruct (@reachable_columns_follow_key demo_runtime s r Hr Hin H0)
    as (Hd & Hp & _).
  destruct Hin as [<-|[]]. split; assumption.
Defined.

(** X26 (the worker and the bucket).  Every path that [Worker.fetch]
    hands to [handleS3Request] matches its pattern, so that the answer
    400 [Invalid S3 path] is never given; the request goes to the S3
    object of some name [n], and the bucket that the object reads from
    the path is [s3-n]. *)
Theorem s3_request_reaches_its_bucket (req : request) :
  worker_route (pathname req) = S3Request ->
  exists name,
    handleS3Request (pathname req) = ToS3 name
    /\ request_bucket req = Some (js "s3-" ++ name).
Proof.
  unfold worker_route. destruct (str_eqb _ (js "/s3-logs-ws")); [discriminate|].
  destruct (startsWith (pathname req) (js "/s3-")) eqn:Hs.
  2:{ destruct (startsWith _ (js "/ws")); discriminate. }
  intros _. apply startsWith_split in Hs as [rest Hp].
  exists (first_segment rest).
  assert (Hseg : first_segment (js "s3-" ++ rest) = js "s3-" ++ first_segment rest)
    by reflexivity.
  unfold handleS3Request, request_bucket. rewrite Hp.
  change (path_match (js "/s3-" ++ rest))
    with (if nonempty (first_segment (js "s3-" ++ rest))
          then Some (first_segment (js "s3-" ++ rest)) else None).
  change (filter nonempty (split_on slash (js "/s3-" ++ rest)))
    with (filter nonempty (split_on slash (js "s3-" ++ rest))).
  rewrite Hseg. split.
  - change (nonempty (js "s3-" ++ first_segment rest)) with true. cbv iota.
    change 3 with (len (js "s3-")). now rewrite slice_from_app.
  - destruct (split_on_first (js "s3-" ++ rest)) as [tl ->].
    rewrite Hseg. reflexivity.
Qed.

Lemma s3_request_reaches_its_bucket_witness :
  handleS3Request (js "/s3-0123456789/dir/file") = ToS3 (js "0123456789")
  /\ request_bucket (demo_request "GET" "/s3-0123456789/dir/file" [] [])
     = Some (js "s3-0123456789").
Proof.
  destruct (s3_request_reaches_its_bucket
              (demo_request "GET" "/s3-0123456789/dir/file" [] []) eq_refl)
    as (name & H1 & H2).
  assert (E : name = js "0123456789").
  { vm_compute in H1. now injection H1. }
  subst name. split; assumption.
Defined.

(** X27 (the window of recent requests).  After any sequence of
    messages, the list that [S3Activity] shows holds the requests of the
    messages that parsed, newest first, and of these the 50 most recent
    only. *)
Theorem activity_window_keeps_50 {A} (messages : list (option A)) :
  let shown := fold_left activity_onmessage messages [] in
  shown = firstn 50 (rev (flat_map (fun m => match m with
                                             | Some r => [r]
                                             | None => []
                                             end) messages))
  /\ (List.length shown <= 50)%nat.
Proof.
  intros shown.
  assert (H : forall done,
    fold_left activity_onmessage messages (firstn 50 (rev done))
    = firstn 50 (rev (done ++ flat_map (fun m => match m with
                                                 | Some r => [r]
                                                 | None => []
                                                 end) messages))).
  { induction messages as [|[r|] ms IH]; intros done; cbn [fold_left flat_map].
    - now rewrite app_nil_r.
    - unfold activity_onmessage at 2.
      rewrite slice_take by lia. change (Z.to_nat 50) with 50%nat.
      rewrite firstn_firstn_S.
      specialize (IH (done ++ [r])).
      rewrite rev_app_distr in IH. cbn [rev app] in IH.
      rewrite IH, <- app_assoc. reflexivity.
    - apply IH. }
  specialize (H []).
  change (fold_left activity_onmessage messages (firstn 50 (rev [])))
    with shown in H.
  change ([] ++ flat_map (fun m : option A => match m with
                                             | Some r => [r]
                                             | None => []
                                             end) messages)
    with (flat_map (fun m : option A => match m with
                                        | Some r => [r]
                                        | None => []
                                        end) messages) in H.
  split; [exact H|]. rewrite H. apply firstn_le_length.
Qed.
